(* ===== verification/_CoqProject ===== *)
-Q . S2P
Prelude.v
Registry.v
Signal.v
World.v
Callable.v
EventPool.v
EventBus.v
Kept.v
Construct.v
Machine.v
Exec.v
Buses.v
Stratified.v
Quiet.v
Abstract.v
Nulls.v
Reentrant.v
Deferred.v
Scenarios.v
