(* ===== verification/Prelude.v ===== *)
(** * A verification library for the type-indexed event bus (EventBus.hpp)

    The program is the header [src/event bus/EventBus.hpp]: an in-process
    publish/subscribe bus.  Its parts, leaf first, and the file that models
    each:

    - the event type registry, [GetUniqueEventId] and [GetEventId<Event>]
      (two function-local statics: one process-wide counter, one cached id
      per event type): file [Registry], record [Registry.Registry];
    - the callable-binding primitive [Signal<void(Event)>] with its
      [Connection] handle.  Its source (signal.hpp) is not part of the
      repository, so it is the one part modelled from the specification: file
      [Signal], the contract as the class [Signal.SignalOps] and one
      list-based implementation [Signal.slot_signal] that discharges it;
    - the program state: file [World], records [World.EventPool] (one
      [mSignal], one [mEventQueue]) and [World.World] (the registry, the
      vector [mEventPools] of the bus, and three ghost fields explained below);
    - the event pool [EventBus::EventPool<Event>]: file [EventPool], module
      [EventPool], one definition per member function ([TriggerEvent],
      [EnqueueEvent], [DispatchQueuedEvents], [ClearEventQueue]);
    - the bus [EventBus]: file [EventBus], module [EventBus], one definition
      per member function ([GetEventHandler], [TriggerEvent], [EnqueueEvent],
      both [DispatchQueuedEvents], both [ClearEventQueues],
      [SubscribeToEvent], [UnsubscribeFromEvent]);
    - the contract between the bus and the callables it invokes: file
      [Callable], the classes [Callback] (the rely-guarantee contract),
      [Discreet] (revoked bindings are left alone), [Tidy] (the pools stay
      packed), [Returning] and [Passive];
    - the application code that calls the bus and is called back by it: file
      [Exec], a small command language ([Exec.cmd], one constructor per public
      member function of the bus) and its fuel-indexed interpreter
      ([Exec.exec], [Exec.run], [Exec.call_fuel], [Exec.run_main]); file
      [Stratified], the programs whose callables and event types can be
      layered; file [Quiet], the callables that leave the vectors of the bus
      alone; file [Scenarios] runs closed programs, the scenario of the
      specification among them;
    - the construction of the event from the arguments of [TriggerEvent] and
      [EnqueueEvent] (list-initialisation, or direct-initialisation by
      [emplace_back] in the overload of [EnqueueEvent] for types that are not
      aggregates) and the overloads that forward an event: file [Construct],
      class [Construct] and one definition per overload;
    - the identifiers at the width of the source, [int] for the statics and
      [std::size_t] for the index arithmetic of [GetEventHandler]: file
      [Machine], on [Z], with [None] for undefined behaviour;
    - a program with several [EventBus] objects, which share the statics:
      file [Buses], the state [Process], one bus as a [World]
      ([world_of], [store], [on_bus]) and the commands [pcmd] run by [pexec];
      file [Nulls], the event types a bus has a pool for;
    - the bus as the specification describes it: file [Abstract], the state
      [ABus] (per event type the bound callables, the serial counter and the
      buffer; the types in the order of their first use) with one function
      per operation, and the relation [refines] between a world and an
      abstract bus; file [Reentrant], the same operations with an invoker of
      callables of their own ([ar_exec], [ar_run], [a_call_fuel]), which say
      by event type what the implementation does when callables call the bus
      again, and the invariant [inv] of the simulation; file [Deferred], the
      flush of the specification ([sp_flush]: events enqueued during a flush
      stay for the next) with its interpreter ([sp_exec], [sp_run],
      [sp_call_fuel]).

    The files depend on each other in this order: [Prelude], [Registry],
    [Signal], [World], [Callable], [EventPool], [EventBus], [Kept],
    [Construct], [Machine], [Exec], [Buses], [Stratified], [Quiet],
    [Abstract], [Nulls], [Reentrant], [Deferred], [Scenarios].
    The pool and the bus are proved against the class
    [SignalOps], never against the list implementation, and against the
    classes of [Callable], never against the interpreter; [Exec] discharges
    [Callback], [Discreet] and [Tidy] for the interpreter
    ([call_fuel_callback], [call_fuel_discreet], [call_fuel_tidy]) and [Signal]
    discharges [SignalOps] for the list implementation ([slot_signal]).
    File [Kept] holds the classes [Framed] and [Kept] of the preorders on
    worlds that the primitive steps respect, and derives once that every
    member function respects such a preorder when the callables do; [packs]
    (packed pools), [Stratified.tames] (layered bindings) and
    [World.same_pools] (the same slots hold a pool) are their instances.

    ** How state and effects are rendered

    Every member function is a function on [World.World].  A C++ [this]
    pointer to a pool is the pool's index in [mEventPools]; a null slot of the
    vector is [None].  The call of a member function through the pointer in
    a slot, [eventHandler->f()] in the loops of [DispatchQueuedEvents()] and
    [ClearEventQueues()], is [World.arrow]: through a null pointer the
    behaviour is undefined and the call has no result ([None]).  The loops
    make the call under the test [if (eventHandler)], as the source does, so
    they return on null slots too ([EventBus.bus_loops_skip_null],
    [Buses.prun_returns]); without the test they would not.  Functions that
    cannot fail and call no user code are
    total functions returning the new world (with the returned value, when
    there is one).  Functions that run user callables return [option World]:
    the bus is re-entrant (a callable may call any member function of the bus
    again), so the callable invoker is a parameter [call] of the pool and bus
    sections, and [Exec.call_fuel] ties the knot by recursion on a fuel
    counter.  In a run of the interpreter [None] means that the fuel ran
    out, which is how the model renders unbounded re-entrant recursion (a
    callable that triggers its own event forever): the calls through a
    pointer are all under their test.  Theorems that promise a result are
    proved as such: [for_each_total] and its instances show that every
    member function returns whenever the callables do, from every
    well-formed world, null slots included ([Exec.run_returns]); fuel is
    only a bound ([Exec.run_main_fuel_mono]: more fuel never changes a
    result);
    fuel 1 is enough when no callable triggers or dispatches
    ([Exec.run_main_flat_returns]); as much fuel as there are levels is
    enough when callables and event types can be layered
    ([Stratified.stratified_returns]); and no fuel is enough for a callable
    that triggers the event it is bound for ([Exec.self_trigger_diverges]).  The
    closed programs of [Scenarios] run with fuel 1 or 2, the nesting depth of
    their callables.  Two files use [None] for something else, and say so:
    in [Machine] it is the undefined behaviour of a signed overflow or of an
    index out of bounds, and in [Buses] a call on a bus that the process has
    not constructed has no result.  [Machine] fixes [int] at 32 bits and
    [std::size_t] at 64; the bound that matters, [INT_MAX] event types, is
    the one of [int].

    A callable's only effect outside the bus is recorded in the ghost field
    [trace]: each invocation appends a [Delivery] (the pool, the connection,
    the callable and the event) before the callable's body runs.  The theorems
    about "who is invoked with what, in which order" are statements about
    [trace].

    ** Iterator invalidation

    Both dispatch loops of the source are range-based [for] loops (over
    [mEventQueue] in the pool, over [mEventPools] in the bus) whose bodies run
    user callables.  A callable that enqueues an event of the type being
    flushed, clears that queue, or makes the bus allocate a pool slot modifies
    the vector under iteration, which in C++ invalidates the loop's iterators.
    The model iterates over the snapshot taken when the loop starts (what the
    compiled loop does as long as the vector does not reallocate) and records
    the invalidation in the ghost flag [hazard], using the ghost fields
    [iter_queues] and [iter_pools] that say which vectors are being iterated.
    As long as [hazard] is [false] the model and the program agree; once it is
    set, the C++ behaviour is undefined and the model only describes the
    benign outcome.  The theorems that hold whatever the callables do (the
    invariant, the emptiness of the flushed buffer, the finality of
    unsubscription, the nesting of a trigger, termination of layered
    programs) are therefore statements about the program as long as
    [hazard] is [false], and about that outcome afterwards.  Callables that
    do not call the bus never set the flag ([Exec.run_passive_safe]), nor do
    callables that only trigger events of, and subscribe to, types that have
    their pool ([Quiet.gentle_safe]); a callable that enqueues an event of
    the type being flushed, or uses a new type during
    [DispatchQueuedEvents()], does ([Scenarios]).  No member function reads
    the three ghost fields other than to update them.

    ** What the theorems show

    - [Registry]: an id is stable once assigned, distinct types get distinct
      ids, ids are handed out in sequence and are dense below the counter,
      and the counter does not overflow an [int] while it is below [INT_MAX].
    - [Machine]: the functions of the registry on [int] are those on [nat]
      while the type has its identifier or the counter is below [INT_MAX],
      and undefined otherwise ([GetEventId_int_refines]); a process can use
      [INT_MAX] event types and no more ([GetEventId_int_capacity]); the
      comparison with [size()], the argument of [resize] and the index of
      [operator[]] in [GetEventHandler], each with its conversion to
      [std::size_t], are those of the model and within bounds
      ([GetEventHandler_int_refines]).
    - [Construct]: the member functions with arguments are those on the
      event constructed; the overloads that forward an event are the member
      functions on that event ([bus_value_overloads]); deferred delivery
      delivers the event a trigger delivers if and only if the two
      construction forms agree on the arguments
      ([enqueue_args_dispatch_trigger]), which they do not on a type with an
      initializer-list constructor ([forms_differ]).
    - [Signal]: the list implementation meets the contract; bound callables are
      kept in subscription order; disconnecting is idempotent and never
      affects another connection, also a later one (serials are not reused).
    - [World]: the invariant [world_wf] (every pool sits in the slot of the
      id of its type, ids are below the counter, the serials of a signal are
      distinct), the growth order [world_le], observational equality
      [obs_eq], the one-bus invariant [packed] (one slot per identifier
      issued, no slot null), and what each vector operation does to buffers,
      bindings and iterators.
    - [Callable], [EventPool], [EventBus]: every member function is [sound]
      (it preserves [world_wf], only lets the world grow, closes the walks it
      opens) provided the callables are, and returns provided the callables
      return.  With callables that do not call the bus, the exact effect of
      every member function: who is invoked with what in which order, which
      buffer changes, which binding changes; from these, first-in first-out
      delivery, the equivalence of enqueue-then-dispatch with trigger,
      isolation between event types, subscribe/unsubscribe as a round trip,
      that a revoked binding is never invoked, that cleared events are never
      delivered, that selective flush leaves the other buffers alone, and
      that the two loops over [mEventPools] return on null slots and create
      no pool ([bus_loops_skip_null]).
      For arbitrary callables: the buffer is empty after a flush (events
      enqueued during the flush are lost), a pool once created stays in its
      slot ([GetEventHandler_stable]) and has the type the cast assumes
      ([GetEventHandler_typed]), and a trigger invokes the callables bound
      when it starts, in subscription order, each followed by whatever it made
      happen ([bus_TriggerEvent_nested]: re-entrant calls resolve by nesting).
    - [Exec]: the invariant holds along every run, re-entrant calls included
      ([run_main_invariant]); a binding revoked by [UnsubscribeFromEvent] is
      never invoked again and its serial never bound again, whatever the
      callables do ([unsubscribe_final]); between two calls from outside the
      pools are packed, so the null checks of the loops over [mEventPools]
      never fail in a program with one bus ([reachable_packed]); runs with
      passive callables invalidate no iterator ([run_passive_safe]);
      termination and divergence as said above.
    - [Buses]: every bus of a process stays well formed whichever bus is
      called ([pexec_wf]); a call on one bus changes no other
      ([on_bus_frame]); the pools of a type sit in the same slot of every
      bus ([same_slot]); a program that calls the buses it has constructed
      returns when its callables do, so no member function is called through
      a null pointer ([prun_returns]); a second bus has null slots and
      flushes in the order of the identifiers ([second_bus_null_slot], by
      evaluation).
    - [Nulls]: [GetEventHandler] is the only function that puts a pool in a
      slot; a call of a public member function leaves a pool for the types
      it names and for those that had one ([exec_adds]); in a process, each
      bus has a pool for exactly the types named by the calls made on it, so
      the slots of the types that got their identifier through another bus
      are the null slots the loops of the bus test for
      ([bus_pool_iff_used]).
    - [Stratified]: termination of layered programs.  The invariant
      [layered] (every binding respects the levels) is kept by every member
      function, and an invocation made from a body of rank [k] only reaches
      callables of a rank below [k], so a main program returns with fuel
      [top], the number of levels ([stratified_returns]).
    - [Quiet]: iterator safety of re-entrant triggering.  Callables whose
      bodies only trigger events of, and subscribe to, settled types leave
      the walks and the hazard flag as they are ([quiet]); with such
      callables every member function called outside the walks of the queues
      raises no hazard ([still_at]), so a main program invalidates no
      iterator ([gentle_safe]).
    - [Abstract]: refinement.  Every call of a public member function, from
      states related by [refines] and with callables that do not call the
      bus, returns and ends in related states ([exec_refines]); hence every
      sequence of calls from the initial state makes the invocations the
      specification prescribes, in the same order ([run_same_invocations]),
      leaves the bus with a pool for exactly the types the calls named
      ([pool_iff_used]), and issues at most as many identifiers as the
      calls name types ([run_counter_bound]).
    - [Reentrant]: the implementation by event type, for callables that
      call the bus.  A main program run on the implementation and on the
      abstract bus of this file with the same fuel either returns on both
      sides, in states related by [inv] (refinement, well-formedness, packed
      pools), or runs out of fuel on both ([run_main_inv]).  The proof is a
      lock-step simulation, member function by member function and loop by
      loop ([simulates], [simulates_for_each] of this file).  The flush of
      that abstract bus empties the buffer when it ends, as the code does.
      With callables that do not call the bus the abstract semantics is the
      closed form of [Abstract] ([ar_run_passive]).
    - [Deferred]: refinement of the specification for callables that call
      the bus.  The flush of the specification keeps the events enqueued
      while it runs.  A program whose callables call the bus again in any
      way but do not enqueue either returns on the implementation and on
      the bus of the specification, in states related by [inv], or runs out
      of fuel on both ([run_main_refines_spec]); with a callable that
      enqueues during the flush the two differ
      ([spec_keeps_reentrant_enqueue], by evaluation).
    - [Scenarios]: the scenario of the specification and the re-entrant
      behaviours (an enqueue during a flush, a trigger inside a trigger, a
      new event type used during [DispatchQueuedEvents()]) by evaluation, and
      a bus that starts with an identifier already issued elsewhere (null
      slots, flush in the order of the identifiers).

    ** Not modelled

    Overload resolution between the member functions that take arguments and
    those that take an event, and the difference between copying and moving a
    forwarded argument (both happen at the call site; [Construct] takes the
    overload as given and the arguments as a value).  Memory allocation
    failure and the limit [max_size()] of a vector.  Destruction of the bus
    (the header declares no destructor).  The body of user callables beyond
    their calls into the bus; a body is a list of calls fixed by the
    callable and the event, so a callable that chooses its calls by the
    state of the program, or that uses a connection it obtained while
    running, is not rendered.  Callables that call a bus other than the one
    that invoked them ([Buses]: the member functions act on the world of one
    bus).  The virtual calls through [EventPoolBase*]: every overrider is an
    instantiation of [EventPool<Event>], the same code for every event type,
    so the loops of the bus call the member functions of the pool in the
    slot.  The selective [DispatchQueuedEvents<Event...>()] of the source
    calls a member [DispatchEvents] that [EventPool] does not declare, so
    the template cannot be instantiated; [EventPool.DispatchEvents] is
    taken from the specification to be [DispatchQueuedEvents], and what is
    proved of the selective flush is proved of that reading.  Undefined
    behaviour other than the call through a null pointer and the overflow
    of the counter: a vector modified under a walk raises [hazard] and the
    model goes on (see above).  [signal.hpp] is not in the repository: the
    order of invocation, the serials of the connections and their
    non-reuse are the contract [SignalOps], taken from the specification.
    The widths of [int] and [std::size_t] are fixed at 32 and 64 bits
    in [Machine]; every other file counts in [nat], which [Machine] proves
    exact below [INT_MAX] event types.  The exact effect of the member
    functions is proved in closed form for callables that do not call the
    bus; for callables that do, the development proves the invariant, the
    growth order, the emptiness of the flushed buffer, the nesting of the
    invocations of a trigger, the finality of unsubscription, the packing of
    the pools and the refinement of the specification for callables that do
    not enqueue, and evaluates closed programs.

    This file is the prelude: the iteration combinator shared by all loops
    of the model, partial-correctness triples for state transformers that may
    run out of fuel, lock-step simulation of two state transformers, the
    tactics and the hint database of the development. *)

From stdpp Require Import base tactics option list.

Declare Scope ebus_scope.
Delimit Scope ebus_scope with ebus.
Open Scope ebus_scope.

Create HintDb ebus discriminated.
Create Rewrite HintDb ebus_rw.

(** ** Iteration: a loop whose body may fail *)

(** [for_each f l s] runs the loop body [f] on the elements of the snapshot [l],
    in order, threading the state; it stops at the first failure. *)
Fixpoint for_each {A S : Type} (f : A → S → option S) (l : list A) (s : S) : option S :=
  match l with
  | [] => Some s
  | a :: l' => f a s ≫= for_each f l'
  end.

(** ** Specifications of state transformers *)

(** Partial correctness: from a state in [P], a run that returns ends in [Q]. *)
Definition triple {S : Type} (P : S → Prop) (f : S → option S) (Q : S → Prop) : Prop :=
  ∀ s s', P s → f s = Some s' → Q s'.

(** A run that returns relates its two ends by [R]. *)
Definition relates {S : Type} (R : relation S) (f : S → option S) : Prop :=
  ∀ s s', f s = Some s' → R s s'.

(** Totality: the run returns from every state in [P]. *)
Definition total_on {S : Type} (P : S → Prop) (f : S → option S) : Prop :=
  ∀ s, P s → is_Some (f s).

(** Lock-step simulation of a transformer [f] of concrete states by a
    transformer [g] of abstract states: from states related by [I], with the
    abstract one in [E], both return, in states related by [I] and with the
    abstract state grown along [Q], or neither returns. *)
Definition simulates {S T : Type} (I : S → T → Prop) (Q : relation T) (E : T → Prop)
    (f : S → option S) (g : T → option T) : Prop :=
  ∀ s t, I s t → E t → option_Forall2 (λ s' t', I s' t' ∧ Q t t') (f s) (g t).

(** A condition on abstract states that growth keeps. *)
Definition stable {T : Type} (Q : relation T) (E : T → Prop) : Prop :=
  ∀ t t', Q t t' → E t → E t'.

#[warnings="-closed-notation-not-level-0"]
Notation "{{ P }} f {{ Q }}" := (triple P f Q)
  (at level 90, f at level 10, format "{{  P  }}  f  {{  Q  }}") : ebus_scope.

(** ** Tactics *)

(** Invert a hypothesis and substitute. *)
Ltac invert H := inversion H; subst; clear H.

(** Split a successful monadic bind in a hypothesis into its two runs. *)
Ltac bind_inv H :=
  let s := fresh "s" in
  let H1 := fresh H in
  apply bind_Some in H as (s & H1 & H).

(** Destruct the pairs and [let '(_, _) := _ in _] of the goal. *)
Ltac destruct_lets :=
  repeat match goal with
  | |- context [let '(_, _) := ?p in _] =>
      let E := fresh "E" in destruct p eqn:E
  end.

(** Running on after a step that returned. *)
Lemma bind_Some_l {A B : Type} (x : A) (f : A → option B) : Some x ≫= f = f x.
Proof. done. Qed.

Section for_each.
Context {A S : Type}.
Implicit Types (f : A → S → option S) (l : list A) (s : S).

Lemma for_each_nil f s : for_each f [] s = Some s.
Proof. done. Qed.

Lemma for_each_cons f a l s : for_each f (a :: l) s = f a s ≫= for_each f l.
Proof. done. Qed.

Lemma for_each_app f l1 l2 s :
  for_each f (l1 ++ l2) s = for_each f l1 s ≫= for_each f l2.
Proof.
  revert s. induction l1 as [|a l1 IH]; intros s; [done|].
  simpl. destruct (f a s) as [s1|]; simpl; [apply IH | done].
Qed.

Lemma for_each_snoc f l a s :
  for_each f (l ++ [a]) s = for_each f l s ≫= f a.
Proof.
  rewrite for_each_app. destruct (for_each f l s) as [s1|]; simpl; [|done].
  by destruct (f a s1).
Qed.

(** Two loop bodies that agree on the elements of the list run alike. *)
Lemma for_each_ext f g l s :
  (∀ a s, a ∈ l → f a s = g a s) → for_each f l s = for_each g l s.
Proof.
  revert s. induction l as [|a l IH]; intros s Hfg; [done|].
  simpl. rewrite Hfg by left. destruct (g a s) as [s1|]; simpl; [|done].
  apply IH. intros a' s' Ha'. apply Hfg. by right.
Qed.

(** A body that never fails and acts through a total function [g]: the loop
    is the left fold of [g]. *)
Lemma for_each_pure f (g : S → A → S) l s :
  (∀ a s, a ∈ l → f a s = Some (g s a)) → for_each f l s = Some (foldl g s l).
Proof.
  revert s. induction l as [|a l IH]; intros s Hf; [done|].
  simpl. rewrite Hf by left. simpl. apply IH. intros a' s' Ha'. apply Hf. by right.
Qed.

(** The invariant rule of the loop. *)
Lemma for_each_triple (I : S → Prop) f l :
  (∀ a, a ∈ l → {{ I }} f a {{ I }}) → {{ I }} for_each f l {{ I }}.
Proof.
  induction l as [|a l IH]; intros Hf s s' Hs Hrun.
  - by invert Hrun.
  - simpl in Hrun. bind_inv Hrun.
    eapply IH; [|eapply (Hf a); [left|..]|]; eauto.
    intros a' Ha'. apply Hf. by right.
Qed.

(** A loop is monotone in its body. *)
Lemma for_each_mono f g l :
  (∀ a, a ∈ l → ∀ s s', f a s = Some s' → g a s = Some s') →
  ∀ s s', for_each f l s = Some s' → for_each g l s = Some s'.
Proof.
  induction l as [|a l IH]; intros Hfg s s' Hrun; [done|].
  simpl in *. bind_inv Hrun. rewrite (Hfg a (list_elem_of_here _ _) _ _ Hrun0). simpl.
  apply IH; [|done]. intros a' Ha'. apply Hfg. by right.
Qed.

(** The same for a fold. *)
Lemma foldl_relates (R : relation S) `{!PreOrder R} (g : S → A → S) l s :
  (∀ a s, a ∈ l → R s (g s a)) → R s (foldl g s l).
Proof.
  revert s. induction l as [|a l IH]; intros s Hg; [done|]. simpl.
  trans (g s a); [apply Hg; left|]. apply IH. intros a' s' Ha'. apply Hg. by right.
Qed.

(** A pre-order that every iteration respects relates the ends of the loop. *)
Lemma for_each_relates (R : relation S) `{!PreOrder R} f l :
  (∀ a, a ∈ l → relates R (f a)) → relates R (for_each f l).
Proof.
  induction l as [|a l IH]; intros Hf s s' Hrun.
  - by invert Hrun.
  - simpl in Hrun. bind_inv Hrun. etrans; [eapply (Hf a); [left|]; eauto|].
    eapply IH; [|done]. intros a' Ha'. apply Hf. by right.
Qed.

(** The loop returns when every iteration does, from every state of an
    invariant the iterations preserve. *)
Lemma for_each_total (I : S → Prop) f l :
  (∀ a, a ∈ l → {{ I }} f a {{ I }}) →
  (∀ a, a ∈ l → total_on I (f a)) →
  total_on I (for_each f l).
Proof.
  induction l as [|a l IH]; intros Hinv Htot s Hs; [by eexists|].
  simpl. destruct (Htot a (list_elem_of_here _ _) s Hs) as [s1 Hs1]. rewrite Hs1. simpl.
  apply IH; [by intros a' Ha'; apply Hinv; right|by intros a' Ha'; apply Htot; right|].
  eapply (Hinv a); [left|..]; eauto.
Qed.

(** A loop respects a relation on states that its iterations respect. *)
Lemma for_each_proper (R : relation S) f l :
  (∀ a, a ∈ l → Proper (R ==> option_Forall2 R) (f a)) →
  Proper (R ==> option_Forall2 R) (for_each f l).
Proof.
  induction l as [|a l IH]; intros Hf s s' Hs; simpl; [by constructor|].
  destruct (Hf a (list_elem_of_here _ _) s s' Hs) as [s1 s1' Hs1|]; simpl; [|constructor].
  apply IH; [|done]. intros a' Ha'. apply Hf. by right.
Qed.

(** A failing iteration fails the loop. *)
Lemma for_each_None f l1 a l2 s s1 :
  for_each f l1 s = Some s1 → f a s1 = None → for_each f (l1 ++ a :: l2) s = None.
Proof. intros H1 Ha. rewrite for_each_app, H1. simpl. by rewrite Ha. Qed.

End for_each.

(** ** Simulation *)

Section simulation.
Context {S T : Type} (I : S → T → Prop) (Q : relation T) `{!PreOrder Q}.
Implicit Types (E : T → Prop) (f : S → option S) (g : T → option T).

Lemma option_Forall2_impl (R R' : S → T → Prop) o o' :
  (∀ s t, R s t → R' s t) → option_Forall2 R o o' → option_Forall2 R' o o'.
Proof. intros HR [s t Hst|]; constructor; auto. Qed.

Lemma option_Forall2_Some_l (R : S → T → Prop) o' s :
  option_Forall2 R (Some s) o' → ∃ t, o' = Some t ∧ R s t.
Proof. inversion 1; eauto. Qed.

Lemma option_Forall2_None (R : S → T → Prop) o o' :
  option_Forall2 R o o' → o = None ↔ o' = None.
Proof. by intros [s t Hst|]. Qed.

Lemma simulates_ret E (h : S → S) (k : T → T) :
  (∀ s t, I s t → E t → I (h s) (k t) ∧ Q t (k t)) →
  simulates I Q E (λ s, Some (h s)) (λ t, Some (k t)).
Proof. intros Hhk s t Hst Ht. constructor. auto. Qed.

Lemma simulates_weaken E E' f g :
  (∀ t, E' t → E t) → simulates I Q E f g → simulates I Q E' f g.
Proof. intros HE Hfg s t Hst Ht. apply Hfg; auto. Qed.

(** A simulation from the states a pure step leads to. *)
Lemma simulates_after E E' (h : S → S) (k : T → T) f g :
  (∀ s t, I s t → E t → I (h s) (k t) ∧ Q t (k t) ∧ E' (k t)) →
  simulates I Q E' f g → simulates I Q E (λ s, f (h s)) (λ t, g (k t)).
Proof.
  intros Hhk Hfg s t Hst Ht. destruct (Hhk s t Hst Ht) as (Hst1 & Hq & Ht1).
  eapply option_Forall2_impl, Hfg; [|done..]. intros s2 t2 [? ?]. split; [done|by etrans].
Qed.

Lemma simulates_bind E f g f' g' :
  stable Q E → simulates I Q E f g → simulates I Q E f' g' →
  simulates I Q E (λ s, f s ≫= f') (λ t, g t ≫= g').
Proof.
  intros HE Hfg Hfg' s t Hst Ht. destruct (Hfg s t Hst Ht) as [s1 t1 [Hst1 Hq]|]; simpl.
  - eapply option_Forall2_impl, Hfg'; [|done|by eapply HE].
    intros s2 t2 [? ?]. split; [done|by etrans].
  - constructor.
Qed.

(** Two loops whose bodies simulate each other on related elements. *)
Lemma simulates_for_each_from {A B} (E : A → B → T → Prop) (f : A → S → option S)
    (g : B → T → option T) l l' t0 s t :
  (∀ x y, stable Q (E x y)) → (∀ x y, simulates I Q (E x y) (f x) (g y)) →
  Q t0 t → I s t → Forall2 (λ x y, E x y t) l l' →
  option_Forall2 (λ s' t', I s' t' ∧ Q t0 t') (for_each f l s) (for_each g l' t).
Proof.
  intros HE Hfg. revert l' s t. induction l as [|x l IH]; intros l' s t Hq Hst Hl.
  { apply Forall2_nil_inv_l in Hl as ->. by constructor. }
  apply Forall2_cons_inv_l in Hl as (y & l'' & Hxy & Hl & ->). simpl.
  destruct (Hfg x y s t Hst Hxy) as [s1 t1 [Hst1 Hq1]|]; simpl; [|constructor].
  apply IH; [by etrans|done|]. eapply Forall2_impl; [done|]. intros x' y'. by apply HE.
Qed.

Lemma simulates_for_each {A B} (E : A → B → T → Prop) (f : A → S → option S)
    (g : B → T → option T) l l' s t :
  (∀ x y, stable Q (E x y)) → (∀ x y, simulates I Q (E x y) (f x) (g y)) →
  I s t → Forall2 (λ x y, E x y t) l l' →
  option_Forall2 (λ s' t', I s' t' ∧ Q t t') (for_each f l s) (for_each g l' t).
Proof. intros HE Hfg. by apply simulates_for_each_from. Qed.

(** The same loop on both sides. *)
Lemma simulates_for_each_same {A} E (f : A → S → option S) (g : A → T → option T) l :
  stable Q E → (∀ x, simulates I Q E (f x) (g x)) →
  simulates I Q E (for_each f l) (for_each g l).
Proof.
  intros HE Hfg s t Hst Ht. apply (simulates_for_each (λ x y t, x = y ∧ E t)); [..|done|].
  - intros x y t1 t2 Hq [-> Ht1]. split; [done|by eapply HE].
  - intros x y s1 t1 Hst1 [-> Ht1]. by apply Hfg.
  - apply Forall_Forall2_diag, Forall_forall. by intros x _.
Qed.

End simulation.

(** ** Triples *)

Section triples.
Context {S : Type}.
Implicit Types (P Q : S → Prop) (f g : S → option S).

Lemma triple_weaken P P' Q Q' f :
  {{ P' }} f {{ Q' }} → (∀ s, P s → P' s) → (∀ s, Q' s → Q s) → {{ P }} f {{ Q }}.
Proof. intros Hf HP HQ s s' Hs Hrun. eauto. Qed.

Lemma triple_bind P Q R f g :
  {{ P }} f {{ Q }} → {{ Q }} g {{ R }} → {{ P }} (λ s, f s ≫= g) {{ R }}.
Proof. intros Hf Hg s s' Hs Hrun. bind_inv Hrun. eauto. Qed.

Lemma triple_ret P Q (h : S → S) :
  (∀ s, P s → Q (h s)) → {{ P }} (λ s, Some (h s)) {{ Q }}.
Proof. intros Hh s s' Hs [= <-]. auto. Qed.

Lemma triple_conj P Q1 Q2 f :
  {{ P }} f {{ Q1 }} → {{ P }} f {{ Q2 }} → {{ P }} f {{ λ s, Q1 s ∧ Q2 s }}.
Proof. intros H1 H2 s s' Hs Hrun. split; eauto. Qed.

Lemma relates_bind (R : relation S) `{!Transitive R} f g :
  relates R f → relates R g → relates R (λ s, f s ≫= g).
Proof. intros Hf Hg s s' Hrun. bind_inv Hrun. etrans; eauto. Qed.

Lemma relates_ret (R : relation S) (h : S → S) :
  (∀ s, R s (h s)) → relates R (λ s, Some (h s)).
Proof. intros Hh s s' [= <-]. auto. Qed.

Lemma total_on_bind P Q f g :
  total_on P f → {{ P }} f {{ Q }} → total_on Q g → total_on P (λ s, f s ≫= g).
Proof.
  intros Hf Hfq Hg s Hs. destruct (Hf s Hs) as [s1 Hs1]. rewrite Hs1. simpl. eauto.
Qed.

End triples.

(** ** Lists *)

Section lists.
Context {A : Type}.
Implicit Types (l : list A).

(** Filtering by a predicate that holds everywhere keeps the list. *)
Lemma filter_Forall_id (P : A → Prop) `{!∀ x, Decision (P x)} l :
  Forall P l → filter P l = l.
Proof.
  induction 1 as [|x l Hx _ IH]; [done|].
  by rewrite filter_cons_True, IH.
Qed.

(** Filtering by a predicate that holds nowhere empties the list. *)
Lemma filter_Forall_nil (P : A → Prop) `{!∀ x, Decision (P x)} l :
  Forall (λ x, ¬ P x) l → filter P l = [].
Proof.
  induction 1 as [|x l Hx _ IH]; [done|].
  by rewrite filter_cons_False.
Qed.

(** Collecting one element per element is mapping. *)
Lemma bind_singleton_fmap {B : Type} (f : A → B) l : l ≫= (λ x, [f x]) = f <$> l.
Proof. induction l as [|x l IH]; [done|]. by rewrite bind_cons, fmap_cons, IH. Qed.

Lemma bind_nil_const {B : Type} (l : list A) : l ≫= (λ _, @nil B) = [].
Proof. induction l as [|a l IH]; [done|]. by rewrite bind_cons, IH. Qed.

(** A boolean test that holds of a list holds of its elements. *)
Lemma forallb_elem_of (f : A → bool) l x : forallb f l = true → x ∈ l → f x = true.
Proof. intros Hl Hx. eapply forallb_forall; [exact Hl|by apply list_elem_of_In]. Qed.

(** Two functions that agree on the elements of a list collect the same. *)
Lemma bind_ext_in {B : Type} (f g : A → list B) l :
  (∀ x, x ∈ l → f x = g x) → l ≫= f = l ≫= g.
Proof.
  induction l as [|x l IH]; intros Hfg; [done|].
  rewrite !bind_cons, Hfg by left. f_equal. apply IH. intros y Hy. apply Hfg. by right.
Qed.

(** Collecting from a list without repetition a function that is empty but at
    one element of the list gives what it is there. *)
Lemma bind_single_point {B : Type} `{EqDecision A} (l : list A) (k : A) (X : list B) :
  NoDup l → k ∈ l → l ≫= (λ i, if decide (k = i) then X else []) = X.
Proof.
  induction l as [|a l IH]; intros Hnd Hk; [by apply elem_of_nil in Hk|].
  apply NoDup_cons in Hnd as [Ha Hnd]. rewrite bind_cons.
  destruct (decide (k = a)) as [->|Hne].
  - rewrite (bind_ext_in _ (λ _, [])), bind_nil_const, app_nil_r; [done|].
    intros i Hi. rewrite decide_False; [done|]. by intros ->.
  - apply IH; [done|]. by apply elem_of_cons in Hk as [?|?].
Qed.

(** What holds of a list holds of what a filter keeps. *)
Lemma Forall_filter_keep (Q P : A → Prop) `{!∀ x, Decision (P x)} l :
  Forall Q l → Forall Q (filter P l).
Proof.
  rewrite !Forall_forall. intros HQ x [_ Hx]%list_elem_of_filter. auto.
Qed.

End lists.

#[export] Hint Resolve for_each_triple for_each_relates triple_ret relates_ret : ebus.
#[export] Hint Rewrite @for_each_nil @for_each_cons @for_each_app @bind_Some_l : ebus_rw.
