(* ===== verification/Registry.v ===== *)
(** * The event type registry

    [GetUniqueEventId] and [GetEventId<Event>] of EventBus.hpp keep their state
    in function-local statics: one counter [id] for the whole process, and one
    [eventID] per instantiation of the template, initialised by the first call
    for that event type.  The record [Registry] holds both: [next_id] is the
    counter, and [event_ids] maps the event types whose static is initialised
    to its value.  The theorems: an id never changes once assigned, distinct
    types have distinct ids, the ids handed out by [GetEventId] are exactly the
    numbers below the counter, and the counter stays within [int] as long as
    fewer than [INT_MAX] types are in use. *)

From stdpp Require Import gmap.
From S2P Require Import Prelude.

Section registry.
Context {ty : Type} `{Countable ty}.

(** The two kinds of static variables. *)
Record Registry : Type := mkRegistry {
  next_id : nat;              (* [static int id] of [GetUniqueEventId] *)
  event_ids : gmap ty nat;    (* [static int eventID] of each [GetEventId<Event>] *)
}.

(** The statics at program start: the counter is 0, no [eventID] is
    initialised. *)
Definition registry_init : Registry := mkRegistry 0 ∅.

(** [return id++;] *)
Definition GetUniqueEventId (r : Registry) : nat * Registry :=
  (next_id r, mkRegistry (S (next_id r)) (event_ids r)).

(** [static int eventID = GetUniqueEventId(); return eventID;]
    The initialiser runs on the first call for the type only. *)
Definition GetEventId (t : ty) (r : Registry) : nat * Registry :=
  match event_ids r !! t with
  | Some i => (i, r)
  | None =>
      let '(i, r') := GetUniqueEventId r in
      (i, mkRegistry (next_id r') (<[t:=i]> (event_ids r')))
  end.

(** The largest value of a 32-bit [int]. *)
Definition INT_MAX : Z := 2 ^ 31 - 1.

(** The counter can be incremented without signed overflow. *)
Definition counter_in_range (r : Registry) : Prop := (Z.of_nat (next_id r) < INT_MAX)%Z.

(** Well-formedness: every assigned id was issued by the counter, and no two
    types share an id. *)
Definition registry_wf (r : Registry) : Prop :=
  (∀ t i, event_ids r !! t = Some i → i < next_id r) ∧
  (∀ t1 t2 i, event_ids r !! t1 = Some i → event_ids r !! t2 = Some i → t1 = t2).

(** Density: every number below the counter is the id of a type.  It holds as
    long as the counter is only advanced through [GetEventId]. *)
Definition registry_dense (r : Registry) : Prop :=
  ∀ i, i < next_id r → ∃ t, event_ids r !! t = Some i.

(** The statics only grow: the counter never decreases and an initialised
    [eventID] keeps its value. *)
Definition registry_le (r r' : Registry) : Prop :=
  next_id r ≤ next_id r' ∧ event_ids r ⊆ event_ids r'.

#[export] Instance Registry_eq_dec : EqDecision Registry.
Proof. solve_decision. Defined.

#[export] Instance registry_le_preorder : PreOrder registry_le.
Proof.
  split.
  - intros r. by split.
  - intros r1 r2 r3 [? ?] [? ?]. split; [lia | by etrans].
Qed.

Implicit Types (r : Registry) (t : ty) (i : nat).

(** ** [GetUniqueEventId] *)

Lemma GetUniqueEventId_fst r : (GetUniqueEventId r).1 = next_id r.
Proof. done. Qed.

Lemma GetUniqueEventId_next r : next_id (GetUniqueEventId r).2 = S (next_id r).
Proof. done. Qed.

Lemma GetUniqueEventId_wf r : registry_wf r → registry_wf (GetUniqueEventId r).2.
Proof. intros [Hlt Hinj]. split; simpl; [|done]. intros t i Hi. apply Hlt in Hi. lia. Qed.

(** ** [GetEventId]: the two branches *)

Lemma GetEventId_cached r t i : event_ids r !! t = Some i → GetEventId t r = (i, r).
Proof. intros Hi. unfold GetEventId. by rewrite Hi. Qed.

Lemma GetEventId_fresh r t :
  event_ids r !! t = None →
  GetEventId t r = (next_id r, mkRegistry (S (next_id r)) (<[t:=next_id r]> (event_ids r))).
Proof. intros Hi. unfold GetEventId. by rewrite Hi. Qed.

(** After the call the static of [t] is initialised to the value returned. *)
Lemma GetEventId_lookup r t : event_ids (GetEventId t r).2 !! t = Some (GetEventId t r).1.
Proof.
  destruct (event_ids r !! t) as [i|] eqn:Hi.
  - by rewrite (GetEventId_cached _ _ _ Hi).
  - rewrite (GetEventId_fresh _ _ Hi). simpl. by rewrite lookup_insert_eq.
Qed.

(** The statics of the other types are not touched. *)
Lemma GetEventId_lookup_ne r t t' :
  t ≠ t' → event_ids (GetEventId t r).2 !! t' = event_ids r !! t'.
Proof.
  intros Hne. destruct (event_ids r !! t) as [i|] eqn:Hi.
  - by rewrite (GetEventId_cached _ _ _ Hi).
  - rewrite (GetEventId_fresh _ _ Hi). simpl. by rewrite lookup_insert_ne.
Qed.

Lemma GetEventId_le r t : registry_le r (GetEventId t r).2.
Proof.
  destruct (event_ids r !! t) as [i|] eqn:Hi.
  - by rewrite (GetEventId_cached _ _ _ Hi).
  - rewrite (GetEventId_fresh _ _ Hi). split; simpl; [lia|]. by apply insert_subseteq.
Qed.

Lemma GetEventId_wf r t : registry_wf r → registry_wf (GetEventId t r).2.
Proof.
  intros [Hlt Hinj]. destruct (event_ids r !! t) as [i|] eqn:Hi.
  { by rewrite (GetEventId_cached _ _ _ Hi). }
  rewrite (GetEventId_fresh _ _ Hi). split; simpl.
  - intros t' i' [[-> <-]|[_ Hi']]%lookup_insert_Some; [lia|]. apply Hlt in Hi'. lia.
  - intros t1 t2 i' [[<- <-]|[? H1]]%lookup_insert_Some [[<- Hi2]|[? H2]]%lookup_insert_Some.
    + done.
    + apply Hlt in H2. lia.
    + apply Hlt in H1. lia.
    + eauto.
Qed.

Lemma GetEventId_dense r t : registry_dense r → registry_dense (GetEventId t r).2.
Proof.
  intros Hd. destruct (event_ids r !! t) as [i|] eqn:Hi.
  { by rewrite (GetEventId_cached _ _ _ Hi). }
  rewrite (GetEventId_fresh _ _ Hi). intros i Hlt. simpl in *.
  destruct (decide (i = next_id r)) as [->|Hne].
  - exists t. by rewrite lookup_insert_eq.
  - destruct (Hd i) as [t' Ht']; [lia|]. exists t'.
    rewrite lookup_insert_ne; [done|]. intros <-. congruence.
Qed.

(** The id returned is below the counter afterwards. *)
Lemma GetEventId_lt r t : registry_wf r → (GetEventId t r).1 < next_id (GetEventId t r).2.
Proof. intros Hwf. eapply (proj1 (GetEventId_wf r t Hwf)), GetEventId_lookup. Qed.

(** The counter after a read: it moved, by one, only to issue the identifier
    returned. *)
Lemma GetEventId_next r t :
  registry_wf r →
  (GetEventId t r).1 ≤ next_id r ∧
  next_id (GetEventId t r).2 = next_id r `max` S (GetEventId t r).1.
Proof.
  intros [Hlt _]. destruct (event_ids r !! t) as [i|] eqn:Hi.
  - rewrite (GetEventId_cached _ _ _ Hi). simpl. apply Hlt in Hi. lia.
  - rewrite (GetEventId_fresh _ _ Hi). simpl. lia.
Qed.

(** An initialised static is read back unchanged by any later state of the
    registry. *)
Lemma registry_le_lookup r r' t i :
  registry_le r r' → event_ids r !! t = Some i → event_ids r' !! t = Some i.
Proof. intros [_ Hsub] Hi. by eapply lookup_weaken. Qed.

(** Two types that hold the same id in a well-formed registry are the same. *)
Lemma GetEventId_eq_inv r r' t1 t2 :
  registry_wf r' → registry_le (GetEventId t1 r).2 r' →
  (GetEventId t1 r).1 = (GetEventId t2 r').1 → t1 = t2.
Proof.
  intros Hwf' Hle Heq. destruct (GetEventId_wf r' t2 Hwf') as [_ Hinj].
  apply (Hinj t1 t2 (GetEventId t1 r).1); [|rewrite Heq; apply GetEventId_lookup].
  apply (registry_le_lookup (GetEventId t1 r).2); [|apply GetEventId_lookup].
  trans r'; [done|apply GetEventId_le].
Qed.

Lemma registry_init_wf : registry_wf registry_init.
Proof. split; simpl; intros *; by rewrite lookup_empty. Qed.

Lemma registry_init_dense : registry_dense registry_init.
Proof. intros i Hi. simpl in Hi. lia. Qed.

(** ** The properties of the registry *)

(** C37: [GetEventId] is stable. A second request for a type, after any number
    of requests for this or other types in between, returns the id of the
    first request and changes nothing. *)
Theorem GetEventId_stable r r' t :
  registry_le (GetEventId t r).2 r' → GetEventId t r' = ((GetEventId t r).1, r').
Proof.
  intros Hle. apply GetEventId_cached.
  eapply registry_le_lookup; [done|]. apply GetEventId_lookup.
Qed.

(** C7: [GetEventId] never gives two distinct types the same id, in whichever
    order and however far apart they are requested. *)
Theorem GetEventId_injective r r' t1 t2 :
  registry_wf r' → registry_le (GetEventId t1 r).2 r' →
  t1 ≠ t2 → (GetEventId t1 r).1 ≠ (GetEventId t2 r').1.
Proof.
  intros Hwf' Hle Hne Heq. apply Hne. by apply (GetEventId_eq_inv r r').
Qed.

(** The first request for a type returns the current value of the counter
    and advances it by one; with density, the ids in use are exactly the
    numbers below the counter, before and after. *)
Theorem GetEventId_sequential r t :
  registry_wf r → registry_dense r → event_ids r !! t = None →
  (GetEventId t r).1 = next_id r ∧
  next_id (GetEventId t r).2 = S (next_id r) ∧
  ∀ i, i < next_id (GetEventId t r).2 ↔ ∃ t', event_ids (GetEventId t r).2 !! t' = Some i.
Proof.
  intros Hwf Hd Hnone. pose proof (GetEventId_wf r t Hwf) as [Hlt' _].
  pose proof (GetEventId_dense r t Hd) as Hd'.
  rewrite (GetEventId_fresh _ _ Hnone) in *. simpl. split_and!; [done..|].
  intros i. split; [apply Hd'|]. intros [t' Ht']. by apply Hlt' in Ht'.
Qed.

(** As long as the counter is below [INT_MAX] the increment does not
    overflow, and the id returned is a non-negative [int], so that its
    conversion to [size_t] in [GetEventHandler] is the identity. *)
Theorem GetEventId_in_range r t :
  registry_wf r → counter_in_range r →
  (0 ≤ Z.of_nat (GetEventId t r).1 < INT_MAX)%Z ∧
  (Z.of_nat (next_id (GetEventId t r).2) ≤ INT_MAX)%Z.
Proof.
  intros [Hlt _] Hr. unfold counter_in_range in Hr.
  destruct (event_ids r !! t) as [i|] eqn:Hi.
  - rewrite (GetEventId_cached _ _ _ Hi). simpl. apply Hlt in Hi. lia.
  - rewrite (GetEventId_fresh _ _ Hi). simpl. lia.
Qed.

End registry.

Arguments Registry ty {_ _}.

(** ** The properties at concrete inputs

    Event types are numbered by [nat] here; types 7 and 3 are requested in
    that order from the initial statics. *)

Lemma GetEventId_stable_witness :
  GetEventId 7 (GetEventId 3 (GetEventId 7 registry_init).2).2
  = (0, (GetEventId 3 (GetEventId 7 registry_init).2).2).
Proof. apply (GetEventId_stable (ty:=nat) registry_init). apply GetEventId_le. Defined.

Lemma GetEventId_injective_witness :
  (GetEventId 7 registry_init).1 ≠ (GetEventId 3 (GetEventId 7 registry_init).2).1.
Proof.
  apply (GetEventId_injective (ty:=nat) registry_init (GetEventId 7 registry_init).2).
  - apply GetEventId_wf, registry_init_wf.
  - reflexivity.
  - discriminate.
Defined.

Lemma GetEventId_sequential_witness :
  (GetEventId 7 (registry_init (ty:=nat))).1 = 0 ∧
  next_id (GetEventId 7 (registry_init (ty:=nat))).2 = 1 ∧
  ∀ i, i < next_id (GetEventId 7 (registry_init (ty:=nat))).2 ↔
       ∃ t', event_ids (GetEventId 7 (registry_init (ty:=nat))).2 !! t' = Some i.
Proof.
  apply (GetEventId_sequential (ty:=nat) registry_init 7).
  - apply registry_init_wf.
  - apply registry_init_dense.
  - reflexivity.
Defined.

Lemma GetEventId_in_range_witness :
  (0 ≤ Z.of_nat (GetEventId 7%nat (registry_init (ty:=nat))).1 < INT_MAX)%Z ∧
  (Z.of_nat (next_id (GetEventId 7%nat (registry_init (ty:=nat))).2) ≤ INT_MAX)%Z.
Proof.
  apply (GetEventId_in_range (ty:=nat) registry_init 7).
  - apply registry_init_wf.
  - unfold counter_in_range, INT_MAX. simpl. lia.
Defined.

#[export] Hint Resolve GetEventId_wf GetEventId_le GetEventId_dense registry_init_wf : ebus.
