(* ===== verification/Signal.v ===== *)
(** * The callable-binding primitive: [Signal] and [Connection]

    EventBus.hpp includes signal.hpp from another repository and uses three
    things of it: [mSignal.Bind(callable)], which returns a [Connection];
    [mSignal(event)], which invokes the bound callables; and
    [connection.Disconnect()].  The source of signal.hpp is not available, so
    this file states the contract the bus relies on, as the specification
    gives it, in the class [SignalOps]: bound callables are kept in
    subscription order, a connection identifies one binding, disconnecting
    revokes that binding and nothing else.  The pool and the bus are proved
    against the class; [slot_signal] is a list-based implementation that
    discharges it, so that the development runs.

    The invocation [Invoke] walks the callables bound when the invocation
    starts.  The specification does not say what happens to a callable that is
    bound or disconnected while the invocation is in progress; the model
    takes the snapshot. *)

From stdpp Require Import list.
From S2P Require Import Prelude.

(** A connection handle: the signal it belongs to (the address of the signal is
    the index of the owning pool in the bus) and the serial number of the
    binding inside that signal. *)
Record Connection : Type := mkConnection {
  conn_signal : nat;
  conn_serial : nat;
}.

#[export] Instance Connection_eq_dec : EqDecision Connection.
Proof. solve_decision. Defined.

(** ** The contract *)

(** [bound s] lists the bindings of [s], oldest first, each with its serial;
    [issued s] counts the bindings ever made, so that serials are never
    reused. *)
Class SignalOps (callable sig : Type) : Type := {
  sig_new : sig;
  Bind : callable → sig → nat * sig;
  Disconnect : nat → sig → sig;
  bound : sig → list (nat * callable);
  issued : sig → nat;
  bound_new : bound sig_new = [];
  issued_new : issued sig_new = 0;
  Bind_serial f s : (Bind f s).1 = issued s;
  bound_Bind f s : bound (Bind f s).2 = bound s ++ [(issued s, f)];
  issued_Bind f s : issued (Bind f s).2 = S (issued s);
  bound_Disconnect c s : bound (Disconnect c s) = filter (λ b, b.1 ≠ c) (bound s);
  issued_Disconnect c s : issued (Disconnect c s) = issued s;
}.

Arguments sig_new {callable sig _}.
Arguments Bind {callable sig _} f s.
Arguments Disconnect {callable sig _} c s.
Arguments bound {callable sig _} s.
Arguments issued {callable sig _} s.

(** ** The list implementation *)

(** A signal as the list of its slots and the next serial. *)
Record Signal (callable : Type) : Type := mkSignal {
  slots : list (nat * callable);
  next_serial : nat;
}.
Arguments mkSignal {callable} _ _.
Arguments slots {callable} _.
Arguments next_serial {callable} _.

Definition Signal_new {callable : Type} : Signal callable := mkSignal [] 0.

(** [Bind]: append a slot for the callable, hand out its serial. *)
Definition Signal_Bind {callable : Type} (f : callable) (s : Signal callable) :
    nat * Signal callable :=
  (next_serial s, mkSignal (slots s ++ [(next_serial s, f)]) (S (next_serial s))).

(** [Connection::Disconnect]: drop the slot with that serial, if it is still
    there. *)
Definition Signal_Disconnect {callable : Type} (c : nat) (s : Signal callable) :
    Signal callable :=
  mkSignal (filter (λ b, b.1 ≠ c) (slots s)) (next_serial s).

#[export] Instance slot_signal (callable : Type) : SignalOps callable (Signal callable) := {|
  sig_new := Signal_new;
  Bind := Signal_Bind;
  Disconnect := Signal_Disconnect;
  bound := slots;
  issued := next_serial;
  bound_new := eq_refl;
  issued_new := eq_refl;
  Bind_serial _ _ := eq_refl;
  bound_Bind _ _ := eq_refl;
  issued_Bind _ _ := eq_refl;
  bound_Disconnect _ _ := eq_refl;
  issued_Disconnect _ _ := eq_refl;
|}.

(** ** Invocation *)

(** [mSignal(event)]: run every callable bound at the start, in subscription
    order.  [run c f] is what running the callable [f] of the binding [c] does
    to the state of the program. *)
Definition Invoke {callable sig S : Type} `{!SignalOps callable sig}
    (run : nat → callable → S → option S) (s : sig) : S → option S :=
  for_each (λ b, run b.1 b.2) (bound s).

(** ** Consequences of the contract *)

Section signal.
Context {callable sig : Type} `{!SignalOps callable sig}.
Implicit Types (s : sig) (f : callable) (c : nat).

(** The serials of the current bindings. *)
Definition serials s : list nat := (bound s).*1.

(** Well-formedness: serials are below [issued] and pairwise distinct. *)
Definition sig_ok s : Prop :=
  Forall (λ c, c < issued s) (serials s) ∧ NoDup (serials s).

(** Two signals are equivalent when the contract cannot tell them apart. *)
Definition sig_equiv s1 s2 : Prop := bound s1 = bound s2 ∧ issued s1 = issued s2.

#[export] Instance sig_equiv_equivalence : Equivalence sig_equiv.
Proof.
  split.
  - by intros s.
  - by intros s1 s2 [? ?].
  - intros s1 s2 s3 [? ?] [? ?]. split; congruence.
Qed.

#[export] Instance bound_proper : Proper (sig_equiv ==> (=)) (bound (sig:=sig)).
Proof. by intros s1 s2 [? ?]. Qed.

#[export] Instance issued_proper : Proper (sig_equiv ==> (=)) (issued (sig:=sig)).
Proof. by intros s1 s2 [? ?]. Qed.

#[export] Instance Disconnect_proper c : Proper (sig_equiv ==> sig_equiv) (Disconnect c).
Proof.
  intros s1 s2 [Hb Hi]. split; [by rewrite !bound_Disconnect, Hb|by rewrite !issued_Disconnect].
Qed.

#[export] Instance Bind_proper f : Proper (sig_equiv ==> sig_equiv) (λ s, (Bind f s).2).
Proof.
  intros s1 s2 [Hb Hi]. split; [by rewrite !bound_Bind, Hb, Hi|by rewrite !issued_Bind, Hi].
Qed.

#[export] Instance sig_ok_proper : Proper (sig_equiv ==> iff) sig_ok.
Proof. intros s1 s2 [Hb Hi]. unfold sig_ok, serials. by rewrite Hb, Hi. Qed.

Lemma serials_new : serials sig_new = [].
Proof. unfold serials. by rewrite bound_new. Qed.

Lemma serials_Bind f s : serials (Bind f s).2 = serials s ++ [issued s].
Proof. unfold serials. by rewrite bound_Bind, fmap_app. Qed.

Lemma serials_Disconnect c s : serials (Disconnect c s) = filter (λ c', c' ≠ c) (serials s).
Proof.
  unfold serials. rewrite bound_Disconnect.
  induction (bound s) as [|[c' f] l IH]; [done|].
  rewrite fmap_cons, !filter_cons. simpl.
  destruct (decide (c' ≠ c)); [rewrite fmap_cons|]; by rewrite IH.
Qed.

Lemma sig_ok_new : sig_ok sig_new.
Proof. unfold sig_ok. rewrite serials_new. split; constructor. Qed.

(** A binding gets a serial that no current binding has. *)
Lemma Bind_fresh f s : sig_ok s → (Bind f s).1 ∉ serials s.
Proof.
  intros [Hlt _] Hin. rewrite Bind_serial in Hin.
  rewrite Forall_forall in Hlt. apply Hlt in Hin. lia.
Qed.

Lemma sig_ok_Bind f s : sig_ok s → sig_ok (Bind f s).2.
Proof.
  intros [Hlt Hnd]. unfold sig_ok. rewrite serials_Bind, issued_Bind. split.
  - apply Forall_app. split; [|by repeat constructor].
    eapply Forall_impl; [done|]. simpl. lia.
  - apply NoDup_app. split_and!; [done| |apply NoDup_singleton].
    intros c Hc ->%list_elem_of_singleton. rewrite Forall_forall in Hlt.
    apply Hlt in Hc. lia.
Qed.

Lemma sig_ok_Disconnect c s : sig_ok s → sig_ok (Disconnect c s).
Proof.
  intros [Hlt Hnd]. unfold sig_ok. rewrite serials_Disconnect, issued_Disconnect. split.
  - by apply Forall_filter_keep.
  - by apply NoDup_filter.
Qed.

(** After [Disconnect c] the binding [c] is gone. *)
Lemma Disconnect_unbound c s : c ∉ serials (Disconnect c s).
Proof. rewrite serials_Disconnect. intros [? _]%list_elem_of_filter. done. Qed.

(** The other bindings stay, in their order. *)
Lemma Disconnect_other c c' f s :
  c' ≠ c → (c', f) ∈ bound (Disconnect c s) ↔ (c', f) ∈ bound s.
Proof. intros Hne. rewrite bound_Disconnect, list_elem_of_filter. simpl. tauto. Qed.

(** Disconnecting a serial that is not bound changes nothing observable. *)
Lemma Disconnect_absent c s : c ∉ serials s → sig_equiv (Disconnect c s) s.
Proof.
  intros Hc. split; [|apply issued_Disconnect].
  rewrite bound_Disconnect. apply filter_Forall_id, Forall_forall.
  intros [c' f] Hin. simpl. intros ->. apply Hc.
  unfold serials. by apply (list_elem_of_fmap_2 fst) in Hin.
Qed.

(** [Disconnect] is idempotent. *)
Lemma Disconnect_idemp c s : sig_equiv (Disconnect c (Disconnect c s)) (Disconnect c s).
Proof. apply Disconnect_absent, Disconnect_unbound. Qed.

(** A connection made after [c] was disconnected is not affected by
    disconnecting [c] again: serials are not reused. *)
Lemma Disconnect_stale f c s :
  sig_ok s → c < issued s →
  sig_equiv (Disconnect c (Bind f (Disconnect c s)).2) (Bind f (Disconnect c s)).2.
Proof.
  intros Hok Hc. apply Disconnect_absent. rewrite serials_Bind, issued_Disconnect.
  intros [Hin| ->%list_elem_of_singleton]%elem_of_app; [|lia].
  by apply Disconnect_unbound in Hin.
Qed.

(** A serial that was issued and is not bound stays so: serials are never
    reused and a binding revoked does not come back. *)
Definition sig_revoked c s : Prop := c < issued s ∧ c ∉ serials s.

Lemma sig_revoked_Bind f c s : sig_revoked c s → sig_revoked c (Bind f s).2.
Proof.
  intros [Hlt Hc]. unfold sig_revoked. rewrite serials_Bind, issued_Bind. split; [lia|].
  intros [?| ->%list_elem_of_singleton]%elem_of_app; [done|lia].
Qed.

Lemma sig_revoked_Disconnect c' c s : sig_revoked c s → sig_revoked c (Disconnect c' s).
Proof.
  intros [Hlt Hc]. unfold sig_revoked. rewrite serials_Disconnect, issued_Disconnect.
  split; [done|]. by intros [_ ?]%list_elem_of_filter.
Qed.

End signal.
