(* ===== verification/World.v ===== *)
(** * The state of the program

    [EventPool] is the data of [EventBus::EventPool<Event>]: the signal
    [mSignal] and the buffer [mEventQueue]; [pool_type] records the template
    argument [Event], which the C++ object carries in its dynamic type.
    [World] is everything the member functions of the bus read or write: the
    statics of the registry, the vector [mEventPools] of the one [EventBus]
    object (a null pointer is [None]; a pointer to a pool is the index of its
    slot), and three ghost fields: [trace], the invocations of callables so
    far; [iter_queues] and [iter_pools], the vectors that a range-based [for]
    is walking at this moment; [hazard], raised when such a vector is
    modified.  This file defines the primitive accesses to that state (among
    them [arrow], the call of a member function through the pointer in a
    slot, which has no result through a null pointer), the
    well-formedness invariant [world_wf], the growth order [world_le],
    observational equality [obs_eq], and the relations that the steps of the
    bus are proved to respect ([same_walks], [calm] for iterator safety,
    [avoids] for revoked bindings, [packs] for the one-bus invariant
    [packed], [same_pools] for the slots that hold a pool), with the lemmas
    of each access. *)

From stdpp Require Import gmap list.
From S2P Require Import Prelude Registry Signal.

Section world.
Context {ty val callable sig : Type} `{Countable ty} `{!SignalOps callable sig}.

(** The data members of [EventPool<Event>]: lines 80-82 of EventBus.hpp. *)
Record EventPool : Type := mkEventPool {
  pool_type : ty;               (* the template argument [Event] *)
  mSignal : sig;                (* [Signal<void(Event)> mSignal] *)
  mEventQueue : list val;       (* [std::vector<Event> mEventQueue] *)
}.

(** One invocation of a bound callable: by which pool, through which binding,
    which callable, with which event. *)
Record Delivery : Type := mkDelivery {
  d_pool : nat;
  d_serial : nat;
  d_callable : callable;
  d_event : val;
}.

Record World : Type := mkWorld {
  registry : Registry ty;                   (* the statics of [GetEventId] *)
  mEventPools : list (option EventPool);    (* [std::vector<EventPoolBase*>] *)
  trace : list Delivery;                    (* ghost *)
  iter_queues : list nat;                   (* ghost: pools whose queue is being walked *)
  iter_pools : nat;                         (* ghost: walks of [mEventPools] in progress *)
  hazard : bool;                            (* ghost: an iterator was invalidated *)
}.

(** The program before any call: statics at their initial value, an empty
    bus. *)
Definition world_init : World := mkWorld registry_init [] [] [] 0 false.

(** [new EventPool<Event>]: no binding, nothing buffered. *)
Definition new_pool (t : ty) : EventPool := mkEventPool t sig_new [].

(** ** Field updates *)

Definition set_registry (r : Registry ty) (w : World) : World :=
  mkWorld r (mEventPools w) (trace w) (iter_queues w) (iter_pools w) (hazard w).

Definition set_pools (ps : list (option EventPool)) (w : World) : World :=
  mkWorld (registry w) ps (trace w) (iter_queues w) (iter_pools w) (hazard w).

(** Record the invocation of a callable. *)
Definition log (d : Delivery) (w : World) : World :=
  mkWorld (registry w) (mEventPools w) (trace w ++ [d]) (iter_queues w) (iter_pools w) (hazard w).

(** Record a sequence of invocations. *)
Definition log_all (ds : list Delivery) (w : World) : World :=
  mkWorld (registry w) (mEventPools w) (trace w ++ ds) (iter_queues w) (iter_pools w) (hazard w).

Definition set_iter_queues (q : list nat) (w : World) : World :=
  mkWorld (registry w) (mEventPools w) (trace w) q (iter_pools w) (hazard w).

Definition set_iter_pools (n : nat) (w : World) : World :=
  mkWorld (registry w) (mEventPools w) (trace w) (iter_queues w) n (hazard w).

(** Raise the hazard flag when [b] holds. *)
Definition flag (b : bool) (w : World) : World :=
  mkWorld (registry w) (mEventPools w) (trace w) (iter_queues w) (iter_pools w) (hazard w || b).

(** ** The pools *)

(** Dereference the slot [this] of a vector of pool pointers: [None] when the
    slot does not exist or holds a null pointer. *)
Definition slot (ps : list (option EventPool)) (this : nat) : option EventPool :=
  match ps !! this with
  | Some (Some p) => Some p
  | _ => None
  end.

(** The pool in slot [this] of [mEventPools]. *)
Definition pool_at (this : nat) (w : World) : option EventPool := slot (mEventPools w) this.

(** [p->f(...)]: the call of a member function through the pointer in slot
    [this].  Through a null pointer the behaviour is undefined: the call has
    no result. *)
Definition arrow (this : nat) (f : nat → World → option World) (w : World) : option World :=
  match pool_at this w with
  | Some _ => f this w
  | None => None
  end.

(** Write through the pointer in slot [this]. *)
Definition update_pool (this : nat) (f : EventPool → EventPool) (w : World) : World :=
  set_pools (alter (fmap f) this (mEventPools w)) w.

Definition with_queue (q : list val) (p : EventPool) : EventPool :=
  mkEventPool (pool_type p) (mSignal p) q.

Definition with_signal (s : sig) (p : EventPool) : EventPool :=
  mkEventPool (pool_type p) s (mEventQueue p).

(** The buffer of pool [this]; empty when there is no such pool. *)
Definition queue_of (this : nat) (w : World) : list val :=
  from_option mEventQueue [] (pool_at this w).

(** The bindings of pool [this]. *)
Definition bound_of (this : nat) (w : World) : list (nat * callable) :=
  from_option (λ p, bound (mSignal p)) [] (pool_at this w).

(** The number of bindings ever made on the signal of pool [this]: the serial
    the next binding gets. *)
Definition issued_of (this : nat) (w : World) : nat :=
  from_option (λ p, issued (mSignal p)) 0 (pool_at this w).

(** ** The vectors and their iterators *)

(** [mEventQueue.push_back(e)] on pool [this].  It invalidates the iterators of
    a walk of that queue. *)
Definition queue_push_back (this : nat) (e : val) (w : World) : World :=
  flag (bool_decide (this ∈ iter_queues w))
    (update_pool this (λ p, with_queue (mEventQueue p ++ [e]) p) w).

(** [mEventQueue.clear()] on pool [this]; likewise. *)
Definition queue_clear (this : nat) (w : World) : World :=
  flag (bool_decide (this ∈ iter_queues w)) (update_pool this (with_queue []) w).

(** [mEventPools.resize(n)]: new slots hold null.  It invalidates the iterators
    of a walk of [mEventPools]. *)
Definition pools_resize (n : nat) (w : World) : World :=
  flag (bool_decide (0 < iter_pools w)) (set_pools (resize n None (mEventPools w)) w).

(** A range-based [for] over the queue of [this] starts, ends. *)
Definition begin_queue_walk (this : nat) (w : World) : World :=
  set_iter_queues (this :: iter_queues w) w.

Definition end_queue_walk (w : World) : World :=
  set_iter_queues (tail (iter_queues w)) w.

(** A range-based [for] over [mEventPools] starts, ends. *)
Definition begin_pools_walk (w : World) : World := set_iter_pools (S (iter_pools w)) w.

Definition end_pools_walk (w : World) : World := set_iter_pools (pred (iter_pools w)) w.

(** ** Invariant and order *)

(** Well-formedness of the world.  The third clause is what makes the
    [static_cast<EventPool<Event>&>] of [GetEventHandler] sound: the pool in
    slot [i] was created for the type whose id is [i]. *)
Definition world_wf (w : World) : Prop :=
  registry_wf (registry w) ∧
  length (mEventPools w) ≤ next_id (registry w) ∧
  (∀ i p, pool_at i w = Some p → event_ids (registry w) !! pool_type p = Some i) ∧
  (∀ i p, pool_at i w = Some p → sig_ok (mSignal p)).

(** A pool only grows older: same type, no serial taken back. *)
Definition pool_le (p p' : EventPool) : Prop :=
  pool_type p = pool_type p' ∧ issued (mSignal p) ≤ issued (mSignal p').

(** The growth order of worlds: statics only grow, the vector never shrinks, a
    pool once created stays in its slot, the trace is only extended, a hazard
    stays raised. *)
Definition world_le (w w' : World) : Prop :=
  registry_le (registry w) (registry w') ∧
  length (mEventPools w) ≤ length (mEventPools w') ∧
  (∀ i p, pool_at i w = Some p → ∃ p', pool_at i w' = Some p' ∧ pool_le p p') ∧
  trace w `prefix_of` trace w' ∧
  (hazard w → hazard w').

(** The walks in progress are the same: what every member function guarantees
    on return. *)
Definition same_walks (w w' : World) : Prop :=
  iter_queues w = iter_queues w' ∧ iter_pools w = iter_pools w'.

(** Two worlds are observably equal when they agree on what callers of the bus
    can observe: the buffers, the bindings and the invocations made.  A slot
    that holds no pool and a slot that holds a pool without events and
    bindings are not told apart. *)
Definition obs_eq (w w' : World) : Prop :=
  (∀ i, queue_of i w = queue_of i w') ∧ (∀ i, bound_of i w = bound_of i w') ∧
  trace w = trace w'.

(** The invocation [d] was made through the binding with serial [c] of pool
    [i], the binding a connection names. *)
Definition from_binding (i c : nat) (d : Delivery) : Prop := d_pool d = i ∧ d_serial d = c.

(** The binding with serial [c] of pool [s] was made and has been revoked. *)
Definition revoked (s c : nat) (w : World) : Prop :=
  from_option (λ p, sig_revoked c (mSignal p)) False (pool_at s w).

(** A step avoids a revoked binding when it leaves it revoked and invokes
    nothing through it. *)
Definition avoids (s c : nat) (w w' : World) : Prop :=
  revoked s c w →
  revoked s c w' ∧ ∃ ds, trace w' = trace w ++ ds ∧ Forall (λ d, ¬ from_binding s c d) ds.

(** No range-based [for] of the bus is in progress: the state between two
    calls from outside the bus. *)
Definition no_walks (w : World) : Prop := iter_queues w = [] ∧ iter_pools w = 0.

(** A step is calm when, started outside every walk, it ends outside every
    walk and has invalidated no iterator. *)
Definition calm (w w' : World) : Prop :=
  no_walks w → no_walks w' ∧ hazard w' = hazard w.

(** No event is buffered in any pool. *)
(** The pools are packed: the vector has one slot per identifier issued, and
    every slot holds a pool.  It is what a program keeps that has one bus and
    reads identifiers through it only: the null checks of the loops over
    [mEventPools] never fail there. *)
Definition packed (w : World) : Prop :=
  registry_wf (registry w) ∧
  length (mEventPools w) = next_id (registry w) ∧
  ∀ i, i < next_id (registry w) → is_Some (pool_at i w).

(** A step keeps the pools packed. *)
Definition packs (w w' : World) : Prop := packed w → packed w'.

Definition queues_empty (w : World) : Prop := ∀ i, queue_of i w = [].

(** The same statics, and a pool in the same slots: what a step is to keep
    that resolves no event type. *)
Definition same_pools (w w' : World) : Prop :=
  registry w' = registry w ∧ ∀ i, is_Some (pool_at i w') ↔ is_Some (pool_at i w).

End world.

Arguments EventPool : clear implicits.
Arguments Delivery : clear implicits.
Arguments World ty val callable sig {_ _}.
Arguments pool_at {_ _ _ _ _ _} _ _ /.
Arguments update_pool {_ _ _ _ _ _} _ _ _ /.
Arguments arrow {_ _ _ _ _ _} _ _ _.
Arguments with_queue {_ _ _} _ _ /.
Arguments with_signal {_ _ _} _ _ /.
Arguments queue_push_back {_ _ _ _ _ _} _ _ _ /.
Arguments queue_clear {_ _ _ _ _ _} _ _ /.
Arguments pools_resize {_ _ _ _ _ _} _ _ /.
Arguments begin_queue_walk {_ _ _ _ _ _} _ _ /.
Arguments end_queue_walk {_ _ _ _ _ _} _ /.
Arguments begin_pools_walk {_ _ _ _ _ _} _ /.
Arguments end_pools_walk {_ _ _ _ _ _} _ /.
Arguments set_registry {_ _ _ _ _ _} _ _ /.
Arguments set_pools {_ _ _ _ _ _} _ _ /.
Arguments log {_ _ _ _ _ _} _ _ /.
Arguments log_all {_ _ _ _ _ _} _ _ /.
Arguments set_iter_queues {_ _ _ _ _ _} _ _ /.
Arguments set_iter_pools {_ _ _ _ _ _} _ _ /.
Arguments flag {_ _ _ _ _ _} _ _ /.

(** ** Lemmas on slots *)

Section slots.
Context {ty val sig : Type}.
Implicit Types (ps : list (option (EventPool ty val sig))) (p : EventPool ty val sig).

Lemma slot_Some ps i p : slot ps i = Some p ↔ ps !! i = Some (Some p).
Proof. unfold slot. destruct (ps !! i) as [[p'|]|]; naive_solver. Qed.

Lemma slot_lt ps i p : slot ps i = Some p → i < length ps.
Proof. rewrite slot_Some. apply lookup_lt_Some. Qed.

Lemma slot_ge ps i : length ps ≤ i → slot ps i = None.
Proof. intros Hi. unfold slot. by rewrite lookup_ge_None_2. Qed.

(** Writing through the pointer in slot [this] changes that pool only. *)
Lemma slot_alter ps this i (f : EventPool ty val sig → EventPool ty val sig) :
  slot (alter (fmap f) this ps) i = if decide (this = i) then f <$> slot ps this else slot ps i.
Proof.
  unfold slot. rewrite list_lookup_alter. destruct (decide (this = i)) as [->|]; [|done].
  by destruct (ps !! i) as [[p|]|].
Qed.

(** Storing a pointer in an existing slot. *)
Lemma slot_insert ps this i p :
  this < length ps →
  slot (<[this:=Some p]> ps) i = if decide (this = i) then Some p else slot ps i.
Proof.
  intros Hlt. unfold slot. destruct (decide (this = i)) as [->|Hne].
  - by rewrite list_lookup_insert_eq.
  - by rewrite list_lookup_insert_ne.
Qed.

(** Growing the vector adds null slots only. *)
Lemma slot_resize ps n i : length ps ≤ n → slot (resize n None ps) i = slot ps i.
Proof.
  intros Hn. unfold slot. destruct (decide (i < length ps)) as [Hi|Hi].
  - rewrite lookup_resize by lia. done.
  - rewrite (lookup_ge_None_2 ps) by lia. destruct (decide (i < n)).
    + rewrite lookup_resize_new by lia. done.
    + rewrite lookup_resize_old by lia. done.
Qed.

End slots.

#[export] Hint Rewrite @slot_alter @slot_insert @slot_resize using (simpl; lia) : ebus_rw.

(** ** The invariant and the order under the primitive accesses *)

Section world_lemmas.
Context {ty val callable sig : Type} `{Countable ty} `{!SignalOps callable sig}.
Implicit Types (w : World ty val callable sig) (p : EventPool ty val sig).

(** A call through a pointer is the call when the pointer is not null, and
    has no result when it is. *)
Lemma arrow_Some this (f : nat → World ty val callable sig → option (World ty val callable sig)) w :
  is_Some (pool_at this w) → arrow this f w = f this w.
Proof. unfold arrow. by intros [p ->]. Qed.

Lemma arrow_None this (f : nat → World ty val callable sig → option (World ty val callable sig)) w :
  pool_at this w = None → arrow this f w = None.
Proof. unfold arrow. by intros ->. Qed.

#[export] Instance pool_le_preorder : PreOrder (pool_le (ty:=ty) (val:=val) (sig:=sig)).
Proof.
  split.
  - by intros p.
  - intros p1 p2 p3 [? ?] [? ?]. split; [congruence|lia].
Qed.

#[export] Instance world_le_preorder :
  PreOrder (world_le (ty:=ty) (val:=val) (callable:=callable) (sig:=sig)).
Proof.
  split.
  - intros w. split_and!; [done..| |done|done]. intros i p Hp. by exists p.
  - intros w1 w2 w3 (Hr1 & Hl1 & Hp1 & Ht1 & Hh1) (Hr2 & Hl2 & Hp2 & Ht2 & Hh2).
    split_and!; [by etrans|lia| |by etrans|auto].
    intros i p Hp. destruct (Hp1 i p Hp) as (p2 & Hp2' & Hle2).
    destruct (Hp2 i p2 Hp2') as (p3 & Hp3 & Hle3). exists p3. split; [done|by etrans].
Qed.

#[export] Instance same_walks_equivalence :
  Equivalence (same_walks (ty:=ty) (val:=val) (callable:=callable) (sig:=sig)).
Proof.
  split.
  - by intros w.
  - by intros w1 w2 [? ?].
  - intros w1 w2 w3 [? ?] [? ?]. split; congruence.
Qed.

#[export] Instance obs_eq_equivalence :
  Equivalence (obs_eq (ty:=ty) (val:=val) (callable:=callable) (sig:=sig)).
Proof.
  split.
  - by intros w.
  - intros w1 w2 (Hq & Hb & Ht). by split_and!.
  - intros w1 w2 w3 (Hq & Hb & Ht) (Hq' & Hb' & Ht'). split_and!; intros; congruence.
Qed.

#[export] Instance queue_of_proper i :
  Proper (obs_eq ==> (=)) (queue_of (ty:=ty) (val:=val) (callable:=callable) (sig:=sig) i).
Proof. intros w1 w2 (Hq & _). apply Hq. Qed.

#[export] Instance bound_of_proper i :
  Proper (obs_eq ==> (=)) (bound_of (ty:=ty) (val:=val) (callable:=callable) (sig:=sig) i).
Proof. intros w1 w2 (_ & Hb & _). apply Hb. Qed.

#[export] Instance trace_proper :
  Proper (obs_eq ==> (=)) (trace (ty:=ty) (val:=val) (callable:=callable) (sig:=sig)).
Proof. by intros w1 w2 (_ & _ & Ht). Qed.

(** Both [world_wf] and [world_le] look at the statics and the pools only
    (and [world_le] at the trace and the flag). *)
Lemma world_wf_frame w w' :
  registry w' = registry w → mEventPools w' = mEventPools w → world_wf w → world_wf w'.
Proof. unfold world_wf. simpl. by intros -> ->. Qed.

Lemma world_le_frame w w' :
  registry w' = registry w → mEventPools w' = mEventPools w →
  trace w `prefix_of` trace w' → (hazard w → hazard w') → world_le w w'.
Proof.
  intros Hr Hp Ht Hh. unfold world_le. simpl. rewrite Hr, Hp.
  split_and!; [done..| |done|done]. intros i p Hi. by exists p.
Qed.

#[export] Instance calm_preorder :
  PreOrder (calm (ty:=ty) (val:=val) (callable:=callable) (sig:=sig)).
Proof.
  split; [by intros w|]. intros w1 w2 w3 H12 H23 Hw.
  destruct (H12 Hw) as [Hw2 Hh2]. destruct (H23 Hw2) as [Hw3 Hh3]. split; congruence.
Qed.

(** A step that touches neither the walks nor the hazard flag is calm. *)
Lemma calm_frame w w' :
  iter_queues w' = iter_queues w → iter_pools w' = iter_pools w → hazard w' = hazard w →
  calm w w'.
Proof. intros Hq Hp Hh [Hwq Hwp]. unfold no_walks. by rewrite Hq, Hp. Qed.

(** Outside every walk the vector operations invalidate no iterator. *)
Lemma calm_push_back this e w : calm w (queue_push_back this e w).
Proof.
  intros [Hq Hp]. split; [done|]. simpl.
  rewrite Hq, bool_decide_eq_false_2, orb_false_r; [done|apply not_elem_of_nil].
Qed.

Lemma calm_clear this w : calm w (queue_clear this w).
Proof.
  intros [Hq Hp]. split; [done|]. simpl.
  rewrite Hq, bool_decide_eq_false_2, orb_false_r; [done|apply not_elem_of_nil].
Qed.

Lemma calm_resize n w : calm w (pools_resize n w).
Proof.
  intros [Hq Hp]. split; [done|]. simpl.
  rewrite Hp, bool_decide_eq_false_2, orb_false_r; [done|lia].
Qed.

#[export] Instance same_pools_preorder :
  PreOrder (same_pools (ty:=ty) (val:=val) (callable:=callable) (sig:=sig)).
Proof.
  split; [by intros w|]. intros w1 w2 w3 [Hr1 Hp1] [Hr2 Hp2].
  split; [congruence|]. intros i. by rewrite Hp2.
Qed.

(** A step that leaves the statics and the vector alone. *)
Lemma same_pools_frame w w' :
  registry w' = registry w → mEventPools w' = mEventPools w → same_pools w w'.
Proof. intros Hr Hp. split; [done|]. intros i. unfold pool_at. by rewrite Hp. Qed.

(** A write through the pointer in a slot. *)
Lemma same_pools_update_pool this (g : EventPool ty val sig → EventPool ty val sig) w :
  same_pools w (update_pool this g w).
Proof.
  split; [done|]. intros i. unfold pool_at. simpl. rewrite slot_alter.
  destruct (decide (this = i)) as [->|]; [by rewrite fmap_is_Some|done].
Qed.

Lemma same_pools_push_back this e w : same_pools w (queue_push_back this e w).
Proof.
  trans (update_pool this (λ p, with_queue (mEventQueue p ++ [e]) p) w);
    [apply same_pools_update_pool|by apply same_pools_frame].
Qed.

Lemma same_pools_clear this w : same_pools w (queue_clear this w).
Proof.
  trans (update_pool this (with_queue []) w);
    [apply same_pools_update_pool|by apply same_pools_frame].
Qed.

#[export] Instance packs_preorder :
  PreOrder (packs (ty:=ty) (val:=val) (callable:=callable) (sig:=sig)).
Proof. split; [by intros w Hw|]. intros w1 w2 w3 H12 H23 Hw. by apply H23, H12. Qed.

(** A step that creates no identifier and removes no pool keeps the pools
    packed. *)
Lemma packs_frame w w' :
  registry w' = registry w → length (mEventPools w') = length (mEventPools w) →
  (∀ i, is_Some (pool_at i w) → is_Some (pool_at i w')) → packs w w'.
Proof.
  intros Hr Hl Hp (Hwf & Hlen & Hsome). unfold packed. rewrite Hr, Hl. auto.
Qed.

Lemma packs_update_pool this (g : EventPool ty val sig → EventPool ty val sig) w :
  packs w (update_pool this g w).
Proof.
  apply packs_frame; [done|apply length_alter|]. intros i. unfold pool_at. simpl.
  rewrite slot_alter. destruct (decide (this = i)) as [->|]; [|done]. by rewrite fmap_is_Some.
Qed.

Lemma packs_push_back this e w : packs w (queue_push_back this e w).
Proof. apply (packs_update_pool this (λ p, with_queue (mEventQueue p ++ [e]) p)). Qed.

Lemma packs_clear this w : packs w (queue_clear this w).
Proof. apply (packs_update_pool this (with_queue [])). Qed.

(** In a packed world the slots below the size of the vector are not null. *)
Lemma packed_pool_at w i : packed w → i < length (mEventPools w) → is_Some (pool_at i w).
Proof. intros (_ & Hlen & Hsome) Hi. apply Hsome. by rewrite <-Hlen. Qed.

Lemma world_init_packed :
  packed (world_init (ty:=ty) (val:=val) (callable:=callable) (sig:=sig)).
Proof. split_and!; [apply registry_init_wf|done|]. intros i Hi. simpl in Hi. lia. Qed.

#[export] Instance avoids_preorder s c :
  PreOrder (avoids (ty:=ty) (val:=val) (callable:=callable) (sig:=sig) s c).
Proof.
  split.
  - intros w Hw. split; [done|]. exists []. by rewrite app_nil_r.
  - intros w1 w2 w3 H12 H23 Hw. destruct (H12 Hw) as (Hw2 & ds2 & Ht2 & Hds2).
    destruct (H23 Hw2) as (Hw3 & ds3 & Ht3 & Hds3). split; [done|].
    exists (ds2 ++ ds3). split; [by rewrite Ht3, Ht2, app_assoc|by apply Forall_app].
Qed.

(** A step that touches neither the pool nor the trace avoids the binding. *)
Lemma avoids_frame s c w w' :
  pool_at s w' = pool_at s w → trace w' = trace w → avoids s c w w'.
Proof.
  intros Hp Ht Hw. unfold revoked. rewrite Hp. split; [done|]. exists [].
  by rewrite app_nil_r.
Qed.

(** Recording an invocation through another binding. *)
Lemma avoids_log s c d w : ¬ from_binding s c d → avoids s c w (log d w).
Proof. intros Hd Hw. split; [done|]. exists [d]. split; [done|]. by constructor. Qed.

(** A write to a pool that keeps revoked serials revoked. *)
Lemma avoids_update_pool s c this (g : EventPool ty val sig → EventPool ty val sig) w :
  (∀ p, sig_revoked c (mSignal p) → sig_revoked c (mSignal (g p))) →
  avoids s c w (update_pool this g w).
Proof.
  intros Hg Hw. split; [|exists []; by rewrite app_nil_r].
  unfold revoked in *. simpl in *. rewrite slot_alter.
  destruct (decide (this = s)) as [->|]; [|done].
  destruct (slot (mEventPools w) s); simpl in *; [by apply Hg|done].
Qed.

Lemma avoids_push_back s c this e w : avoids s c w (queue_push_back this e w).
Proof.
  trans (update_pool this (λ p, with_queue (mEventQueue p ++ [e]) p) w);
    [by apply avoids_update_pool|by apply avoids_frame].
Qed.

Lemma avoids_clear s c this w : avoids s c w (queue_clear this w).
Proof.
  trans (update_pool this (with_queue []) w);
    [by apply avoids_update_pool|by apply avoids_frame].
Qed.

Lemma hazard_flag_mono b w : hazard w → hazard (flag b w).
Proof. simpl. intros Hh. by apply orb_True; left. Qed.

(** Writing to a pool keeps the world well formed when the write keeps the
    pool's type and a well-formed signal. *)
Lemma world_wf_update_pool this (f : EventPool ty val sig → EventPool ty val sig) w :
  world_wf w →
  (∀ p, pool_at this w = Some p → pool_type (f p) = pool_type p ∧ sig_ok (mSignal (f p))) →
  world_wf (update_pool this f w).
Proof.
  intros (Hr & Hl & Hty & Hok) Hf. unfold world_wf. simpl in *.
  rewrite length_alter. split_and!; [done..| |]; intros i p; rewrite slot_alter;
    (destruct (decide (this = i)) as [->|]; [|by eauto]);
    intros (p0 & Hp0 & ->)%fmap_Some; destruct (Hf _ Hp0) as [Hty' Hok']; [|done].
  rewrite Hty'. eauto.
Qed.

(** Writing to a pool is growth when the pool only grows older. *)
Lemma world_le_update_pool this (f : EventPool ty val sig → EventPool ty val sig) w :
  (∀ p, pool_at this w = Some p → pool_le p (f p)) → world_le w (update_pool this f w).
Proof.
  intros Hf. unfold world_le. simpl in *. rewrite length_alter.
  split_and!; [done..| |done|done]. intros i p Hp. rewrite slot_alter.
  destruct (decide (this = i)) as [->|]; [|by exists p].
  exists (f p). rewrite Hp. split; [done|]. by apply Hf.
Qed.

(** Replacing the buffer of a pool. *)
Lemma world_wf_with_queue this (g : EventPool ty val sig → list val) w :
  world_wf w → world_wf (update_pool this (λ p, with_queue (g p) p) w).
Proof.
  intros Hwf. apply world_wf_update_pool; [done|]. intros p Hp. split; [done|].
  destruct Hwf as (_ & _ & _ & Hok). simpl. by apply (Hok this).
Qed.

Lemma world_le_with_queue this (g : EventPool ty val sig → list val) w :
  world_le w (update_pool this (λ p, with_queue (g p) p) w).
Proof. apply world_le_update_pool. by intros p _. Qed.

(** Replacing the signal of a pool by one that is well formed and as old. *)
Lemma world_wf_with_signal this (g : sig → sig) w :
  world_wf w → (∀ s, sig_ok s → sig_ok (g s)) →
  world_wf (update_pool this (λ p, with_signal (g (mSignal p)) p) w).
Proof.
  intros Hwf Hg. apply world_wf_update_pool; [done|]. intros p Hp. split; [done|].
  destruct Hwf as (_ & _ & _ & Hok). simpl. by apply Hg, (Hok this).
Qed.

Lemma world_le_with_signal this (g : sig → sig) w :
  (∀ s, issued s ≤ issued (g s)) →
  world_le w (update_pool this (λ p, with_signal (g (mSignal p)) p) w).
Proof. intros Hg. apply world_le_update_pool. intros p _. split; [done|apply Hg]. Qed.

(** Growing [mEventPools], within the ids issued. *)
Lemma world_wf_resize n w :
  world_wf w → length (mEventPools w) ≤ n → n ≤ next_id (registry w) →
  world_wf (set_pools (resize n None (mEventPools w)) w).
Proof.
  intros (Hr & Hl & Hty & Hok) Hn Hn'. unfold world_wf. simpl in *.
  rewrite length_resize. split_and!; [done..| |]; intros i p; rewrite slot_resize by done; eauto.
Qed.

Lemma world_le_resize n w :
  length (mEventPools w) ≤ n → world_le w (set_pools (resize n None (mEventPools w)) w).
Proof.
  intros Hn. unfold world_le. simpl. rewrite length_resize.
  split_and!; [done..| |done|done]. intros i p Hp. exists p. by rewrite slot_resize.
Qed.

(** Storing a new pool for type [t] in the null slot that has [t]'s id. *)
Lemma world_wf_new_pool t idx w :
  world_wf w → idx < length (mEventPools w) → event_ids (registry w) !! t = Some idx →
  world_wf (set_pools (<[idx:=Some (new_pool t)]> (mEventPools w)) w).
Proof.
  intros (Hr & Hl & Hty & Hok) Hidx Ht. unfold world_wf. simpl in *.
  rewrite length_insert. split_and!; [done..| |]; intros i p; rewrite slot_insert by done;
    destruct (decide (idx = i)) as [->|]; eauto; intros [= <-]; [done|apply sig_ok_new].
Qed.

Lemma world_le_new_pool (p0 : EventPool ty val sig) idx w :
  pool_at idx w = None → idx < length (mEventPools w) →
  world_le w (set_pools (<[idx:=Some p0]> (mEventPools w)) w).
Proof.
  intros Hnone Hidx. unfold world_le. simpl in *. rewrite length_insert.
  split_and!; [done..| |done|done]. intros i p Hp. rewrite slot_insert by done.
  destruct (decide (idx = i)) as [->|]; [congruence|by exists p].
Qed.

(** Advancing the statics. *)
Lemma world_wf_set_registry r w :
  world_wf w → registry_wf r → registry_le (registry w) r → world_wf (set_registry r w).
Proof.
  intros (Hr & Hl & Hty & Hok) Hr' [Hle Hsub]. unfold world_wf. simpl in *.
  split_and!; [done|lia| |done]. intros i p Hp. eapply lookup_weaken; eauto.
Qed.

Lemma world_le_set_registry r w : registry_le (registry w) r → world_le w (set_registry r w).
Proof.
  intros Hle. unfold world_le. simpl. split_and!; [done..| |done|done].
  intros i p Hp. by exists p.
Qed.

Lemma world_init_wf : world_wf (world_init (ty:=ty) (val:=val) (callable:=callable) (sig:=sig)).
Proof. unfold world_wf. simpl. split_and!; [apply registry_init_wf|lia|done|done]. Qed.

(** Logging step by step is logging at once. *)
Lemma log_all_nil w : log_all [] w = w.
Proof. destruct w. simpl. by rewrite app_nil_r. Qed.

Lemma log_all_app ds1 ds2 w : log_all ds2 (log_all ds1 w) = log_all (ds1 ++ ds2) w.
Proof. simpl. by rewrite app_assoc. Qed.

Lemma log_log_all d ds w : log_all ds (log d w) = log_all (d :: ds) w.
Proof. simpl. by rewrite <-app_assoc. Qed.

(** A loop whose iterations only record invocations records them all, in
    order, provided what an iteration records does not depend on the trace. *)
Lemma for_each_log_all {A} (G : World ty val callable sig → A → list (Delivery val callable))
    (body : A → World ty val callable sig → option (World ty val callable sig)) es w :
  (∀ a w', body a w' = Some (log_all (G w' a) w')) →
  (∀ ds w' a, G (log_all ds w') a = G w' a) →
  for_each body es w = Some (log_all (es ≫= G w) w).
Proof.
  intros Hbody HG. revert w. induction es as [|a es IH]; intros w.
  - simpl. by rewrite app_nil_r; destruct w.
  - rewrite for_each_cons, Hbody, bind_Some_l, IH, log_all_app. do 2 f_equal.
    rewrite bind_cons. f_equal. apply list_bind_ext; [|done]. intros a'. apply HG.
Qed.

(** ** The buffer and the bindings of a pool under the vector operations *)

Lemma queue_of_push_back this e w p :
  pool_at this w = Some p →
  queue_of this (queue_push_back this e w) = queue_of this w ++ [e].
Proof. unfold queue_of. simpl. intros Hp. rewrite slot_alter, decide_True, Hp by done. done. Qed.

Lemma pool_at_push_back_ne this i e w :
  this ≠ i → pool_at i (queue_push_back this e w) = pool_at i w.
Proof. simpl. intros Hne. by rewrite slot_alter, decide_False. Qed.

Lemma queue_of_clear this w : queue_of this (queue_clear this w) = [].
Proof. unfold queue_of. simpl. rewrite slot_alter, decide_True by done. by destruct (slot _ _). Qed.

Lemma pool_at_clear_ne this i w : this ≠ i → pool_at i (queue_clear this w) = pool_at i w.
Proof. simpl. intros Hne. by rewrite slot_alter, decide_False. Qed.

Lemma queue_of_push_back_ne this i e w :
  this ≠ i → queue_of i (queue_push_back this e w) = queue_of i w.
Proof. intros Hne. unfold queue_of. by rewrite pool_at_push_back_ne. Qed.

Lemma queue_of_clear_ne this i w : this ≠ i → queue_of i (queue_clear this w) = queue_of i w.
Proof. intros Hne. unfold queue_of. by rewrite pool_at_clear_ne. Qed.

(** A slot without a pool has no events and no bindings. *)
Lemma queue_of_None i w : pool_at i w = None → queue_of i w = [].
Proof. unfold queue_of. by intros ->. Qed.

Lemma bound_of_None i w : pool_at i w = None → bound_of i w = [].
Proof. unfold bound_of. by intros ->. Qed.

(** A new pool has no events and no bindings. *)
Lemma new_pool_empty (t : ty) :
  mEventQueue (new_pool (val:=val) t) = [] ∧ bound (mSignal (new_pool (val:=val) t)) = [].
Proof. split; [done|apply bound_new]. Qed.

(** The buffers and bindings are those of the pools. *)
Lemma queue_of_frame i w w' : pool_at i w' = pool_at i w → queue_of i w' = queue_of i w.
Proof. unfold queue_of. by intros ->. Qed.

Lemma bound_of_frame i w w' : pool_at i w' = pool_at i w → bound_of i w' = bound_of i w.
Proof. unfold bound_of. by intros ->. Qed.

(** In a well-formed world the next serial of a pool is not bound in it. *)
Lemma issued_of_fresh i w : world_wf w → issued_of i w ∉ (bound_of i w).*1.
Proof.
  intros (_ & _ & _ & Hok). unfold issued_of, bound_of.
  destruct (pool_at i w) as [p|] eqn:Hp; simpl; [|apply not_elem_of_nil].
  destruct (Hok i p Hp) as [Hlt _]. intros Hin.
  rewrite Forall_forall in Hlt. apply Hlt in Hin. lia.
Qed.

(** Recording invocations touches no pool. *)
Lemma queue_of_log_all i ds w : queue_of i (log_all ds w) = queue_of i w.
Proof. done. Qed.

Lemma bound_of_log_all i ds w : bound_of i (log_all ds w) = bound_of i w.
Proof. done. Qed.

Lemma bound_of_log i d w : bound_of i (log d w) = bound_of i w.
Proof. done. Qed.

(** Replacing a signal leaves every buffer as it is, and the bindings of the
    other pools. *)
Lemma queue_of_with_signal this i (g : EventPool ty val sig → sig) w :
  queue_of i (update_pool this (λ p, with_signal (g p) p) w) = queue_of i w.
Proof.
  unfold queue_of. simpl. rewrite slot_alter. destruct (decide (this = i)) as [->|]; [|done].
  by destruct (slot _ _).
Qed.

Lemma bound_of_with_signal this (g : EventPool ty val sig → sig) w p :
  pool_at this w = Some p →
  bound_of this (update_pool this (λ p, with_signal (g p) p) w) = bound (g p).
Proof. unfold bound_of. simpl. intros Hp. by rewrite slot_alter, decide_True, Hp. Qed.

Lemma bound_of_with_signal_ne this i (g : EventPool ty val sig → sig) w :
  this ≠ i → bound_of i (update_pool this (λ p, with_signal (g p) p) w) = bound_of i w.
Proof. unfold bound_of. simpl. intros Hne. by rewrite slot_alter, decide_False. Qed.

(** Replacing a buffer leaves every signal as it is. *)
Lemma bound_of_with_queue this i (q : EventPool ty val sig → list val) w :
  bound_of i (update_pool this (λ p, with_queue (q p) p) w) = bound_of i w.
Proof.
  unfold bound_of. simpl. rewrite slot_alter. destruct (decide (this = i)) as [->|]; [|done].
  by destruct (slot _ _).
Qed.

(** A pool of a well-formed world sits below the counter of the registry. *)
Lemma world_wf_pool_lt w i p : world_wf w → pool_at i w = Some p → i < next_id (registry w).
Proof. intros (_ & Hl & _) Hp%slot_lt. simpl in *. lia. Qed.

(** In a growing world a pool stays where it is. *)
Lemma world_le_pool_at w w' i p :
  world_le w w' → pool_at i w = Some p → ∃ p', pool_at i w' = Some p' ∧ pool_le p p'.
Proof. intros (_ & _ & Hp & _). apply Hp. Qed.

End world_lemmas.

#[export] Hint Resolve world_wf_with_queue world_le_with_queue world_le_update_pool
  world_init_wf : ebus.
