(* ===== verification/Callable.v ===== *)
(** * What the bus asks of the callables it invokes

    The pool and the bus run user code: a bound callable may do anything the
    public interface of the bus allows, including calling the bus again.  In
    the model the invoker of callables is a parameter [call] of the pool and
    the bus; this file states, as classes, what the theorems of the pool and
    the bus assume of it.  [Callback] is the rely-guarantee contract: a
    callable leaves the world well formed, only lets it grow, and ends the
    walks it starts.  Every member function of the bus guarantees the same
    ([sound]), so that the interpreter of [Exec] can close the loop.
    [Discreet] says that a callable leaves revoked bindings revoked and
    invokes nothing through them, as every callable does that acts on the
    bus through its member functions.  [Tidy] says that a callable keeps
    the pools packed, as every callable does that reads event identifiers
    through the bus only.  [Returning] says that callables return; [Passive]
    that they do not touch the bus at all. *)

From stdpp Require Import gmap list.
From S2P Require Import Prelude Registry Signal World.

Section callable.
Context {ty val callable sig : Type} `{Countable ty} `{!SignalOps callable sig}.
Abbreviation World := (World ty val callable sig).
Implicit Types (w : World) (f : World → option World) (g : World → World).

(** A state transformer is sound when it preserves [world_wf], makes the world
    grow, and leaves the walks in progress as they were. *)
Definition sound f : Prop :=
  ({{ world_wf }} f {{ world_wf }}) ∧ relates world_le f ∧ relates same_walks f.

(** The same for a function that always returns. *)
Definition sound_fn g : Prop :=
  (∀ w, world_wf w → world_wf (g w)) ∧ (∀ w, world_le w (g w)) ∧ (∀ w, same_walks w (g w)).

(** The contract of the callable invoker. *)
Class Callback (call : callable → val → World → option World) : Prop :=
  call_sound h e : sound (call h e).

(** Callables return when started in a well-formed world. *)
Class Returning (call : callable → val → World → option World) : Prop :=
  call_returns h e : total_on world_wf (call h e).

(** Callables that do not call the bus. *)
Class Passive (call : callable → val → World → option World) : Prop :=
  call_passive h e w : call h e w = Some w.

(** Callables that leave revoked bindings revoked and do not invoke through
    them: every callable that acts on the bus through its member functions
    only. *)
Class Discreet (call : callable → val → World → option World) : Prop :=
  call_discreet s c h e : relates (avoids s c) (call h e).

(** Callables that keep the pools packed: every callable that reads event
    identifiers through the bus only. *)
Class Tidy (call : callable → val → World → option World) : Prop :=
  call_tidy h e : relates packs (call h e).

(** The invoker of callables that do nothing. *)
Definition call_skip : callable → val → World → option World := λ _ _ w, Some w.

Lemma sound_ret g : sound_fn g → sound (λ w, Some (g w)).
Proof.
  intros (Hwf & Hle & Hwalk). split_and!.
  - by apply triple_ret.
  - by apply relates_ret.
  - by apply relates_ret.
Qed.

Lemma sound_id : sound (λ w, Some w).
Proof. apply (sound_ret id). split_and!; [by intros w|intros w; reflexivity..]. Qed.

Lemma sound_bind f1 f2 : sound f1 → sound f2 → sound (λ w, f1 w ≫= f2).
Proof.
  intros (Hwf1 & Hle1 & Hwalk1) (Hwf2 & Hle2 & Hwalk2). split_and!.
  - by eapply triple_bind.
  - apply (relates_bind world_le); [exact Hle1|exact Hle2].
  - apply (relates_bind same_walks); [exact Hwalk1|exact Hwalk2].
Qed.

(** A function that returns, composed with a sound transformer. *)
Lemma sound_after g f : sound_fn g → sound f → sound (λ w, f (g w)).
Proof.
  intros Hg Hf. apply sound_ret in Hg.
  destruct (sound_bind _ _ Hg Hf) as (Hwf & Hle & Hwalk). by split_and!.
Qed.

Lemma sound_for_each {A} (body : A → World → option World) (l : list A) :
  (∀ a, a ∈ l → sound (body a)) → sound (for_each body l).
Proof.
  intros Hbody. split_and!.
  - apply for_each_triple. intros a Ha. by apply Hbody.
  - apply for_each_relates; [apply _|]. intros a Ha. by apply Hbody.
  - apply for_each_relates; [apply _|]. intros a Ha. by apply Hbody.
Qed.

Lemma sound_fn_compose g1 g2 : sound_fn g1 → sound_fn g2 → sound_fn (g2 ∘ g1).
Proof.
  intros (Hwf1 & Hle1 & Hwalk1) (Hwf2 & Hle2 & Hwalk2). split_and!; intros w; simpl.
  - auto.
  - etrans; [apply Hle1|apply Hle2].
  - etrans; [apply Hwalk1|apply Hwalk2].
Qed.

(** Recording an invocation is sound. *)
Lemma sound_fn_log d : sound_fn (log d).
Proof.
  split_and!; intros w.
  - by apply world_wf_frame.
  - apply world_le_frame; [done..|by apply prefix_app_r|done].
  - done.
Qed.

(** Raising the hazard flag is sound. *)
Lemma sound_fn_flag (b : World → bool) : sound_fn (λ w, flag (b w) w).
Proof.
  split_and!; intros w.
  - by apply world_wf_frame.
  - apply world_le_frame; [done..|]. apply hazard_flag_mono.
  - done.
Qed.

(** Replacing the buffer of a pool, with or without a hazard, is sound. *)
Lemma sound_fn_queue_write this (q : EventPool ty val sig → list val) (b : World → bool) :
  sound_fn (λ w, flag (b w) (update_pool this (λ p, with_queue (q p) p) w)).
Proof.
  split_and!; intros w.
  - intros Hwf. apply (world_wf_frame (update_pool this (λ p, with_queue (q p) p) w)); [done..|].
    by apply (world_wf_with_queue this q).
  - etrans; [apply (world_le_with_queue this q)|]. apply world_le_frame; [done..|].
    apply hazard_flag_mono.
  - done.
Qed.

(** Replacing the signal of a pool is sound when the new signal is. *)
Lemma sound_fn_signal_write this (g : sig → sig) :
  (∀ s, sig_ok s → sig_ok (g s)) → (∀ s, issued s ≤ issued (g s)) →
  sound_fn (λ w, update_pool this (λ p, with_signal (g (mSignal p)) p) w).
Proof.
  intros Hok Hle. split_and!; intros w.
  - intros Hwf. by apply world_wf_with_signal.
  - by apply world_le_with_signal.
  - done.
Qed.

(** A sound function followed by a transformer chosen from the state before. *)
Lemma sound_after_dep g (f : World → World → option World) :
  sound_fn g → (∀ w0, sound (f w0)) → sound (λ w, f w (g w)).
Proof.
  intros (Hwf & Hle & Hwalk) Hf. split_and!; intros w w'; [intros Hw|..]; intros Hrun;
    destruct (Hf w) as (Hwf' & Hle' & Hwalk').
  - eapply Hwf'; [|done]. auto.
  - etrans; [apply Hle|]. by apply Hle'.
  - etrans; [apply Hwalk|]. by apply Hwalk'.
Qed.

Lemma sound_fn_after_dep g (g' : World → World → World) :
  sound_fn g → (∀ w0, sound_fn (g' w0)) → sound_fn (λ w, g' w (g w)).
Proof.
  intros (Hwf & Hle & Hwalk) Hg'. split_and!; intros w;
    destruct (Hg' w) as (Hwf' & Hle' & Hwalk').
  - auto.
  - etrans; [apply Hle|apply Hle'].
  - etrans; [apply Hwalk|apply Hwalk'].
Qed.

(** A loop whose body always returns. *)
Lemma sound_fn_foldl {A} (body : World → A → World) (l : World → list A) :
  (∀ a, sound_fn (λ w, body w a)) → sound_fn (λ w, foldl body w (l w)).
Proof.
  intros Hbody.
  assert (∀ l', sound_fn (λ w, foldl body w l')) as Hl.
  { induction l' as [|a l' IH]; [by split_and!; intros w|].
    apply (sound_fn_compose (λ w, body w a) (λ w, foldl body w l')); auto. }
  split_and!; intros w; apply (Hl (l w)).
Qed.

#[export] Instance call_skip_passive : Passive call_skip.
Proof. by intros h e w. Qed.

#[export] Instance passive_callback call `{!Passive call} : Callback call.
Proof.
  intros h e. split_and!; intros w w'; rewrite call_passive.
  - by intros ? [= <-].
  - by intros [= <-].
  - by intros [= <-].
Qed.

#[export] Instance passive_discreet call `{!Passive call} : Discreet call.
Proof. intros s c h e w w'. rewrite call_passive. by intros [= <-]. Qed.

#[export] Instance passive_tidy call `{!Passive call} : Tidy call.
Proof. intros h e w w'. rewrite call_passive. by intros [= <-]. Qed.

#[export] Instance passive_returning call `{!Passive call} : Returning call.
Proof. intros h e w _. rewrite call_passive. by eexists. Qed.

End callable.

#[export] Hint Resolve sound_ret sound_id sound_bind sound_for_each sound_fn_log
  sound_fn_flag : ebus.
