(* ===== verification/EventPool.v ===== *)
(** * The event pool: [EventBus::EventPool<Event>]

    One definition per member function of the class (lines 32-83 of
    EventBus.hpp), each acting on the world through the pointer [this], the
    index of the pool in [mEventPools].  The definitions are the bodies of
    the member functions, as they run on a pool that exists.  The bus calls
    them on the reference that [GetEventHandler] returns, which is to a pool
    ([EventBus.GetEventHandler_spec]), or through the pointer in a slot
    ([World.arrow], which has no result on a null pointer); at an index that
    holds no pool the bodies do nothing.  [call] is the invoker of user
    callables.
    The theorems: every member function is sound for any invoker that
    satisfies [Callback], returns when callables return, is monotone in the
    invoker and invokes nothing through a revoked binding; the exact effect
    of each member function when callables are passive; what a trigger and a
    dispatch guarantee whatever the callables do (the nesting of the
    invocations, the emptiness of the flushed buffer). *)

From stdpp Require Import gmap list.
From S2P Require Import Prelude Registry Signal World Callable.

Module EventPool.

Section pool.
Context {ty val callable sig : Type} `{Countable ty} `{!SignalOps callable sig}.
Abbreviation World := (World ty val callable sig).
Context (call : callable → val → World → option World).
Implicit Types (this : nat) (event : val) (w : World).

(** [mSignal(event)] in a member function of the pool [this]: every callable
    bound to the signal of the pool is invoked with the event; the invocation
    is recorded before the callable runs. *)
Definition emit this event w : option World :=
  match pool_at this w with
  | Some p =>
      Invoke (λ c f w', call f event (log (mkDelivery this c f event) w')) (mSignal p) w
  | None => Some w
  end.

(** [TriggerEvent(args...)]: [Event event{args...}; mSignal(event);]
    The member functions take the event constructed; file [Construct] has
    the construction from the arguments. *)
Definition TriggerEvent this event w : option World := emit this event w.

(** [EnqueueEvent(args...)], both overloads:
    [mEventQueue.push_back({args...})] and [mEventQueue.emplace_back(args...)]. *)
Definition EnqueueEvent this event w : World := queue_push_back this event w.

(** [ClearEventQueue()]: [mEventQueue.clear();] *)
Definition ClearEventQueue this w : World := queue_clear this w.

(** [DispatchQueuedEvents()]:
    [for (auto &event : mEventQueue) mSignal(event); ClearEventQueue();]
    The loop walks the events that are in the buffer when it starts. *)
Definition DispatchQueuedEvents this w : option World :=
  w' ← for_each (emit this) (queue_of this w) (begin_queue_walk this w);
  Some (ClearEventQueue this (end_queue_walk w')).

(** [DispatchEvents()], the member function that the selective
    [DispatchQueuedEvents<Event...>] of the bus calls.  The class declares no
    member of that name; the specification has the selective flush do what
    [DispatchQueuedEvents()] of the pool does. *)
Definition DispatchEvents this w : option World := DispatchQueuedEvents this w.

(** ** What a dispatch delivers when callables are passive *)

(** The invocations of one [mSignal(event)]: one per binding, in subscription
    order. *)
Definition deliveries this (bs : list (nat * callable)) event : list (Delivery val callable) :=
  (λ b, mkDelivery this b.1 b.2 event) <$> bs.

(** The invocations of one [mSignal(event)] when callables call the bus
    again: each invocation is followed by what its callable made happen. *)
Definition nested this (bs : list (nat * callable)) event
    (dss : list (list (Delivery val callable))) : list (Delivery val callable) :=
  concat (zip_with (λ b ds, mkDelivery this b.1 b.2 event :: ds) bs dss).

(** The invocations of one flush: event by event in buffer order, and for each
    event binding by binding. *)
Definition flush_deliveries this w : list (Delivery val callable) :=
  queue_of this w ≫= deliveries this (bound_of this w).

End pool.

Arguments EnqueueEvent {_ _ _ _ _ _} _ _ _ /.
Arguments ClearEventQueue {_ _ _ _ _ _} _ _ /.

Section pool_lemmas.
Context {ty val callable sig : Type} `{Countable ty} `{!SignalOps callable sig}.
Abbreviation World := (World ty val callable sig).
Context (call : callable → val → World → option World).
Implicit Types (this : nat) (event : val) (w : World).

(** ** Soundness *)

Lemma pool_EnqueueEvent_sound this event : sound_fn (λ w, EnqueueEvent this event w).
Proof.
  apply (sound_fn_queue_write this (λ p, mEventQueue p ++ [event])
           (λ w, bool_decide (this ∈ iter_queues w))).
Qed.

Lemma pool_ClearEventQueue_sound this : sound_fn (λ w, ClearEventQueue this w).
Proof.
  apply (sound_fn_queue_write this (λ _, []) (λ w, bool_decide (this ∈ iter_queues w))).
Qed.

Lemma pool_emit_sound `{!Callback call} this event : sound (emit call this event).
Proof.
  split_and!; intros w; unfold emit; destruct (pool_at this w) as [p|];
    try apply sound_id;
    apply (sound_for_each (λ b w', call b.2 event (log (mkDelivery this b.1 b.2 event) w')));
    intros b _; apply (sound_after (log _)); auto using sound_fn_log, call_sound.
Qed.

Lemma pool_TriggerEvent_sound `{!Callback call} this event :
  sound (TriggerEvent call this event).
Proof. apply pool_emit_sound. Qed.

(** The loop of a flush, over any snapshot. *)
Lemma pool_flush_loop_sound `{!Callback call} this (es : list val) :
  sound (for_each (emit call this) es).
Proof. apply sound_for_each. intros e _. apply pool_emit_sound. Qed.

Lemma pool_DispatchQueuedEvents_sound `{!Callback call} this :
  sound (DispatchQueuedEvents call this).
Proof.
  destruct (pool_ClearEventQueue_sound this) as (Hwfc & Hlec & Hwalkc).
  split_and!; intros w w'; [intros Hwf|..]; unfold DispatchQueuedEvents;
    intros Hrun; bind_inv Hrun; injection Hrun as <-;
    destruct (pool_flush_loop_sound this (queue_of this w)) as (Hwfl & Hlel & Hwalkl).
  - apply Hwfc. eapply world_wf_frame; [..|eapply Hwfl; [|done]]; [done..|].
    by eapply world_wf_frame.
  - trans (begin_queue_walk this w); [by apply world_le_frame|].
    trans s; [by apply Hlel|]. trans (end_queue_walk s); [by apply world_le_frame|].
    apply (Hlec (end_queue_walk s)).
  - apply Hwalkl in Hrun0 as [Hq Hp]. simpl in *. by rewrite <-Hq, <-Hp.
Qed.

(** ** Termination *)

(** [mSignal(event)] returns when the callables do. *)
Lemma pool_emit_total `{!Callback call, !Returning call} this event :
  total_on world_wf (emit call this event).
Proof.
  intros w Hwf. unfold emit. destruct (pool_at this w) as [p|]; [|by eexists].
  apply (for_each_total world_wf); [| |done]; intros b _.
  - apply (sound_after (log _)); [apply sound_fn_log|apply call_sound].
  - intros w' Hw'. apply call_returns. by apply sound_fn_log.
Qed.

(** A flush returns when the callables do. *)
Lemma pool_DispatchQueuedEvents_total `{!Callback call, !Returning call} this :
  total_on world_wf (DispatchQueuedEvents call this).
Proof.
  intros w Hwf. unfold DispatchQueuedEvents.
  destruct (for_each_total world_wf (emit call this) (queue_of this w)) with
    (s := begin_queue_walk this w) as [w' Hw'].
  - intros e _. apply pool_emit_sound.
  - intros e _. apply pool_emit_total.
  - by eapply world_wf_frame.
  - rewrite Hw'. by eexists.
Qed.

(** ** Nested invocations *)

(** Whatever the callables do, an invocation of the signal invokes the
    callables bound when it starts, in subscription order, and what a
    callable makes happen is over before the next callable is invoked. *)
Lemma pool_emit_nested `{!Callback call} this event w w' :
  emit call this event w = Some w' →
  ∃ dss, length dss = length (bound_of this w) ∧
         trace w' = trace w ++ nested this (bound_of this w) event dss.
Proof.
  unfold emit, Invoke, bound_of, nested.
  destruct (pool_at this w) as [p|]; [|intros [= <-]; exists []; by rewrite app_nil_r].
  simpl. generalize (bound (mSignal p)). intros bs. revert w.
  induction bs as [|b bs IH]; intros w Hrun.
  { injection Hrun as <-. exists []. by rewrite app_nil_r. }
  rewrite for_each_cons in Hrun. bind_inv Hrun.
  destruct (call_sound b.2 event) as (_ & Hle & _).
  apply Hle in Hrun0 as (_ & _ & _ & [ds Hds] & _).
  destruct (IH _ Hrun) as (dss & Hlen & Ht). exists (ds :: dss).
  split; [simpl; by rewrite Hlen|]. rewrite Ht, Hds. simpl. by rewrite <-!app_assoc.
Qed.

(** ** Revoked bindings *)

(** An invocation of the signal invokes through the bindings present when it
    starts: not through a binding revoked before. *)
Lemma pool_emit_avoids `{!Discreet call} s c this event :
  relates (avoids s c) (emit call this event).
Proof.
  intros w w'. unfold emit, Invoke.
  destruct (pool_at this w) as [p|] eqn:Hp; [|by intros [= <-]].
  intros Hrun Hw. eapply (for_each_relates (avoids s c)); [|exact Hrun|exact Hw].
  intros b Hb w1 w2 Hcall. trans (log (mkDelivery this b.1 b.2 event) w1).
  - apply avoids_log. intros [Hs Hc]. simpl in Hs, Hc. subst. unfold revoked in Hw.
    rewrite Hp in Hw. destruct Hw as [_ Hw]. apply Hw. by apply list_elem_of_fmap_2.
  - by apply (call_discreet s c b.2 event).
Qed.

Lemma pool_DispatchQueuedEvents_avoids `{!Discreet call} s c this :
  relates (avoids s c) (DispatchQueuedEvents call this).
Proof.
  intros w w' Hrun. unfold DispatchQueuedEvents in Hrun. bind_inv Hrun. injection Hrun as <-.
  trans (begin_queue_walk this w); [by apply avoids_frame|].
  trans s0; [|trans (end_queue_walk s0);
                [by apply avoids_frame|apply (avoids_clear s c this (end_queue_walk s0))]].
  eapply (for_each_relates (avoids s c)); [|done]. intros e _. apply pool_emit_avoids.
Qed.

(** ** Who is invoked *)

(** A flush and a trigger invoke through the bindings of the pool only. *)
Lemma deliveries_not_from this i c (bs : list (nat * callable)) event :
  (this = i → c ∉ bs.*1) → Forall (λ d, ¬ from_binding i c d) (deliveries this bs event).
Proof.
  intros Hc. apply Forall_fmap, Forall_forall. intros b Hb [Hp Hs]. simpl in *.
  apply Hc; [done|]. subst c. by apply list_elem_of_fmap_2.
Qed.

Lemma flush_deliveries_not_from this i c w :
  (this = i → c ∉ (bound_of this w).*1) →
  Forall (λ d, ¬ from_binding i c d) (flush_deliveries this w).
Proof.
  intros Hc. apply Forall_bind, Forall_forall. intros e _. by apply deliveries_not_from.
Qed.

(** ** Monotonicity in the invoker *)

Section mono.
Context (call1 call2 : callable → val → World → option World).
Context (Hcall : ∀ h event w w', call1 h event w = Some w' → call2 h event w = Some w').

Lemma pool_emit_mono this event w w' :
  emit call1 this event w = Some w' → emit call2 this event w = Some w'.
Proof.
  unfold emit, Invoke. destruct (pool_at this w); [|done].
  apply for_each_mono. intros b _ w1 w2. apply Hcall.
Qed.

Lemma pool_DispatchQueuedEvents_mono this w w' :
  DispatchQueuedEvents call1 this w = Some w' → DispatchQueuedEvents call2 this w = Some w'.
Proof.
  unfold DispatchQueuedEvents. intros Hrun. bind_inv Hrun.
  erewrite for_each_mono; [done| |done]. intros e _. apply pool_emit_mono.
Qed.

End mono.

(** ** Passive callables: the exact effect *)

Lemma pool_emit_passive `{!Passive call} this event w :
  emit call this event w = Some (log_all (deliveries this (bound_of this w) event) w).
Proof.
  unfold emit, Invoke, deliveries, bound_of. simpl.
  destruct (slot (mEventPools w) this) as [p|]; simpl.
  - rewrite (for_each_log_all (λ _ b, [mkDelivery this b.1 b.2 event])).
    + by rewrite bind_singleton_fmap.
    + intros b w'. by rewrite call_passive.
    + done.
  - by rewrite app_nil_r; destruct w.
Qed.

Lemma pool_flush_loop_passive `{!Passive call} this (es : list val) w :
  for_each (emit call this) es w = Some (log_all (es ≫= deliveries this (bound_of this w)) w).
Proof.
  apply (for_each_log_all (λ w' e, deliveries this (bound_of this w') e)).
  - intros e w'. apply pool_emit_passive.
  - done.
Qed.

(** The walk of a flush ends as it started. *)
Lemma pool_walk_closed this ds w :
  ClearEventQueue this (end_queue_walk (log_all ds (begin_queue_walk this w)))
  = ClearEventQueue this (log_all ds w).
Proof. done. Qed.

(** ** The properties of the pool *)

(** C3: [EventPool::TriggerEvent] with callables that do not call the bus
    invokes every bound callable exactly once with the event, in subscription
    order, and changes nothing else: no pool, no buffer, no binding. *)
Theorem pool_TriggerEvent_passive `{!Passive call} this event w :
  TriggerEvent call this event w = Some (log_all (deliveries this (bound_of this w) event) w).
Proof. apply pool_emit_passive. Qed.

(** C1: [EventPool::DispatchQueuedEvents] with callables that do not call the
    bus invokes the bound callables with each buffered event, oldest event
    first and for each event in subscription order, then clears the buffer. *)
Theorem pool_DispatchQueuedEvents_passive `{!Passive call} this w :
  DispatchQueuedEvents call this w
  = Some (ClearEventQueue this (log_all (flush_deliveries this w) w)).
Proof.
  unfold DispatchQueuedEvents. rewrite pool_flush_loop_passive, bind_Some_l.
  by rewrite pool_walk_closed.
Qed.

(** The buffer is empty when a flush returns. *)
Lemma pool_DispatchQueuedEvents_queue this w w' :
  DispatchQueuedEvents call this w = Some w' → queue_of this w' = [].
Proof.
  unfold DispatchQueuedEvents. intros Hrun. bind_inv Hrun. injection Hrun as <-.
  apply queue_of_clear.
Qed.

(** C5: whatever the callables do through the bus, as long as they return,
    also when they enqueue events of the type being flushed,
    [EventPool::DispatchQueuedEvents] returns, the world is well formed again
    and the buffer of the pool is empty: an event enqueued during the flush is
    not in the buffer afterwards. *)
Theorem pool_DispatchQueuedEvents_empties `{!Callback call, !Returning call} this w :
  world_wf w →
  ∃ w', DispatchQueuedEvents call this w = Some w' ∧ world_wf w' ∧ queue_of this w' = [].
Proof.
  intros Hwf. destruct (pool_DispatchQueuedEvents_total this w Hwf) as [w' Hrun].
  exists w'. split_and!; [done| |by eapply pool_DispatchQueuedEvents_queue].
  by eapply (proj1 (pool_DispatchQueuedEvents_sound this)).
Qed.

(** [EventPool::EnqueueEvent] appends the event to the buffer of its pool
    and invokes nothing; the buffers of the other pools, all bindings and the
    statics are unchanged. *)
Theorem pool_EnqueueEvent_spec this event w :
  is_Some (pool_at this w) →
  queue_of this (EnqueueEvent this event w) = queue_of this w ++ [event] ∧
  (∀ i, this ≠ i → pool_at i (EnqueueEvent this event w) = pool_at i w) ∧
  (∀ i, bound_of i (EnqueueEvent this event w) = bound_of i w) ∧
  trace (EnqueueEvent this event w) = trace w ∧
  registry (EnqueueEvent this event w) = registry w.
Proof.
  intros [p Hp]. split_and!; [by apply (queue_of_push_back _ _ _ p)
    |intros i Hne; by apply pool_at_push_back_ne
    |intros i; apply (bound_of_with_queue this i (λ p, mEventQueue p ++ [event]))|done..].
Qed.

(** [EventPool::ClearEventQueue] empties the buffer of its pool without
    invoking any callable; the other pools and all bindings are unchanged. *)
Theorem pool_ClearEventQueue_spec this w :
  queue_of this (ClearEventQueue this w) = [] ∧
  (∀ i, this ≠ i → pool_at i (ClearEventQueue this w) = pool_at i w) ∧
  (∀ i, bound_of i (ClearEventQueue this w) = bound_of i w) ∧
  trace (ClearEventQueue this w) = trace w.
Proof.
  split_and!; [apply queue_of_clear|intros i Hne; by apply pool_at_clear_ne
    |intros i; apply (bound_of_with_queue this i (λ _, []))|done].
Qed.

End pool_lemmas.

(** ** The properties at concrete inputs

    Event types, events and callables are numbers; the signal is the list
    implementation.  [demo_world] has one pool, for type 0 in slot 0, with the
    callable 7 bound under serial 0 and the events 5 and 7 buffered. *)

Definition demo_world : World.World nat nat nat (Signal nat) :=
  mkWorld (mkRegistry 1 {[0 := 0]}) [Some (mkEventPool 0 (mkSignal [(0, 7)] 1) [5; 7])]
    [] [] 0 false.

(** A callable that enqueues the event it receives, plus 100, in pool 0. *)
Definition call_requeue : nat → nat → World.World nat nat nat (Signal nat) →
    option (World.World nat nat nat (Signal nat)) :=
  λ _ event w, Some (EnqueueEvent 0 (event + 100) w).

Lemma pool_TriggerEvent_passive_witness :
  TriggerEvent call_skip 0 10 demo_world
  = Some (log_all [mkDelivery 0 0 7 10] demo_world).
Proof. exact (pool_TriggerEvent_passive call_skip 0 10 demo_world). Defined.

Lemma pool_DispatchQueuedEvents_passive_witness :
  DispatchQueuedEvents call_skip 0 demo_world
  = Some (ClearEventQueue 0 (log_all [mkDelivery 0 0 7 5; mkDelivery 0 0 7 7] demo_world)).
Proof. exact (pool_DispatchQueuedEvents_passive call_skip 0 demo_world). Defined.

#[export] Instance call_requeue_callback : Callback call_requeue.
Proof.
  intros h event. apply (sound_ret (λ w, EnqueueEvent 0 (event + 100) w)).
  apply pool_EnqueueEvent_sound.
Qed.

#[export] Instance call_requeue_returning : Returning call_requeue.
Proof. intros h event w _. by eexists. Qed.

Lemma demo_world_wf : world_wf demo_world.
Proof.
  assert (∀ i p, pool_at i demo_world = Some p →
    i = 0 ∧ p = mkEventPool 0 (Bind 7 sig_new).2 [5; 7]) as Hp.
  { intros [|[|i]] p Hp; vm_compute in Hp; [injection Hp as <-; by split|discriminate..]. }
  split_and!.
  - split; intros *; simpl; rewrite !lookup_singleton_Some; [intros [_ <-]; lia|].
    by intros [<- _] [<- _].
  - simpl. lia.
  - intros i p [-> ->]%Hp. by apply lookup_singleton_Some.
  - intros i p [-> ->]%Hp. apply (sig_ok_Bind 7 sig_new), sig_ok_new.
Qed.

Lemma pool_DispatchQueuedEvents_empties_witness :
  ∃ w', DispatchQueuedEvents call_requeue 0 demo_world = Some w' ∧ world_wf w' ∧
        queue_of 0 w' = [].
Proof. exact (pool_DispatchQueuedEvents_empties call_requeue 0 demo_world demo_world_wf). Defined.

Lemma pool_EnqueueEvent_spec_witness :
  queue_of 0 (EnqueueEvent 0 9 demo_world) = [5; 7] ++ [9] ∧
  (∀ i, 0 ≠ i → pool_at i (EnqueueEvent 0 9 demo_world) = pool_at i demo_world) ∧
  (∀ i, bound_of i (EnqueueEvent 0 9 demo_world) = bound_of i demo_world) ∧
  trace (EnqueueEvent 0 9 demo_world) = trace demo_world ∧
  registry (EnqueueEvent 0 9 demo_world) = registry demo_world.
Proof. apply (pool_EnqueueEvent_spec 0 9 demo_world). by eexists. Defined.

End EventPool.
