(* ===== verification/EventBus.v ===== *)
(** * The bus: [class EventBus]

    One definition per member function of [EventBus] (lines 85-228 of
    EventBus.hpp).  An event type is a value of [ty]; a member function
    template instantiated at [Event] takes the type as its first argument.
    The two overloads of [TriggerEvent] and of [EnqueueEvent] (constructor
    arguments, or an event already built) are one definition each, since the
    model takes the constructed event.  The overloads without and with template
    arguments of [DispatchQueuedEvents] and [ClearEventQueues] are
    [DispatchQueuedEvents] / [DispatchQueuedEventsOf] and [ClearEventQueues] /
    [ClearEventQueuesOf].

    The selective [DispatchQueuedEvents<Event...>] of the source calls
    [DispatchEvents], which no class declares, from a [const] member function
    through the non-[const] [GetEventHandler]: it does not compile once
    instantiated.  [dispatch_type] calls [EventPool.DispatchEvents], which
    the model takes from the specification to be
    [EventPool::DispatchQueuedEvents]; what is proved of the selective flush
    is proved of that reading.

    The loops of [DispatchQueuedEvents()] and [ClearEventQueues()] call a
    member function through the pointer in each slot ([World.arrow]): such a
    call has no result through a null pointer, and the test
    [if (eventHandler)] of the source is what keeps the loops from making
    it ([bus_loops_skip_null]).  [flush_slot], [flush_all], [clear_at] and
    [clear_all] are the closed forms of the two loops.

    The lemmas, in this order: [GetEventHandler] by its parts (lookup of the
    id, growth of the vector, creation of the pool), its stability and the
    soundness of its cast; soundness and termination of every member
    function for callables within their contract; with callables that do not
    call the bus, the exact effect of every member function and what follows
    from it (first-in first-out delivery, deferred delivery is immediate
    delivery, subscription and unsubscription, selective flush, isolation of
    event types); revoked bindings stay revoked whatever the callables do;
    iterator safety outside re-entrant calls; monotonicity in the invoker. *)

From stdpp Require Import gmap list.
From S2P Require Import Prelude Registry Signal World Callable EventPool.

Module EventBus.

Section bus.
Context {ty val callable sig : Type} `{Countable ty} `{!SignalOps callable sig}.
Abbreviation World := (World ty val callable sig).
Context (call : callable → val → World → option World).
Implicit Types (t : ty) (event : val) (w : World) (f : callable).

(** [GetEventHandler<Event>()]: look the id of the type up, grow the vector
    when the id is past its end, create the pool when the slot is null; the
    reference returned is the index of the slot. *)
Definition GetEventHandler t w : nat * World :=
  let '(eventHandlerIndex, r) := GetEventId t (registry w) in
  let w1 := set_registry r w in
  let w2 :=
    if decide (length (mEventPools w1) ≤ eventHandlerIndex)
    then pools_resize (S eventHandlerIndex) w1 else w1 in
  let w3 :=
    match pool_at eventHandlerIndex w2 with
    | Some _ => w2
    | None => set_pools (<[eventHandlerIndex:=Some (new_pool t)]> (mEventPools w2)) w2
    end in
  (eventHandlerIndex, w3).

(** [TriggerEvent<Event>(args...)] and [TriggerEvent(Event&&)]. *)
Definition TriggerEvent t event w : option World :=
  let '(this, w1) := GetEventHandler t w in EventPool.TriggerEvent call this event w1.

(** [EnqueueEvent<Event>(args...)] and [EnqueueEvent(Event&&)]. *)
Definition EnqueueEvent t event w : World :=
  let '(this, w1) := GetEventHandler t w in EventPool.EnqueueEvent this event w1.

(** The body of the loop of [DispatchQueuedEvents()]:
    [if (eventHandler) eventHandler->DispatchQueuedEvents();] *)
Definition dispatch_slot (i : nat) w : option World :=
  match pool_at i w with
  | Some _ => arrow i (EventPool.DispatchQueuedEvents call) w
  | None => Some w
  end.

(** [DispatchQueuedEvents()]: flush every pool, in the order of the slots.  The
    loop walks the slots that exist when it starts and reads each slot when it
    reaches it. *)
Definition DispatchQueuedEvents w : option World :=
  w' ← for_each dispatch_slot (seq 0 (length (mEventPools w))) (begin_pools_walk w);
  Some (end_pools_walk w').

(** One element of the fold expression of [DispatchQueuedEvents<Event...>()]:
    [GetEventHandler<Event>().DispatchEvents()] *)
Definition dispatch_type t w : option World :=
  let '(this, w1) := GetEventHandler t w in EventPool.DispatchEvents call this w1.

(** [DispatchQueuedEvents<Event...>()]: flush the pools of the types named,
    from left to right, creating a pool that does not exist yet. *)
Definition DispatchQueuedEventsOf (ts : list ty) w : option World :=
  for_each dispatch_type ts w.

(** The body of the loop of [ClearEventQueues()]:
    [if (eventHandler) eventHandler->ClearEventQueue();] *)
Definition clear_slot (i : nat) w : option World :=
  match pool_at i w with
  | Some _ => arrow i (λ this w', Some (EventPool.ClearEventQueue this w')) w
  | None => Some w
  end.

(** [ClearEventQueues()]: clear the buffer of every pool, in the order of the
    slots. *)
Definition ClearEventQueues w : option World :=
  for_each clear_slot (seq 0 (length (mEventPools w))) w.

(** One element of the fold expression of [ClearEventQueues<Events...>()]:
    [GetEventHandler<Events>().ClearEventQueue()] *)
Definition clear_type w t : World :=
  let '(this, w1) := GetEventHandler t w in EventPool.ClearEventQueue this w1.

(** [ClearEventQueues<Events...>()]: clear the buffers of the types named,
    creating a pool that does not exist yet. *)
Definition ClearEventQueuesOf (ts : list ty) w : World := foldl clear_type w ts.

(** [SubscribeToEvent<Event>(...)], both overloads:
    [return GetEventHandler<Event>().mSignal.Bind(...);]
    The reference [GetEventHandler] returns is to a pool
    ([GetEventHandler_spec]): the second branch is never taken. *)
Definition SubscribeToEvent t f w : Connection * World :=
  let '(this, w1) := GetEventHandler t w in
  match pool_at this w1 with
  | Some p =>
      let '(c, s) := Bind f (mSignal p) in
      (mkConnection this c, update_pool this (with_signal s) w1)
  | None => (mkConnection this 0, w1)
  end.

(** [UnsubscribeFromEvent(connection)]: [connection.Disconnect();] *)
Definition UnsubscribeFromEvent (connection : Connection) w : World :=
  update_pool (conn_signal connection)
    (λ p, with_signal (Disconnect (conn_serial connection) (mSignal p)) p) w.

(** What the body of the loop of [DispatchQueuedEvents()] does to slot [i]
    when callables are passive: the invocations of the flush are recorded and
    the buffer is cleared. *)
Definition flush_slot w (i : nat) : World :=
  match pool_at i w with
  | Some _ => EventPool.ClearEventQueue i (log_all (EventPool.flush_deliveries i w) w)
  | None => w
  end.

(** What [DispatchQueuedEvents()] does when callables are passive. *)
Definition flush_all w : World :=
  end_pools_walk (foldl flush_slot (begin_pools_walk w) (seq 0 (length (mEventPools w)))).

(** What the body of the loop of [ClearEventQueues()] does to slot [i]: the
    buffer of the pool, if there is one, is emptied. *)
Definition clear_at w (i : nat) : World :=
  match pool_at i w with
  | Some _ => EventPool.ClearEventQueue i w
  | None => w
  end.

(** What [ClearEventQueues()] does. *)
Definition clear_all w : World :=
  foldl clear_at w (seq 0 (length (mEventPools w))).

(** The slot of an event type: its id, assigned now if it has none yet. *)
Definition slot_of t w : nat := (GetEventId t (registry w)).1.

(** ** The two steps of [GetEventHandler] after the lookup of the id *)

(** [if (eventHandlerIndex >= mEventPools.size()) mEventPools.resize(eventHandlerIndex + 1);] *)
Definition grow_to (idx : nat) w : World :=
  if decide (length (mEventPools w) ≤ idx) then pools_resize (S idx) w else w.

(** [if (!mEventPools[eventHandlerIndex]) mEventPools[eventHandlerIndex] = new EventPool<Event>;] *)
Definition ensure_pool t (idx : nat) w : World :=
  match pool_at idx w with
  | Some _ => w
  | None => set_pools (<[idx:=Some (new_pool t)]> (mEventPools w)) w
  end.

End bus.

Section bus_lemmas.
Context {ty val callable sig : Type} `{Countable ty} `{!SignalOps callable sig}.
Abbreviation World := (World ty val callable sig).
Context (call : callable → val → World → option World).
Implicit Types (t : ty) (event : val) (w : World) (f : callable) (idx i : nat).

(** ** The calls through a pointer in the two loops

    Each call through [eventHandler] is under the test [if (eventHandler)]:
    the pointer is not null where it is used, so the body of either loop is
    the member function of the pool on a slot that holds one, and nothing on
    a null slot. *)

Lemma dispatch_slot_unfold i w :
  dispatch_slot call i w
  = match pool_at i w with
    | Some _ => EventPool.DispatchQueuedEvents call i w
    | None => Some w
    end.
Proof. unfold dispatch_slot, arrow. by destruct (pool_at i w). Qed.

Lemma clear_slot_eq i w : clear_slot i w = Some (clear_at w i).
Proof. unfold clear_slot, clear_at, arrow. by destruct (pool_at i w). Qed.

Lemma ClearEventQueues_eq w : ClearEventQueues w = Some (clear_all w).
Proof. apply for_each_pure. intros i w' _. apply clear_slot_eq. Qed.

(** ** Growing the vector *)

Lemma grow_to_length idx w :
  length (mEventPools (grow_to idx w)) = length (mEventPools w) `max` S idx.
Proof. unfold grow_to. case_decide; simpl; [rewrite length_resize|]; lia. Qed.

Lemma grow_to_pool_at idx i w : pool_at i (grow_to idx w) = pool_at i w.
Proof. unfold grow_to. case_decide; simpl; [|done]. apply slot_resize. lia. Qed.

Lemma grow_to_sound idx w :
  (world_wf w → idx < next_id (registry w) → world_wf (grow_to idx w)) ∧
  world_le w (grow_to idx w) ∧ same_walks w (grow_to idx w) ∧
  registry (grow_to idx w) = registry w ∧ trace (grow_to idx w) = trace w.
Proof.
  unfold grow_to. case_decide as Hlen; [|by split_and!]. split_and!; [|..|done|done|done].
  - intros Hwf Hidx. eapply world_wf_frame, (world_wf_resize (S idx)); done || lia.
  - etrans; [apply (world_le_resize (S idx)); lia|].
    apply world_le_frame; [done..|]. apply hazard_flag_mono.
Qed.

(** Growing raises the hazard exactly when it resizes during a walk of the
    vector. *)
Lemma grow_to_hazard idx w :
  hazard (grow_to idx w)
  = hazard w || (bool_decide (length (mEventPools w) ≤ idx) && bool_decide (0 < iter_pools w)).
Proof.
  unfold grow_to. case_decide; simpl.
  - by rewrite (bool_decide_eq_true_2 (length _ ≤ idx)) by done.
  - rewrite (bool_decide_eq_false_2 (length _ ≤ idx)) by done. by rewrite orb_false_r.
Qed.

(** ** Creating the pool *)

Lemma ensure_pool_at t idx w :
  idx < length (mEventPools w) →
  pool_at idx (ensure_pool t idx w) = Some (default (new_pool t) (pool_at idx w)).
Proof.
  intros Hidx. unfold ensure_pool. destruct (pool_at idx w) as [p|] eqn:Hp; [done|].
  simpl. by rewrite slot_insert, decide_True.
Qed.

Lemma ensure_pool_at_ne t idx i w : idx ≠ i → pool_at i (ensure_pool t idx w) = pool_at i w.
Proof.
  intros Hne. unfold ensure_pool. destruct (pool_at idx w) as [p|] eqn:Hp; [done|]. simpl.
  destruct (decide (idx < length (mEventPools w))).
  - by rewrite slot_insert, decide_False.
  - by rewrite list_insert_ge by lia.
Qed.

Lemma ensure_pool_sound t idx w :
  idx < length (mEventPools w) →
  (world_wf w → event_ids (registry w) !! t = Some idx → world_wf (ensure_pool t idx w)) ∧
  world_le w (ensure_pool t idx w) ∧ same_walks w (ensure_pool t idx w) ∧
  registry (ensure_pool t idx w) = registry w ∧ trace (ensure_pool t idx w) = trace w ∧
  hazard (ensure_pool t idx w) = hazard w ∧
  length (mEventPools (ensure_pool t idx w)) = length (mEventPools w).
Proof.
  intros Hidx. unfold ensure_pool. destruct (pool_at idx w) as [p|] eqn:Hp; [by split_and!|].
  split_and!; [|by apply world_le_new_pool|done..|simpl; by rewrite length_insert].
  intros Hwf Ht. by apply world_wf_new_pool.
Qed.

(** ** [GetEventHandler] *)

Lemma GetEventHandler_unfold t w :
  GetEventHandler t w
  = ((GetEventId t (registry w)).1,
     ensure_pool t (GetEventId t (registry w)).1
       (grow_to (GetEventId t (registry w)).1
          (set_registry (GetEventId t (registry w)).2 w))).
Proof. unfold GetEventHandler. by destruct (GetEventId t (registry w)). Qed.

(** What [GetEventHandler] returns and what it leaves alone. *)
Lemma GetEventHandler_spec t w :
  let idx := (GetEventId t (registry w)).1 in
  let w' := (GetEventHandler t w).2 in
  (GetEventHandler t w).1 = idx ∧
  registry w' = (GetEventId t (registry w)).2 ∧
  pool_at idx w' = Some (default (new_pool t) (pool_at idx w)) ∧
  (∀ i, idx ≠ i → pool_at i w' = pool_at i w) ∧
  length (mEventPools w') = length (mEventPools w) `max` S idx ∧
  trace w' = trace w ∧ same_walks w w'.
Proof.
  intros idx w'. subst idx w'. rewrite GetEventHandler_unfold. cbn [fst snd].
  set (idx := (GetEventId t (registry w)).1). set (r := (GetEventId t (registry w)).2).
  set (w1 := set_registry r w). pose proof (grow_to_length idx w1) as Hlen.
  destruct (ensure_pool_sound t idx (grow_to idx w1)) as (_ & _ & Hwalk & Hr & Ht & _ & Hl);
    [lia|].
  destruct (grow_to_sound idx w1) as (_ & _ & Hwalk1 & Hr1 & Ht1).
  split_and!; [done|by rewrite Hr, Hr1| | |by rewrite Hl, Hlen|by rewrite Ht, Ht1|by etrans].
  - rewrite ensure_pool_at by lia. by rewrite grow_to_pool_at.
  - intros i Hne. rewrite ensure_pool_at_ne by done. by rewrite grow_to_pool_at.
Qed.

Lemma GetEventHandler_sound t : sound_fn (λ w, (GetEventHandler t w).2).
Proof.
  split_and!; intros w; [intros Hwf|..]; rewrite GetEventHandler_unfold; cbn [fst snd];
    set (idx := (GetEventId t (registry w)).1); set (r := (GetEventId t (registry w)).2);
    set (w1 := set_registry r w); pose proof (grow_to_length idx w1) as Hlen;
    destruct (ensure_pool_sound t idx (grow_to idx w1)) as (Hwf2 & Hle2 & Hwalk2 & Hr2 & _);
    try lia; destruct (grow_to_sound idx w1) as (Hwf1 & Hle1 & Hwalk1 & Hr1 & _).
  - assert (world_wf w1) as Hw1.
    { apply world_wf_set_registry; [done|apply GetEventId_wf, Hwf|apply GetEventId_le]. }
    apply Hwf2; [apply Hwf1; [done|]|rewrite Hr1]; simpl.
    + apply GetEventId_lt, Hwf.
    + apply GetEventId_lookup.
  - trans w1; [apply world_le_set_registry, GetEventId_le|]. by trans (grow_to idx w1).
  - trans (grow_to idx w1); [|done]. by trans w1.
Qed.

(** [GetEventHandler] raises the hazard exactly when it has to grow the vector
    while a walk of the vector is in progress. *)
Lemma GetEventHandler_hazard t w :
  hazard (GetEventHandler t w).2
  = hazard w || (bool_decide (length (mEventPools w) ≤ (GetEventId t (registry w)).1)
                 && bool_decide (0 < iter_pools w)).
Proof.
  rewrite GetEventHandler_unfold. cbn [fst snd].
  set (idx := (GetEventId t (registry w)).1). set (w1 := set_registry _ w).
  pose proof (grow_to_length idx w1) as Hlen.
  destruct (ensure_pool_sound t idx (grow_to idx w1)) as (_ & _ & _ & _ & _ & -> & _); [lia|].
  by rewrite grow_to_hazard.
Qed.

(** [GetEventHandler] always returns a pool. *)
Lemma GetEventHandler_pool t w :
  ∃ p, pool_at (GetEventHandler t w).1 (GetEventHandler t w).2 = Some p ∧ pool_type p = t ∨
       pool_at (GetEventHandler t w).1 (GetEventHandler t w).2 = Some p ∧
       pool_at (GetEventHandler t w).1 w = Some p.
Proof.
  destruct (GetEventHandler_spec t w) as (-> & _ & Hp & _).
  destruct (pool_at _ w) as [p|]; [exists p; by right|exists (new_pool t); by left].
Qed.

(** [GetEventHandler] is not observable: the pool it may create has no events
    and no bindings. *)
Lemma GetEventHandler_obs t w : obs_eq w (GetEventHandler t w).2.
Proof.
  destruct (GetEventHandler_spec t w) as (_ & _ & Hp & Hne & _ & Ht & _).
  destruct (new_pool_empty (val:=val) (callable:=callable) (sig:=sig) t) as [Hq Hb].
  split_and!; [intros i..|done]; destruct (decide ((GetEventId t (registry w)).1 = i)) as [<-|];
    try (unfold queue_of, bound_of; by rewrite Hne);
    unfold queue_of, bound_of; rewrite Hp; by destruct (pool_at _ w).
Qed.

(** The slot of a type that has its id. *)
Lemma slot_of_registered t w i : event_ids (registry w) !! t = Some i → slot_of t w = i.
Proof. intros Hi. unfold slot_of. by rewrite (GetEventId_cached _ _ _ Hi). Qed.

(** [GetEventHandler] gives the type its id, for good. *)
Lemma GetEventHandler_slot_of t w : slot_of t (GetEventHandler t w).2 = slot_of t w.
Proof.
  apply slot_of_registered. destruct (GetEventHandler_spec t w) as (_ & -> & _).
  apply GetEventId_lookup.
Qed.

(** The pool [GetEventHandler] returns is the one that was there, if any. *)
Lemma GetEventHandler_pool_at t w p :
  pool_at (slot_of t w) w = Some p → pool_at (GetEventHandler t w).1 (GetEventHandler t w).2 = Some p.
Proof.
  intros Hp. destruct (GetEventHandler_spec t w) as (-> & _ & -> & _).
  unfold slot_of in Hp. by rewrite Hp.
Qed.

(** Writing a world's own statics back changes nothing. *)
Lemma set_registry_same w : set_registry (registry w) w = w.
Proof. by destruct w. Qed.

Lemma grow_to_id idx w : idx < length (mEventPools w) → grow_to idx w = w.
Proof. intros Hidx. unfold grow_to. case_decide; [lia|done]. Qed.

Lemma ensure_pool_id t idx w p : pool_at idx w = Some p → ensure_pool t idx w = w.
Proof. intros Hp. unfold ensure_pool. by rewrite Hp. Qed.

(** [GetEventHandler] for a type that has its pool changes nothing. *)
Lemma GetEventHandler_known t w i p :
  event_ids (registry w) !! t = Some i → pool_at i w = Some p → GetEventHandler t w = (i, w).
Proof.
  intros Hi Hp. rewrite GetEventHandler_unfold, (GetEventId_cached _ _ _ Hi). cbn [fst snd].
  rewrite set_registry_same, grow_to_id by (by eapply slot_lt). by erewrite ensure_pool_id.
Qed.

(** C6: the life cycle of a pool.  Once [GetEventHandler] has been called for
    a type, every later call for that type, in any world the first one has
    grown into, returns the same slot and changes nothing: a pool is created at
    most once and is never moved or removed. *)
Theorem GetEventHandler_stable t w w' :
  world_le (GetEventHandler t w).2 w' →
  GetEventHandler t w' = ((GetEventHandler t w).1, w').
Proof.
  intros Hle. destruct (GetEventHandler_spec t w) as (Hidx & Hr & Hp & _).
  destruct (world_le_pool_at _ _ _ _ Hle Hp) as (p' & Hp' & _).
  rewrite (GetEventHandler_unfold t w'), Hidx.
  rewrite (GetEventId_cached (registry w') t (GetEventId t (registry w)).1).
  2:{ apply (registry_le_lookup (GetEventId t (registry w)).2); [|apply GetEventId_lookup].
      rewrite <-Hr. apply Hle. }
  cbn [fst snd]. rewrite set_registry_same, grow_to_id by (by eapply slot_lt).
  by erewrite ensure_pool_id.
Qed.

(** C19: the [static_cast] of [GetEventHandler] is sound.  In a well-formed
    world the pool that [GetEventHandler<Event>] returns was created for
    [Event], whether it is created by this call or existed before. *)
Theorem GetEventHandler_typed t w :
  world_wf w →
  ∃ p, pool_at (GetEventHandler t w).1 (GetEventHandler t w).2 = Some p ∧ pool_type p = t.
Proof.
  intros Hwf. destruct (GetEventHandler_spec t w) as (Hidx & Hr & Hp & _).
  rewrite Hidx, Hp. eexists; split; [done|].
  destruct (pool_at _ w) as [p|] eqn:Hpw; [|done]. simpl.
  destruct Hwf as ((Hlt & Hinj) & _ & Hty & _). apply Hty in Hpw.
  destruct (event_ids (registry w) !! t) as [i|] eqn:Hi.
  - rewrite (GetEventId_cached _ _ _ Hi) in Hpw. eauto.
  - rewrite (GetEventId_fresh _ _ Hi) in Hpw. simpl in Hpw. apply Hlt in Hpw. lia.
Qed.

(** ** The member functions by their parts *)

Lemma TriggerEvent_unfold t event w :
  TriggerEvent call t event w
  = EventPool.TriggerEvent call (GetEventHandler t w).1 event (GetEventHandler t w).2.
Proof. unfold TriggerEvent. by destruct (GetEventHandler t w). Qed.

Lemma EnqueueEvent_unfold t event w :
  EnqueueEvent t event w
  = EventPool.EnqueueEvent (GetEventHandler t w).1 event (GetEventHandler t w).2.
Proof. unfold EnqueueEvent. by destruct (GetEventHandler t w). Qed.

Lemma dispatch_type_unfold t w :
  dispatch_type call t w
  = EventPool.DispatchQueuedEvents call (GetEventHandler t w).1 (GetEventHandler t w).2.
Proof. unfold dispatch_type. by destruct (GetEventHandler t w). Qed.

Lemma clear_type_unfold t w :
  clear_type w t = EventPool.ClearEventQueue (GetEventHandler t w).1 (GetEventHandler t w).2.
Proof. unfold clear_type. by destruct (GetEventHandler t w). Qed.

Lemma SubscribeToEvent_unfold t f w :
  (SubscribeToEvent t f w).2
  = update_pool (GetEventHandler t w).1 (λ p, with_signal (Bind f (mSignal p)).2 p)
      (GetEventHandler t w).2.
Proof.
  unfold SubscribeToEvent.
  destruct (GetEventHandler_pool t w) as (p & Hp).
  destruct (GetEventHandler t w) as [this w1]. cbn [fst snd] in *.
  assert (pool_at this w1 = Some p) as Hp' by (by destruct Hp as [[? _]|[? _]]).
  rewrite Hp'. destruct (Bind f (mSignal p)) as [c s] eqn:Hb. simpl in *. f_equal.
  apply slot_Some in Hp'. apply list_alter_ext; [|done].
  intros [p'|] Hp''; simpl; [|done]. rewrite Hp' in Hp''. injection Hp'' as <-. by rewrite Hb.
Qed.

(** ** Soundness of the member functions *)

Lemma TriggerEvent_sound `{!Callback call} t event : sound (TriggerEvent call t event).
Proof.
  destruct (sound_after_dep (λ w, (GetEventHandler t w).2)
    (λ w0, EventPool.TriggerEvent call (GetEventHandler t w0).1 event)) as (Hwf & Hle & Hwalk).
  { apply GetEventHandler_sound. }
  { intros w0. apply EventPool.pool_TriggerEvent_sound, _. }
  split_and!; intros w w'; rewrite TriggerEvent_unfold; [apply Hwf|apply Hle|apply Hwalk].
Qed.

Lemma EnqueueEvent_sound t event : sound_fn (λ w, EnqueueEvent t event w).
Proof.
  destruct (sound_fn_after_dep (λ w, (GetEventHandler t w).2)
    (λ w0 w, EventPool.EnqueueEvent (GetEventHandler t w0).1 event w)) as (Hwf & Hle & Hwalk).
  { apply GetEventHandler_sound. }
  { intros w0. apply EventPool.pool_EnqueueEvent_sound. }
  split_and!; intros w; rewrite EnqueueEvent_unfold; [apply Hwf|apply Hle|apply Hwalk].
Qed.

Lemma dispatch_slot_sound `{!Callback call} i : sound (dispatch_slot call i).
Proof.
  destruct (EventPool.pool_DispatchQueuedEvents_sound call i) as (Hwf & Hle & Hwalk).
  destruct (sound_id (ty:=ty) (val:=val) (callable:=callable) (sig:=sig)) as (Hwf0 & Hle0 & Hwalk0).
  split_and!; intros w w'; rewrite dispatch_slot_unfold; destruct (pool_at i w);
    [apply Hwf|apply Hwf0|apply Hle|apply Hle0|apply Hwalk|apply Hwalk0].
Qed.

Lemma DispatchQueuedEvents_sound `{!Callback call} : sound (DispatchQueuedEvents call).
Proof.
  split_and!; intros w w'; [intros Hwf|..]; unfold DispatchQueuedEvents;
    intros Hrun; bind_inv Hrun; injection Hrun as <-;
    destruct (sound_for_each (dispatch_slot call) (seq 0 (length (mEventPools w))))
      as (Hwfl & Hlel & Hwalkl); try (intros i _; apply dispatch_slot_sound).
  - eapply world_wf_frame; [..|eapply Hwfl; [|done]]; [done..|]. by eapply world_wf_frame.
  - trans (begin_pools_walk w); [by apply world_le_frame|].
    trans s; [by apply Hlel|]. by apply world_le_frame.
  - apply Hwalkl in Hrun0 as [Hq Hp]. simpl in *. by rewrite <-Hq, <-Hp.
Qed.

Lemma dispatch_type_sound `{!Callback call} t : sound (dispatch_type call t).
Proof.
  destruct (sound_after_dep (λ w, (GetEventHandler t w).2)
    (λ w0, EventPool.DispatchQueuedEvents call (GetEventHandler t w0).1)) as (Hwf & Hle & Hwalk).
  { apply GetEventHandler_sound. }
  { intros w0. apply EventPool.pool_DispatchQueuedEvents_sound, _. }
  split_and!; intros w w'; rewrite dispatch_type_unfold; [apply Hwf|apply Hle|apply Hwalk].
Qed.

Lemma DispatchQueuedEventsOf_sound `{!Callback call} ts :
  sound (DispatchQueuedEventsOf call ts).
Proof. apply sound_for_each. intros t _. apply dispatch_type_sound. Qed.

Lemma clear_at_sound i : sound_fn (λ w, clear_at w i).
Proof.
  destruct (EventPool.pool_ClearEventQueue_sound (ty:=ty) (val:=val) (callable:=callable)
              (sig:=sig) i) as (Hwf & Hle & Hwalk).
  split_and!; intros w; unfold clear_at; destruct (pool_at i w);
    [apply Hwf|done|apply Hle|reflexivity|apply Hwalk|reflexivity].
Qed.

Lemma clear_slot_sound i : sound (λ w : World, clear_slot i w).
Proof.
  destruct (sound_ret _ (clear_at_sound i)) as (Hwf & Hle & Hwalk).
  split_and!; intros w w'; rewrite clear_slot_eq; [apply Hwf|apply Hle|apply Hwalk].
Qed.

Lemma ClearEventQueues_sound : sound (λ w : World, ClearEventQueues w).
Proof.
  split_and!; intros w; unfold ClearEventQueues; apply sound_for_each; intros i _;
    apply clear_slot_sound.
Qed.

Lemma clear_type_sound t : sound_fn (λ w, clear_type w t).
Proof.
  destruct (sound_fn_after_dep (λ w, (GetEventHandler t w).2)
    (λ w0 w, EventPool.ClearEventQueue (GetEventHandler t w0).1 w)) as (Hwf & Hle & Hwalk).
  { apply GetEventHandler_sound. }
  { intros w0. apply EventPool.pool_ClearEventQueue_sound. }
  split_and!; intros w; rewrite clear_type_unfold; [apply Hwf|apply Hle|apply Hwalk].
Qed.

Lemma ClearEventQueuesOf_sound ts : sound_fn (λ w, ClearEventQueuesOf ts w).
Proof. apply (sound_fn_foldl clear_type (λ _, ts)), clear_type_sound. Qed.

Lemma SubscribeToEvent_sound t f : sound_fn (λ w, (SubscribeToEvent t f w).2).
Proof.
  destruct (sound_fn_after_dep (λ w, (GetEventHandler t w).2)
    (λ w0 w, update_pool (GetEventHandler t w0).1 (λ p, with_signal (Bind f (mSignal p)).2 p) w))
    as (Hwf & Hle & Hwalk).
  { apply GetEventHandler_sound. }
  { intros w0. apply (sound_fn_signal_write _ (λ s, (Bind f s).2)).
    - intros s. apply sig_ok_Bind.
    - intros s. rewrite issued_Bind. lia. }
  split_and!; intros w; rewrite SubscribeToEvent_unfold; [apply Hwf|apply Hle|apply Hwalk].
Qed.

Lemma UnsubscribeFromEvent_sound connection :
  sound_fn (λ w, UnsubscribeFromEvent connection w).
Proof.
  apply (sound_fn_signal_write _ (Disconnect (conn_serial connection))).
  - intros s. apply sig_ok_Disconnect.
  - intros s. by rewrite issued_Disconnect.
Qed.

(** ** Termination: the member functions return when the callables do *)

Lemma TriggerEvent_total `{!Callback call, !Returning call} t event :
  total_on world_wf (TriggerEvent call t event).
Proof.
  intros w Hwf. rewrite TriggerEvent_unfold.
  pose proof (proj1 (GetEventHandler_sound t) w Hwf). by apply EventPool.pool_emit_total.
Qed.

Lemma dispatch_slot_total `{!Callback call, !Returning call} i :
  total_on world_wf (dispatch_slot call i).
Proof.
  intros w Hwf. rewrite dispatch_slot_unfold.
  destruct (pool_at i w); [by apply EventPool.pool_DispatchQueuedEvents_total|by eexists].
Qed.

Lemma DispatchQueuedEvents_total `{!Callback call, !Returning call} :
  total_on world_wf (DispatchQueuedEvents call).
Proof.
  intros w Hwf. unfold DispatchQueuedEvents.
  destruct (for_each_total world_wf (dispatch_slot call) (seq 0 (length (mEventPools w))))
    with (s := begin_pools_walk w) as [w' Hw'].
  - intros i _. apply dispatch_slot_sound.
  - intros i _. apply dispatch_slot_total.
  - by eapply world_wf_frame.
  - rewrite Hw'. by eexists.
Qed.

(** [ClearEventQueues()] returns: no call in its loop is through a null
    pointer. *)
Lemma ClearEventQueues_total w : is_Some (ClearEventQueues w).
Proof. rewrite ClearEventQueues_eq. by eexists. Qed.

Lemma dispatch_type_total `{!Callback call, !Returning call} t :
  total_on world_wf (dispatch_type call t).
Proof.
  intros w Hwf. rewrite dispatch_type_unfold.
  pose proof (proj1 (GetEventHandler_sound t) w Hwf).
  by apply EventPool.pool_DispatchQueuedEvents_total.
Qed.

Lemma DispatchQueuedEventsOf_total `{!Callback call, !Returning call} ts :
  total_on world_wf (DispatchQueuedEventsOf call ts).
Proof.
  apply for_each_total; intros t _; [apply dispatch_type_sound|apply dispatch_type_total].
Qed.

(** ** Nested invocations *)

(** C17: re-entrant calls resolve by nesting.  Whatever the callables do
    through the bus, as long as they return, [TriggerEvent<Event>] returns,
    and its invocations are, for each callable bound for the type when it
    started, in subscription order, the invocation of that callable followed
    by what the callable made happen (its own triggers and flushes
    included). *)
Theorem bus_TriggerEvent_nested `{!Callback call, !Returning call} t event w :
  world_wf w →
  ∃ w' dss, TriggerEvent call t event w = Some w' ∧
    length dss = length (bound_of (slot_of t w) w) ∧
    trace w' = trace w ++ EventPool.nested (slot_of t w) (bound_of (slot_of t w) w) event dss.
Proof.
  intros Hwf. destruct (TriggerEvent_total t event w Hwf) as [w' Hrun]. exists w'.
  pose proof Hrun as Hrun'. rewrite TriggerEvent_unfold in Hrun'.
  destruct (EventPool.pool_emit_nested _ _ _ _ _ Hrun') as (dss & Hlen & Ht). exists dss.
  destruct (GetEventHandler_spec t w) as (Hidx & _). rewrite Hidx in Hlen, Ht.
  destruct (GetEventHandler_obs t w) as (_ & Hb & Htr). fold (slot_of t w) in Hlen, Ht.
  rewrite <-Hb in Hlen, Ht. rewrite <-Htr in Ht. by split_and!.
Qed.

(** ** Packed pools *)

(** [GetEventHandler] creates the pool of a type in the call that issues its
    identifier, so it keeps the pools packed; so do the two member functions
    that write to a signal.  File [Kept] derives the same of every other
    member function. *)
Lemma GetEventHandler_packs t w : packs w (GetEventHandler t w).2.
Proof.
  intros (Hwf & Hlen & Hsome).
  destruct (GetEventHandler_spec t w) as (_ & Hr & Hp & Hne & Hl & _).
  destruct (GetEventId_next (registry w) t Hwf) as [Hle Hnext].
  unfold packed. rewrite Hr, Hl, Hlen, Hnext. split_and!; [by apply GetEventId_wf|done|].
  intros i Hi. destruct (decide ((GetEventId t (registry w)).1 = i)) as [<-|Hi']; [by rewrite Hp|].
  rewrite Hne by done. apply Hsome. lia.
Qed.

Lemma SubscribeToEvent_packs t f w : packs w (SubscribeToEvent t f w).2.
Proof.
  rewrite SubscribeToEvent_unfold.
  trans (GetEventHandler t w).2; [apply GetEventHandler_packs|apply packs_update_pool].
Qed.

Lemma UnsubscribeFromEvent_packs connection w : packs w (UnsubscribeFromEvent connection w).
Proof. apply packs_update_pool. Qed.

(** ** Passive callables: the exact effect of the member functions *)

Lemma TriggerEvent_passive_eq `{!Passive call} t event w :
  TriggerEvent call t event w
  = Some (log_all (EventPool.deliveries (slot_of t w) (bound_of (slot_of t w) w) event)
            (GetEventHandler t w).2).
Proof.
  rewrite TriggerEvent_unfold. unfold EventPool.TriggerEvent, slot_of.
  rewrite EventPool.pool_emit_passive by done.
  destruct (GetEventHandler_spec t w) as (-> & _).
  destruct (GetEventHandler_obs t w) as (_ & Hb & _). by rewrite <-Hb.
Qed.

(** C4: [EventBus::TriggerEvent<Event>] with callables that do not call the
    bus returns, having invoked every callable bound for the type exactly
    once with the event, in subscription order; it changes no buffer and no
    binding. *)
Theorem bus_TriggerEvent_passive `{!Passive call} t event w :
  ∃ w', TriggerEvent call t event w = Some w' ∧
    trace w' = trace w ++ EventPool.deliveries (slot_of t w) (bound_of (slot_of t w) w) event ∧
    (∀ i, queue_of i w' = queue_of i w) ∧ (∀ i, bound_of i w' = bound_of i w).
Proof.
  eexists. split; [by apply TriggerEvent_passive_eq|].
  destruct (GetEventHandler_obs t w) as (Hq & Hb & Ht).
  split_and!; [simpl; by rewrite <-Ht|intros i; by rewrite Hq|intros i; by rewrite Hb].
Qed.

(** *** The loop of [DispatchQueuedEvents()] *)

Lemma dispatch_slot_passive `{!Passive call} i w :
  dispatch_slot call i w = Some (flush_slot w i).
Proof.
  rewrite dispatch_slot_unfold. unfold flush_slot. destruct (pool_at i w); [|done].
  unfold EventPool.DispatchQueuedEvents.
  rewrite EventPool.pool_flush_loop_passive, bind_Some_l by done.
  by rewrite EventPool.pool_walk_closed.
Qed.

(** The flush of the pool of one type, its pool created if need be. *)
Lemma dispatch_type_passive_eq `{!Passive call} t w :
  dispatch_type call t w = Some (flush_slot (GetEventHandler t w).2 (slot_of t w)).
Proof.
  rewrite dispatch_type_unfold, <-dispatch_slot_passive. rewrite dispatch_slot_unfold. unfold slot_of.
  destruct (GetEventHandler_spec t w) as (-> & _ & -> & _). done.
Qed.

Lemma flush_deliveries_None i w : pool_at i w = None → EventPool.flush_deliveries i w = [].
Proof. intros Hp. unfold EventPool.flush_deliveries. by rewrite queue_of_None. Qed.

Lemma flush_slot_trace i w : trace (flush_slot w i) = trace w ++ EventPool.flush_deliveries i w.
Proof.
  unfold flush_slot. destruct (pool_at i w) eqn:Hp; [done|].
  by rewrite flush_deliveries_None, app_nil_r.
Qed.

Lemma flush_slot_queue_of i j w :
  queue_of j (flush_slot w i) = if decide (i = j) then [] else queue_of j w.
Proof.
  unfold flush_slot. destruct (pool_at i w) eqn:Hp.
  - destruct (decide (i = j)) as [->|Hne].
    + apply queue_of_clear.
    + by rewrite queue_of_clear_ne.
  - destruct (decide (i = j)) as [->|Hne]; [by apply queue_of_None|done].
Qed.

Lemma flush_slot_bound_of i j w : bound_of j (flush_slot w i) = bound_of j w.
Proof.
  unfold flush_slot. destruct (pool_at i w) eqn:Hp; [|done].
  apply (bound_of_with_queue i j (λ _, []) (log_all (EventPool.flush_deliveries i w) w)).
Qed.

Lemma flush_slot_deliveries i j w :
  i ≠ j → EventPool.flush_deliveries j (flush_slot w i) = EventPool.flush_deliveries j w.
Proof.
  intros Hne. unfold EventPool.flush_deliveries.
  by rewrite flush_slot_queue_of, decide_False, flush_slot_bound_of.
Qed.

Lemma flush_slot_walks i w : same_walks w (flush_slot w i).
Proof. unfold flush_slot. by destruct (pool_at i w). Qed.

(** Outside a flush, clearing a buffer invalidates no iterator. *)
Lemma flush_slot_hazard i w : iter_queues w = [] → hazard (flush_slot w i) = hazard w.
Proof.
  intros Hq. unfold flush_slot. destruct (pool_at i w); [|done]. simpl.
  rewrite Hq, bool_decide_eq_false_2, orb_false_r; [done|]. by intros ?%elem_of_nil.
Qed.

Lemma flush_slots_walks (l : list nat) w : same_walks w (foldl flush_slot w l).
Proof.
  revert w. induction l as [|i l IH]; intros w; [done|]. simpl.
  trans (flush_slot w i); [apply flush_slot_walks|apply IH].
Qed.

Lemma flush_slots_hazard (l : list nat) w :
  iter_queues w = [] → hazard (foldl flush_slot w l) = hazard w.
Proof.
  revert w. induction l as [|i l IH]; intros w Hq; [done|]. simpl.
  rewrite IH, flush_slot_hazard; [done..|]. by rewrite <-(proj1 (flush_slot_walks i w)).
Qed.

(** Flushing the slots of a list without repetition: the invocations of the
    slots one after the other, every slot of the list empty afterwards, no
    binding changed. *)
Lemma flush_slots_spec (l : list nat) w :
  NoDup l →
  trace (foldl flush_slot w l) = trace w ++ (l ≫= λ i, EventPool.flush_deliveries i w) ∧
  (∀ j, queue_of j (foldl flush_slot w l) = if decide (j ∈ l) then [] else queue_of j w) ∧
  (∀ j, bound_of j (foldl flush_slot w l) = bound_of j w).
Proof.
  revert w. induction l as [|a l IH]; intros w Hnd.
  { split_and!; [by rewrite app_nil_r|done..]. }
  apply NoDup_cons in Hnd as [Ha Hnd]. destruct (IH (flush_slot w a) Hnd) as (Ht & Hq & Hb).
  simpl foldl. split_and!.
  - rewrite Ht, flush_slot_trace, bind_cons, <-app_assoc. do 2 f_equal.
    apply bind_ext_in. intros i Hi. apply flush_slot_deliveries. by intros ->.
  - intros j. rewrite Hq, flush_slot_queue_of.
    destruct (decide (a = j)) as [->|Hne].
    + rewrite (decide_True (P := j ∈ j :: l)) by left. by destruct (decide (j ∈ l)).
    + destruct (decide (j ∈ l)) as [Hin|Hin]; [by rewrite decide_True by by right|].
      rewrite decide_False; [done|]. rewrite elem_of_cons. by intros [->|?].
  - intros j. by rewrite Hb, flush_slot_bound_of.
Qed.

Lemma DispatchQueuedEvents_passive_eq `{!Passive call} w :
  DispatchQueuedEvents call w = Some (flush_all w).
Proof.
  unfold DispatchQueuedEvents, flush_all.
  by rewrite (for_each_pure _ flush_slot), bind_Some_l
    by (intros; by apply dispatch_slot_passive).
Qed.

(** What the flush of all pools does to the observable state. *)
Lemma flush_all_obs w :
  trace (flush_all w) = trace w
    ++ (seq 0 (length (mEventPools w)) ≫= λ i, EventPool.flush_deliveries i w) ∧
  queues_empty (flush_all w) ∧ (∀ i, bound_of i (flush_all w) = bound_of i w).
Proof.
  unfold flush_all. set (l := seq 0 (length (mEventPools w))).
  destruct (flush_slots_spec l (begin_pools_walk w)) as (Ht & Hq & Hb); [apply NoDup_seq|].
  split_and!; [exact Ht|intros i..].
  - unfold queue_of in *. simpl in *. rewrite Hq. case_decide as Hi; [done|].
    unfold l in Hi. rewrite elem_of_seq in Hi. rewrite slot_ge; [done|lia].
  - unfold bound_of in *. simpl in *. by rewrite Hb.
Qed.

Lemma flush_all_walks w : same_walks w (flush_all w).
Proof.
  destruct (flush_slots_walks (seq 0 (length (mEventPools w))) (begin_pools_walk w))
    as [Hwq Hwp]. unfold flush_all. split; simpl in *; [done|]. by rewrite <-Hwp.
Qed.

Lemma flush_all_hazard w : iter_queues w = [] → hazard (flush_all w) = hazard w.
Proof. intros Hnil. unfold flush_all. simpl. by rewrite flush_slots_hazard. Qed.

(** C2: [EventBus::DispatchQueuedEvents()] with callables that do not call
    the bus returns, having flushed the pools in the order of their slots
    (the order in which their types got their ids): the invocations are those
    of the flush of each pool on its buffer at the call, every buffer is empty
    afterwards, and no binding, pool or iterator is touched. *)
Theorem bus_DispatchQueuedEvents_passive `{!Passive call} w :
  ∃ w', DispatchQueuedEvents call w = Some w' ∧
    trace w' = trace w
      ++ (seq 0 (length (mEventPools w)) ≫= λ i, EventPool.flush_deliveries i w) ∧
    queues_empty w' ∧ (∀ i, bound_of i w' = bound_of i w) ∧
    same_walks w w' ∧ (iter_queues w = [] → hazard w' = hazard w).
Proof.
  exists (flush_all w). destruct (flush_all_obs w) as (Ht & Hq & Hb).
  split_and!; [by apply DispatchQueuedEvents_passive_eq|done..| |].
  - apply flush_all_walks.
  - apply flush_all_hazard.
Qed.

(** *** Enqueueing, and clearing *)

Lemma bus_EnqueueEvent_frame t event w :
  queue_of (slot_of t w) (EnqueueEvent t event w) = queue_of (slot_of t w) w ++ [event] ∧
  (∀ i, slot_of t w ≠ i → queue_of i (EnqueueEvent t event w) = queue_of i w) ∧
  (∀ i, bound_of i (EnqueueEvent t event w) = bound_of i w).
Proof.
  rewrite EnqueueEvent_unfold. unfold EventPool.EnqueueEvent, slot_of.
  destruct (GetEventHandler_spec t w) as (-> & _ & Hp & _).
  destruct (GetEventHandler_obs t w) as (Hq & Hb & Ht).
  split_and!.
  - rewrite (queue_of_push_back _ _ _ _ Hp). by rewrite <-Hq.
  - intros i Hne. rewrite queue_of_push_back_ne by done. by rewrite <-Hq.
  - intros i. rewrite Hb. apply (bound_of_with_queue _ i (λ p, mEventQueue p ++ [event])).
Qed.

Lemma bus_EnqueueEvent_trace t event w : trace (EnqueueEvent t event w) = trace w.
Proof. rewrite EnqueueEvent_unfold. by destruct (GetEventHandler_obs t w) as (_ & _ & ->). Qed.

(** [EventBus::EnqueueEvent<Event>] appends the event to the buffer of
    the pool of its type and invokes nothing: the other buffers, all bindings
    and the trace are as before. *)
Theorem bus_EnqueueEvent_spec t event w :
  queue_of (slot_of t w) (EnqueueEvent t event w) = queue_of (slot_of t w) w ++ [event] ∧
  (∀ i, slot_of t w ≠ i → queue_of i (EnqueueEvent t event w) = queue_of i w) ∧
  (∀ i, bound_of i (EnqueueEvent t event w) = bound_of i w) ∧
  trace (EnqueueEvent t event w) = trace w.
Proof.
  destruct (bus_EnqueueEvent_frame t event w) as (Hq & Hne & Hb). split_and!; [done..|].
  apply bus_EnqueueEvent_trace.
Qed.

(** The pool of a type exists once an event of the type has been enqueued. *)
Lemma EnqueueEvent_slot_lt t event w :
  slot_of t w < length (mEventPools (EnqueueEvent t event w)).
Proof.
  rewrite EnqueueEvent_unfold. unfold EventPool.EnqueueEvent, slot_of.
  destruct (GetEventHandler_spec t w) as (-> & _ & Hp & _).
  simpl. rewrite length_alter. by eapply slot_lt.
Qed.

(** What a flush delivers after an event has been enqueued. *)
Lemma flush_deliveries_EnqueueEvent t event i w :
  EventPool.flush_deliveries i (EnqueueEvent t event w)
  = EventPool.flush_deliveries i w
    ++ (if decide (slot_of t w = i) then EventPool.deliveries i (bound_of i w) event else []).
Proof.
  destruct (bus_EnqueueEvent_frame t event w) as (Hq & Hne & Hb).
  unfold EventPool.flush_deliveries. rewrite Hb. case_decide as Hi.
  - subst i. rewrite Hq, bind_app. simpl. by rewrite app_nil_r.
  - by rewrite Hne, app_nil_r.
Qed.

(** Clearing the slots of a list: every slot of the list empty afterwards, no
    binding changed, nothing invoked. *)
Lemma clear_ats_spec (l : list nat) w :
  (∀ j, queue_of j (foldl clear_at w l) = if decide (j ∈ l) then [] else queue_of j w) ∧
  (∀ j, bound_of j (foldl clear_at w l) = bound_of j w) ∧
  trace (foldl clear_at w l) = trace w.
Proof.
  revert w. induction l as [|a l IH]; intros w; [done|].
  destruct (IH (clear_at w a)) as (Hq & Hb & Ht). simpl foldl.
  assert (∀ j, queue_of j (clear_at w a) = if decide (a = j) then [] else queue_of j w) as Hqa.
  { intros j. unfold clear_at. destruct (pool_at a w) eqn:Hp; case_decide as Hj; subst;
      [apply queue_of_clear|by apply queue_of_clear_ne|by apply queue_of_None|done]. }
  assert (∀ j, bound_of j (clear_at w a) = bound_of j w) as Hba.
  { intros j. unfold clear_at. destruct (pool_at a w); [|done].
    apply (bound_of_with_queue a j (λ _, [])). }
  split_and!.
  - intros j. rewrite Hq, Hqa. destruct (decide (a = j)) as [->|Hne].
    + rewrite (decide_True (P := j ∈ j :: l)) by left. by destruct (decide (j ∈ l)).
    + destruct (decide (j ∈ l)) as [Hin|Hin]; [by rewrite decide_True by by right|].
      rewrite decide_False; [done|]. rewrite elem_of_cons. by intros [->|?].
  - intros j. by rewrite Hb, Hba.
  - rewrite Ht. unfold clear_at. by destruct (pool_at a w).
Qed.

Lemma clear_all_obs w :
  queues_empty (clear_all w) ∧
  (∀ i, bound_of i (clear_all w) = bound_of i w) ∧
  trace (clear_all w) = trace w.
Proof.
  unfold clear_all.
  destruct (clear_ats_spec (seq 0 (length (mEventPools w))) w) as (Hq & Hb & Ht).
  split_and!; [|done..]. intros i. rewrite Hq. case_decide as Hi; [done|].
  rewrite elem_of_seq in Hi. apply queue_of_None, slot_ge. lia.
Qed.

(** [EventBus::ClearEventQueues()] leaves every buffer empty, invokes
    nothing and changes no binding. *)
Theorem bus_ClearEventQueues_spec w :
  ∃ w', ClearEventQueues w = Some w' ∧ queues_empty w' ∧
        (∀ i, bound_of i w' = bound_of i w) ∧ trace w' = trace w.
Proof. exists (clear_all w). split; [apply ClearEventQueues_eq|apply clear_all_obs]. Qed.

(** What a flush of every pool leaves after one event has been enqueued, when
    nothing else is buffered: the state a trigger of the event leaves. *)
Lemma flush_all_EnqueueEvent_obs t event w :
  queues_empty w →
  obs_eq (flush_all (EnqueueEvent t event w))
    (log_all (EventPool.deliveries (slot_of t w) (bound_of (slot_of t w) w) event)
       (GetEventHandler t w).2).
Proof.
  intros Hempty.
  destruct (flush_all_obs (EnqueueEvent t event w)) as (Ht & Hq & Hb).
  destruct (bus_EnqueueEvent_frame t event w) as (_ & _ & Hbe).
  destruct (GetEventHandler_obs t w) as (Hqo & Hbo & Hto).
  split_and!.
  - intros i. by rewrite Hq, queue_of_log_all, <-Hqo, Hempty.
  - intros i. by rewrite Hb, Hbe, bound_of_log_all, <-Hbo.
  - rewrite Ht. simpl. rewrite <-Hto. f_equal; [apply bus_EnqueueEvent_trace|].
    rewrite (bind_ext_in _ (λ i, if decide (slot_of t w = i)
      then EventPool.deliveries (slot_of t w) (bound_of (slot_of t w) w) event else [])).
    + apply bind_single_point; [apply NoDup_seq|]. apply elem_of_seq.
      pose proof (EnqueueEvent_slot_lt t event w). lia.
    + intros i _. rewrite flush_deliveries_EnqueueEvent.
      unfold EventPool.flush_deliveries at 1. rewrite (Hempty i). simpl.
      by case_decide; subst.
Qed.

(** C38: deferred delivery is immediate delivery.  With callables that do
    not call the bus and no event buffered, enqueueing an event and then
    dispatching ends in the same observable state as triggering it: the same
    callables invoked with it in the same order, all buffers empty, the
    bindings as before. *)
Theorem bus_enqueue_dispatch_trigger `{!Passive call} t event w :
  queues_empty w →
  ∃ w1 w2, DispatchQueuedEvents call (EnqueueEvent t event w) = Some w1 ∧
           TriggerEvent call t event w = Some w2 ∧ obs_eq w1 w2.
Proof.
  intros Hempty. exists (flush_all (EnqueueEvent t event w)). eexists.
  split_and!; [by apply DispatchQueuedEvents_passive_eq|by apply TriggerEvent_passive_eq|].
  by apply flush_all_EnqueueEvent_obs.
Qed.

(** *** Sequences of events *)

Lemma EnqueueEvent_registry t event w :
  registry (EnqueueEvent t event w) = (GetEventId t (registry w)).2.
Proof.
  rewrite EnqueueEvent_unfold. destruct (GetEventHandler_spec t w) as (_ & Hr & _). exact Hr.
Qed.

Lemma EnqueueEvent_slot_of t event w : slot_of t (EnqueueEvent t event w) = slot_of t w.
Proof. apply slot_of_registered. rewrite EnqueueEvent_registry. apply GetEventId_lookup. Qed.

(** Enqueueing a sequence of events of one type appends the sequence to the
    buffer of the type. *)
Lemma enqueue_all_frame t (es : list val) w :
  queue_of (slot_of t w) (foldl (λ w e, EnqueueEvent t e w) w es)
  = queue_of (slot_of t w) w ++ es ∧
  (∀ i, slot_of t w ≠ i →
        queue_of i (foldl (λ w e, EnqueueEvent t e w) w es) = queue_of i w) ∧
  (∀ i, bound_of i (foldl (λ w e, EnqueueEvent t e w) w es) = bound_of i w) ∧
  trace (foldl (λ w e, EnqueueEvent t e w) w es) = trace w.
Proof.
  revert w. induction es as [|e es IH]; intros w; [by rewrite app_nil_r|].
  destruct (IH (EnqueueEvent t e w)) as (Hq & Hne & Hb & Ht).
  destruct (bus_EnqueueEvent_frame t e w) as (Hq1 & Hne1 & Hb1).
  rewrite EnqueueEvent_slot_of in Hq, Hne. simpl foldl. split_and!.
  - by rewrite Hq, Hq1, <-app_assoc.
  - intros i Hi. by rewrite Hne, Hne1.
  - intros i. by rewrite Hb, Hb1.
  - by rewrite Ht, bus_EnqueueEvent_trace.
Qed.

(** A flush with nothing buffered invokes nothing. *)
Lemma flush_all_empty w : queues_empty w → trace (flush_all w) = trace w.
Proof.
  intros Hempty. destruct (flush_all_obs w) as (-> & _).
  rewrite (bind_ext_in _ (λ _, [])), bind_nil_const, app_nil_r; [done|].
  intros i _. unfold EventPool.flush_deliveries. by rewrite (Hempty i).
Qed.

(** What the flush of all pools invokes when one buffer only holds events. *)
Lemma flush_all_single k w :
  (∀ i, k ≠ i → queue_of i w = []) →
  trace (flush_all w) = trace w ++ EventPool.flush_deliveries k w.
Proof.
  intros Hne. destruct (flush_all_obs w) as (-> & _). f_equal.
  destruct (decide (k < length (mEventPools w))) as [Hk|Hk].
  - rewrite <-(bind_single_point (seq 0 (length (mEventPools w))) k
      (EventPool.flush_deliveries k w)); [|apply NoDup_seq|apply elem_of_seq; lia].
    apply bind_ext_in. intros i _. case_decide as Hi; [by subst|].
    unfold EventPool.flush_deliveries. by rewrite Hne.
  - rewrite (bind_ext_in _ (λ _, [])), bind_nil_const.
    + unfold EventPool.flush_deliveries. rewrite queue_of_None; [done|]. apply slot_ge. lia.
    + intros i Hi%elem_of_seq. unfold EventPool.flush_deliveries.
      rewrite Hne; [done|]. lia.
Qed.

(** C9: buffered delivery is first in, first out.  After a sequence of
    [EnqueueEvent<Event>] calls, a flush by [DispatchQueuedEvents()] with
    callables that do not call the bus returns, having invoked the callables
    bound for the type with the events in the order they were enqueued, each
    callable once per event; every buffer is empty afterwards. *)
Theorem bus_enqueue_fifo `{!Passive call} t (es : list val) w :
  queues_empty w →
  ∃ w', DispatchQueuedEvents call (foldl (λ w e, EnqueueEvent t e w) w es) = Some w' ∧
        trace w' = trace w
          ++ (es ≫= EventPool.deliveries (slot_of t w) (bound_of (slot_of t w) w)) ∧
        queues_empty w'.
Proof.
  intros Hempty. eexists. split; [by apply DispatchQueuedEvents_passive_eq|].
  destruct (enqueue_all_frame t es w) as (Hq & Hne & Hb & Ht).
  split; [|apply flush_all_obs]. rewrite (flush_all_single (slot_of t w)).
  - unfold EventPool.flush_deliveries. by rewrite Ht, Hq, Hb, Hempty.
  - intros i Hi. by rewrite Hne.
Qed.

(** C33: events cleared are not delivered.  [ClearEventQueues()] returns,
    and a flush after it invokes nothing, however many events were
    buffered. *)
Theorem bus_clear_dispatch `{!Passive call} w :
  ∃ w1 w', ClearEventQueues w = Some w1 ∧ DispatchQueuedEvents call w1 = Some w' ∧
           trace w' = trace w ∧ queues_empty w'.
Proof.
  eexists _, _. split; [apply ClearEventQueues_eq|].
  split; [by apply DispatchQueuedEvents_passive_eq|].
  destruct (clear_all_obs w) as (Hq & _ & Ht).
  split; [|apply flush_all_obs]. by rewrite flush_all_empty.
Qed.

(** *** The null slots *)

Lemma flush_slot_same_pools i w : same_pools w (flush_slot w i).
Proof.
  unfold flush_slot. destruct (pool_at i w); [|done].
  etrans; [|apply same_pools_clear]. by apply same_pools_frame.
Qed.

Lemma flush_all_same_pools w : same_pools w (flush_all w).
Proof.
  unfold flush_all. trans (begin_pools_walk w); [by apply same_pools_frame|].
  etrans; [|by apply same_pools_frame]. apply (foldl_relates same_pools).
  intros i w' _. apply flush_slot_same_pools.
Qed.

Lemma clear_all_same_pools w : same_pools w (clear_all w).
Proof.
  apply (foldl_relates same_pools). intros i w' _. unfold clear_at.
  destruct (pool_at i w'); [apply same_pools_clear|done].
Qed.

(** C23: the loops of [DispatchQueuedEvents()] and [ClearEventQueues()] skip
    the null slots.  From every world, whichever slots of [mEventPools] hold
    no pool, both return (with callables that do not call the bus): no
    member function is called through a null pointer.  The slots that hold a
    pool afterwards are those that held one: no pool is created to be
    flushed or cleared. *)
Theorem bus_loops_skip_null `{!Passive call} w :
  ∃ w1 w2, DispatchQueuedEvents call w = Some w1 ∧ ClearEventQueues w = Some w2 ∧
           same_pools w w1 ∧ same_pools w w2.
Proof.
  exists (flush_all w), (clear_all w).
  split_and!; [by apply DispatchQueuedEvents_passive_eq|apply ClearEventQueues_eq
              |apply flush_all_same_pools|apply clear_all_same_pools].
Qed.

(** *** Subscribing and unsubscribing *)

(** The connection handed out names the pool of the type and the next serial
    of its signal. *)
Lemma SubscribeToEvent_conn t f w :
  (SubscribeToEvent t f w).1 = mkConnection (slot_of t w) (issued_of (slot_of t w) w).
Proof.
  unfold SubscribeToEvent, slot_of, issued_of.
  destruct (GetEventHandler_spec t w) as (Hi & _ & Hp & _).
  destruct (GetEventHandler t w) as [this w1]. cbn [fst snd] in *. subst this. rewrite Hp.
  destruct (Bind f _) as [c s] eqn:Hb. cbn [fst]. f_equal.
  change c with (c, s).1. rewrite <-Hb, Bind_serial.
  destruct (pool_at _ w); [done|apply issued_new].
Qed.

Lemma SubscribeToEvent_frame t f w :
  bound_of (slot_of t w) (SubscribeToEvent t f w).2
  = bound_of (slot_of t w) w ++ [(issued_of (slot_of t w) w, f)] ∧
  (∀ i, slot_of t w ≠ i → bound_of i (SubscribeToEvent t f w).2 = bound_of i w) ∧
  (∀ i, queue_of i (SubscribeToEvent t f w).2 = queue_of i w) ∧
  trace (SubscribeToEvent t f w).2 = trace w.
Proof.
  rewrite SubscribeToEvent_unfold. unfold slot_of, issued_of.
  destruct (GetEventHandler_spec t w) as (-> & _ & Hp & _).
  destruct (GetEventHandler_obs t w) as (Hq & Hb & Ht).
  split_and!.
  - rewrite (bound_of_with_signal _ (λ p, (Bind f (mSignal p)).2) _ _ Hp), bound_Bind.
    unfold bound_of. destruct (pool_at _ w); simpl; [done|by rewrite bound_new, issued_new].
  - intros i Hne. by rewrite bound_of_with_signal_ne, <-Hb.
  - intros i. by rewrite (queue_of_with_signal _ i (λ p, (Bind f (mSignal p)).2)), <-Hq.
  - by rewrite Ht.
Qed.

Lemma UnsubscribeFromEvent_frame connection w :
  bound_of (conn_signal connection) (UnsubscribeFromEvent connection w)
  = filter (λ b, b.1 ≠ conn_serial connection) (bound_of (conn_signal connection) w) ∧
  (∀ i, conn_signal connection ≠ i →
        bound_of i (UnsubscribeFromEvent connection w) = bound_of i w) ∧
  (∀ i, queue_of i (UnsubscribeFromEvent connection w) = queue_of i w) ∧
  trace (UnsubscribeFromEvent connection w) = trace w.
Proof.
  unfold UnsubscribeFromEvent. split_and!; [|intros i Hne|intros i|done].
  - destruct (pool_at (conn_signal connection) w) as [p|] eqn:Hp.
    + rewrite (bound_of_with_signal _ (λ p, Disconnect _ (mSignal p)) _ _ Hp).
      rewrite bound_Disconnect. unfold bound_of. by rewrite Hp.
    + rewrite !bound_of_None; [done..|]. simpl in *. by rewrite slot_alter, decide_True, Hp.
  - by rewrite bound_of_with_signal_ne.
  - apply (queue_of_with_signal _ i (λ p, Disconnect _ (mSignal p))).
Qed.

(** C34: [EventBus::SubscribeToEvent<Event>] binds the callable after the
    callables already bound for the type and returns a connection for that
    binding; it invokes nothing and changes no buffer and no other binding. *)
Theorem bus_SubscribeToEvent_spec t f w :
  (SubscribeToEvent t f w).1 = mkConnection (slot_of t w) (issued_of (slot_of t w) w) ∧
  bound_of (slot_of t w) (SubscribeToEvent t f w).2
  = bound_of (slot_of t w) w ++ [(issued_of (slot_of t w) w, f)] ∧
  (∀ i, slot_of t w ≠ i → bound_of i (SubscribeToEvent t f w).2 = bound_of i w) ∧
  (∀ i, queue_of i (SubscribeToEvent t f w).2 = queue_of i w) ∧
  trace (SubscribeToEvent t f w).2 = trace w.
Proof. split; [apply SubscribeToEvent_conn|apply SubscribeToEvent_frame]. Qed.

(** [EventBus::UnsubscribeFromEvent] revokes the binding the connection
    names and nothing else: the other bindings of that pool keep their order,
    the other pools, all buffers and the trace are as before. *)
Theorem bus_UnsubscribeFromEvent_spec connection w :
  bound_of (conn_signal connection) (UnsubscribeFromEvent connection w)
  = filter (λ b, b.1 ≠ conn_serial connection) (bound_of (conn_signal connection) w) ∧
  (∀ i, conn_signal connection ≠ i →
        bound_of i (UnsubscribeFromEvent connection w) = bound_of i w) ∧
  (∀ i, queue_of i (UnsubscribeFromEvent connection w) = queue_of i w) ∧
  trace (UnsubscribeFromEvent connection w) = trace w.
Proof. apply UnsubscribeFromEvent_frame. Qed.

(** C10: unsubscribing the connection a subscription returned undoes the
    subscription: in a well-formed world the bindings, the buffers and the
    trace are what they were before the subscription. *)
Theorem bus_subscribe_unsubscribe t f w :
  world_wf w →
  obs_eq (UnsubscribeFromEvent (SubscribeToEvent t f w).1 (SubscribeToEvent t f w).2) w.
Proof.
  intros Hwf. rewrite SubscribeToEvent_conn.
  destruct (SubscribeToEvent_frame t f w) as (Hb & Hbne & Hq & Ht).
  destruct (UnsubscribeFromEvent_frame
    (mkConnection (slot_of t w) (issued_of (slot_of t w) w)) (SubscribeToEvent t f w).2)
    as (Hb' & Hbne' & Hq' & Ht'). cbn [conn_signal conn_serial] in Hb', Hbne'.
  split_and!; [intros i; by rewrite Hq', Hq| |by rewrite Ht', Ht].
  intros i. destruct (decide (slot_of t w = i)) as [<-|Hne]; [|by rewrite Hbne', Hbne].
  rewrite Hb', Hb, filter_app, filter_cons_False, filter_nil, app_nil_r
    by (intros Hx; by apply Hx).
  apply filter_Forall_id, Forall_forall. intros b Hin Heq.
  apply (issued_of_fresh (slot_of t w) w Hwf). rewrite <-Heq. by apply list_elem_of_fmap_2.
Qed.

(** The binding a connection names is gone after [UnsubscribeFromEvent]. *)
Lemma UnsubscribeFromEvent_unbound connection w :
  conn_serial connection
  ∉ (bound_of (conn_signal connection) (UnsubscribeFromEvent connection w)).*1.
Proof.
  destruct (UnsubscribeFromEvent_frame connection w) as (-> & _).
  intros (b & Hb & [Hne _]%list_elem_of_filter)%list_elem_of_fmap. done.
Qed.

(** C8: after [UnsubscribeFromEvent(connection)] neither a trigger nor a
    flush invokes through the binding the connection names (callables that
    do not call the bus). *)
Theorem bus_unsubscribed_not_invoked `{!Passive call} connection t event w :
  ∃ w1 w2 ds1 ds2,
    TriggerEvent call t event (UnsubscribeFromEvent connection w) = Some w1 ∧
    trace w1 = trace w ++ ds1 ∧
    DispatchQueuedEvents call (UnsubscribeFromEvent connection w) = Some w2 ∧
    trace w2 = trace w ++ ds2 ∧
    Forall (λ d, ¬ from_binding (conn_signal connection) (conn_serial connection) d)
      (ds1 ++ ds2).
Proof.
  set (w' := UnsubscribeFromEvent connection w).
  pose proof (UnsubscribeFromEvent_unbound connection w) as Hc. fold w' in Hc.
  eexists _, (flush_all w'), _,
    (seq 0 (length (mEventPools w')) ≫= λ i, EventPool.flush_deliveries i w').
  split_and!; [by apply TriggerEvent_passive_eq| |by apply DispatchQueuedEvents_passive_eq
              |exact (proj1 (flush_all_obs w'))|].
  - simpl. by destruct (GetEventHandler_obs t w') as (_ & _ & <-).
  - apply Forall_app. split.
    + apply EventPool.deliveries_not_from. by intros ->.
    + apply Forall_bind, Forall_forall. intros i _.
      apply EventPool.flush_deliveries_not_from. by intros ->.
Qed.


(** *** Selective flush *)

(** C35: [DispatchQueuedEvents<Event>()] flushes the buffer of the type named
    and no other: with callables that do not call the bus it invokes the
    callables bound for the type with the events buffered for it, empties
    that buffer, and leaves the buffers of the other types as they are, also
    when they hold events.  The pool of the type exists afterwards, whether
    or not the type was ever used before. *)
Theorem bus_DispatchQueuedEventsOf_one `{!Passive call} t w :
  ∃ w', DispatchQueuedEventsOf call [t] w = Some w' ∧
    trace w' = trace w ++ EventPool.flush_deliveries (slot_of t w) w ∧
    queue_of (slot_of t w) w' = [] ∧
    (∀ i, slot_of t w ≠ i → queue_of i w' = queue_of i w) ∧
    (∀ i, bound_of i w' = bound_of i w) ∧
    is_Some (pool_at (slot_of t w) w').
Proof.
  unfold DispatchQueuedEventsOf. simpl. rewrite dispatch_type_passive_eq. simpl.
  eexists. split; [done|]. set (w1 := (GetEventHandler t w).2).
  destruct (GetEventHandler_obs t w) as (Hq & Hb & Ht). fold w1 in Hq, Hb, Ht.
  split_and!.
  - rewrite flush_slot_trace, <-Ht. unfold EventPool.flush_deliveries. by rewrite Hq, Hb.
  - by rewrite flush_slot_queue_of, decide_True.
  - intros i Hne. by rewrite flush_slot_queue_of, decide_False, Hq.
  - intros i. by rewrite flush_slot_bound_of, Hb.
  - unfold flush_slot, slot_of, w1. destruct (GetEventHandler_spec t w) as (_ & _ & Hp & _).
    rewrite Hp. simpl. rewrite slot_alter, decide_True by done. simpl in Hp. by rewrite Hp.
Qed.

(** *** Isolation of event types *)

(** A pool found in the slot of a type was created for that type: the type
    had its id when the pool was there. *)
Lemma pool_at_slot_of t w w' p :
  world_wf w → registry_wf (registry w') → registry_le (registry w) (registry w') →
  pool_at (slot_of t w') w = Some p → event_ids (registry w) !! t = Some (slot_of t w').
Proof.
  intros (_ & _ & Hty & _) Hwf' Hle Hp. pose proof (Hty _ _ Hp) as Hi.
  assert (pool_type p = t) as <-; [|done].
  destruct (GetEventId_wf (registry w') t Hwf') as [_ Hinj].
  apply (Hinj _ _ (slot_of t w')); [|apply GetEventId_lookup].
  eapply registry_le_lookup; [|done]. trans (registry w'); [done|apply GetEventId_le].
Qed.

(** What is delivered for a type is determined by the bindings, whenever the
    slot of the type is looked up. *)
Lemma deliveries_slot_stable t event w w' :
  world_wf w → registry_wf (registry w') → registry_le (registry w) (registry w') →
  EventPool.deliveries (slot_of t w') (bound_of (slot_of t w') w) event
  = EventPool.deliveries (slot_of t w) (bound_of (slot_of t w) w) event.
Proof.
  intros Hwf Hwf' Hle. destruct (pool_at (slot_of t w') w) as [p|] eqn:Hp.
  - rewrite (slot_of_registered t w (slot_of t w')); [done|]. by eapply pool_at_slot_of.
  - rewrite (bound_of_None _ _ Hp). destruct (pool_at (slot_of t w) w) as [p|] eqn:Hp'.
    + pose proof (pool_at_slot_of t w w p Hwf (proj1 Hwf) (reflexivity _) Hp') as Hreg.
      rewrite (slot_of_registered t w' (slot_of t w)) in Hp by (by eapply registry_le_lookup).
      congruence.
    + by rewrite (bound_of_None _ _ Hp').
Qed.

Lemma SubscribeToEvent_registry t f w :
  registry (SubscribeToEvent t f w).2 = (GetEventId t (registry w)).2.
Proof.
  rewrite SubscribeToEvent_unfold. destruct (GetEventHandler_spec t w) as (_ & Hr & _).
  exact Hr.
Qed.

(** C20: event types are isolated.  Subscribing a callable to one type does
    not change what is invoked for an event of another type: with callables
    that do not call the bus, triggering an event of type [t] after a
    subscription to [u] makes the invocations it makes without it. *)
Theorem bus_type_isolation `{!Passive call} t u f event w :
  world_wf w → t ≠ u →
  ∃ w1 w2, TriggerEvent call t event (SubscribeToEvent u f w).2 = Some w1 ∧
           TriggerEvent call t event w = Some w2 ∧ trace w1 = trace w2.
Proof.
  intros Hwf Hne. do 2 eexists. split_and!; [by apply TriggerEvent_passive_eq..|].
  set (w1 := (SubscribeToEvent u f w).2). simpl.
  destruct (SubscribeToEvent_frame u f w) as (_ & Hbne & _ & Ht).
  destruct (SubscribeToEvent_sound u f) as (Hwf1 & Hle1 & _).
  destruct (GetEventHandler_obs t w1) as (_ & _ & <-).
  destruct (GetEventHandler_obs t w) as (_ & _ & <-). fold w1 in Ht, Hbne. rewrite Ht. f_equal.
  rewrite Hbne.
  - apply deliveries_slot_stable; [done|apply Hwf1, Hwf|apply Hle1].
  - intros Heq. apply Hne. symmetry.
    apply (GetEventId_eq_inv (registry w) (registry w1)); [apply Hwf1, Hwf| |done].
    unfold w1. by rewrite SubscribeToEvent_registry.
Qed.

(** ** Revoked bindings stay revoked

    No member function binds a serial again or invokes through a binding that
    has been revoked, whatever the callables do through the bus. *)

Lemma GetEventHandler_avoids s c t w : avoids s c w (GetEventHandler t w).2.
Proof.
  intros Hw. destruct (GetEventHandler_spec t w) as (_ & _ & Hp & Hne & _ & Ht & _).
  split; [|exists []; by rewrite app_nil_r]. unfold revoked in *.
  destruct (decide ((GetEventId t (registry w)).1 = s)) as [<-|Hs]; [|by rewrite Hne].
  rewrite Hp. by destruct (pool_at _ w).
Qed.

Lemma TriggerEvent_avoids `{!Discreet call} s c t event :
  relates (avoids s c) (TriggerEvent call t event).
Proof.
  intros w w'. rewrite TriggerEvent_unfold. intros Hrun.
  trans (GetEventHandler t w).2; [apply GetEventHandler_avoids|].
  by eapply EventPool.pool_emit_avoids.
Qed.

Lemma EnqueueEvent_avoids s c t event w : avoids s c w (EnqueueEvent t event w).
Proof.
  rewrite EnqueueEvent_unfold.
  trans (GetEventHandler t w).2; [apply GetEventHandler_avoids|apply avoids_push_back].
Qed.

Lemma dispatch_slot_avoids `{!Discreet call} s c i : relates (avoids s c) (dispatch_slot call i).
Proof.
  intros w w'. rewrite dispatch_slot_unfold. destruct (pool_at i w); [|by intros [= <-]].
  by apply EventPool.pool_DispatchQueuedEvents_avoids.
Qed.

Lemma DispatchQueuedEvents_avoids `{!Discreet call} s c :
  relates (avoids s c) (DispatchQueuedEvents call).
Proof.
  intros w w' Hrun. unfold DispatchQueuedEvents in Hrun. bind_inv Hrun. injection Hrun as <-.
  trans (begin_pools_walk w); [by apply avoids_frame|].
  trans s0; [|by apply avoids_frame].
  eapply (for_each_relates (avoids s c)); [|done]. intros i _. apply dispatch_slot_avoids.
Qed.

Lemma dispatch_type_avoids `{!Discreet call} s c t : relates (avoids s c) (dispatch_type call t).
Proof.
  intros w w'. rewrite dispatch_type_unfold. intros Hrun.
  trans (GetEventHandler t w).2; [apply GetEventHandler_avoids|].
  by eapply EventPool.pool_DispatchQueuedEvents_avoids.
Qed.

Lemma DispatchQueuedEventsOf_avoids `{!Discreet call} s c ts :
  relates (avoids s c) (DispatchQueuedEventsOf call ts).
Proof. apply for_each_relates; [apply _|]. intros t _. apply dispatch_type_avoids. Qed.

Lemma ClearEventQueues_avoids s c : relates (avoids s c) (λ w : World, ClearEventQueues w).
Proof.
  intros w w'. rewrite ClearEventQueues_eq. intros [= <-].
  apply (foldl_relates (avoids s c)). intros i w' _. unfold clear_at.
  destruct (pool_at i w'); [apply avoids_clear|done].
Qed.

Lemma ClearEventQueuesOf_avoids s c ts w : avoids s c w (ClearEventQueuesOf ts w).
Proof.
  apply (foldl_relates (avoids s c)). intros t w' _. rewrite clear_type_unfold.
  trans (GetEventHandler t w').2; [apply GetEventHandler_avoids|apply avoids_clear].
Qed.

Lemma SubscribeToEvent_avoids s c t f w : avoids s c w (SubscribeToEvent t f w).2.
Proof.
  rewrite SubscribeToEvent_unfold. trans (GetEventHandler t w).2;
    [apply GetEventHandler_avoids|]. apply avoids_update_pool. intros p. apply sig_revoked_Bind.
Qed.

Lemma UnsubscribeFromEvent_avoids s c connection w :
  avoids s c w (UnsubscribeFromEvent connection w).
Proof. apply avoids_update_pool. intros p. apply sig_revoked_Disconnect. Qed.

(** [UnsubscribeFromEvent] revokes the binding of a connection the bus has
    handed out. *)
Lemma UnsubscribeFromEvent_revoked connection w :
  conn_serial connection < issued_of (conn_signal connection) w →
  revoked (conn_signal connection) (conn_serial connection)
    (UnsubscribeFromEvent connection w).
Proof.
  unfold issued_of, revoked, UnsubscribeFromEvent. simpl. rewrite slot_alter, decide_True by done.
  destruct (slot (mEventPools w) _) as [p|]; simpl; [|lia]. intros Hlt.
  split; [by rewrite issued_Disconnect|apply Disconnect_unbound].
Qed.

(** ** Iterator safety outside re-entrant calls

    Called outside every walk, and with callables that do not call the bus, no
    member function invalidates an iterator in use. *)

Lemma grow_to_calm idx w : calm w (grow_to idx w).
Proof. unfold grow_to. case_decide; [apply calm_resize|done]. Qed.

Lemma ensure_pool_calm t idx w : calm w (ensure_pool t idx w).
Proof. unfold ensure_pool. destruct (pool_at idx w); [done|by apply calm_frame]. Qed.

Lemma GetEventHandler_calm t w : calm w (GetEventHandler t w).2.
Proof.
  rewrite GetEventHandler_unfold. cbn [fst snd].
  etrans; [|apply ensure_pool_calm]. etrans; [|apply grow_to_calm]. by apply calm_frame.
Qed.

Lemma EnqueueEvent_calm t event w : calm w (EnqueueEvent t event w).
Proof.
  rewrite EnqueueEvent_unfold. etrans; [apply GetEventHandler_calm|apply calm_push_back].
Qed.

Lemma clear_at_calm i w : calm w (clear_at w i).
Proof. unfold clear_at. destruct (pool_at i w); [apply calm_clear|done]. Qed.

Lemma ClearEventQueues_calm : relates calm (λ w : World, ClearEventQueues w).
Proof.
  intros w w'. rewrite ClearEventQueues_eq. intros [= <-].
  apply (foldl_relates calm). intros. apply clear_at_calm.
Qed.

Lemma clear_type_calm t w : calm w (clear_type w t).
Proof. rewrite clear_type_unfold. etrans; [apply GetEventHandler_calm|apply calm_clear]. Qed.

Lemma ClearEventQueuesOf_calm ts w : calm w (ClearEventQueuesOf ts w).
Proof. apply (foldl_relates calm). intros. apply clear_type_calm. Qed.

Lemma SubscribeToEvent_calm t f w : calm w (SubscribeToEvent t f w).2.
Proof.
  rewrite SubscribeToEvent_unfold. etrans; [apply GetEventHandler_calm|by apply calm_frame].
Qed.

Lemma UnsubscribeFromEvent_calm connection w : calm w (UnsubscribeFromEvent connection w).
Proof. by apply calm_frame. Qed.

Lemma flush_slot_calm i w : calm w (flush_slot w i).
Proof.
  unfold flush_slot. destruct (pool_at i w); [|done].
  etrans; [|apply calm_clear]. by apply calm_frame.
Qed.

Lemma TriggerEvent_calm `{!Passive call} t event : relates calm (TriggerEvent call t event).
Proof.
  intros w w'. rewrite TriggerEvent_passive_eq. intros [= <-].
  etrans; [apply GetEventHandler_calm|by apply calm_frame].
Qed.

Lemma DispatchQueuedEvents_calm `{!Passive call} : relates calm (DispatchQueuedEvents call).
Proof.
  intros w w'. rewrite DispatchQueuedEvents_passive_eq. intros [= <-] [Hq Hp].
  destruct (flush_all_walks w) as [Hq' Hp']. unfold no_walks.
  by rewrite <-Hq', <-Hp', flush_all_hazard.
Qed.

Lemma dispatch_type_calm `{!Passive call} t : relates calm (dispatch_type call t).
Proof.
  intros w w'. rewrite dispatch_type_passive_eq. intros [= <-].
  etrans; [apply GetEventHandler_calm|apply flush_slot_calm].
Qed.

Lemma DispatchQueuedEventsOf_calm `{!Passive call} ts :
  relates calm (DispatchQueuedEventsOf call ts).
Proof. apply for_each_relates; [apply _|]. intros t _. apply dispatch_type_calm. Qed.

End bus_lemmas.

(** ** Monotonicity in the invoker *)

Section mono.
Context {ty val callable sig : Type} `{Countable ty} `{!SignalOps callable sig}.
Abbreviation World := (World ty val callable sig).
Context (call1 call2 : callable → val → World → option World).
Context (Hcall : ∀ h event w w', call1 h event w = Some w' → call2 h event w = Some w').

Lemma TriggerEvent_mono t event w w' :
  TriggerEvent call1 t event w = Some w' → TriggerEvent call2 t event w = Some w'.
Proof. rewrite !TriggerEvent_unfold. by apply EventPool.pool_emit_mono. Qed.

Lemma dispatch_slot_mono i w w' :
  dispatch_slot call1 i w = Some w' → dispatch_slot call2 i w = Some w'.
Proof.
  rewrite !dispatch_slot_unfold. destruct (pool_at i w); [|done].
  by apply EventPool.pool_DispatchQueuedEvents_mono.
Qed.

Lemma DispatchQueuedEvents_mono w w' :
  DispatchQueuedEvents call1 w = Some w' → DispatchQueuedEvents call2 w = Some w'.
Proof.
  unfold DispatchQueuedEvents. intros Hrun. bind_inv Hrun.
  erewrite for_each_mono; [done| |done]. intros i _. apply dispatch_slot_mono.
Qed.

Lemma DispatchQueuedEventsOf_mono ts w w' :
  DispatchQueuedEventsOf call1 ts w = Some w' → DispatchQueuedEventsOf call2 ts w = Some w'.
Proof.
  apply for_each_mono. intros t _ w1 w2. rewrite !dispatch_type_unfold.
  by apply EventPool.pool_DispatchQueuedEvents_mono.
Qed.

End mono.

(** ** The properties at concrete inputs

    Event types, events and callables are numbers; the signal is the list
    implementation.  In [bus_idle] the callable 7 is subscribed to type 0 and
    nothing is buffered; in [bus_demo] the events 5 and 7 of type 0 are
    buffered as well. *)

Definition bus_idle : World.World nat nat nat (Signal nat) :=
  (SubscribeToEvent 0 7 world_init).2.

Definition bus_demo : World.World nat nat nat (Signal nat) :=
  EnqueueEvent 0 7 (EnqueueEvent 0 5 bus_idle).

Lemma bus_idle_wf : world_wf bus_idle.
Proof. apply (SubscribeToEvent_sound 0 7), world_init_wf. Qed.

Lemma bus_demo_wf : world_wf bus_demo.
Proof. apply (EnqueueEvent_sound 0 7), (EnqueueEvent_sound 0 5), bus_idle_wf. Qed.

Lemma bus_idle_empty : queues_empty bus_idle.
Proof. intros [|i]; reflexivity. Qed.

(** A bus whose slot 0 is null: the identifier 0 was issued for the type 0
    before the bus saw any type, as through another bus.  The pool of type 1
    has the callable 7 bound and the event 5 buffered. *)
Definition bus_gap : World.World nat nat nat (Signal nat) :=
  EnqueueEvent 1 5
    (SubscribeToEvent 1 7 (set_registry (GetEventId 0 registry_init).2 world_init)).2.

Lemma bus_gap_wf : world_wf bus_gap.
Proof.
  apply (EnqueueEvent_sound 1 5), (SubscribeToEvent_sound 1 7), world_wf_set_registry;
    [apply world_init_wf|apply GetEventId_wf, registry_init_wf|apply GetEventId_le].
Qed.

Example bus_gap_slots :
  fmap (M:=list) (fmap (M:=option) pool_type) (mEventPools bus_gap) = [None; Some 1].
Proof. vm_compute. reflexivity. Qed.

(** A call through the null pointer of slot 0 has no result; the loop of
    [DispatchQueuedEvents()] does not make it. *)
Example null_call_undefined :
  arrow 0 (EventPool.DispatchQueuedEvents call_skip) bus_gap = None ∧
  trace <$> DispatchQueuedEvents call_skip bus_gap = Some [mkDelivery 1 0 7 5].
Proof. split; vm_compute; reflexivity. Qed.

Lemma bus_loops_skip_null_witness :
  ∃ w1 w2, DispatchQueuedEvents call_skip bus_gap = Some w1 ∧
           ClearEventQueues bus_gap = Some w2 ∧ same_pools bus_gap w1 ∧ same_pools bus_gap w2.
Proof. exact (bus_loops_skip_null call_skip bus_gap). Defined.

(** A callable that calls the bus again: the callable 7 triggers an event of
    type 1 with the event it received; the others return at once.  In
    [bus_relay] the callables 7 and 8 are subscribed to type 0, in this order,
    and the callable 9 to type 1. *)
Definition call_relay : nat → nat → World.World nat nat nat (Signal nat) →
    option (World.World nat nat nat (Signal nat)) :=
  λ h event w, if decide (h = 7) then TriggerEvent call_skip 1 event w else Some w.

Definition bus_relay : World.World nat nat nat (Signal nat) :=
  (SubscribeToEvent 1 9 (SubscribeToEvent 0 8 bus_idle).2).2.

#[export] Instance call_relay_callback : Callback call_relay.
Proof.
  intros h event. unfold call_relay. case_decide; [apply TriggerEvent_sound, _|apply sound_id].
Qed.

#[export] Instance call_relay_returning : Returning call_relay.
Proof.
  intros h event w Hwf. unfold call_relay. case_decide; [|by eexists].
  by apply (TriggerEvent_total call_skip).
Qed.

Lemma bus_relay_wf : world_wf bus_relay.
Proof. apply (SubscribeToEvent_sound 1 9), (SubscribeToEvent_sound 0 8), bus_idle_wf. Qed.

(** The invocation the callable 7 makes lies between its own and that of the
    callable 8. *)
Example call_relay_trace :
  trace <$> TriggerEvent call_relay 0 5 bus_relay
  = Some [mkDelivery 0 0 7 5; mkDelivery 1 0 9 5; mkDelivery 0 1 8 5].
Proof. vm_compute. reflexivity. Qed.

Lemma bus_TriggerEvent_nested_witness :
  ∃ w' dss, TriggerEvent call_relay 0 5 bus_relay = Some w' ∧
    length dss = length (bound_of (slot_of 0 bus_relay) bus_relay) ∧
    trace w' = trace bus_relay
      ++ EventPool.nested (slot_of 0 bus_relay) (bound_of (slot_of 0 bus_relay) bus_relay) 5 dss.
Proof. exact (bus_TriggerEvent_nested call_relay 0 5 bus_relay bus_relay_wf). Defined.

Lemma GetEventHandler_stable_witness :
  GetEventHandler 0 (GetEventHandler 3 (GetEventHandler 0 bus_idle).2).2
  = ((GetEventHandler 0 bus_idle).1, (GetEventHandler 3 (GetEventHandler 0 bus_idle).2).2).
Proof. apply (GetEventHandler_stable 0 bus_idle), (GetEventHandler_sound 3). Defined.

Lemma GetEventHandler_typed_witness :
  ∃ p, pool_at (GetEventHandler 3 bus_idle).1 (GetEventHandler 3 bus_idle).2 = Some p ∧
       pool_type p = 3.
Proof. apply (GetEventHandler_typed 3 bus_idle), bus_idle_wf. Defined.

Lemma bus_TriggerEvent_passive_witness :
  ∃ w', TriggerEvent call_skip 0 10 bus_demo = Some w' ∧
    trace w' = trace bus_demo ++ [mkDelivery 0 0 7 10] ∧
    (∀ i, queue_of i w' = queue_of i bus_demo) ∧ (∀ i, bound_of i w' = bound_of i bus_demo).
Proof. exact (bus_TriggerEvent_passive call_skip 0 10 bus_demo). Defined.

Lemma bus_DispatchQueuedEvents_passive_witness :
  ∃ w', DispatchQueuedEvents call_skip bus_demo = Some w' ∧
    trace w' = trace bus_demo ++ [mkDelivery 0 0 7 5; mkDelivery 0 0 7 7] ∧
    queues_empty w' ∧ (∀ i, bound_of i w' = bound_of i bus_demo) ∧
    same_walks bus_demo w' ∧ (iter_queues bus_demo = [] → hazard w' = hazard bus_demo).
Proof. exact (bus_DispatchQueuedEvents_passive call_skip bus_demo). Defined.

Lemma bus_enqueue_dispatch_trigger_witness :
  ∃ w1 w2, DispatchQueuedEvents call_skip (EnqueueEvent 0 10 bus_idle) = Some w1 ∧
           TriggerEvent call_skip 0 10 bus_idle = Some w2 ∧ obs_eq w1 w2.
Proof. exact (bus_enqueue_dispatch_trigger call_skip 0 10 bus_idle bus_idle_empty). Defined.

Lemma bus_enqueue_fifo_witness :
  ∃ w', DispatchQueuedEvents call_skip bus_demo = Some w' ∧
        trace w' = trace bus_idle ++ [mkDelivery 0 0 7 5; mkDelivery 0 0 7 7] ∧
        queues_empty w'.
Proof. exact (bus_enqueue_fifo call_skip 0 [5; 7] bus_idle bus_idle_empty). Defined.

Lemma bus_clear_dispatch_witness :
  ∃ w1 w', ClearEventQueues bus_demo = Some w1 ∧ DispatchQueuedEvents call_skip w1 = Some w' ∧
           trace w' = trace bus_demo ∧ queues_empty w'.
Proof. exact (bus_clear_dispatch call_skip bus_demo). Defined.

Lemma bus_subscribe_unsubscribe_witness :
  obs_eq (UnsubscribeFromEvent (SubscribeToEvent 0 8 bus_demo).1
            (SubscribeToEvent 0 8 bus_demo).2) bus_demo.
Proof. exact (bus_subscribe_unsubscribe 0 8 bus_demo bus_demo_wf). Defined.

Lemma bus_unsubscribed_not_invoked_witness :
  ∃ w1 w2 ds1 ds2,
    TriggerEvent call_skip 0 10 (UnsubscribeFromEvent (mkConnection 0 0) bus_demo) = Some w1 ∧
    trace w1 = trace bus_demo ++ ds1 ∧
    DispatchQueuedEvents call_skip (UnsubscribeFromEvent (mkConnection 0 0) bus_demo)
    = Some w2 ∧
    trace w2 = trace bus_demo ++ ds2 ∧
    Forall (λ d, ¬ from_binding 0 0 d) (ds1 ++ ds2).
Proof. exact (bus_unsubscribed_not_invoked call_skip (mkConnection 0 0) 0 10 bus_demo). Defined.

Lemma bus_DispatchQueuedEventsOf_one_witness :
  ∃ w', DispatchQueuedEventsOf call_skip [0] (EnqueueEvent 3 9 bus_demo) = Some w' ∧
    trace w' = trace bus_demo ++ [mkDelivery 0 0 7 5; mkDelivery 0 0 7 7] ∧
    queue_of 0 w' = [] ∧
    (∀ i, 0 ≠ i → queue_of i w' = queue_of i (EnqueueEvent 3 9 bus_demo)) ∧
    (∀ i, bound_of i w' = bound_of i (EnqueueEvent 3 9 bus_demo)) ∧
    is_Some (pool_at 0 w').
Proof. exact (bus_DispatchQueuedEventsOf_one call_skip 0 (EnqueueEvent 3 9 bus_demo)). Defined.

Lemma bus_type_isolation_witness :
  ∃ w1 w2, TriggerEvent call_skip 0 10 (SubscribeToEvent 3 8 bus_demo).2 = Some w1 ∧
           TriggerEvent call_skip 0 10 bus_demo = Some w2 ∧ trace w1 = trace w2.
Proof. apply (bus_type_isolation call_skip 0 3 8 10 bus_demo bus_demo_wf). discriminate. Defined.

End EventBus.
