(* ===== verification/Kept.v ===== *)
(** * Relations that every member function respects

    Several properties of the bus have the same shape: a preorder [R] on
    worlds that the primitive steps respect, and that every member function
    then respects provided the callables do.  The class [Framed] states what
    is asked of the primitive steps (a step that leaves the registry and the
    pools alone, [push_back] and [clear] on a buffer), the class [Kept] asks
    the same of [GetEventHandler]; the lemmas of this file derive, once and
    for all, that the member functions that invoke callables, and those that
    only enqueue and clear, respect [R]: those that resolve no event type
    from [Framed], the others from [Kept].  [packs] (the pools stay packed) is an instance here; [tames] of
    [Stratified] (the bindings respect the layers) is another. *)

From stdpp Require Import gmap list.
From S2P Require Import Prelude Registry Signal World Callable EventPool EventBus.

Section kept.
Context {ty val callable sig : Type} `{Countable ty} `{!SignalOps callable sig}.
Abbreviation World := (World ty val callable sig).
Implicit Types (w : World) (t : ty) (event : val) (i : nat).

(** What is asked of the steps that do not resolve an event type. *)
Class Framed (R : relation World) : Prop := {
  framed_preorder :: PreOrder R;
  framed_frame w w' : registry w' = registry w → mEventPools w' = mEventPools w → R w w';
  framed_push_back this event w : R w (queue_push_back this event w);
  framed_clear this w : R w (queue_clear this w);
}.

(** And of [GetEventHandler]. *)
Class Kept (R : relation World) : Prop := {
  kept_framed :: Framed R;
  kept_handler t w : R w (EventBus.GetEventHandler t w).2;
}.

(** ** The member functions that resolve no event type *)

Section framed.
Context (R : relation World) `{!Framed R}.

Lemma ClearEventQueues_framed : relates R (λ w : World, EventBus.ClearEventQueues w).
Proof.
  intros w w'. rewrite EventBus.ClearEventQueues_eq. intros [= <-].
  apply (foldl_relates R). intros i w' _. unfold EventBus.clear_at.
  destruct (pool_at i w'); [apply framed_clear|done].
Qed.

Context (call : callable → val → World → option World).
Context (Hcall : ∀ h event, relates R (call h event)).

Lemma emit_framed this event : relates R (EventPool.emit call this event).
Proof.
  intros w w'. unfold EventPool.emit, Invoke.
  destruct (pool_at this w) as [p|]; [|by intros [= <-]].
  apply (for_each_relates R). intros b _ w1 w2 Hrun.
  trans (log (mkDelivery this b.1 b.2 event) w1);
    [by apply framed_frame|by apply (Hcall b.2 event)].
Qed.

Lemma pool_DispatchQueuedEvents_framed this :
  relates R (EventPool.DispatchQueuedEvents call this).
Proof.
  intros w w' Hrun. unfold EventPool.DispatchQueuedEvents in Hrun. bind_inv Hrun.
  injection Hrun as <-. trans (begin_queue_walk this w); [by apply framed_frame|].
  trans s; [|trans (end_queue_walk s); [by apply framed_frame
                                        |apply (framed_clear this (end_queue_walk s))]].
  eapply (for_each_relates R); [|done]. intros e _. apply emit_framed.
Qed.

Lemma dispatch_slot_framed i : relates R (EventBus.dispatch_slot call i).
Proof.
  intros w w'. rewrite EventBus.dispatch_slot_unfold. destruct (pool_at i w); [|by intros [= <-]].
  apply pool_DispatchQueuedEvents_framed.
Qed.

Lemma DispatchQueuedEvents_framed : relates R (EventBus.DispatchQueuedEvents call).
Proof.
  intros w w' Hrun. unfold EventBus.DispatchQueuedEvents in Hrun. bind_inv Hrun.
  injection Hrun as <-. trans (begin_pools_walk w); [by apply framed_frame|].
  trans s; [|by apply framed_frame].
  eapply (for_each_relates R); [|done]. intros i _. apply dispatch_slot_framed.
Qed.

End framed.

(** ** The member functions that resolve an event type *)

Section lemmas.
Context (R : relation World) `{!Kept R}.

Lemma EnqueueEvent_kept t event w : R w (EventBus.EnqueueEvent t event w).
Proof.
  rewrite EventBus.EnqueueEvent_unfold.
  trans (EventBus.GetEventHandler t w).2; [apply kept_handler|apply framed_push_back].
Qed.

Lemma ClearEventQueuesOf_kept ts w : R w (EventBus.ClearEventQueuesOf ts w).
Proof.
  apply (foldl_relates R). intros t w' _. rewrite EventBus.clear_type_unfold.
  trans (EventBus.GetEventHandler t w').2; [apply kept_handler|apply framed_clear].
Qed.

Context (call : callable → val → World → option World).
Context (Hcall : ∀ h event, relates R (call h event)).

Lemma TriggerEvent_kept t event : relates R (EventBus.TriggerEvent call t event).
Proof.
  intros w w'. rewrite EventBus.TriggerEvent_unfold. intros Hrun.
  trans (EventBus.GetEventHandler t w).2; [apply kept_handler|].
  exact (emit_framed R call Hcall _ _ _ _ Hrun).
Qed.

Lemma dispatch_type_kept t : relates R (EventBus.dispatch_type call t).
Proof.
  intros w w'. rewrite EventBus.dispatch_type_unfold. intros Hrun.
  trans (EventBus.GetEventHandler t w).2; [apply kept_handler|].
  exact (pool_DispatchQueuedEvents_framed R call Hcall _ _ _ Hrun).
Qed.

Lemma DispatchQueuedEventsOf_kept ts : relates R (EventBus.DispatchQueuedEventsOf call ts).
Proof. apply for_each_relates; [apply _|]. intros t _. apply dispatch_type_kept. Qed.

End lemmas.

(** ** The pools stay packed *)

#[export] Instance packs_kept : Kept (packs (ty:=ty) (val:=val) (callable:=callable) (sig:=sig)).
Proof.
  split; [split; [apply _|..]|].
  - intros w w' Hr Hp. apply packs_frame; [done|by rewrite Hp|].
    intros i. unfold pool_at. by rewrite Hp.
  - apply packs_push_back.
  - apply packs_clear.
  - apply EventBus.GetEventHandler_packs.
Qed.

End kept.
