(* ===== verification/Construct.v ===== *)
(** * Construction of the event from forwarded arguments

    [EventPool] and [EventBus] take the event already constructed.  The
    member functions of the source take constructor arguments and construct
    the event themselves, and they do not all construct it the same way:

    - [EventPool::TriggerEvent] (line 40) writes [Event event{args...}],
      list-initialisation, for every event type;
    - [EventPool::EnqueueEvent] has two overloads selected at compile time by
      [std::is_aggregate<Event>]: for an aggregate,
      [push_back({args...})] (line 48), list-initialisation again; for any
      other type [emplace_back(args...)] (line 54), which constructs
      [Event(args...)], direct-initialisation;
    - the overloads of the bus that take an event (lines 186-190 and 198-202)
      forward it to the same member functions of the pool as the only
      argument, so the event is copied by the form the pool uses.

    The class [Construct] holds the two forms and the test; [ConstructOk]
    says that constructing from an event copies it.  This file defines the
    member functions with their arguments, proves that they are the member
    functions of [EventPool] and [EventBus] applied to the event constructed
    ([TriggerEvent_args_eq], [EnqueueEvent_args_eq]), that the overloads
    taking an event are those taking a constructed event
    ([bus_value_overloads]), and that deferred delivery delivers the event an
    immediate trigger delivers exactly when the two forms agree on the
    arguments ([enqueue_args_dispatch_trigger]); they do not for a type with
    an initializer-list constructor ([forms_differ]). *)

From stdpp Require Import gmap list.
From S2P Require Import Prelude Registry Signal World Callable EventPool EventBus.

(** The construction forms of an event type.  [args] is what a pack of
    forwarded arguments holds. *)
Class Construct (ty args val : Type) := {
  (** [std::is_aggregate<Event>::value] *)
  is_aggregate : ty → bool;
  (** [Event{args...}] *)
  list_init : ty → args → val;
  (** [Event(args...)] *)
  direct_init : ty → args → val;
  (** [std::forward<Event>(event)], an event as the only argument *)
  forward_event : val → args;
}.

(** Construction from an event of the type copies it. *)
Class ConstructOk (ty args val : Type) `{!Construct ty args val} : Prop := {
  list_init_copy t v : list_init t (forward_event v) = v;
  direct_init_copy t v : direct_init t (forward_event v) = v;
}.

Section construct.
Context {ty val callable sig args : Type} `{Countable ty} `{!SignalOps callable sig}.
Context `{!Construct ty args val}.
Abbreviation World := (World ty val callable sig).
Context (call : callable → val → World → option World).
Implicit Types (this : nat) (t : ty) (a : args) (event : val) (w : World).

(** ** The member functions of [EventPool<Event>]; [t] is [Event] *)

(** [TriggerEvent(Args&&... args)]:
    [Event event{std::forward<Args>(args)...}; mSignal(event);] *)
Definition pool_TriggerEvent_args t this a w : option World :=
  let event := list_init t a in EventPool.emit call this event w.

(** [EnqueueEvent(Args&&... args)] of an aggregate:
    [mEventQueue.push_back({std::forward<Args>(args)...});] *)
Definition pool_EnqueueEvent_aggregate t this a w : World :=
  queue_push_back this (list_init t a) w.

(** [EnqueueEvent(Args&&... args)] of any other type:
    [mEventQueue.emplace_back(std::forward<Args>(args)...);] *)
Definition pool_EnqueueEvent_emplace t this a w : World :=
  queue_push_back this (direct_init t a) w.

(** The overload that [std::enable_if] leaves for [Event]. *)
Definition pool_EnqueueEvent_args t this a w : World :=
  if is_aggregate t then pool_EnqueueEvent_aggregate t this a w
  else pool_EnqueueEvent_emplace t this a w.

(** ** The member functions of [EventBus] *)

(** [TriggerEvent<Event>(Args&&... args)] *)
Definition TriggerEvent_args t a w : option World :=
  let '(this, w1) := EventBus.GetEventHandler t w in pool_TriggerEvent_args t this a w1.

(** [TriggerEvent(Event &&event)] *)
Definition TriggerEvent_value t event w : option World :=
  let '(this, w1) := EventBus.GetEventHandler t w in
  pool_TriggerEvent_args t this (forward_event event) w1.

(** [EnqueueEvent<Event>(Args&&... args)] *)
Definition EnqueueEvent_args t a w : World :=
  let '(this, w1) := EventBus.GetEventHandler t w in pool_EnqueueEvent_args t this a w1.

(** [EnqueueEvent(Event &&event)] *)
Definition EnqueueEvent_value t event w : World :=
  let '(this, w1) := EventBus.GetEventHandler t w in
  pool_EnqueueEvent_args t this (forward_event event) w1.

(** ** The event a call constructs *)

(** The event [EnqueueEvent] appends. *)
Definition enqueued t a : val := if is_aggregate t then list_init t a else direct_init t a.

(** The two forms agree on the arguments, as far as [EnqueueEvent] goes. *)
Definition forms_agree t a : Prop := enqueued t a = list_init t a.

Lemma forms_agree_aggregate t a : is_aggregate t = true → forms_agree t a.
Proof. unfold forms_agree, enqueued. by intros ->. Qed.

Lemma forms_agree_eq t a : direct_init t a = list_init t a → forms_agree t a.
Proof. unfold forms_agree, enqueued. by destruct (is_aggregate t). Qed.

Lemma enqueued_copy `{!ConstructOk ty args val} t event :
  enqueued t (forward_event event) = event.
Proof.
  unfold enqueued. destruct (is_aggregate t); [apply list_init_copy|apply direct_init_copy].
Qed.

(** ** The member functions with arguments are those on the event constructed *)

Lemma pool_EnqueueEvent_args_eq t this a w :
  pool_EnqueueEvent_args t this a w = EventPool.EnqueueEvent this (enqueued t a) w.
Proof. unfold pool_EnqueueEvent_args, enqueued. by destruct (is_aggregate t). Qed.

Lemma TriggerEvent_args_eq t a w :
  TriggerEvent_args t a w = EventBus.TriggerEvent call t (list_init t a) w.
Proof. done. Qed.

Lemma EnqueueEvent_args_eq t a w :
  EnqueueEvent_args t a w = EventBus.EnqueueEvent t (enqueued t a) w.
Proof.
  unfold EnqueueEvent_args, EventBus.EnqueueEvent.
  destruct (EventBus.GetEventHandler t w). apply pool_EnqueueEvent_args_eq.
Qed.

(** The selection between the overloads of [EnqueueEvent] is a matter of
    syntax exactly when the two forms agree. *)
Lemma pool_EnqueueEvent_forms t this a w p :
  pool_at this w = Some p →
  pool_EnqueueEvent_aggregate t this a w = pool_EnqueueEvent_emplace t this a w
  ↔ list_init t a = direct_init t a.
Proof.
  intros Hp. split; [|unfold pool_EnqueueEvent_aggregate, pool_EnqueueEvent_emplace; by intros ->].
  intros Heq. apply (f_equal (queue_of this)) in Heq.
  unfold pool_EnqueueEvent_aggregate, pool_EnqueueEvent_emplace in Heq.
  rewrite !(queue_of_push_back _ _ _ p) in Heq by done.
  by apply app_inj_tail in Heq as [_ ?].
Qed.

(** The overloads of the bus that take an event are the member functions
    of [EventBus] on that event: the copy the pool makes is the event. *)
Theorem bus_value_overloads `{!ConstructOk ty args val} t event w :
  TriggerEvent_value t event w = EventBus.TriggerEvent call t event w ∧
  EnqueueEvent_value t event w = EventBus.EnqueueEvent t event w.
Proof.
  unfold TriggerEvent_value, EnqueueEvent_value, EventBus.TriggerEvent, EventBus.EnqueueEvent.
  destruct (EventBus.GetEventHandler t w) as [this w1].
  unfold pool_TriggerEvent_args. rewrite list_init_copy.
  by rewrite pool_EnqueueEvent_args_eq, enqueued_copy.
Qed.

(** ** Deferred against immediate delivery *)

(** C21: with callables that do not call the bus and no event buffered,
    [EnqueueEvent<Event>(args...)] followed by [DispatchQueuedEvents()] and
    [TriggerEvent<Event>(args...)] both return, with all buffers empty and the
    bindings as before, and when a callable is bound for the type they invoke
    the callables with the same event exactly when the construction forms
    agree on the arguments. *)
Theorem enqueue_args_dispatch_trigger `{!Passive call} t a w :
  queues_empty w → bound_of (EventBus.slot_of t w) w ≠ [] →
  ∃ w1 w2, EventBus.DispatchQueuedEvents call (EnqueueEvent_args t a w) = Some w1 ∧
           TriggerEvent_args t a w = Some w2 ∧
           (∀ i, queue_of i w1 = queue_of i w2) ∧ (∀ i, bound_of i w1 = bound_of i w2) ∧
           (trace w1 = trace w2 ↔ forms_agree t a).
Proof.
  intros Hempty Hbound. rewrite EnqueueEvent_args_eq, TriggerEvent_args_eq.
  rewrite EventBus.DispatchQueuedEvents_passive_eq, EventBus.TriggerEvent_passive_eq by done.
  destruct (EventBus.flush_all_EnqueueEvent_obs t (enqueued t a) w Hempty) as (Hq & Hb & Ht).
  eexists _, _. split_and!; [done..| | |].
  - intros i. by rewrite Hq, !queue_of_log_all.
  - intros i. by rewrite Hb, !bound_of_log_all.
  - rewrite Ht. simpl. unfold forms_agree. split; [|by intros ->].
    intros Heq%(inj (app _)). unfold EventPool.deliveries in Heq.
    destruct (bound_of _ w) as [|b bs]; [done|]. by injection Heq.
Qed.

End construct.

(** ** A concrete event type on which the forms differ

    Events are sequences of numbers.  Type 0 is an aggregate; every other
    type is a class in the manner of [std::vector<int>], with a constructor
    from an initializer list and a constructor from a count and a value:
    [Event{3, 0}] holds 3 and 0, [Event(3, 0)] holds three zeros. *)

Inductive demo_args := Ints (l : list nat) | Fwd (v : list nat).

#[export] Instance demo_construct : Construct nat demo_args (list nat) := {|
  is_aggregate t := bool_decide (t = 0);
  list_init _ a := match a with Ints l => l | Fwd v => v end;
  direct_init _ a := match a with Ints [n; x] => replicate n x | Ints l => l | Fwd v => v end;
  forward_event := Fwd;
|}.

#[export] Instance demo_construct_ok : ConstructOk nat demo_args (list nat).
Proof. by split. Qed.

(** The callable 7 is subscribed to the aggregate type 0 and to the class
    type 1. *)
Definition bus_vec : World.World nat (list nat) nat (Signal nat) :=
  (EventBus.SubscribeToEvent 1 7 (EventBus.SubscribeToEvent 0 7 world_init).2).2.

Lemma bus_vec_empty : queues_empty bus_vec.
Proof. intros [|[|i]]; vm_compute; reflexivity. Qed.

Lemma bus_vec_bound : bound_of (EventBus.slot_of 0 bus_vec) bus_vec ≠ [].
Proof. vm_compute. discriminate. Qed.

(** The same arguments, triggered and enqueued: the callable receives
    [Event{3, 0}] from the trigger and [Event(3, 0)] from the flush. *)
Example forms_differ :
  trace <$> TriggerEvent_args call_skip 1 (Ints [3; 0]) bus_vec
  = Some [mkDelivery 1 0 7 [3; 0]] ∧
  trace <$> EventBus.DispatchQueuedEvents call_skip (EnqueueEvent_args 1 (Ints [3; 0]) bus_vec)
  = Some [mkDelivery 1 0 7 [0; 0; 0]].
Proof. split; vm_compute; reflexivity. Qed.

Lemma enqueue_args_dispatch_trigger_witness :
  ∃ w1 w2,
    EventBus.DispatchQueuedEvents call_skip (EnqueueEvent_args 0 (Ints [3; 0]) bus_vec)
      = Some w1 ∧
    TriggerEvent_args call_skip 0 (Ints [3; 0]) bus_vec = Some w2 ∧
    (∀ i, queue_of i w1 = queue_of i w2) ∧ (∀ i, bound_of i w1 = bound_of i w2) ∧
    (trace w1 = trace w2 ↔ forms_agree 0 (Ints [3; 0])).
Proof.
  exact (enqueue_args_dispatch_trigger call_skip 0 (Ints [3; 0]) bus_vec bus_vec_empty
           bus_vec_bound).
Defined.

Lemma bus_value_overloads_witness :
  TriggerEvent_value call_skip 1 [3; 0] bus_vec = EventBus.TriggerEvent call_skip 1 [3; 0] bus_vec ∧
  EnqueueEvent_value 1 [3; 0] bus_vec = EventBus.EnqueueEvent 1 [3; 0] bus_vec.
Proof. exact (bus_value_overloads call_skip 1 [3; 0] bus_vec). Defined.
