(* ===== verification/Machine.v ===== *)
(** * The identifiers at the width of the source

    The statics of [GetUniqueEventId] and [GetEventId<Event>] are of type
    [int]; [GetEventHandler] compares the identifier with
    [mEventPools.size()], adds one to it and uses it as an index, all of which
    convert it to [std::size_t].  [Registry] and [EventBus] count in [nat].
    This file states the same code on [Z] at the width of the types
    ([int] of 32 bits, [std::size_t] of 64): [id++] is undefined when the
    counter is [INT_MAX], the conversion of an [int] to [std::size_t] reduces
    modulo [2 ^ 64], and [operator[]] needs an index below the size.  [None]
    is undefined behaviour.

    The theorems: the functions on [Z] are those on [nat] as long as the
    counter can be incremented, and undefined from then on
    ([GetEventId_int_refines]), so a process can use [INT_MAX] event types
    and no more ([GetEventId_int_capacity]); the index arithmetic of
    [GetEventHandler] is that of the model on every identifier the registry
    issues ([GetEventHandler_int_refines]); on a negative one it indexes out
    of bounds or asks for a vector of nearly [2 ^ 64] slots
    ([handler_index_negative]).  A sequence of calls issues at most as many
    identifiers as it names event types ([run_counter_bound] of [Abstract]),
    so the counter stays within [int] in every program that names at most
    [INT_MAX] of them. *)

From stdpp Require Import gmap list.
From S2P Require Import Prelude Registry Signal World Callable EventPool EventBus.

Local Open Scope Z_scope.

(** The number of values of [std::size_t]. *)
Definition SIZE_MOD : Z := 2 ^ 64.

(** The conversion of an [int] to [std::size_t]. *)
Definition to_size_t (z : Z) : Z := z `mod` SIZE_MOD.

Section machine.
Context {ty : Type} `{Countable ty}.

(** The statics, as the [int]s they are. *)
Record IntRegistry : Type := mkIntRegistry {
  id : Z;                  (* [static int id] *)
  eventID : gmap ty Z;     (* [static int eventID] of each [GetEventId<Event>] *)
}.

(** [return id++;] on an [int]: undefined when the counter is [INT_MAX]. *)
Definition GetUniqueEventId_int (r : IntRegistry) : option (Z * IntRegistry) :=
  if decide (id r + 1 ≤ INT_MAX) then Some (id r, mkIntRegistry (id r + 1) (eventID r))
  else None.

(** [static int eventID = GetUniqueEventId(); return eventID;] *)
Definition GetEventId_int (t : ty) (r : IntRegistry) : option (Z * IntRegistry) :=
  match eventID r !! t with
  | Some i => Some (i, r)
  | None =>
      '(i, r') ← GetUniqueEventId_int r;
      Some (i, mkIntRegistry (id r') (<[t:=i]> (eventID r')))
  end.

(** The arithmetic of [GetEventHandler] on the identifier and the size of
    [mEventPools]: the new size and the index of the slot it accesses.
    [eventHandlerIndex >= mEventPools.size()] compares after converting the
    identifier to [std::size_t]; [eventHandlerIndex + 1] is an addition of
    [int]s, converted for [resize]; [mEventPools[eventHandlerIndex]] converts
    the identifier and needs it below the size. *)
Definition handler_index (eventHandlerIndex size : Z) : option (Z * Z) :=
  size' ← (if decide (size ≤ to_size_t eventHandlerIndex)
           then if decide (eventHandlerIndex + 1 ≤ INT_MAX)
                then Some (to_size_t (eventHandlerIndex + 1)) else None
           else Some size);
  if decide (to_size_t eventHandlerIndex < size') then Some (size', to_size_t eventHandlerIndex)
  else None.

(** [GetEventHandler<Event>] as far as the integers go: the slot, the statics
    and the size of [mEventPools] afterwards. *)
Definition GetEventHandler_int (t : ty) (r : IntRegistry) (size : Z) :
    option (Z * IntRegistry * Z) :=
  '(eventHandlerIndex, r') ← GetEventId_int t r;
  '(size', i) ← handler_index eventHandlerIndex size;
  Some (i, r', size').

(** The statics of the model, as [int]s. *)
Definition to_int (r : Registry ty) : IntRegistry :=
  mkIntRegistry (Z.of_nat (next_id r)) (Z.of_nat <$> event_ids r).

(** The type has its identifier, or the counter can be incremented. *)
Definition can_issue (t : ty) (r : Registry ty) : Prop :=
  is_Some (event_ids r !! t) ∨ Z.of_nat (next_id r) < INT_MAX.

#[export] Instance can_issue_dec t r : Decision (can_issue t r).
Proof. unfold can_issue. apply _. Defined.

Implicit Types (r : Registry ty) (t : ty).

Lemma to_size_t_small z : 0 ≤ z < SIZE_MOD → to_size_t z = z.
Proof. apply Z.mod_small. Qed.

Lemma to_size_t_int z : 0 ≤ z ≤ INT_MAX → to_size_t z = z.
Proof. intros Hz. apply to_size_t_small. unfold INT_MAX, SIZE_MOD in *. lia. Qed.

(** ** The registry *)

Lemma GetEventId_int_eq t r :
  GetEventId_int t (to_int r)
  = if decide (can_issue t r)
    then Some (Z.of_nat (GetEventId t r).1, to_int (GetEventId t r).2) else None.
Proof.
  unfold GetEventId_int. simpl. rewrite lookup_fmap.
  destruct (event_ids r !! t) as [i|] eqn:Hi; simpl.
  - rewrite decide_True by (left; by rewrite Hi). by rewrite (GetEventId_cached _ _ _ Hi).
  - rewrite (GetEventId_fresh _ _ Hi). unfold GetUniqueEventId_int. simpl.
    destruct (decide (Z.of_nat (next_id r) + 1 ≤ INT_MAX)) as [Hlt|Hge]; simpl.
    + rewrite decide_True by (right; lia). unfold to_int. simpl.
      by rewrite fmap_insert, Nat2Z.inj_succ.
    + rewrite decide_False; [done|]. unfold can_issue. rewrite Hi. intros [[? [=]]|?]. lia.
Qed.

(** C28: the functions on [int] are those of [Registry] while the type has
    its identifier or the counter can be incremented, and undefined
    otherwise. *)
Theorem GetEventId_int_refines t r :
  GetEventId_int t (to_int r)
  = if decide (can_issue t r)
    then Some (Z.of_nat (GetEventId t r).1, to_int (GetEventId t r).2) else None.
Proof. apply GetEventId_int_eq. Qed.

(** Issuing identifiers for new types, one after the other. *)
Lemma GetEventId_int_fresh_run (ts : list ty) r :
  NoDup ts → (∀ t, t ∈ ts → event_ids r !! t = None) → Z.of_nat (next_id r) ≤ INT_MAX →
  is_Some (for_each (λ t ir, snd <$> GetEventId_int t ir) ts (to_int r))
  ↔ Z.of_nat (next_id r) + Z.of_nat (length ts) ≤ INT_MAX.
Proof.
  revert r. induction ts as [|t ts IH]; intros r Hnd Hnew Hr.
  { simpl. split; [lia|by eexists]. }
  apply NoDup_cons in Hnd as [Ht Hnd]. rewrite for_each_cons, GetEventId_int_eq.
  pose proof (Hnew t ltac:(left)) as Hnone.
  destruct (decide (can_issue t r)) as [[[? Hs]|Hlt]|Hge]; simpl; [by rewrite Hnone in Hs| |].
  - rewrite IH; [|done| |]; rewrite ?(GetEventId_fresh _ _ Hnone); simpl; [lia| |lia].
    intros t' Ht'. rewrite lookup_insert_ne by (by intros ->). apply Hnew. by right.
  - split; [by intros [? [=]]|]. intros Hle. destruct Hge. right. lia.
Qed.

(** C29: a process can use [INT_MAX] event types and no more: requesting the
    identifiers of distinct types, from the start of the program, is defined
    if and only if there are at most [INT_MAX] of them. *)
Theorem GetEventId_int_capacity (ts : list ty) :
  NoDup ts →
  is_Some (for_each (λ t ir, snd <$> GetEventId_int t ir) ts (to_int registry_init))
  ↔ Z.of_nat (length ts) ≤ INT_MAX.
Proof.
  intros Hnd. rewrite GetEventId_int_fresh_run; [done..| |]; [|done].
  intros t _. apply lookup_empty.
Qed.

(** ** The index arithmetic of [GetEventHandler] *)

(** On an identifier the registry issues, the vector grows to hold the slot
    of the identifier, and the slot accessed is that of the identifier. *)
Lemma handler_index_spec (i size : nat) :
  Z.of_nat i < INT_MAX →
  handler_index (Z.of_nat i) (Z.of_nat size)
  = Some (Z.of_nat (size `max` S i), Z.of_nat i).
Proof.
  intros Hi. unfold handler_index. rewrite !to_size_t_int by lia.
  destruct (decide (Z.of_nat size ≤ Z.of_nat i)); simpl.
  - rewrite decide_True by lia. simpl. rewrite decide_True by lia. do 3 f_equal. lia.
  - rewrite decide_True by lia. do 3 f_equal. lia.
Qed.

(** A negative identifier becomes one of the largest values of
    [std::size_t]: the identifier -1 empties the vector and indexes it out of
    bounds; any other asks for a vector of more than [2 ^ 64 - 2 ^ 31]
    slots. *)
Lemma to_size_t_negative z : - SIZE_MOD ≤ z < 0 → to_size_t z = z + SIZE_MOD.
Proof.
  intros Hz. unfold to_size_t. symmetry. apply (Z.mod_unique _ _ (-1)); unfold SIZE_MOD in *; lia.
Qed.

Lemma handler_index_negative (i size : Z) :
  - INT_MAX - 1 ≤ i < 0 → 0 ≤ size ≤ INT_MAX →
  handler_index i size
  = if decide (i = -1) then None else Some (i + 1 + SIZE_MOD, i + SIZE_MOD).
Proof.
  intros Hi Hsize. unfold handler_index.
  rewrite (to_size_t_negative i) by (unfold INT_MAX, SIZE_MOD in *; lia).
  rewrite decide_True by (unfold INT_MAX, SIZE_MOD in *; lia).
  rewrite decide_True by lia. simpl. destruct (decide (i = -1)) as [->|Hne]; [done|].
  rewrite (to_size_t_negative (i + 1)) by (unfold INT_MAX, SIZE_MOD in *; lia).
  by rewrite decide_True by lia.
Qed.

End machine.

Section machine_bus.
Context {ty val callable sig : Type} `{Countable ty} `{!SignalOps callable sig}.
Abbreviation World := (World ty val callable sig).
Implicit Types (w : World) (t : ty).

(** C32: [GetEventHandler<Event>] computes, on the integers of the source, the
    slot, the statics and the size of the vector that the model computes on
    [nat], while the type has its identifier or the counter can be
    incremented; otherwise its behaviour is undefined. *)
Theorem GetEventHandler_int_refines t w :
  world_wf w → Z.of_nat (next_id (registry w)) ≤ INT_MAX →
  GetEventHandler_int t (to_int (registry w)) (Z.of_nat (length (mEventPools w)))
  = if decide (can_issue t (registry w))
    then Some (Z.of_nat (EventBus.GetEventHandler t w).1,
               to_int (registry (EventBus.GetEventHandler t w).2),
               Z.of_nat (length (mEventPools (EventBus.GetEventHandler t w).2)))
    else None.
Proof.
  intros Hwf Hr. unfold GetEventHandler_int. rewrite GetEventId_int_eq.
  destruct (decide (can_issue t (registry w))) as [Hcan|]; [|done]. simpl.
  destruct (EventBus.GetEventHandler_spec t w) as (-> & -> & _ & _ & -> & _).
  rewrite handler_index_spec; [done|].
  destruct Hcan as [[i Hi]|Hlt].
  - rewrite (GetEventId_cached _ _ _ Hi). simpl. apply (proj1 (proj1 Hwf)) in Hi. lia.
  - destruct (event_ids (registry w) !! t) as [i|] eqn:Hi.
    + rewrite (GetEventId_cached _ _ _ Hi). simpl. apply (proj1 (proj1 Hwf)) in Hi. lia.
    + by rewrite (GetEventId_fresh _ _ Hi).
Qed.

End machine_bus.

(** ** The theorems at concrete inputs

    Event types are numbered by [nat]; the world is [EventBus.bus_idle], in
    which type 0 has its identifier. *)

Lemma GetEventId_int_refines_witness :
  GetEventId_int 7%nat (to_int registry_init)
  = if decide (can_issue 7%nat registry_init)
    then Some (Z.of_nat (GetEventId 7%nat registry_init).1,
               to_int (GetEventId 7%nat registry_init).2)
    else None.
Proof. exact (GetEventId_int_refines (ty:=nat) 7%nat registry_init). Defined.

Lemma NoDup_7_3 : NoDup [7%nat; 3%nat].
Proof. apply NoDup_cons. split; [by intros [=]%list_elem_of_singleton|]. apply NoDup_singleton. Qed.

Lemma GetEventId_int_capacity_witness :
  is_Some (for_each (λ t ir, snd <$> GetEventId_int t ir) [7%nat; 3%nat] (to_int registry_init))
  ↔ Z.of_nat (length [7%nat; 3%nat]) ≤ INT_MAX.
Proof. exact (GetEventId_int_capacity [7%nat; 3%nat] NoDup_7_3). Defined.

Lemma bus_idle_counter : Z.of_nat (next_id (registry EventBus.bus_idle)) ≤ INT_MAX.
Proof. by vm_compute. Qed.

Lemma GetEventHandler_int_refines_witness :
  GetEventHandler_int 1%nat (to_int (registry EventBus.bus_idle))
    (Z.of_nat (length (mEventPools EventBus.bus_idle)))
  = if decide (can_issue 1%nat (registry EventBus.bus_idle))
    then Some (Z.of_nat (EventBus.GetEventHandler 1%nat EventBus.bus_idle).1,
               to_int (registry (EventBus.GetEventHandler 1%nat EventBus.bus_idle).2),
               Z.of_nat (length (mEventPools (EventBus.GetEventHandler 1%nat EventBus.bus_idle).2)))
    else None.
Proof.
  exact (GetEventHandler_int_refines 1%nat EventBus.bus_idle EventBus.bus_idle_wf
           bus_idle_counter).
Defined.

(** With the counter at [INT_MAX] the request of a new type overflows it;
    a type that has its identifier is still served. *)
Example GetEventId_int_overflow :
  GetEventId_int 7%nat (mkIntRegistry INT_MAX {[3%nat := 0]}) = None ∧
  GetEventId_int 3%nat (mkIntRegistry INT_MAX {[3%nat := 0]})
  = Some (0, mkIntRegistry INT_MAX {[3%nat := 0]}).
Proof. by split. Qed.

(** The identifier -1 empties a vector of three slots and indexes it out of
    bounds. *)
Example handler_index_minus_one : handler_index (-1) 3 = None.
Proof. done. Qed.
