(* ===== verification/Exec.v ===== *)
(** * Application code: calls into the bus, and callables called back

    The bus is driven by code outside the header: a main program that calls
    the public member functions, and the bound callables, which the bus calls
    back and which may call the public member functions again.  [cmd] has one
    constructor per public member function of [EventBus]; a program is a list
    of commands; a table [code] gives, for each callable and each event it is
    invoked with, the commands its body runs.  [call_fuel] is the invoker of
    callables the pool and the bus are parameterised by: it runs the body of a
    callable with one unit of fuel less, so that the nesting depth of
    re-entrant calls is bounded by the fuel and [None] means the bound was
    reached.

    A command that subscribes does not bind the connection it obtains:
    connections are determined by the order of subscriptions (the slot of the
    type and the serial of the binding), and a program names them by value.
    The body of a callable depends on the callable and on the event it is
    invoked with, not on the state of the program. *)

From stdpp Require Import gmap list.
From S2P Require Import Prelude Registry Signal World Callable EventPool EventBus Kept.

(** The public member functions of [EventBus]. *)
Inductive cmd (ty val callable : Type) : Type :=
  | Trigger (t : ty) (event : val)
  | Enqueue (t : ty) (event : val)
  | Dispatch
  | DispatchOf (ts : list ty)
  | Clear
  | ClearOf (ts : list ty)
  | Subscribe (t : ty) (f : callable)
  | Unsubscribe (connection : Connection).

Arguments Trigger {ty val callable} t event.
Arguments Enqueue {ty val callable} t event.
Arguments Dispatch {ty val callable}.
Arguments DispatchOf {ty val callable} ts.
Arguments Clear {ty val callable}.
Arguments ClearOf {ty val callable} ts.
Arguments Subscribe {ty val callable} t f.
Arguments Unsubscribe {ty val callable} connection.

Section exec.
Context {ty val callable sig : Type} `{Countable ty} `{!SignalOps callable sig}.
Abbreviation World := (World ty val callable sig).
Abbreviation cmd := (cmd ty val callable).
Implicit Types (w : World) (c : cmd) (cs : list cmd).

(** One call of a public member function. *)
Definition exec (call : callable → val → World → option World) c w : option World :=
  match c with
  | Trigger t event => EventBus.TriggerEvent call t event w
  | Enqueue t event => Some (EventBus.EnqueueEvent t event w)
  | Dispatch => EventBus.DispatchQueuedEvents call w
  | DispatchOf ts => EventBus.DispatchQueuedEventsOf call ts w
  | Clear => EventBus.ClearEventQueues w
  | ClearOf ts => Some (EventBus.ClearEventQueuesOf ts w)
  | Subscribe t f => Some (EventBus.SubscribeToEvent t f w).2
  | Unsubscribe connection => Some (EventBus.UnsubscribeFromEvent connection w)
  end.

(** A sequence of calls. *)
Definition run (call : callable → val → World → option World) cs : World → option World :=
  for_each (exec call) cs.

(** Invoke callable [h] with [event]: run its body, with nested invocations at
    most [n - 1] deep. *)
Fixpoint call_fuel (code : callable → val → list cmd) (n : nat)
    (h : callable) (event : val) (w : World) : option World :=
  match n with
  | 0 => None
  | S n' => run (call_fuel code n') (code h event) w
  end.

(** A main program, with callables nested at most [n] deep. *)
Definition run_main (code : callable → val → list cmd) (n : nat) cs : World → option World :=
  run (call_fuel code n) cs.

(** The worlds a program can be in between two calls from outside the bus:
    the initial world, and the world a call of a public member function
    returns in from a reachable world. *)
Inductive reachable (call : callable → val → World → option World) : World → Prop :=
  | reachable_init : reachable call world_init
  | reachable_step w c w' :
      reachable call w → exec call c w = Some w' → reachable call w'.

(** The callables whose body does not invoke callables: no [Trigger], no
    [Dispatch]. *)
Definition invokes_nothing c : bool :=
  match c with
  | Trigger _ _ | Dispatch | DispatchOf _ => false
  | _ => true
  end.

End exec.

Section exec_lemmas.
Context {ty val callable sig : Type} `{Countable ty} `{!SignalOps callable sig}.
Abbreviation World := (World ty val callable sig).
Abbreviation cmd := (cmd ty val callable).
Implicit Types (w : World) (c : cmd) (cs : list cmd) (code : callable → val → list cmd).
Implicit Types (call : callable → val → World → option World).

Lemma run_cons call c cs w : run call (c :: cs) w = exec call c w ≫= run call cs.
Proof. done. Qed.

(** ** Soundness: the rely-guarantee loop is closed *)

(** A call of a public member function is sound when the callables are. *)
Lemma exec_sound call `{!Callback call} c : sound (exec call c).
Proof.
  destruct c; unfold exec.
  - by apply EventBus.TriggerEvent_sound.
  - apply (sound_ret (λ w, EventBus.EnqueueEvent t event w)), EventBus.EnqueueEvent_sound.
  - by apply EventBus.DispatchQueuedEvents_sound.
  - by apply EventBus.DispatchQueuedEventsOf_sound.
  - apply EventBus.ClearEventQueues_sound.
  - apply (sound_ret (λ w, EventBus.ClearEventQueuesOf ts w)), EventBus.ClearEventQueuesOf_sound.
  - apply (sound_ret (λ w, (EventBus.SubscribeToEvent t f w).2)), EventBus.SubscribeToEvent_sound.
  - apply (sound_ret (λ w, EventBus.UnsubscribeFromEvent connection w)),
      EventBus.UnsubscribeFromEvent_sound.
Qed.

Lemma run_sound call `{!Callback call} cs : sound (run call cs).
Proof. apply sound_for_each. intros c _. by apply exec_sound. Qed.

(** Callables that run commands satisfy the contract the bus asks of them,
    at every fuel. *)
#[export] Instance call_fuel_callback code n : Callback (call_fuel code n).
Proof.
  induction n as [|n IH]; intros h event.
  - split_and!; intros w w'; simpl; [intros _|..]; discriminate.
  - simpl. by apply run_sound.
Qed.

(** ** Termination *)

(** A call of a public member function returns when the callables do. *)
Lemma exec_total call `{!Callback call, !Returning call} c : total_on world_wf (exec call c).
Proof.
  destruct c; unfold exec; try (intros w _; by eexists).
  - by apply EventBus.TriggerEvent_total.
  - by apply EventBus.DispatchQueuedEvents_total.
  - by apply EventBus.DispatchQueuedEventsOf_total.
  - intros w _. apply EventBus.ClearEventQueues_total.
Qed.

Lemma run_total call `{!Callback call, !Returning call} cs : total_on world_wf (run call cs).
Proof.
  apply for_each_total; intros c _; [by apply exec_sound|by apply exec_total].
Qed.

(** A command that invokes nothing does not depend on the invoker. *)
Lemma exec_invokes_nothing call1 call2 c w :
  invokes_nothing c = true → exec call1 c w = exec call2 c w.
Proof. by destruct c. Qed.

(** A body of commands that invoke nothing returns with any invoker. *)
Lemma run_invokes_nothing call cs w :
  forallb invokes_nothing cs = true → is_Some (run call cs w).
Proof.
  revert w. induction cs as [|c cs IH]; intros w Hcs; [by eexists|].
  apply andb_prop in Hcs as [Hc Hcs]. unfold run in *. simpl.
  destruct c; try discriminate; simpl; rewrite ?EventBus.ClearEventQueues_eq; by apply IH.
Qed.

(** Callables whose bodies invoke nothing return at fuel 1. *)
Lemma flat_returning code :
  (∀ h event, forallb invokes_nothing (code h event) = true) →
  Returning (call_fuel code 1).
Proof. intros Hflat h event w _. simpl. by apply run_invokes_nothing. Qed.

(** ** More fuel *)

(** The member functions are monotone in the invoker: if every invocation
    that returns with [call1] returns the same with [call2], so does every
    call of a member function. *)
Lemma exec_mono call1 call2 c :
  (∀ h event w w', call1 h event w = Some w' → call2 h event w = Some w') →
  ∀ w w', exec call1 c w = Some w' → exec call2 c w = Some w'.
Proof.
  intros Hcall. destruct c; unfold exec; try done.
  - by apply EventBus.TriggerEvent_mono.
  - by apply EventBus.DispatchQueuedEvents_mono.
  - by apply EventBus.DispatchQueuedEventsOf_mono.
Qed.

Lemma run_mono call1 call2 cs :
  (∀ h event w w', call1 h event w = Some w' → call2 h event w = Some w') →
  ∀ w w', run call1 cs w = Some w' → run call2 cs w = Some w'.
Proof. intros Hcall. apply for_each_mono. intros c _. by apply exec_mono. Qed.

Lemma call_fuel_S code n h event w w' :
  call_fuel code n h event w = Some w' → call_fuel code (S n) h event w = Some w'.
Proof.
  revert h event w w'. induction n as [|n IH]; intros h event w w'; [done|].
  intros Hrun. simpl in *. by eapply run_mono.
Qed.

Lemma call_fuel_le code n m h event w w' :
  n ≤ m → call_fuel code n h event w = Some w' → call_fuel code m h event w = Some w'.
Proof. induction 1; [done|]. intros Hn. by apply call_fuel_S, IHle. Qed.

(** ** Iterator safety *)

Lemma exec_calm call `{!Passive call} c : relates calm (exec call c).
Proof.
  destruct c; unfold exec; try (intros w w' [= <-]).
  - by apply EventBus.TriggerEvent_calm.
  - apply EventBus.EnqueueEvent_calm.
  - by apply EventBus.DispatchQueuedEvents_calm.
  - by apply EventBus.DispatchQueuedEventsOf_calm.
  - apply EventBus.ClearEventQueues_calm.
  - apply EventBus.ClearEventQueuesOf_calm.
  - apply EventBus.SubscribeToEvent_calm.
  - apply EventBus.UnsubscribeFromEvent_calm.
Qed.

Lemma run_calm call `{!Passive call} cs : relates calm (run call cs).
Proof. apply for_each_relates; [apply _|]. intros c _. by apply exec_calm. Qed.

(** ** Revoked bindings *)

Lemma exec_avoids call `{!Discreet call} s k c : relates (avoids s k) (exec call c).
Proof.
  destruct c; unfold exec; try (intros w w' [= <-]).
  - by apply EventBus.TriggerEvent_avoids.
  - apply EventBus.EnqueueEvent_avoids.
  - by apply EventBus.DispatchQueuedEvents_avoids.
  - by apply EventBus.DispatchQueuedEventsOf_avoids.
  - apply EventBus.ClearEventQueues_avoids.
  - apply EventBus.ClearEventQueuesOf_avoids.
  - apply EventBus.SubscribeToEvent_avoids.
  - apply EventBus.UnsubscribeFromEvent_avoids.
Qed.

Lemma run_avoids call `{!Discreet call} s k cs : relates (avoids s k) (run call cs).
Proof. apply for_each_relates; [apply _|]. intros c _. by apply exec_avoids. Qed.

(** Callables that run commands are discreet, at every fuel. *)
#[export] Instance call_fuel_discreet code n : Discreet (call_fuel code n).
Proof.
  induction n as [|n IH]; intros s k h event; [by intros w w'|].
  simpl. by apply run_avoids.
Qed.

(** ** Relations every command respects *)

(** A relation the primitive steps respect ([Kept]) is respected by a command
    when the callables respect it and the subscription or revocation the
    command makes, if it makes one, does. *)
Lemma exec_kept (R : relation World) `{!Kept R} call c :
  (∀ h event, relates R (call h event)) →
  (∀ t f w, c = Subscribe t f → R w (EventBus.SubscribeToEvent t f w).2) →
  (∀ connection w, R w (EventBus.UnsubscribeFromEvent connection w)) →
  relates R (exec call c).
Proof.
  intros Hcall Hsub Hunsub. destruct c; unfold exec; try (intros w w' [= <-]).
  - by apply TriggerEvent_kept.
  - by apply EnqueueEvent_kept.
  - by apply (DispatchQueuedEvents_framed R).
  - by apply DispatchQueuedEventsOf_kept.
  - by apply (ClearEventQueues_framed R).
  - by apply ClearEventQueuesOf_kept.
  - by apply Hsub.
  - apply Hunsub.
Qed.

(** ** Packed pools *)

Lemma exec_packs call `{!Tidy call} c : relates packs (exec call c).
Proof.
  apply (exec_kept packs); [apply call_tidy| |apply EventBus.UnsubscribeFromEvent_packs].
  intros t f w _. apply EventBus.SubscribeToEvent_packs.
Qed.

Lemma run_packs call `{!Tidy call} cs : relates packs (run call cs).
Proof. apply for_each_relates; [apply _|]. intros c _. by apply exec_packs. Qed.

(** Callables that run commands keep the pools packed, at every fuel. *)
#[export] Instance call_fuel_tidy code n : Tidy (call_fuel code n).
Proof.
  induction n as [|n IH]; intros h event; [by intros w w'|].
  simpl. by apply run_packs.
Qed.

(** ** Reachable worlds *)

Lemma reachable_run call cs w w' :
  reachable call w → run call cs w = Some w' → reachable call w'.
Proof.
  revert w. induction cs as [|c cs IH]; intros w Hw Hrun; [by injection Hrun as <-|].
  rewrite run_cons in Hrun. bind_inv Hrun. eapply IH; [|done]. by eapply reachable_step.
Qed.

(** The reachable worlds are the worlds main programs end in. *)
Lemma reachable_iff_run call w :
  reachable call w ↔ ∃ cs, run call cs world_init = Some w.
Proof.
  split.
  - induction 1 as [|w c w' _ [cs Hcs] Hstep]; [by exists []|]. exists (cs ++ [c]).
    unfold run in *. by rewrite for_each_snoc, Hcs, bind_Some_l.
  - intros [cs Hcs]. eapply reachable_run; [apply reachable_init|done].
Qed.

(** ** The properties of programs *)

(** C16: the invariant of the bus.  Whatever the main program and the
    callables do, re-entrant calls included, a run that starts in a
    well-formed world ends in one: every pool sits in the slot of the id of
    its type, ids are below the counter, serials of bindings are distinct.
    The world has only grown (no id, pool or serial taken back, the trace
    extended) and every walk the run started has ended. *)
Theorem run_main_invariant code n cs w w' :
  world_wf w → run_main code n cs w = Some w' →
  world_wf w' ∧ world_le w w' ∧ same_walks w w'.
Proof.
  intros Hwf Hrun. destruct (run_sound (call_fuel code n) cs) as (Hwf' & Hle & Hwalk).
  split_and!; eauto.
Qed.

(** C15: the invariant of the reachable worlds, by induction on the calls
    made: between two calls from outside, the world is well formed and no
    range-based [for] of the bus is in progress, whatever the callables did
    within the contract of [Callback]. *)
Theorem reachable_invariant call `{!Callback call} w :
  reachable call w → world_wf w ∧ no_walks w.
Proof.
  induction 1 as [|w c w' _ [Hwf Hwalk] Hstep]; [split; [apply world_init_wf|done]|].
  destruct (exec_sound call c) as (Hwf' & _ & Hsame).
  destruct (Hsame _ _ Hstep) as [Hq Hp]. destruct Hwalk as [Hq0 Hp0].
  split; [by eapply Hwf'|]. split; congruence.
Qed.

(** C18: in a program with one bus that reads event identifiers through it
    only, the pools are packed between two calls from outside, whatever the
    callables did through the bus: [mEventPools] has one slot per identifier
    issued and no slot is null, so the checks [if (eventHandler)] of the loops
    of [DispatchQueuedEvents()] and [ClearEventQueues()] never fail. *)
Theorem reachable_packed call `{!Tidy call} w :
  reachable call w →
  length (mEventPools w) = next_id (registry w) ∧
  ∀ i, i < length (mEventPools w) → is_Some (pool_at i w).
Proof.
  intros Hw. assert (packed w) as Hp.
  { induction Hw as [|w c w' _ IH Hstep]; [apply world_init_packed|].
    by apply (exec_packs call c w w'). }
  split; [apply Hp|]. intros i. by apply packed_pool_at.
Qed.

(** C25: no member function blocks or fails.  When the callables return and
    keep the contract of [Callback], every sequence of calls of the public
    member functions returns, from every well-formed world: also one whose
    vector [mEventPools] has null slots, through which the loops of
    [DispatchQueuedEvents()] and [ClearEventQueues()] call no member
    function. *)
Theorem run_returns call `{!Callback call, !Returning call} cs w :
  world_wf w → is_Some (run call cs w).
Proof. by apply run_total. Qed.

(** With callables whose bodies neither trigger nor dispatch, nesting
    depth 1 is enough: every main program returns at every fuel from 1 on. *)
Theorem run_main_flat_returns code n cs w :
  (∀ h event, forallb invokes_nothing (code h event) = true) →
  world_wf w → is_Some (run_main code (S n) cs w).
Proof.
  intros Hflat Hwf. pose proof (flat_returning code Hflat) as Hret.
  destruct (run_total (call_fuel code 1) cs w Hwf) as [w' Hw']. exists w'.
  eapply run_mono; [|done]. intros h event w1 w2. apply call_fuel_le. lia.
Qed.

(** More fuel changes no result: a run that returns with callables nested
    at most [n] deep returns the same world with any larger bound. *)
Theorem run_main_fuel_mono code n m cs w w' :
  n ≤ m → run_main code n cs w = Some w' → run_main code m cs w = Some w'.
Proof. intros Hnm. apply run_mono. intros h event w1 w2. by apply call_fuel_le. Qed.

(** Iterator safety of non-re-entrant use.  A sequence of calls from
    outside the bus, with callables that do not call the bus, returns and
    invalidates no iterator in use: no buffer is modified while it is walked
    and the vector of pools is not resized while it is walked. *)
Theorem run_passive_safe call `{!Passive call} cs w :
  world_wf w → no_walks w →
  ∃ w', run call cs w = Some w' ∧ world_wf w' ∧ no_walks w' ∧ hazard w' = hazard w.
Proof.
  intros Hwf Hquiet. destruct (run_total call cs w Hwf) as [w' Hw']. exists w'.
  destruct (run_calm call cs w w' Hw' Hquiet) as [Hq' Hh'].
  destruct (run_sound call cs) as (Hwf' & _). split_and!; eauto.
Qed.

(** A callable bound for a type whose body triggers an event of that type is
    invoked again by its own trigger, at every depth. *)
Lemma TriggerEvent_self code n t h event (k : nat) bs w :
  code h event = [Trigger t event] →
  bound_of (EventBus.slot_of t w) w = (k, h) :: bs →
  EventBus.TriggerEvent (call_fuel code n) t event w = None.
Proof.
  intros Hcode. revert w. induction n as [|n IH]; intros w Hb;
    rewrite EventBus.TriggerEvent_unfold; unfold EventPool.TriggerEvent, EventPool.emit;
    unfold bound_of in Hb; destruct (pool_at (EventBus.slot_of t w) w) as [p|] eqn:Hp;
    try discriminate; rewrite (EventBus.GetEventHandler_pool_at t w p Hp);
    unfold Invoke; simpl in Hb; rewrite Hb; [done|].
  rewrite for_each_cons. cbn [fst snd call_fuel]. rewrite Hcode.
  rewrite run_cons. cbn [exec]. rewrite IH; [done|].
  change (EventBus.slot_of t (log ?d ?x)) with (EventBus.slot_of t x).
  rewrite bound_of_log, EventBus.GetEventHandler_slot_of.
  destruct (EventBus.GetEventHandler_obs t w) as (_ & <- & _). unfold bound_of. by rewrite Hp.
Qed.

(** C26: unbounded recursion.  A callable bound for an event type whose body
    triggers an event of that type never returns: the run of a trigger of
    that type is out of fuel at every bound on the nesting depth, as the
    program overflows its stack. *)
Theorem self_trigger_diverges code n t h event (k : nat) bs w :
  code h event = [Trigger t event] →
  bound_of (EventBus.slot_of t w) w = (k, h) :: bs →
  run_main code n [Trigger t event] w = None.
Proof.
  intros Hcode Hb. unfold run_main. rewrite run_cons. cbn [exec].
  by erewrite TriggerEvent_self.
Qed.

(** C14: unsubscription is final, whatever the callables do.  After
    [UnsubscribeFromEvent(connection)], for a connection the bus has handed
    out, no run of a main program, with callables that call the bus back in
    any way and to any depth, invokes through the binding of the connection:
    the serial is never bound again and no trigger or flush reaches it. *)
Theorem unsubscribe_final code n connection cs w w' :
  conn_serial connection < issued_of (conn_signal connection) w →
  run_main code n cs (EventBus.UnsubscribeFromEvent connection w) = Some w' →
  ∃ ds, trace w' = trace w ++ ds ∧
        Forall (λ d, ¬ from_binding (conn_signal connection) (conn_serial connection) d) ds.
Proof.
  intros Hlt Hrun. apply EventBus.UnsubscribeFromEvent_revoked in Hlt.
  by destruct (run_avoids (call_fuel code n) _ _ cs _ _ Hrun Hlt) as (_ & Hds).
Qed.

End exec_lemmas.

(** ** The properties at concrete programs

    Event types, events and callables are numbers; the signal is the list
    implementation.  Callable 1 enqueues the event it receives, plus 100, for
    type 0; callable 2 triggers the event it receives for type 0; the other
    callables do not call the bus. *)

Definition demo_code (h : nat) (event : nat) : list (cmd nat nat nat) :=
  match h with
  | 1 => [Enqueue 0 (event + 100)]
  | 2 => [Trigger 0 event]
  | _ => []
  end.

(** The same without callable 2. *)
Definition flat_code (h : nat) (event : nat) : list (cmd nat nat nat) :=
  match h with
  | 1 => [Enqueue 0 (event + 100)]
  | _ => []
  end.

Definition demo_main : list (cmd nat nat nat) :=
  [Subscribe 0 7; Trigger 0 10; Enqueue 0 5; Enqueue 0 7; Dispatch].

(** A main program whose callable enqueues during the flush. *)
Definition requeue_main : list (cmd nat nat nat) :=
  [Subscribe 0 1; Enqueue 0 5; Dispatch; Dispatch].

Definition demo_init : World.World nat nat nat (Signal nat) := world_init.

Lemma run_main_invariant_witness :
  world_wf (default demo_init (run_main demo_code 1 requeue_main demo_init)) ∧
  world_le demo_init (default demo_init (run_main demo_code 1 requeue_main demo_init)) ∧
  same_walks demo_init (default demo_init (run_main demo_code 1 requeue_main demo_init)).
Proof.
  apply (run_main_invariant demo_code 1 requeue_main demo_init); [apply world_init_wf|].
  vm_compute. reflexivity.
Defined.

(** From [EventBus.bus_gap], whose slot 0 is null. *)
Lemma run_returns_witness :
  is_Some (run call_skip [Dispatch; Enqueue 1 6; Clear; Trigger 0 3] EventBus.bus_gap).
Proof. apply (run_returns call_skip _ EventBus.bus_gap), EventBus.bus_gap_wf. Defined.

Lemma run_main_flat_returns_witness : is_Some (run_main flat_code 1 requeue_main demo_init).
Proof.
  apply (run_main_flat_returns flat_code 0 requeue_main demo_init); [|apply world_init_wf].
  intros [|[|h]] event; reflexivity.
Defined.

Lemma run_main_fuel_mono_witness :
  run_main demo_code 5 requeue_main demo_init = run_main demo_code 1 requeue_main demo_init.
Proof.
  transitivity (Some (default demo_init (run_main demo_code 1 requeue_main demo_init)));
    [|vm_compute; reflexivity].
  apply (run_main_fuel_mono demo_code 1 5 requeue_main demo_init); [lia|].
  vm_compute. reflexivity.
Defined.

Lemma run_passive_safe_witness :
  ∃ w', run call_skip demo_main demo_init = Some w' ∧ world_wf w' ∧ no_walks w' ∧
        hazard w' = hazard demo_init.
Proof. apply (run_passive_safe call_skip demo_main demo_init); [apply world_init_wf|done]. Defined.

(** Callable 7 is unsubscribed; callable 1, subscribed next, enqueues during
    the trigger and during the flush. *)
Definition after_unsubscribe : World.World nat nat nat (Signal nat) :=
  EventBus.UnsubscribeFromEvent (mkConnection 0 0) (EventBus.SubscribeToEvent 0 7 demo_init).2.

Definition resubscribe_main : list (cmd nat nat nat) :=
  [Subscribe 0 1; Enqueue 0 5; Trigger 0 6; Dispatch].

Lemma unsubscribe_final_witness :
  ∃ ds, trace (default demo_init (run_main demo_code 2 resubscribe_main after_unsubscribe))
        = trace (EventBus.SubscribeToEvent 0 7 demo_init).2 ++ ds ∧
        Forall (λ d, ¬ from_binding 0 0 d) ds.
Proof.
  apply (unsubscribe_final demo_code 2 (mkConnection 0 0) resubscribe_main
           (EventBus.SubscribeToEvent 0 7 demo_init).2); [vm_compute; lia|].
  vm_compute. reflexivity.
Defined.

Lemma reachable_invariant_witness :
  world_wf (default demo_init (run_main demo_code 1 requeue_main demo_init)) ∧
  no_walks (default demo_init (run_main demo_code 1 requeue_main demo_init)).
Proof.
  apply (reachable_invariant (call_fuel demo_code 1)).
  apply (reachable_run _ requeue_main demo_init); [apply reachable_init|].
  vm_compute. reflexivity.
Defined.

Lemma reachable_packed_witness :
  length (mEventPools (default demo_init (run_main demo_code 1 requeue_main demo_init)))
  = next_id (registry (default demo_init (run_main demo_code 1 requeue_main demo_init))) ∧
  ∀ i, i < length (mEventPools (default demo_init (run_main demo_code 1 requeue_main demo_init))) →
       is_Some (pool_at i (default demo_init (run_main demo_code 1 requeue_main demo_init))).
Proof.
  apply (reachable_packed (call_fuel demo_code 1)).
  apply (reachable_run _ requeue_main demo_init); [apply reachable_init|].
  vm_compute. reflexivity.
Defined.

Lemma self_trigger_diverges_witness :
  run_main demo_code 1000 [Trigger 0 5] (EventBus.SubscribeToEvent 0 2 demo_init).2 = None.
Proof.
  apply (self_trigger_diverges demo_code 1000 0 2 5 0 []
           (EventBus.SubscribeToEvent 0 2 demo_init).2); vm_compute; reflexivity.
Defined.
