(* ===== verification/Buses.v ===== *)
(** * Several buses in one process

    [EventBus] is a class: a program may construct several buses.  Each
    object has its own [mEventPools]; the statics of [GetUniqueEventId] and
    [GetEventId<Event>] exist once in the process.  So the identifier of an
    event type, hence the slot of its pool, is the same in every bus, and a
    bus has a null slot for every type that got its identifier through
    another bus before the bus used a type with a larger one.

    [Process] is the state: the statics, the buses, the trace.  [world_of] is
    the [World] a member function of one bus acts on, [store] writes it back,
    and [on_bus] runs a function on worlds as a member function of one bus.  The
    commands of a process construct a bus ([NewBus]) or call a public member
    function of a bus ([On]).  A callable invoked by a bus may call that bus
    again; a callable that calls another bus is not rendered.

    The theorems: every bus of a process stays well formed, whichever bus is
    called ([pexec_wf]); a call on one bus changes no pool of another
    ([on_bus_frame]); the pools of one event type sit in the same slot of
    every bus ([same_slot]); and a program that calls the buses it has
    constructed returns when its callables do, so that no member function is
    called through the null slots its buses have ([prun_returns];
    [second_bus_null_slot] shows such a slot). *)

From stdpp Require Import gmap list.
From S2P Require Import Prelude Registry Signal World Callable EventPool EventBus Exec.

(** The commands of a process. *)
Inductive pcmd (ty val callable : Type) : Type :=
  | NewBus
  | On (b : nat) (c : cmd ty val callable).

Arguments NewBus {ty val callable}.
Arguments On {ty val callable} b c.

Section buses.
Context {ty val callable sig : Type} `{Countable ty} `{!SignalOps callable sig}.
Abbreviation World := (World ty val callable sig).
Abbreviation cmd := (cmd ty val callable).
Abbreviation pcmd := (pcmd ty val callable).

(** One [EventBus] object: its data member, and the walks in progress on its
    vectors. *)
Record Bus : Type := mkBus {
  bus_pools : list (option (EventPool ty val sig));   (* [mEventPools] *)
  bus_iter_queues : list nat;                         (* ghost *)
  bus_iter_pools : nat;                               (* ghost *)
}.

Record Process : Type := mkProcess {
  statics : Registry ty;                    (* the statics of [GetEventId] *)
  buses : list Bus;                         (* the [EventBus] objects *)
  p_trace : list (Delivery val callable);   (* ghost *)
  p_hazard : bool;                          (* ghost *)
}.

(** The process at its start: no bus constructed. *)
Definition process_init : Process := mkProcess registry_init [] [] false.

(** [EventBus bus;]: the implicit default constructor leaves [mEventPools]
    empty.  The new bus is the last. *)
Definition new_bus (s : Process) : Process :=
  mkProcess (statics s) (buses s ++ [mkBus [] [] 0]) (p_trace s) (p_hazard s).

(** The world a member function of the bus [b] acts on. *)
Definition world_of (b : Bus) (s : Process) : World :=
  mkWorld (statics s) (bus_pools b) (p_trace s) (bus_iter_queues b) (bus_iter_pools b)
    (p_hazard s).

(** The bus a world holds. *)
Definition bus_of (w : World) : Bus := mkBus (mEventPools w) (iter_queues w) (iter_pools w).

(** Write back the world a member function of the bus [i] returns in. *)
Definition store (i : nat) (w : World) (s : Process) : Process :=
  mkProcess (registry w) (<[i:=bus_of w]> (buses s)) (trace w) (hazard w).

(** A member function called on the bus [i].  A program cannot call an object
    it has not constructed: at such an [i] the call has no result. *)
Definition on_bus (i : nat) (f : World → option World) (s : Process) : option Process :=
  b ← buses s !! i; w' ← f (world_of b s); Some (store i w' s).

(** [call i] invokes the callables bound on the bus [i]. *)
Definition pexec (call : nat → callable → val → World → option World) (c : pcmd)
    (s : Process) : option Process :=
  match c with
  | NewBus => Some (new_bus s)
  | On i c => on_bus i (exec (call i) c) s
  end.

Definition prun (call : nat → callable → val → World → option World) (cs : list pcmd) :
    Process → option Process :=
  for_each (pexec call) cs.

(** The commands call constructed buses only, in a process that has
    constructed [n]. *)
Fixpoint scoped (n : nat) (cs : list pcmd) : bool :=
  match cs with
  | [] => true
  | NewBus :: cs' => scoped (S n) cs'
  | On b _ :: cs' => bool_decide (b < n) && scoped n cs'
  end.

(** Every bus is well formed. *)
Definition process_wf (s : Process) : Prop :=
  registry_wf (statics s) ∧ ∀ i b, buses s !! i = Some b → world_wf (world_of b s).

End buses.

Section buses_lemmas.
Context {ty val callable sig : Type} `{Countable ty} `{!SignalOps callable sig}.
Abbreviation World := (World ty val callable sig).
Abbreviation Process := (Process (ty:=ty) (val:=val) (callable:=callable) (sig:=sig)).
Abbreviation Bus := (Bus (ty:=ty) (val:=val) (sig:=sig)).
Abbreviation cmd := (cmd ty val callable).
Abbreviation pcmd := (pcmd ty val callable).
Implicit Types (s : Process) (b : Bus) (w : World) (i j : nat).

(** ** Reading and writing a bus *)

Lemma world_of_store i w s b :
  buses s !! i = Some b →
  buses (store i w s) !! i = Some (bus_of w) ∧ world_of (bus_of w) (store i w s) = w.
Proof.
  intros Hb%lookup_lt_Some. split; [by apply list_lookup_insert_eq|by destruct w].
Qed.

Lemma store_lookup_ne i j w s : i ≠ j → buses (store i w s) !! j = buses s !! j.
Proof. intros Hne. by apply list_lookup_insert_ne. Qed.

(** The world of another bus after a call: its vectors are untouched; the
    statics, the trace and the hazard flag are those the call left. *)
Lemma world_of_store_other i w s b :
  world_of b (store i w s) = mkWorld (registry w) (bus_pools b) (trace w) (bus_iter_queues b)
                           (bus_iter_pools b) (hazard w).
Proof. done. Qed.

Lemma on_bus_Some i f s s' b :
  buses s !! i = Some b → on_bus i f s = Some s' →
  ∃ w', f (world_of b s) = Some w' ∧ s' = store i w' s.
Proof.
  unfold on_bus. intros -> Hrun. simpl in Hrun. bind_inv Hrun. injection Hrun as <-.
  by exists s0.
Qed.

(** ** A call on one bus leaves the others alone *)

Lemma on_bus_frame i j f s s' :
  i ≠ j → on_bus i f s = Some s' → buses s' !! j = buses s !! j.
Proof.
  intros Hne Hrun. unfold on_bus in Hrun. do 2 bind_inv Hrun. injection Hrun as <-.
  by apply store_lookup_ne.
Qed.

(** ** Every bus stays well formed *)

Lemma process_init_wf : process_wf (process_init : Process).
Proof. split; [apply registry_init_wf|]. by intros i b [=]. Qed.

Lemma new_bus_wf s : process_wf s → process_wf (new_bus s).
Proof.
  intros [Hr Hb]. split; [done|]. intros i b. simpl.
  intros [Hi|[_ Hnew]]%lookup_app_Some; [by apply (Hb i)|].
  apply list_lookup_singleton_Some in Hnew as [_ <-].
  split_and!; [done|simpl; lia|by intros [|?] p [=]..].
Qed.

(** A sound function called on one bus keeps every bus well formed: the
    other buses see the statics grow. *)
Lemma on_bus_wf i f s s' :
  sound f → process_wf s → on_bus i f s = Some s' → process_wf s'.
Proof.
  intros (Hwf & Hle & _) [Hr Hb]. unfold on_bus.
  destruct (buses s !! i) as [b|] eqn:Hi; [|done]. simpl.
  intros Hrun. bind_inv Hrun. injection Hrun as <-.
  pose proof (Hwf _ _ (Hb i b Hi) Hrun0) as Hwf'.
  pose proof (Hle _ _ Hrun0) as (Hrle & _). split; [apply Hwf'|].
  intros j b'. destruct (decide (i = j)) as [<-|Hne].
  - destruct (world_of_store i s0 s b Hi) as [-> Hv]. intros [= <-]. by rewrite Hv.
  - rewrite store_lookup_ne by done. intros Hj. rewrite world_of_store_other.
    apply (world_wf_set_registry (registry s0)
             (mkWorld (statics s) (bus_pools b') (trace s0) (bus_iter_queues b')
                (bus_iter_pools b') (hazard s0))); [|apply Hwf'|done].
    apply (world_wf_frame (world_of b' s)); [done..|by apply (Hb j)].
Qed.

Section invoker.
Context (call : nat → callable → val → World → option World).
Context `{Hcall : ∀ i, Callback (call i)}.

Lemma pexec_keeps_wf (c : pcmd) : {{ process_wf }} pexec call c {{ process_wf }}.
Proof.
  intros s s'. destruct c as [|i c]; simpl; [intros Hs [= <-]; by apply new_bus_wf|].
  apply on_bus_wf. by apply exec_sound.
Qed.

(** C30: whatever bus a command calls, and whatever the callables do through
    the bus that invokes them, every bus of the process stays well formed. *)
Theorem pexec_wf (c : pcmd) s s' :
  process_wf s → pexec call c s = Some s' → process_wf s'.
Proof. apply pexec_keeps_wf. Qed.

Lemma prun_wf (cs : list pcmd) : {{ process_wf }} prun call cs {{ process_wf }}.
Proof. apply for_each_triple. intros c _. apply pexec_keeps_wf. Qed.

End invoker.

(** ** One slot per event type, in every bus *)

(** In a well-formed process the pools of an event type sit in the same slot
    of every bus that has one. *)
Theorem same_slot s i j b b' k k' p p' :
  process_wf s → buses s !! i = Some b → buses s !! j = Some b' →
  pool_at k (world_of b s) = Some p → pool_at k' (world_of b' s) = Some p' →
  pool_type p = pool_type p' → k = k'.
Proof.
  intros [_ Hb] Hi Hj Hp Hp' Hty.
  destruct (Hb i b Hi) as (_ & _ & Hslot & _). destruct (Hb j b' Hj) as (_ & _ & Hslot' & _).
  apply Hslot in Hp. apply Hslot' in Hp'. simpl in *. rewrite Hty in Hp. congruence.
Qed.

(** ** No call through a null pointer *)

Section returns.
Context (call : nat → callable → val → World → option World).
Context `{Hcall : ∀ i, Callback (call i)} `{Hret : ∀ i, Returning (call i)}.

Lemma pexec_returns (c : pcmd) s :
  process_wf s → scoped (length (buses s)) [c] = true → is_Some (pexec call c s).
Proof.
  intros [_ Hb]. destruct c as [|i c]; simpl; [by eexists|].
  rewrite andb_true_r, bool_decide_eq_true. intros [b Hi]%lookup_lt_is_Some.
  unfold on_bus. rewrite Hi. simpl.
  destruct (exec_total (call i) c (world_of b s) (Hb i b Hi)) as [w' ->]. by eexists.
Qed.

(** C24: a process never calls through a null pointer.  Whatever buses a
    program constructs and whatever public member functions it calls on the
    buses it has constructed, with callables that keep the contract of
    [Callback] and return, the run returns: the loops of
    [DispatchQueuedEvents()] and [ClearEventQueues()] meet the null slots
    that the buses of a process have and call no member function through
    them. *)
Theorem prun_returns (cs : list pcmd) s :
  process_wf s → scoped (length (buses s)) cs = true → is_Some (prun call cs s).
Proof.
  revert s. induction cs as [|c cs IH]; intros s Hs Hcs; [by eexists|].
  unfold prun. rewrite for_each_cons.
  destruct (pexec_returns c s Hs) as [s' Hrun].
  { destruct c; simpl in *; [done|]. by apply andb_prop in Hcs as [-> _]. }
  rewrite Hrun. simpl. apply IH; [by eapply (pexec_keeps_wf call)|].
  destruct c as [|i c]; simpl in *.
  - injection Hrun as <-. simpl. rewrite length_app. simpl.
    by rewrite Nat.add_1_r.
  - apply andb_prop in Hcs as [_ Hcs]. unfold on_bus in Hrun. do 2 bind_inv Hrun.
    injection Hrun as <-. simpl. by rewrite length_insert.
Qed.

End returns.

End buses_lemmas.

(** ** Two buses

    Event types and callables are numbered by [nat].  The process constructs
    two buses; the callable 7 is subscribed to type 0 on the first, the
    callable 8 to type 1 on the second, and an event of type 1 is enqueued on
    the second. *)

Definition two_buses : list (pcmd nat nat nat) :=
  [NewBus; NewBus; On 0 (Subscribe 0 7); On 1 (Subscribe 1 8); On 1 (Enqueue 1 5)].

Definition call_none : nat → nat → nat → World.World nat nat nat (Signal nat) →
    option (World.World nat nat nat (Signal nat)) := λ _, call_skip.

#[export] Instance call_none_passive i : Passive (call_none i).
Proof. apply call_skip_passive. Qed.

(** What a test observes of a process: the callables invoked with their
    events, and for each bus the event type of each slot. *)
Definition pobserve (o : option (Process (ty:=nat) (val:=nat) (callable:=nat) (sig:=Signal nat))) :
    option (list (nat * nat) * list (list (option nat))) :=
  s ← o;
  Some ((λ d, (d_callable d, d_event d)) <$> p_trace s,
        (λ b, fmap (M:=list) (fmap (M:=option) pool_type) (bus_pools b)) <$> buses s).

(** The second bus has a null slot where the first has the pool of type 0;
    [DispatchQueuedEvents()] on it delivers the event of type 1.  When the
    second bus then uses type 0 as well, its flush delivers the event of
    type 0 first: the order of the identifiers, not the order in which the
    bus created its pools. *)
Example second_bus_null_slot :
  pobserve (prun call_none two_buses process_init) = Some ([], [[Some 0]; [None; Some 1]]) ∧
  pobserve (prun call_none (two_buses ++ [On 1 Dispatch]) process_init)
  = Some ([(8, 5)], [[Some 0]; [None; Some 1]]) ∧
  pobserve (prun call_none
    (two_buses ++ [On 1 (Subscribe 0 9); On 1 (Enqueue 0 6); On 1 Dispatch]) process_init)
  = Some ([(9, 6); (8, 5)], [[Some 0]; [Some 0; Some 1]]).
Proof. split_and!; vm_compute; reflexivity. Qed.

(** The process after [two_buses], and its second bus. *)
Definition process_two : Process (ty:=nat) (val:=nat) (callable:=nat) (sig:=Signal nat) :=
  default process_init (prun call_none two_buses process_init).

Definition bus_two : Bus (ty:=nat) (val:=nat) (sig:=Signal nat) :=
  default (mkBus [] [] 0) (buses process_two !! 1).

Lemma process_two_run : prun call_none two_buses process_init = Some process_two.
Proof. vm_compute. reflexivity. Qed.

Lemma process_two_bus : buses process_two !! 1 = Some bus_two.
Proof. vm_compute. reflexivity. Qed.

Lemma process_two_wf : process_wf process_two.
Proof. exact (prun_wf call_none two_buses _ _ process_init_wf process_two_run). Qed.

(** The process after a flush of the second bus. *)
Definition process_flushed : Process (ty:=nat) (val:=nat) (callable:=nat) (sig:=Signal nat) :=
  default process_init (pexec call_none (On 1 Dispatch) process_two).

Lemma process_flushed_run : pexec call_none (On 1 Dispatch) process_two = Some process_flushed.
Proof. vm_compute. reflexivity. Qed.

Lemma pexec_wf_witness : process_wf process_flushed.
Proof.
  exact (pexec_wf call_none (On 1 Dispatch) process_two process_flushed process_two_wf
           process_flushed_run).
Defined.

(** The program of [two_buses], then a flush and a clear of the second bus,
    whose slot 0 is null. *)
Lemma prun_returns_witness :
  is_Some (prun call_none (two_buses ++ [On 1 Dispatch; On 1 Clear]) process_init).
Proof.
  exact (prun_returns call_none (two_buses ++ [On 1 Dispatch; On 1 Clear]) process_init
           process_init_wf eq_refl).
Defined.
