(* ===== verification/Stratified.v ===== *)
(** * Termination of layered programs

    A callable that triggers the event it is bound for never returns
    ([Exec.self_trigger_diverges]); callables whose bodies invoke nothing
    return at fuel 1 ([Exec.run_main_flat_returns]).  This file proves
    termination for the programs in between: those whose callables and event
    types can be layered.  Every callable has a [rank], every event type a
    [level] below [top]; a callable is only subscribed to a type whose level
    is at least its rank, and the body of a callable only triggers or flushes
    types whose level is below its rank.  Then every invocation made from the
    body of a callable invokes callables of smaller rank, and a main program
    returns with fuel [top].

    [layered] is the invariant of the worlds: every binding respects the
    levels.  [allowed k] says which commands code of rank [k] may run. *)

From stdpp Require Import gmap list.
From S2P Require Import Prelude Registry Signal World Callable EventPool EventBus Kept Exec.

Section stratified.
Context {ty val callable sig : Type} `{Countable ty} `{!SignalOps callable sig}.
Abbreviation World := (World ty val callable sig).
Abbreviation cmd := (cmd ty val callable).
Implicit Types (w : World) (t : ty) (event : val) (f h : callable) (i k n : nat).
Implicit Types (c : cmd) (cs : list cmd) (code : callable → val → list cmd).

Context (rank : callable → nat) (level : ty → nat) (top : nat).

(** Every binding respects the levels. *)
Definition layered w : Prop :=
  ∀ i p b, pool_at i w = Some p → b ∈ bound (mSignal p) → rank b.2 ≤ level (pool_type p).

(** The invariant of layered programs. *)
Definition tame w : Prop := world_wf w ∧ layered w.

(** The commands that code of rank [k] may run: it triggers and flushes
    types of a level below [k] only, and subscribes a callable to a type of a
    level that is at least the rank of the callable. *)
Definition allowed k c : bool :=
  match c with
  | Trigger t _ => bool_decide (level t < k)
  | Dispatch => bool_decide (top ≤ k)
  | DispatchOf ts => forallb (λ t, bool_decide (level t < k)) ts
  | Subscribe t f => bool_decide (rank f ≤ level t)
  | Enqueue _ _ | Clear | ClearOf _ | Unsubscribe _ => true
  end.

(** The bodies of the callables respect the layers. *)
Definition stratified code : Prop :=
  ∀ h event, forallb (allowed (rank h)) (code h event) = true.

End stratified.

Section stratified_lemmas.
Context {ty val callable sig : Type} `{Countable ty} `{!SignalOps callable sig}.
Abbreviation World := (World ty val callable sig).
Abbreviation cmd := (cmd ty val callable).
Implicit Types (w : World) (t : ty) (event : val) (f h : callable) (i k n : nat).
Implicit Types (c : cmd) (cs : list cmd) (code : callable → val → list cmd).

Context (rank : callable → nat) (level : ty → nat) (top : nat).

Abbreviation layered := (layered rank level).
Abbreviation tame := (tame rank level).
Abbreviation allowed := (allowed rank level top).
Abbreviation stratified := (stratified rank level top).

(** A step keeps the invariant. *)
Definition tames w w' : Prop := tame w → tame w'.

#[export] Instance tames_preorder : PreOrder tames.
Proof. split; [by intros w Hw|]. intros w1 w2 w3 H12 H23 Hw. by apply H23, H12. Qed.

Lemma tames_triple (g : World → option World) : relates tames g → {{ tame }} g {{ tame }}.
Proof. intros Hg w w' Hw Hrun. by apply (Hg w w'). Qed.

(** ** The steps that invoke no callable *)

Lemma tames_frame w w' :
  registry w' = registry w → mEventPools w' = mEventPools w → tames w w'.
Proof.
  intros Hr Hp [Hwf Hl]. split; [by eapply world_wf_frame|].
  intros i p b. unfold pool_at. rewrite Hp. apply Hl.
Qed.

(** A write to a pool that keeps its type and adds no binding out of place. *)
Lemma tames_update_pool this (g : EventPool ty val sig → EventPool ty val sig) w :
  (world_wf w → world_wf (update_pool this g w)) →
  (∀ p, pool_type (g p) = pool_type p) →
  (∀ p b, pool_at this w = Some p → b ∈ bound (mSignal (g p)) →
          b ∈ bound (mSignal p) ∨ rank b.2 ≤ level (pool_type p)) →
  tames w (update_pool this g w).
Proof.
  intros Hwf Hty Hb [Hw Hl]. split; [auto|]. intros i p b Hp Hin.
  unfold pool_at in Hp. simpl in Hp. rewrite slot_alter in Hp.
  destruct (decide (this = i)) as [<-|]; [|by eapply Hl].
  destruct (slot (mEventPools w) this) as [p0|] eqn:Hp0; simplify_eq/=. rewrite Hty.
  destruct (Hb p0 b Hp0 Hin); [by eapply Hl|done].
Qed.

Lemma tames_push_back this event w : tames w (queue_push_back this event w).
Proof.
  trans (update_pool this (λ p, with_queue (mEventQueue p ++ [event]) p) w);
    [|by apply tames_frame].
  apply tames_update_pool; [apply (world_wf_with_queue this (λ p, mEventQueue p ++ [event]))
                           |done|by left].
Qed.

Lemma tames_clear this w : tames w (queue_clear this w).
Proof.
  trans (update_pool this (with_queue []) w); [|by apply tames_frame].
  apply tames_update_pool; [apply (world_wf_with_queue this (λ _, []))|done|by left].
Qed.

(** [GetEventHandler] creates a pool without bindings. *)
Lemma GetEventHandler_tames t w : tames w (EventBus.GetEventHandler t w).2.
Proof.
  intros [Hwf Hl]. split; [by apply (proj1 (EventBus.GetEventHandler_sound t))|].
  destruct (EventBus.GetEventHandler_spec t w) as (_ & _ & Hp & Hne & _).
  intros i p b Hi Hb. destruct (decide ((GetEventId t (registry w)).1 = i)) as [<-|Hi'].
  - rewrite Hp in Hi. destruct (pool_at _ w) as [p0|] eqn:Hp0; injection Hi as <-.
    + exact (Hl _ p0 _ Hp0 Hb).
    + simpl in Hb. rewrite bound_new in Hb. by apply elem_of_nil in Hb.
  - rewrite Hne in Hi by done. by eapply Hl.
Qed.

(** The pool [GetEventHandler<Event>] returns is of type [Event]. *)
Lemma handler_type t w p :
  world_wf w →
  pool_at (EventBus.GetEventHandler t w).1 (EventBus.GetEventHandler t w).2 = Some p →
  pool_type p = t.
Proof.
  intros Hwf Hp. pose proof (proj1 (EventBus.GetEventHandler_sound t) w Hwf) as Hwf1.
  destruct (EventBus.GetEventHandler_spec t w) as (Hidx & Hreg & _).
  destruct Hwf1 as ((_ & Hinj) & _ & Hty & _). apply Hty in Hp.
  eapply Hinj; [exact Hp|]. rewrite Hreg, Hidx. apply GetEventId_lookup.
Qed.

(** A subscription within the layers. *)
Lemma SubscribeToEvent_tames t f w :
  rank f ≤ level t → tames w (EventBus.SubscribeToEvent t f w).2.
Proof.
  intros Hf Hw. rewrite EventBus.SubscribeToEvent_unfold.
  pose proof (GetEventHandler_tames t w Hw) as Hw1. revert Hw1. apply tames_update_pool.
  - intros Hwf1. apply (world_wf_with_signal _ (λ s, (Bind f s).2)); [done|apply sig_ok_Bind].
  - done.
  - intros p b Hp. simpl. rewrite bound_Bind, elem_of_app, list_elem_of_singleton.
    intros [?| ->]; [by left|right]. simpl. by rewrite (handler_type t w p (proj1 Hw) Hp).
Qed.

Lemma UnsubscribeFromEvent_tames connection w :
  tames w (EventBus.UnsubscribeFromEvent connection w).
Proof.
  apply tames_update_pool.
  - apply (proj1 (EventBus.UnsubscribeFromEvent_sound connection)).
  - done.
  - intros p b _. simpl. rewrite bound_Disconnect, list_elem_of_filter. intros [_ ?]. by left.
Qed.

(** The primitive steps keep the invariant: the member functions do when the
    callables do ([Kept]). *)
#[export] Instance tames_kept : Kept tames.
Proof.
  split; [split; [apply _|exact tames_frame|exact tames_push_back|exact tames_clear]
         |exact GetEventHandler_tames].
Qed.

(** ** The member functions that invoke callables *)

Section invoker.
Context (call : callable → val → World → option World) `{!Callback call}.
Context (Hkeep : ∀ h event, relates tames (call h event)).

(** A command that subscribes within the layers keeps the invariant. *)
Lemma exec_tames k c : allowed k c = true → relates tames (exec call c).
Proof.
  intros Hc. apply (exec_kept tames); [done| |apply UnsubscribeFromEvent_tames].
  intros t f w ->. apply SubscribeToEvent_tames. by apply bool_decide_eq_true in Hc.
Qed.

Lemma run_tames k cs : forallb (allowed k) cs = true → relates tames (run call cs).
Proof.
  intros Hcs. apply for_each_relates; [apply _|]. intros c Hc. apply (exec_tames k).
  by apply (forallb_elem_of _ cs).
Qed.

(** ** Termination *)

(** The callables of a rank below [k] return; the levels are below [top]. *)
Context (k : nat) (Hret : ∀ h event, rank h < k → total_on tame (call h event)).
Context (Htop : ∀ t, level t < top).

(** An invocation of the signal of a type of a level below [k] returns. *)
Lemma emit_returns this event w p :
  tame w → pool_at this w = Some p → level (pool_type p) < k →
  is_Some (EventPool.emit call this event w).
Proof.
  intros Hw Hp Hk. unfold EventPool.emit, Invoke. rewrite Hp.
  apply (for_each_total tame); [| |done]; intros b Hb.
  - apply tames_triple. intros w1 w2 Hcall.
    trans (log (mkDelivery this b.1 b.2 event) w1);
      [by apply tames_frame|by apply (Hkeep b.2 event)].
  - intros w1 Hw1. apply Hret; [|by apply (tames_frame w1)].
    pose proof (proj2 Hw this p b Hp Hb). lia.
Qed.

(** So does a flush of its pool. *)
Lemma flush_returns this w p :
  tame w → pool_at this w = Some p → level (pool_type p) < k →
  is_Some (EventPool.DispatchQueuedEvents call this w).
Proof.
  intros Hw Hp Hk. unfold EventPool.DispatchQueuedEvents.
  destruct (for_each_total
    (λ w, tame w ∧ ∃ p, pool_at this w = Some p ∧ level (pool_type p) < k)
    (EventPool.emit call this) (queue_of this w)) with (s := begin_queue_walk this w)
    as [w' Hw'].
  - intros e _ w1 w2 [Hw1 (p1 & Hp1 & Hk1)] Hrun. split; [by apply (emit_framed tames call Hkeep this e w1 w2)|].
    destruct (EventPool.pool_emit_sound call this e) as (_ & Hle & _).
    destruct (world_le_pool_at _ _ _ _ (Hle _ _ Hrun) Hp1) as (p2 & Hp2 & Hty & _).
    exists p2. split; [done|by rewrite <-Hty].
  - intros e _ w1 [Hw1 (p1 & Hp1 & Hk1)]. by eapply emit_returns.
  - split; [by apply (tames_frame w)|by exists p].
  - rewrite Hw'. by eexists.
Qed.

Lemma handler_pool t w :
  world_wf w →
  ∃ p, pool_at (EventBus.GetEventHandler t w).1 (EventBus.GetEventHandler t w).2 = Some p ∧
       pool_type p = t.
Proof.
  intros Hwf. destruct (EventBus.GetEventHandler_spec t w) as (Hidx & _ & Hp & _).
  rewrite <-Hidx in Hp. eexists. split; [done|]. by eapply handler_type.
Qed.

Lemma TriggerEvent_returns t event w :
  tame w → level t < k → is_Some (EventBus.TriggerEvent call t event w).
Proof.
  intros Hw Hk. rewrite EventBus.TriggerEvent_unfold.
  destruct (handler_pool t w (proj1 Hw)) as (p & Hp & <-).
  eapply emit_returns; [by apply GetEventHandler_tames|done..].
Qed.

Lemma dispatch_type_returns t w :
  tame w → level t < k → is_Some (EventBus.dispatch_type call t w).
Proof.
  intros Hw Hk. rewrite EventBus.dispatch_type_unfold.
  destruct (handler_pool t w (proj1 Hw)) as (p & Hp & <-).
  eapply flush_returns; [by apply GetEventHandler_tames|done..].
Qed.

Lemma dispatch_slot_returns i w :
  top ≤ k → tame w → is_Some (EventBus.dispatch_slot call i w).
Proof.
  intros Hk Hw. rewrite EventBus.dispatch_slot_unfold. destruct (pool_at i w) as [p|] eqn:Hp; [|done].
  eapply flush_returns; [done..|]. specialize (Htop (pool_type p)). lia.
Qed.

(** A command allowed at rank [k] returns. *)
Lemma exec_returns c : allowed k c = true → total_on tame (exec call c).
Proof.
  intros Hc w Hw. destruct c as [t e|t e| |ts| |ts|t f|connection]; simpl in *; try done.
  - apply TriggerEvent_returns; [done|by apply bool_decide_eq_true in Hc].
  - apply bool_decide_eq_true in Hc. unfold EventBus.DispatchQueuedEvents.
    destruct (for_each_total tame (EventBus.dispatch_slot call)
      (seq 0 (length (mEventPools w)))) with (s := begin_pools_walk w) as [w' Hw'].
    + intros i _. apply tames_triple, (dispatch_slot_framed tames call Hkeep).
    + intros i _ w1. by apply dispatch_slot_returns.
    + by apply (tames_frame w).
    + rewrite Hw'. by eexists.
  - apply (for_each_total tame (EventBus.dispatch_type call) ts); [..|done].
    + intros t _. apply tames_triple, (dispatch_type_kept tames call Hkeep).
    + intros t Ht w1 Hw1. apply dispatch_type_returns; [done|].
      pose proof (forallb_elem_of _ ts t Hc Ht) as Hk. by apply bool_decide_eq_true in Hk.
  - apply EventBus.ClearEventQueues_total.
Qed.

Lemma run_returns_below cs : forallb (allowed k) cs = true → total_on tame (run call cs).
Proof.
  intros Hcs. apply for_each_total; intros c Hc;
    [apply tames_triple, (exec_tames k)|apply exec_returns];
    by apply (forallb_elem_of _ cs).
Qed.

End invoker.

(** ** The interpreter *)

Lemma layered_init : layered (world_init : World).
Proof. by intros i p b Hp. Qed.

(** The callables of a stratified program keep the invariant, at every fuel. *)
Lemma call_fuel_tames code n :
  stratified code → ∀ h event, relates tames (call_fuel code n h event).
Proof.
  intros Hcode. induction n as [|n IH]; intros h event; [by intros w w'|].
  simpl. by apply (run_tames _ IH (rank h)).
Qed.

(** A callable returns with more fuel than its rank. *)
Lemma call_fuel_returns code n :
  stratified code → (∀ t, level t < top) →
  ∀ h event, rank h < n → total_on tame (call_fuel code n h event).
Proof.
  intros Hcode Htop. induction n as [|n IH]; intros h event Hh; [lia|]. simpl.
  apply (run_returns_below _ (call_fuel_tames code n Hcode) (rank h)); [|done|apply Hcode].
  intros f e Hf. apply IH. lia.
Qed.

(** C27: layered programs terminate.  When the bodies of the callables
    respect the layers (a callable only triggers or flushes event types of a
    level below its rank, and subscriptions bind a callable to a type of a
    level at least its rank), a main program that respects them too returns
    from every well-formed world whose bindings respect them, with as much
    fuel as there are levels: no chain of nested invocations is longer. *)
Theorem stratified_returns code n cs w :
  stratified code → (∀ t, level t < top) → forallb (allowed n) cs = true →
  world_wf w → layered w → is_Some (run_main code n cs w).
Proof.
  intros Hcode Htop Hcs Hwf Hl.
  apply (run_returns_below _ (call_fuel_tames code n Hcode) n); [|done..|by split].
  intros f e Hf. by apply call_fuel_returns.
Qed.

End stratified_lemmas.

(** ** The properties at concrete inputs

    Event types, events and callables are numbers; the signal is the list
    implementation.  The callable 2, of rank 1, triggers an event of type 1
    and enqueues an event of type 0; the other callables, of rank 0, do not
    call the bus.  Type 0 has level 1, the other types level 0. *)

Definition relay_code (h : nat) (event : nat) : list (cmd nat nat nat) :=
  match h with
  | 2 => [Trigger 1 event; Enqueue 0 (event + 1)]
  | _ => []
  end.

Definition relay_rank (h : nat) : nat := match h with 2 => 1 | _ => 0 end.

Definition relay_level (t : nat) : nat := match t with 0 => 1 | _ => 0 end.

Definition relay_main : list (cmd nat nat nat) :=
  [Subscribe 0 2; Subscribe 1 7; Enqueue 0 3; Trigger 0 5; Dispatch].

Lemma relay_stratified : stratified relay_rank relay_level 2 relay_code.
Proof. intros [|[|[|h]]] event; reflexivity. Qed.

Lemma relay_level_top t : relay_level t < 2.
Proof. destruct t; simpl; lia. Qed.

Lemma stratified_returns_witness :
  is_Some (run_main relay_code 2 relay_main (world_init (sig:=Signal nat))).
Proof.
  apply (stratified_returns relay_rank relay_level 2 relay_code 2 relay_main world_init);
    [apply relay_stratified|apply relay_level_top|reflexivity|apply world_init_wf
    |apply layered_init].
Defined.

(** The fuel of the theorem is needed: with fuel 1 the trigger made by the
    callable 2 does not return. *)
Example relay_needs_fuel :
  run_main relay_code 1 relay_main (world_init (sig:=Signal nat)) = None ∧
  (λ w, (λ d, (d_callable d, d_event d)) <$> trace w)
    <$> run_main relay_code 2 relay_main (world_init (sig:=Signal nat))
  = Some [(2, 5); (7, 5); (2, 3); (7, 3); (2, 6); (7, 6)].
Proof. split; vm_compute; reflexivity. Qed.
