(* ===== verification/Quiet.v ===== *)
(** * Re-entrant triggering is safe

    The two dispatch loops of the header run user callables while they walk
    a vector.  A callable that enqueues or clears events of the type being
    flushed, or that makes the bus create a pool during
    [DispatchQueuedEvents()], invalidates the iterators of the loop
    ([Scenarios.reentrant_enqueue_is_lost], [Scenarios.new_type_during_dispatch]).
    This file proves that the other re-entrant calls are safe: callables that
    only trigger events of, and subscribe to, types that already have their
    pool, and unsubscribe, invalidate no iterator of the header, at any depth
    of nesting and whatever the main program does.

    [settled K] says that the types of [K] have their pool; [gentle K] is the
    test of the commands a callable may run; [quiet K] is what such a
    callable guarantees, also while vectors are walked; [still_at K m] is
    what a member function called outside every walk of a queue guarantees,
    with [m] walks of [mEventPools] in progress.  The vectors in question are
    those of the header, [mEventQueue] and [mEventPools]; the container of the
    signal is not part of it. *)

From stdpp Require Import gmap list.
From S2P Require Import Prelude Registry Signal World Callable EventPool EventBus Exec.

Section quiet.
Context {ty val callable sig : Type} `{Countable ty} `{!SignalOps callable sig}.
Abbreviation World := (World ty val callable sig).
Abbreviation cmd := (cmd ty val callable).
Implicit Types (w : World) (t : ty) (event : val) (f h : callable) (i m n : nat).
Implicit Types (c : cmd) (cs : list cmd) (code : callable → val → list cmd).

Context (K : list ty).

(** The types of [K] have their pool. *)
Definition settled w : Prop :=
  ∀ t, t ∈ K → ∃ i p, event_ids (registry w) !! t = Some i ∧ pool_at i w = Some p.

(** The commands of a callable that leaves the vectors of the bus alone. *)
Definition gentle c : bool :=
  match c with
  | Trigger t _ | Subscribe t _ => bool_decide (t ∈ K)
  | Unsubscribe _ => true
  | Enqueue _ _ | Dispatch | DispatchOf _ | Clear | ClearOf _ => false
  end.

Definition gentle_code code : Prop := ∀ h event, forallb gentle (code h event) = true.

(** What a gentle callable guarantees, whichever vectors are being walked:
    the walks are as they were and no iterator is invalidated. *)
Definition quiet w w' : Prop :=
  settled w → settled w' ∧ same_walks w w' ∧ hazard w' = hazard w.

(** What a member function guarantees when it is called outside every walk
    of a queue, with [m] walks of [mEventPools] in progress. *)
Definition still_at m w w' : Prop :=
  iter_queues w = [] ∧ iter_pools w = m ∧ settled w →
  iter_queues w' = [] ∧ iter_pools w' = m ∧ settled w' ∧ hazard w' = hazard w.

End quiet.

Section quiet_lemmas.
Context {ty val callable sig : Type} `{Countable ty} `{!SignalOps callable sig}.
Abbreviation World := (World ty val callable sig).
Abbreviation cmd := (cmd ty val callable).
Implicit Types (w : World) (t : ty) (event : val) (f h : callable) (i m n : nat).
Implicit Types (c : cmd) (cs : list cmd) (code : callable → val → list cmd).

Context (K : list ty).
Abbreviation settled := (settled (val:=val) (callable:=callable) (sig:=sig) K).
Abbreviation gentle := (gentle (val:=val) (callable:=callable) K).
Abbreviation gentle_code := (gentle_code (val:=val) (callable:=callable) K).
Abbreviation quiet := (quiet (val:=val) (callable:=callable) (sig:=sig) K).
Abbreviation still_at := (still_at (val:=val) (callable:=callable) (sig:=sig) K).

#[export] Instance quiet_preorder : PreOrder quiet.
Proof.
  split; [by intros w Hw|]. intros w1 w2 w3 H12 H23 Hw.
  destruct (H12 Hw) as (Hw2 & Hs2 & Hh2). destruct (H23 Hw2) as (Hw3 & Hs3 & Hh3).
  split_and!; [done|by etrans|congruence].
Qed.

#[export] Instance still_at_preorder m : PreOrder (still_at m).
Proof.
  split; [by intros w (? & ? & ?)|]. intros w1 w2 w3 H12 H23 Hw.
  destruct (H12 Hw) as (Hq2 & Hp2 & Hw2 & Hh2).
  destruct (H23 (conj Hq2 (conj Hp2 Hw2))) as (Hq3 & Hp3 & Hw3 & Hh3).
  split_and!; [done..|congruence].
Qed.

(** Pools stay: a world that has grown is settled if it was. *)
Lemma settled_le w w' : world_le w w' → settled w → settled w'.
Proof.
  intros Hle Hs t Ht. destruct (Hs t Ht) as (i & p & Hi & Hp).
  destruct (world_le_pool_at _ _ _ _ Hle Hp) as (p' & Hp' & _). exists i, p'.
  split; [|done]. eapply registry_le_lookup; [apply Hle|done].
Qed.

(** A step that only grows the world and touches neither the walks nor the
    hazard flag. *)
Lemma quiet_le w w' :
  world_le w w' → same_walks w w' → hazard w' = hazard w → quiet w w'.
Proof. intros Hle Hs Hh Hw. split_and!; [by eapply settled_le|done..]. Qed.

(** [GetEventHandler] for a settled type changes nothing. *)
Lemma handler_known t w :
  settled w → t ∈ K → ∃ i, EventBus.GetEventHandler t w = (i, w).
Proof.
  intros Hs Ht. destruct (Hs t Ht) as (i & p & Hi & Hp). exists i.
  by eapply EventBus.GetEventHandler_known.
Qed.

Lemma still_of_quiet m w w' : quiet w w' → still_at m w w'.
Proof.
  intros Hq (Hq0 & Hp0 & Hs). destruct (Hq Hs) as (Hs' & [Hwq Hwp] & Hh).
  split_and!; [congruence..|done|done].
Qed.

Lemma still_of_calm w w' : calm w w' → world_le w w' → still_at 0 w w'.
Proof.
  intros Hc Hle (Hq0 & Hp0 & Hs). destruct (Hc (conj Hq0 Hp0)) as ([Hq' Hp'] & Hh).
  split_and!; [done..|by eapply settled_le|done].
Qed.

(** ** The commands of gentle callables *)

Section invoker.
Context (call : callable → val → World → option World) `{!Callback call}.
Context (Hquiet : ∀ h event, relates quiet (call h event)).

Lemma emit_quiet this event : relates quiet (EventPool.emit call this event).
Proof.
  intros w w'. unfold EventPool.emit, Invoke.
  destruct (pool_at this w) as [p|]; [|by intros [= <-]].
  apply (for_each_relates quiet). intros b _ w1 w2 Hcall.
  trans (log (mkDelivery this b.1 b.2 event) w1); [|by apply (Hquiet b.2 event)].
  apply quiet_le; [apply (sound_fn_log (mkDelivery this b.1 b.2 event))|done..].
Qed.

Lemma TriggerEvent_quiet t event :
  t ∈ K → relates quiet (EventBus.TriggerEvent call t event).
Proof.
  intros Ht w w' Hrun Hs. destruct (handler_known t w Hs Ht) as [i Hi].
  rewrite EventBus.TriggerEvent_unfold, Hi in Hrun. exact (emit_quiet i event w w' Hrun Hs).
Qed.

Lemma SubscribeToEvent_quiet t f w : t ∈ K → quiet w (EventBus.SubscribeToEvent t f w).2.
Proof.
  intros Ht Hs.
  destruct (EventBus.SubscribeToEvent_sound (val:=val) (sig:=sig) t f) as (_ & Hle & Hwalk).
  split; [exact (settled_le w _ (Hle w) Hs)|split; [apply Hwalk|]].
  destruct (handler_known t w Hs Ht) as [i Hi]. by rewrite EventBus.SubscribeToEvent_unfold, Hi.
Qed.

Lemma UnsubscribeFromEvent_quiet connection w :
  quiet w (EventBus.UnsubscribeFromEvent connection w).
Proof.
  destruct (EventBus.UnsubscribeFromEvent_sound (ty:=ty) (val:=val) (callable:=callable)
    (sig:=sig) connection) as (_ & Hle & Hwalk).
  apply quiet_le; [apply Hle|apply Hwalk|done].
Qed.

Lemma exec_quiet c : gentle c = true → relates quiet (exec call c).
Proof.
  intros Hc. destruct c; try discriminate; simpl in Hc; unfold exec;
    try apply bool_decide_eq_true in Hc.
  - by apply TriggerEvent_quiet.
  - intros w w' [= <-]. by apply SubscribeToEvent_quiet.
  - intros w w' [= <-]. apply UnsubscribeFromEvent_quiet.
Qed.

Lemma run_quiet cs : forallb gentle cs = true → relates quiet (run call cs).
Proof.
  intros Hcs. apply for_each_relates; [apply _|]. intros c Hc. apply exec_quiet.
  by apply (forallb_elem_of _ cs).
Qed.

(** ** The member functions, called outside every walk of a queue *)

Lemma handler_still t w : still_at 0 w (EventBus.GetEventHandler t w).2.
Proof.
  apply still_of_calm; [apply EventBus.GetEventHandler_calm|].
  apply (EventBus.GetEventHandler_sound t).
Qed.

(** A flush outside every walk of a queue: the callables leave the walk of
    the flush as it is, and the buffer is cleared after the walk. *)
Lemma flush_still m this : relates (still_at m) (EventPool.DispatchQueuedEvents call this).
Proof.
  intros w w' Hrun (Hq0 & Hp0 & Hs). unfold EventPool.DispatchQueuedEvents in Hrun.
  bind_inv Hrun. injection Hrun as <-.
  destruct (for_each_relates quiet (EventPool.emit call this) (queue_of this w)
    (λ e _, emit_quiet this e) _ _ Hrun0 Hs) as (Hs1 & [Hwq Hwp] & Hh1).
  simpl in Hwq, Hwp, Hh1.
  assert (settled (EventPool.ClearEventQueue this (end_queue_walk s))) as Hs'.
  { apply (settled_le s); [|done]. trans (end_queue_walk s); [by apply world_le_frame|].
    apply (proj1 (proj2 (EventPool.pool_ClearEventQueue_sound this)) (end_queue_walk s)). }
  split_and!; [..|done|]; simpl; rewrite <-?Hwq, <-?Hwp; simpl; [done..|].
  by rewrite Hq0, bool_decide_eq_false_2, orb_false_r by apply not_elem_of_nil.
Qed.

Lemma dispatch_slot_still m i : relates (still_at m) (EventBus.dispatch_slot call i).
Proof.
  intros w w'. rewrite EventBus.dispatch_slot_unfold. destruct (pool_at i w); [|by intros [= <-]].
  apply flush_still.
Qed.

Lemma DispatchQueuedEvents_still : relates (still_at 0) (EventBus.DispatchQueuedEvents call).
Proof.
  intros w w' Hrun (Hq0 & Hp0 & Hs). unfold EventBus.DispatchQueuedEvents in Hrun.
  bind_inv Hrun. injection Hrun as <-.
  destruct (for_each_relates (still_at 1) (EventBus.dispatch_slot call) _
    (λ i _, dispatch_slot_still 1 i) _ _ Hrun0) as (Hq1 & Hp1 & Hs1 & Hh1).
  { simpl. by rewrite Hp0. }
  simpl. by rewrite Hp1.
Qed.

Lemma TriggerEvent_still t event : relates (still_at 0) (EventBus.TriggerEvent call t event).
Proof.
  intros w w'. rewrite EventBus.TriggerEvent_unfold. intros Hrun.
  trans (EventBus.GetEventHandler t w).2; [apply handler_still|].
  by eapply still_of_quiet, emit_quiet.
Qed.

Lemma dispatch_type_still t : relates (still_at 0) (EventBus.dispatch_type call t).
Proof.
  intros w w'. rewrite EventBus.dispatch_type_unfold. intros Hrun.
  trans (EventBus.GetEventHandler t w).2; [apply handler_still|by eapply flush_still].
Qed.

Lemma exec_still c : relates (still_at 0) (exec call c).
Proof.
  destruct c; unfold exec; try (intros w w' [= <-]; apply still_of_calm).
  - apply TriggerEvent_still.
  - apply EventBus.EnqueueEvent_calm.
  - apply (EventBus.EnqueueEvent_sound t event).
  - apply DispatchQueuedEvents_still.
  - apply for_each_relates; [apply _|]. intros t _. apply dispatch_type_still.
  - intros w w' Hrun. apply still_of_calm; [by apply EventBus.ClearEventQueues_calm|].
    by apply (proj1 (proj2 EventBus.ClearEventQueues_sound)).
  - apply EventBus.ClearEventQueuesOf_calm.
  - apply (EventBus.ClearEventQueuesOf_sound ts).
  - apply EventBus.SubscribeToEvent_calm.
  - apply (EventBus.SubscribeToEvent_sound t f).
  - apply EventBus.UnsubscribeFromEvent_calm.
  - apply (EventBus.UnsubscribeFromEvent_sound connection).
Qed.

Lemma run_still cs : relates (still_at 0) (run call cs).
Proof. apply for_each_relates; [apply _|]. intros c _. apply exec_still. Qed.

End invoker.

(** Callables with gentle bodies are quiet, at every fuel. *)
Lemma call_fuel_quiet code n :
  gentle_code code → ∀ h event, relates quiet (call_fuel code n h event).
Proof.
  intros Hcode. induction n as [|n IH]; intros h event; [by intros w w'|].
  simpl. by apply run_quiet.
Qed.

(** C22: re-entrant triggering is safe.  When the bodies of the callables
    only trigger events of, and subscribe to, types that have their pool, and
    unsubscribe, a main program started outside every walk, whatever it
    calls, invalidates no iterator of the header: no buffer is modified while
    it is walked, [mEventPools] is not resized while it is walked, and every
    walk is over when the program returns. *)
Theorem gentle_safe code n cs w w' :
  gentle_code code → no_walks w → settled w →
  run_main code n cs w = Some w' → no_walks w' ∧ hazard w' = hazard w.
Proof.
  intros Hcode [Hq0 Hp0] Hs Hrun.
  destruct (run_still (call_fuel code n) (call_fuel_quiet code n Hcode) cs w w' Hrun)
    as (Hq & Hp & _ & Hh); [done|]. by split_and!.
Qed.

End quiet_lemmas.

(** ** The properties at concrete inputs

    Event types, events and callables are numbers; the signal is the list
    implementation.  The callable 2 triggers an event of type 1 and subscribes
    the callable 8 to type 1; the others do not call the bus.  In [echo_init]
    the callable 2 is subscribed to type 0 and the callable 7 to type 1, so
    both types have their pool. *)

Definition echo_code (h : nat) (event : nat) : list (cmd nat nat nat) :=
  match h with
  | 2 => [Trigger 1 event; Subscribe 1 8]
  | _ => []
  end.

Definition echo_init : World.World nat nat nat (Signal nat) :=
  (EventBus.SubscribeToEvent 1 7 (EventBus.SubscribeToEvent 0 2 world_init).2).2.

Definition echo_main : list (cmd nat nat nat) :=
  [Enqueue 0 3; Trigger 0 5; Dispatch; Trigger 9 1].

Lemma echo_settled : settled [0; 1] echo_init.
Proof.
  intros t Ht. rewrite !elem_of_cons, elem_of_nil in Ht.
  destruct Ht as [->|[->|[]]]; eexists _, _; split; vm_compute; reflexivity.
Qed.

Lemma gentle_safe_witness :
  no_walks (default echo_init (run_main echo_code 2 echo_main echo_init)) ∧
  hazard (default echo_init (run_main echo_code 2 echo_main echo_init)) = hazard echo_init.
Proof.
  apply (gentle_safe [0; 1] echo_code 2 echo_main echo_init).
  - intros [|[|[|h]]] event; reflexivity.
  - split; reflexivity.
  - apply echo_settled.
  - vm_compute. reflexivity.
Defined.
