(* ===== verification/Abstract.v ===== *)
(** * The bus as the specification describes it, and the refinement

    The specification describes the bus by event type: each type has its
    bound callables, in subscription order, and its buffer of pending events;
    the types are flushed in the order in which they were first used.  It
    does not mention ids, slots or the vector of pools.  [ABus] is that
    description as a state, with one function per operation of the public
    interface, for callables that do not call the bus.

    [refines w a] relates a world of the implementation to an abstract bus:
    the types of [a], in order, are the types that have an id, in the order of
    their ids, and the bindings, the buffer and the serial counter of each
    type are those of the pool in the slot of its id (empty when the slot is
    null or beyond the end of the vector).  The refinement theorem says that
    every call of a public member function of the implementation, from
    related states, returns and ends in related states.  [uses] lists the
    types an operation names: the bus has a pool for exactly the types
    the calls made have named ([pool_iff_used]), and has issued at most as
    many identifiers as the calls name types ([run_counter_bound]). *)

From stdpp Require Import gmap list.
From S2P Require Import Prelude Registry Signal World Callable EventPool EventBus Exec.

(** The position of the first occurrence of [t] in [l], the length of [l]
    when there is none. *)
Fixpoint index_of {A} `{EqDecision A} (t : A) (l : list A) : nat :=
  match l with
  | [] => 0
  | x :: l' => if decide (x = t) then 0 else S (index_of t l')
  end.

Section abstract.
Context {ty val callable : Type} `{Countable ty}.

(** An invocation, as the specification sees it: the event type instead of
    the pool. *)
Record ADelivery : Type := mkADelivery {
  ad_type : ty;
  ad_serial : nat;
  ad_callable : callable;
  ad_event : val;
}.

Record ABus : Type := mkABus {
  a_types : list ty;
  a_bound : gmap ty (list (nat * callable));
  a_issued : gmap ty nat;
  a_queue : gmap ty (list val);
  a_trace : list ADelivery;
}.

Definition a_init : ABus := mkABus [] ∅ ∅ ∅ [].

Definition a_set_types (l : list ty) (a : ABus) : ABus :=
  mkABus l (a_bound a) (a_issued a) (a_queue a) (a_trace a).

Definition a_set_bound (t : ty) (bs : list (nat * callable)) (a : ABus) : ABus :=
  mkABus (a_types a) (<[t:=bs]> (a_bound a)) (a_issued a) (a_queue a) (a_trace a).

Definition a_set_issued (t : ty) (n : nat) (a : ABus) : ABus :=
  mkABus (a_types a) (a_bound a) (<[t:=n]> (a_issued a)) (a_queue a) (a_trace a).

Definition a_set_queue (t : ty) (q : list val) (a : ABus) : ABus :=
  mkABus (a_types a) (a_bound a) (a_issued a) (<[t:=q]> (a_queue a)) (a_trace a).

Definition a_log (ds : list ADelivery) (a : ABus) : ABus :=
  mkABus (a_types a) (a_bound a) (a_issued a) (a_queue a) (a_trace a ++ ds).

(** The first use of an event type makes it known to the bus. *)
Definition a_use (t : ty) (a : ABus) : ABus :=
  if decide (t ∈ a_types a) then a else a_set_types (a_types a ++ [t]) a.

(** The invocations of one delivery of [event] to the callables bound for [t]. *)
Definition a_deliver (t : ty) (event : val) (a : ABus) : list ADelivery :=
  (λ b, mkADelivery t b.1 b.2 event) <$> (a_bound a !!! t).

(** Trigger: immediate delivery to every callable bound for the type. *)
Definition a_trigger (t : ty) (event : val) (a : ABus) : ABus :=
  a_log (a_deliver t event (a_use t a)) (a_use t a).

(** Enqueue: the event is appended to the buffer of its type. *)
Definition a_enqueue (t : ty) (event : val) (a : ABus) : ABus :=
  a_set_queue t ((a_queue a !!! t) ++ [event]) (a_use t a).

(** Flush of one type: its buffered events are delivered, oldest first, and
    the buffer is emptied. *)
Definition a_flush (a : ABus) (t : ty) : ABus :=
  a_set_queue t [] (a_log ((a_queue a !!! t) ≫= λ e, a_deliver t e a) a).

(** Dispatch: every type is flushed, in the order of first use. *)
Definition a_dispatch (a : ABus) : ABus := foldl a_flush a (a_types a).

(** Selective dispatch: the types named are flushed, from left to right. *)
Definition a_dispatch_of (ts : list ty) (a : ABus) : ABus :=
  foldl (λ a t, a_flush (a_use t a) t) a ts.

(** Clear of one type, of every type, of the types named. *)
Definition a_clear_type (a : ABus) (t : ty) : ABus := a_set_queue t [] a.

Definition a_clear (a : ABus) : ABus := foldl a_clear_type a (a_types a).

Definition a_clear_of (ts : list ty) (a : ABus) : ABus :=
  foldl (λ a t, a_clear_type (a_use t a) t) a ts.

(** Subscribe: the callable is bound after those already bound for the type;
    the connection names the type, by its position, and the serial of the
    binding. *)
Definition a_subscribe (t : ty) (f : callable) (a : ABus) : Connection * ABus :=
  let a1 := a_use t a in
  let c := a_issued a1 !!! t in
  (mkConnection (index_of t (a_types a1)) c,
   a_set_issued t (S c) (a_set_bound t ((a_bound a1 !!! t) ++ [(c, f)]) a1)).

(** Unsubscribe: the binding the connection names is revoked. *)
Definition a_unsubscribe (connection : Connection) (a : ABus) : ABus :=
  match a_types a !! conn_signal connection with
  | Some t =>
      a_set_bound t (filter (λ b, b.1 ≠ conn_serial connection) (a_bound a !!! t)) a
  | None => a
  end.

(** One operation of the public interface. *)
Definition a_exec (c : cmd ty val callable) (a : ABus) : ABus :=
  match c with
  | Trigger t event => a_trigger t event a
  | Enqueue t event => a_enqueue t event a
  | Dispatch => a_dispatch a
  | DispatchOf ts => a_dispatch_of ts a
  | Clear => a_clear a
  | ClearOf ts => a_clear_of ts a
  | Subscribe t f => (a_subscribe t f a).2
  | Unsubscribe connection => a_unsubscribe connection a
  end.

Definition a_run (cs : list (cmd ty val callable)) (a : ABus) : ABus := foldl (λ a c, a_exec c a) a cs.

(** The event types an operation names. *)
Definition uses (c : cmd ty val callable) : list ty :=
  match c with
  | Trigger t _ | Enqueue t _ | Subscribe t _ => [t]
  | DispatchOf ts | ClearOf ts => ts
  | Dispatch | Clear | Unsubscribe _ => []
  end.

End abstract.

Arguments ADelivery : clear implicits.
Arguments ABus : clear implicits.
Arguments ABus ty val callable {_ _}.

(** ** Positions in a list *)

Section index_of.
Context {A : Type} `{EqDecision A}.
Implicit Types (t : A) (l : list A).

Lemma index_of_lookup t l : t ∈ l → l !! index_of t l = Some t.
Proof.
  induction l as [|x l IH]; intros Hin; [by apply elem_of_nil in Hin|].
  simpl. destruct (decide (x = t)) as [->|Hne]; [done|].
  apply IH. by apply elem_of_cons in Hin as [->|?].
Qed.

Lemma index_of_notin t l : t ∉ l → index_of t l = length l.
Proof.
  induction l as [|x l IH]; intros Hin; [done|]. simpl.
  rewrite decide_False by (intros ->; apply Hin; left). f_equal. apply IH.
  intros ?. apply Hin. by right.
Qed.

(** The position of an element that occurs once. *)
Lemma index_of_unique t l i :
  l !! i = Some t → (∀ j, l !! j = Some t → j = i) → index_of t l = i.
Proof.
  intros Hi Huniq. apply Huniq, index_of_lookup. by eapply list_elem_of_lookup_2.
Qed.

Lemma index_of_snoc t l : t ∉ l → index_of t (l ++ [t]) = length l.
Proof.
  intros Hin. apply index_of_unique.
  - by rewrite lookup_app_r, Nat.sub_diag.
  - intros j Hj. destruct (decide (j < length l)) as [Hlt|Hge].
    + rewrite lookup_app_l in Hj by done. exfalso. apply Hin. by eapply list_elem_of_lookup_2.
    + apply lookup_lt_Some in Hj. rewrite length_app in Hj. simpl in Hj. lia.
Qed.

End index_of.

(** ** The types the bus knows *)

Section types.
Context {ty val callable : Type} `{Countable ty}.
Abbreviation ABus := (ABus ty val callable).
Implicit Types (a : ABus) (t : ty).

Lemma a_use_types t t' a : t' ∈ a_types (a_use t a) ↔ t' ∈ a_types a ∨ t' ∈ [t].
Proof.
  unfold a_use. rewrite list_elem_of_singleton. case_decide; simpl.
  - split; [by left|]. by intros [?| ->].
  - by rewrite elem_of_app, list_elem_of_singleton.
Qed.

(** A loop whose body makes known the types [g x] makes known those of every
    round. *)
Lemma a_types_foldl {A} (body : ABus → A → ABus) (g : A → list ty) l a t :
  (∀ a x t, t ∈ a_types (body a x) ↔ t ∈ a_types a ∨ t ∈ g x) →
  t ∈ a_types (foldl body a l) ↔ t ∈ a_types a ∨ t ∈ l ≫= g.
Proof.
  intros Hbody. revert a. induction l as [|x l IH]; intros a; simpl.
  - rewrite elem_of_nil. tauto.
  - rewrite IH, Hbody, elem_of_app. tauto.
Qed.

Lemma a_types_foldl_same {A} (body : ABus → A → ABus) l a :
  (∀ a x, a_types (body a x) = a_types a) → a_types (foldl body a l) = a_types a.
Proof.
  intros Hbody. revert a. induction l as [|x l IH]; intros a; simpl; [done|].
  by rewrite IH, Hbody.
Qed.

Lemma bind_singletons (ts : list ty) : ts ≫= (λ x, [x]) = ts.
Proof. induction ts as [|x ts IH]; [done|]. by rewrite bind_cons, IH. Qed.

(** An operation makes known the types it names, and no other. *)
Lemma a_exec_types (c : cmd ty val callable) a t :
  t ∈ a_types (a_exec c a) ↔ t ∈ a_types a ∨ t ∈ uses c.
Proof.
  destruct c as [t0 e|t0 e| |ts| |ts|t0 f|connection]; simpl;
    try apply a_use_types; try (rewrite elem_of_nil).
  - unfold a_dispatch. rewrite a_types_foldl_same by done. tauto.
  - rewrite <-(bind_singletons ts) at 2.
    apply a_types_foldl. intros a' x t'. apply a_use_types.
  - unfold a_clear. rewrite a_types_foldl_same by done. tauto.
  - rewrite <-(bind_singletons ts) at 2.
    apply a_types_foldl. intros a' x t'. apply a_use_types.
  - unfold a_unsubscribe. destruct (a_types a !! _); simpl; tauto.
Qed.

Lemma a_run_types (cs : list (cmd ty val callable)) a t :
  t ∈ a_types (a_run cs a) ↔ t ∈ a_types a ∨ t ∈ cs ≫= uses.
Proof. apply a_types_foldl. intros a' c t'. apply a_exec_types. Qed.

End types.

(** ** The refinement relation *)

Section refinement.
Context {ty val callable sig : Type} `{Countable ty} `{!SignalOps callable sig}.
Abbreviation World := (World ty val callable sig).
Abbreviation ABus := (ABus ty val callable).
Abbreviation ADelivery := (ADelivery ty val callable).
Implicit Types (w : World) (a : ABus) (t : ty) (i : nat) (event : val) (f : callable).

(** What is observed of an invocation: the serial of the binding, the
    callable and the event. *)
Definition shown (d : Delivery val callable) : nat * callable * val :=
  (d_serial d, d_callable d, d_event d).

Definition a_shown (ad : ADelivery) : nat * callable * val :=
  (ad_serial ad, ad_callable ad, ad_event ad).

(** The same invocation, by pool and by type. *)
Definition same_delivery (l : list ty) (d : Delivery val callable) (ad : ADelivery) : Prop :=
  l !! d_pool d = Some (ad_type ad) ∧ d_serial d = ad_serial ad ∧
  d_callable d = ad_callable ad ∧ d_event d = ad_event ad.

(** The bus has a pool for the type [t]. *)
Definition has_pool t w : Prop :=
  ∃ i p, event_ids (registry w) !! t = Some i ∧ pool_at i w = Some p.

(** What the bus holds for slot [i], and for type [t]: the bindings, the
    serial counter and the buffer. *)
Definition view i w : list (nat * callable) * nat * list val :=
  (bound_of i w, issued_of i w, queue_of i w).

Definition a_view t a : list (nat * callable) * nat * list val :=
  (a_bound a !!! t, a_issued a !!! t, a_queue a !!! t).

Record refines w a : Prop := mkRefines {
  ref_len : length (a_types a) = next_id (registry w);
  ref_ids : ∀ t i, event_ids (registry w) !! t = Some i ↔ a_types a !! i = Some t;
  ref_view : ∀ i t, a_types a !! i = Some t → a_view t a = view i w;
  ref_new : ∀ t, t ∉ a_types a → a_view t a = ([], 0, []);
  ref_trace : Forall2 (same_delivery (a_types a)) (trace w) (a_trace a);
}.

(** The view of a slot is a function of the pool it holds. *)
Lemma view_frame i w w' : pool_at i w' = pool_at i w → view i w' = view i w.
Proof. unfold view, bound_of, issued_of, queue_of. by intros ->. Qed.

Lemma view_None i w : pool_at i w = None → view i w = ([], 0, []).
Proof. unfold view, bound_of, issued_of, queue_of. by intros ->. Qed.

Lemma view_Some i w p :
  pool_at i w = Some p → view i w = (bound (mSignal p), issued (mSignal p), mEventQueue p).
Proof. unfold view, bound_of, issued_of, queue_of. by intros ->. Qed.

(** [GetEventHandler] changes no view: the pool it may create is empty. *)
Lemma GetEventHandler_view t w i : view i (EventBus.GetEventHandler t w).2 = view i w.
Proof.
  destruct (EventBus.GetEventHandler_spec t w) as (_ & _ & Hp & Hne & _).
  destruct (decide ((GetEventId t (registry w)).1 = i)) as [<-|Hi]; [|by apply view_frame, Hne].
  rewrite (view_Some _ _ _ Hp). destruct (pool_at _ w) as [p|] eqn:Hp'.
  - by rewrite (view_Some _ _ _ Hp').
  - rewrite (view_None _ _ Hp'). simpl. by rewrite bound_new, issued_new.
Qed.

Lemma same_delivery_shown (l : list ty) ds ads :
  Forall2 (same_delivery l) ds ads → shown <$> ds = a_shown <$> ads.
Proof.
  induction 1 as [|d ad ds ads (_ & Hs & Hc & He) _ IH]; [done|].
  rewrite !fmap_cons, IH. unfold shown, a_shown. by rewrite Hs, Hc, He.
Qed.

(** The initial states are related. *)
Lemma refines_init : refines world_init a_init.
Proof.
  by split.
Qed.

(** A type is known to the abstract bus when it has an id, and its position
    is its id. *)
Lemma refines_elem_of w a t :
  refines w a → t ∈ a_types a ↔ is_Some (event_ids (registry w) !! t).
Proof.
  intros Hr. rewrite list_elem_of_lookup. split.
  - intros [i Hi]. exists i. by apply (ref_ids _ _ Hr).
  - intros [i Hi]. exists i. by apply (ref_ids _ _ Hr).
Qed.

Lemma refines_unique w a t i j :
  refines w a → a_types a !! i = Some t → a_types a !! j = Some t → j = i.
Proof.
  intros Hr Hi%(ref_ids _ _ Hr) Hj%(ref_ids _ _ Hr). congruence.
Qed.

Lemma refines_slot_of w a t :
  refines w a → EventBus.slot_of t w = index_of t (a_types a).
Proof.
  intros Hr. destruct (event_ids (registry w) !! t) as [i|] eqn:Hi.
  - rewrite (EventBus.slot_of_registered _ _ _ Hi). symmetry. apply index_of_unique.
    + by apply (ref_ids _ _ Hr).
    + intros j Hj. apply (refines_unique w a t i j Hr); [by apply (ref_ids _ _ Hr)|done].
  - unfold EventBus.slot_of. rewrite (GetEventId_fresh _ _ Hi). simpl.
    rewrite index_of_notin, (ref_len _ _ Hr); [done|].
    intros Hin. apply (refines_elem_of _ _ _ Hr) in Hin. rewrite Hi in Hin. by destruct Hin.
Qed.

(** No pool beyond the types in use. *)
Lemma refines_no_pool w a i :
  world_wf w → refines w a → length (a_types a) ≤ i → pool_at i w = None.
Proof.
  intros (_ & Hlen & _) Hr Hi. apply slot_ge. rewrite (ref_len _ _ Hr) in Hi. lia.
Qed.

(** *** The first use of a type *)

(** [GetEventHandler] refines the first use of a type, and the type then
    sits at the position of the slot returned. *)
Lemma refines_use t w a :
  world_wf w → refines w a →
  refines (EventBus.GetEventHandler t w).2 (a_use t a) ∧
  a_types (a_use t a) !! EventBus.slot_of t w = Some t.
Proof.
  intros Hwf Hr. destruct (EventBus.GetEventHandler_spec t w) as (_ & Hreg & _ & _ & _ & Ht & _).
  unfold a_use, EventBus.slot_of. destruct (event_ids (registry w) !! t) as [i|] eqn:Hi.
  - rewrite decide_True by (apply (refines_elem_of _ _ _ Hr); by rewrite Hi).
    rewrite (GetEventId_cached _ _ _ Hi) in *. split; [|by apply (ref_ids _ _ Hr)].
    split; rewrite ?Hreg, ?Ht; try apply Hr.
    intros j t' Hj. rewrite GetEventHandler_view. by apply Hr.
  - assert (t ∉ a_types a) as Hnew.
    { intros Hin%(refines_elem_of _ _ _ Hr). rewrite Hi in Hin. by destruct Hin. }
    rewrite decide_False by done. rewrite (GetEventId_fresh _ _ Hi) in *. simpl in Hreg |- *.
    rewrite <-(ref_len _ _ Hr). split; [|by rewrite lookup_app_r, Nat.sub_diag].
    split; rewrite ?Hreg, ?Ht; simpl.
    + rewrite length_app, (ref_len _ _ Hr). simpl. lia.
    + intros t' j. rewrite lookup_insert_Some, lookup_snoc_Some, (ref_ids _ _ Hr).
      rewrite <-(ref_len _ _ Hr). split; [intros [[-> <-]|[? ?]]|intros [[? ?]|[-> ->]]]; eauto.
      * left. split; [|done]. by eapply lookup_lt_Some.
      * right. split; [|done]. intros ->. apply Hnew. by eapply list_elem_of_lookup_2.
    + intros j t' [[Hj Hin]|[-> ->]]%lookup_snoc_Some; rewrite GetEventHandler_view.
      * by apply Hr.
      * rewrite view_None by (by apply (refines_no_pool w a)). by apply Hr.
    + intros t' Hin. apply (ref_new _ _ Hr). intros ?. apply Hin, elem_of_app. by left.
    + eapply Forall2_impl; [apply Hr|]. intros d ad (Hd & ?). split; [|done].
      by apply lookup_app_l_Some.
Qed.

(** *** Steps that touch one pool *)

(** A step that changes the pool of one slot only refines a step that
    changes the view of its type only. *)
Lemma refines_update s t w a w' a' :
  refines w a → a_types a !! s = Some t →
  registry w' = registry w → a_types a' = a_types a →
  a_view t a' = view s w' →
  (∀ i, s ≠ i → pool_at i w' = pool_at i w) →
  (∀ t', t ≠ t' → a_view t' a' = a_view t' a) →
  Forall2 (same_delivery (a_types a)) (trace w') (a_trace a') →
  refines w' a'.
Proof.
  intros Hr Hs Hreg Hty Hv Hw Ha Htr. split; rewrite ?Hreg, ?Hty; [apply Hr..| | |done].
  - intros i t' Hi. destruct (decide (s = i)) as [<-|Hne]; [by simplify_eq|].
    rewrite (view_frame i w w') by auto. rewrite Ha; [by apply Hr|].
    intros <-. apply Hne. by apply (refines_unique w a t i s Hr).
  - intros t' Hin. rewrite Ha; [by apply Hr|]. intros <-. apply Hin.
    by eapply list_elem_of_lookup_2.
Qed.

(** Invocations recorded on both sides. *)
Lemma refines_log w w' a ds ads :
  refines w a → registry w' = registry w → mEventPools w' = mEventPools w →
  trace w' = trace w ++ ds → Forall2 (same_delivery (a_types a)) ds ads →
  refines w' (a_log ads a).
Proof.
  intros Hr Hreg Hp Ht Hds. split; rewrite ?Hreg, ?Ht; simpl; [apply Hr..| | |].
  - intros i t Hi. rewrite (view_frame i w w') by (simpl; by rewrite Hp). by apply Hr.
  - apply Hr.
  - apply Forall2_app; [apply Hr|done].
Qed.

(** The invocations of one delivery, by pool and by type. *)
Lemma deliveries_same (l : list ty) s t (bs : list (nat * callable)) event :
  l !! s = Some t →
  Forall2 (same_delivery l) (EventPool.deliveries s bs event)
    ((λ b, mkADelivery t b.1 b.2 event) <$> bs).
Proof.
  intros Hs. unfold EventPool.deliveries. apply Forall2_fmap, Forall_Forall2_diag, Forall_forall.
  by intros b _.
Qed.

Lemma flush_deliveries_same s t w a :
  refines w a → a_types a !! s = Some t →
  Forall2 (same_delivery (a_types a)) (EventPool.flush_deliveries s w)
    ((a_queue a !!! t) ≫= λ e, a_deliver t e a).
Proof.
  intros Hr Hs. pose proof (ref_view _ _ Hr s t Hs) as [= Hb _ Hq].
  unfold EventPool.flush_deliveries, a_deliver. rewrite Hb, Hq.
  apply Forall2_bind, Forall_Forall2_diag, Forall_forall. intros e _. by apply deliveries_same.
Qed.

(** A new buffer for one type. *)
Lemma refines_set_queue s t w a w' (q : list val) :
  refines w a → a_types a !! s = Some t →
  registry w' = registry w → trace w' = trace w →
  (∀ i, s ≠ i → pool_at i w' = pool_at i w) →
  view s w' = (bound_of s w, issued_of s w, q) →
  refines w' (a_set_queue t q a).
Proof.
  intros Hr Hs Hreg Htr Hne Hv. apply (refines_update s t w a); try done.
  - rewrite Hv. pose proof (ref_view _ _ Hr s t Hs) as [= Hb Hi _].
    unfold a_view. simpl. by rewrite lookup_total_insert_eq, Hb, Hi.
  - intros t' Ht'. unfold a_view. simpl. by rewrite lookup_total_insert_ne.
  - rewrite Htr. apply Hr.
Qed.

(** New bindings for one type. *)
Lemma refines_set_bound s t w a w' (bs : list (nat * callable)) (n : nat) :
  refines w a → a_types a !! s = Some t →
  registry w' = registry w → trace w' = trace w →
  (∀ i, s ≠ i → pool_at i w' = pool_at i w) →
  view s w' = (bs, n, queue_of s w) →
  refines w' (a_set_issued t n (a_set_bound t bs a)).
Proof.
  intros Hr Hs Hreg Htr Hne Hv. apply (refines_update s t w a); try done.
  - rewrite Hv. pose proof (ref_view _ _ Hr s t Hs) as [= _ _ Hq].
    unfold a_view. simpl. by rewrite !lookup_total_insert_eq, Hq.
  - intros t' Ht'. unfold a_view. simpl. by rewrite !lookup_total_insert_ne.
  - rewrite Htr. apply Hr.
Qed.

(** A step that touches no pool, no id and no invocation. *)
Lemma refines_frame w w' a :
  refines w a → registry w' = registry w → (∀ i, pool_at i w' = pool_at i w) →
  trace w' = trace w → refines w' a.
Proof.
  intros Hr Hreg Hp Ht. split; rewrite ?Hreg, ?Ht; [apply Hr..| |apply Hr|apply Hr].
  intros i t Hi. rewrite (view_frame i w w') by done. by apply Hr.
Qed.

(** The views after the writes of the member functions. *)
Lemma view_write s (g : EventPool ty val sig → EventPool ty val sig) w p :
  pool_at s w = Some p →
  view s (update_pool s g w) = (bound (mSignal (g p)), issued (mSignal (g p)), mEventQueue (g p)).
Proof. intros Hp. apply view_Some. simpl in *. by rewrite slot_alter, decide_True, Hp. Qed.

Lemma view_write_None s (g : EventPool ty val sig → EventPool ty val sig) w :
  pool_at s w = None → view s (update_pool s g w) = ([], 0, []).
Proof. intros Hp. apply view_None. simpl in *. by rewrite slot_alter, decide_True, Hp. Qed.

Lemma pool_at_write_ne s i (g : EventPool ty val sig → EventPool ty val sig) w :
  s ≠ i → pool_at i (update_pool s g w) = pool_at i w.
Proof. intros Hne. simpl. by rewrite slot_alter, decide_False. Qed.

Lemma view_clear s w : view s (queue_clear s w) = (bound_of s w, issued_of s w, []).
Proof.
  change (view s (queue_clear s w)) with (view s (update_pool s (with_queue []) w)).
  destruct (pool_at s w) as [p|] eqn:Hp.
  - rewrite (view_write s (with_queue []) w p Hp). unfold bound_of, issued_of. by rewrite Hp.
  - rewrite (view_write_None s (with_queue []) w Hp). unfold bound_of, issued_of. by rewrite Hp.
Qed.

Lemma view_push_back s event w p :
  pool_at s w = Some p →
  view s (queue_push_back s event w)
  = (bound (mSignal p), issued (mSignal p), mEventQueue p ++ [event]).
Proof.
  intros Hp. change (view s (queue_push_back s event w))
    with (view s (update_pool s (λ p, with_queue (mEventQueue p ++ [event]) p) w)).
  by rewrite (view_write _ _ _ _ Hp).
Qed.

(** *** The steps of the member functions *)

(** The flush of one slot refines the flush of its type. *)
Lemma flush_slot_refines s t w a :
  a_types a !! s = Some t → refines w a →
  refines (EventBus.flush_slot w s) (a_flush a t).
Proof.
  intros Hs Hr. unfold EventBus.flush_slot, a_flush.
  pose proof (flush_deliveries_same s t w a Hr Hs) as Hds.
  destruct (pool_at s w) as [p|] eqn:Hp.
  - eapply (refines_set_queue s t (log_all (EventPool.flush_deliveries s w) w));
      [by eapply refines_log|done..| |].
    + intros i Hne. by apply pool_at_clear_ne.
    + apply view_clear.
  - rewrite (EventBus.flush_deliveries_None _ _ Hp) in Hds.
    eapply (refines_set_queue s t w); [eapply (refines_log w w); [done..|by rewrite app_nil_r|done]
                                      |done..|].
    rewrite view_None by done. unfold bound_of, issued_of. by rewrite Hp.
Qed.

(** Clearing one slot refines clearing its type. *)
Lemma clear_at_refines s t w a :
  a_types a !! s = Some t → refines w a →
  refines (EventBus.clear_at w s) (a_clear_type a t).
Proof.
  intros Hs Hr. unfold EventBus.clear_at, a_clear_type.
  destruct (pool_at s w) as [p|] eqn:Hp.
  - eapply (refines_set_queue s t w); [done..| |apply view_clear].
    intros i Hne. by apply pool_at_clear_ne.
  - eapply (refines_set_queue s t w); [done..|].
    rewrite view_None by done. unfold bound_of, issued_of. by rewrite Hp.
Qed.

(** *** Loops over the slots and loops over the types *)

Section loops.
Context (opw : World → nat → World) (opa : ABus → ty → ABus).
Context (Hty : ∀ a t, a_types (opa a t) = a_types a).
Context (Hstep : ∀ s t w a,
  a_types a !! s = Some t → refines w a → refines (opw w s) (opa a t)).
Context (Hlen : ∀ w i, length (mEventPools (opw w i)) = length (mEventPools w)).
Context (Hnone : ∀ w i, pool_at i w = None → opw w i = w).

(** The slots from [k] on against the types from position [k] on. *)
Lemma slots_refines_from ts k w a :
  (∀ j t, ts !! j = Some t → a_types a !! (k + j) = Some t) → refines w a →
  refines (foldl opw w (seq k (length ts))) (foldl opa a ts).
Proof.
  revert k w a. induction ts as [|t ts IH]; intros k w a Hts Hr; [done|].
  simpl. apply IH.
  - intros j t' Hj. rewrite Hty. replace (S k + j) with (k + S j) by lia. by apply Hts.
  - apply Hstep; [|done]. rewrite <-(Nat.add_0_r k). by apply Hts.
Qed.

Lemma slots_length l w : length (mEventPools (foldl opw w l)) = length (mEventPools w).
Proof. revert w. induction l as [|i l IH]; intros w; [done|]. simpl. by rewrite IH, Hlen. Qed.

(** The slots beyond the end of the vector hold no pool. *)
Lemma slots_beyond n k w : length (mEventPools w) ≤ k → foldl opw w (seq k n) = w.
Proof.
  revert k. induction n as [|n IH]; intros k Hk; [done|].
  simpl. rewrite Hnone by (by apply slot_ge). apply IH. lia.
Qed.

(** The loop over the vector of pools refines the loop over the types. *)
Lemma all_slots_refines w a :
  world_wf w → refines w a →
  refines (foldl opw w (seq 0 (length (mEventPools w)))) (foldl opa a (a_types a)).
Proof.
  intros Hwf Hr. pose proof (slots_refines_from (a_types a) 0 w a) as Hall.
  destruct Hwf as (_ & Hle & _). rewrite <-(ref_len _ _ Hr) in Hle.
  replace (length (a_types a))
    with (length (mEventPools w) + (length (a_types a) - length (mEventPools w))) in Hall by lia.
  rewrite seq_app, foldl_app, slots_beyond in Hall; [by apply Hall|].
  rewrite slots_length. simpl. lia.
Qed.

End loops.

Lemma flush_all_refines w a :
  world_wf w → refines w a → refines (EventBus.flush_all w) (a_dispatch a).
Proof.
  intros Hwf Hr. unfold EventBus.flush_all, a_dispatch.
  apply (refines_frame (foldl EventBus.flush_slot (begin_pools_walk w)
           (seq 0 (length (mEventPools w))))); [|done..].
  refine (all_slots_refines EventBus.flush_slot a_flush _ _ _ _ (begin_pools_walk w) a _ _);
    [done|intros; by apply flush_slot_refines| | |done|by apply (refines_frame w)].
  - intros w' i. unfold EventBus.flush_slot. destruct (pool_at i w'); [|done].
    simpl. by rewrite length_alter.
  - intros w' i Hp. unfold EventBus.flush_slot. by rewrite Hp.
Qed.

Lemma ClearEventQueues_refines w a :
  world_wf w → refines w a →
  ∃ w', EventBus.ClearEventQueues w = Some w' ∧ refines w' (a_clear a).
Proof.
  intros Hwf Hr. exists (EventBus.clear_all w). split; [apply EventBus.ClearEventQueues_eq|].
  unfold EventBus.clear_all, a_clear.
  apply (all_slots_refines EventBus.clear_at a_clear_type);
    [done|intros; by apply clear_at_refines| | |done..].
  - intros w' i. unfold EventBus.clear_at. destruct (pool_at i w'); [|done].
    simpl. by rewrite length_alter.
  - intros w' i Hp. unfold EventBus.clear_at. by rewrite Hp.
Qed.

(** Selective clear, type by type. *)
Lemma ClearEventQueuesOf_refines ts w a :
  world_wf w → refines w a → refines (EventBus.ClearEventQueuesOf ts w) (a_clear_of ts a).
Proof.
  unfold EventBus.ClearEventQueuesOf, a_clear_of. revert w a.
  induction ts as [|t ts IH]; intros w a Hwf Hr; [done|]. simpl. apply IH.
  - by apply (EventBus.clear_type_sound t).
  - destruct (refines_use t w a Hwf Hr) as [Hr1 Hs].
    rewrite EventBus.clear_type_unfold.
    destruct (EventBus.GetEventHandler_spec t w) as (-> & _ & Hp & _).
    pose proof (clear_at_refines _ t _ _ Hs Hr1) as Hc.
    unfold EventBus.clear_at, EventBus.slot_of in Hc. by rewrite Hp in Hc.
Qed.

Section passive.
Context (call : callable → val → World → option World) `{!Passive call}.

Lemma DispatchQueuedEvents_refines w a :
  world_wf w → refines w a →
  ∃ w', EventBus.DispatchQueuedEvents call w = Some w' ∧ refines w' (a_dispatch a).
Proof.
  intros Hwf Hr. eexists. split; [by apply EventBus.DispatchQueuedEvents_passive_eq|].
  by apply flush_all_refines.
Qed.

Lemma DispatchQueuedEventsOf_refines ts w a :
  world_wf w → refines w a →
  ∃ w', EventBus.DispatchQueuedEventsOf call ts w = Some w' ∧ refines w' (a_dispatch_of ts a).
Proof.
  unfold EventBus.DispatchQueuedEventsOf, a_dispatch_of. revert w a.
  induction ts as [|t ts IH]; intros w a Hwf Hr; [by eexists|].
  rewrite for_each_cons, EventBus.dispatch_type_passive_eq, bind_Some_l by done. simpl.
  apply IH.
  - destruct (EventBus.dispatch_type_sound call t) as (Hwf' & _).
    eapply Hwf'; [done|]. by apply EventBus.dispatch_type_passive_eq.
  - destruct (refines_use t w a Hwf Hr) as [Hr1 Hs]. by apply flush_slot_refines.
Qed.

Lemma TriggerEvent_refines t event w a :
  world_wf w → refines w a →
  ∃ w', EventBus.TriggerEvent call t event w = Some w' ∧ refines w' (a_trigger t event a).
Proof.
  intros Hwf Hr. eexists. split; [by apply EventBus.TriggerEvent_passive_eq|].
  destruct (refines_use t w a Hwf Hr) as [Hr1 Hs]. unfold a_trigger, a_deliver.
  eapply refines_log; [done..|].
  pose proof (ref_view _ _ Hr1 _ _ Hs) as [= -> _ _].
  destruct (EventBus.GetEventHandler_obs t w) as (_ & <- & _). by apply deliveries_same.
Qed.

Lemma EnqueueEvent_refines t event w a :
  world_wf w → refines w a → refines (EventBus.EnqueueEvent t event w) (a_enqueue t event a).
Proof.
  intros Hwf Hr. destruct (refines_use t w a Hwf Hr) as [Hr1 Hs].
  rewrite EventBus.EnqueueEvent_unfold. unfold a_enqueue, EventPool.EnqueueEvent.
  destruct (EventBus.GetEventHandler_spec t w) as (-> & _ & Hp & _).
  fold (EventBus.slot_of t w) in *.
  eapply (refines_set_queue _ t (EventBus.GetEventHandler t w).2); [done..| |].
  - intros i Hne. by apply pool_at_push_back_ne.
  - erewrite view_push_back by done.
    pose proof (ref_view _ _ Hr1 _ _ Hs) as Hv. rewrite (view_Some _ _ _ Hp) in Hv.
    injection Hv as _ _ Hq. unfold a_use in Hq. unfold bound_of, issued_of. rewrite Hp. simpl.
    do 2 f_equal. by destruct (decide _).
Qed.

Lemma SubscribeToEvent_refines t f w a :
  world_wf w → refines w a →
  (EventBus.SubscribeToEvent t f w).1 = (a_subscribe t f a).1 ∧
  refines (EventBus.SubscribeToEvent t f w).2 (a_subscribe t f a).2.
Proof.
  intros Hwf Hr. destruct (refines_use t w a Hwf Hr) as [Hr1 Hs].
  pose proof (ref_view _ _ Hr1 _ _ Hs) as Hv.
  destruct (EventBus.GetEventHandler_spec t w) as (Hidx & _ & Hp & _).
  fold (EventBus.slot_of t w) in *. rewrite (view_Some _ _ _ Hp) in Hv. injection Hv as Hb Hi Hq.
  split.
  - rewrite EventBus.SubscribeToEvent_conn. unfold a_subscribe. cbn [fst]. f_equal.
    + rewrite <-(refines_slot_of _ _ t Hr1). symmetry. apply EventBus.GetEventHandler_slot_of.
    + rewrite Hi. unfold issued_of. simpl.
      destruct (slot (mEventPools w) _); simpl; [done|by rewrite issued_new].
  - rewrite EventBus.SubscribeToEvent_unfold, Hidx. unfold a_subscribe. cbn [snd].
    eapply (refines_set_bound _ t (EventBus.GetEventHandler t w).2); [done..| |].
    + intros i Hne. by apply pool_at_write_ne.
    + erewrite view_write by done. simpl. unfold queue_of. rewrite Hp, bound_Bind, issued_Bind.
      by rewrite Hb, Hi.
Qed.

Lemma UnsubscribeFromEvent_refines connection w a :
  world_wf w → refines w a →
  refines (EventBus.UnsubscribeFromEvent connection w) (a_unsubscribe connection a).
Proof.
  intros Hwf Hr. unfold EventBus.UnsubscribeFromEvent, a_unsubscribe.
  set (s := conn_signal connection). set (c := conn_serial connection).
  destruct (a_types a !! s) as [t|] eqn:Hs.
  - pose proof (ref_view _ _ Hr _ _ Hs) as [= Hb Hi Hq].
    apply (refines_update s t w a); try done.
    + unfold a_view, a_set_bound. cbn [a_bound a_issued a_queue].
      rewrite lookup_total_insert_eq, Hb, Hi, Hq.
      destruct (pool_at s w) as [p|] eqn:Hp.
      * erewrite view_write by done. cbn [mSignal mEventQueue with_signal].
        rewrite bound_Disconnect, issued_Disconnect.
        unfold bound_of, issued_of, queue_of. by rewrite Hp.
      * rewrite view_write_None by done. unfold bound_of, issued_of, queue_of. by rewrite Hp.
    + intros i Hne. by apply pool_at_write_ne.
    + intros t' Hne. unfold a_view. simpl. by rewrite lookup_total_insert_ne.
    + apply Hr.
  - apply (refines_frame w); [done..| |done]. intros i.
    destruct (decide (s = i)) as [<-|Hne]; [|by apply pool_at_write_ne].
    apply lookup_ge_None in Hs. pose proof (refines_no_pool w a s Hwf Hr Hs) as Hp.
    simpl in *. by rewrite slot_alter, decide_True, Hp.
Qed.

(** ** The refinement theorem *)

Lemma exec_refines_step c w a :
  world_wf w → refines w a →
  ∃ w', exec call c w = Some w' ∧ world_wf w' ∧ refines w' (a_exec c a).
Proof.
  intros Hwf Hr. destruct (exec_sound call c) as (Hsound & _).
  assert (∃ w', exec call c w = Some w' ∧ refines w' (a_exec c a)) as (w' & Hrun & Hr').
  { destruct c; simpl; eauto using TriggerEvent_refines, EnqueueEvent_refines,
      DispatchQueuedEvents_refines, DispatchQueuedEventsOf_refines, ClearEventQueues_refines,
      ClearEventQueuesOf_refines, UnsubscribeFromEvent_refines.
    eexists. split; [done|]. by apply SubscribeToEvent_refines. }
  exists w'. split_and!; [done| |done]. by eapply Hsound.
Qed.

(** A sequence of calls. *)
Lemma run_refines_from cs w a :
  world_wf w → refines w a →
  ∃ w', run call cs w = Some w' ∧ world_wf w' ∧ refines w' (a_run cs a).
Proof.
  revert w a. induction cs as [|c cs IH]; intros w a Hwf Hr; [by exists w|].
  destruct (exec_refines_step c w a Hwf Hr) as (w1 & Hrun & Hwf1 & Hr1).
  destruct (IH w1 (a_exec c a) Hwf1 Hr1) as (w' & Hrun' & Hwf' & Hr').
  exists w'. split_and!; [|done..]. by rewrite run_cons, Hrun.
Qed.

(** C11: the implementation refines the specification.  From related states,
    every call of a public member function, with callables that do not call
    the bus, returns, keeps the world well formed, and ends in the state the
    operation of the specification leads to: the same bindings and buffers
    for every event type, the same invocations in the same order. *)
Theorem exec_refines c w a :
  world_wf w → refines w a →
  ∃ w', exec call c w = Some w' ∧ world_wf w' ∧ refines w' (a_exec c a).
Proof. apply exec_refines_step. Qed.

(** Every reachable world is related to a state of the specification. *)
Lemma reachable_refines w : reachable call w → ∃ a, refines w a.
Proof.
  intros [cs Hcs]%reachable_iff_run.
  destruct (run_refines_from cs world_init a_init world_init_wf refines_init)
    as (w' & Hrun & _ & Hr).
  exists (a_run cs a_init). congruence.
Qed.

(** The implementation and the specification make the same invocations.
    Any sequence of calls of the public member functions, from the initial
    state and with callables that do not call the bus, returns, and the
    callables invoked, with the serials of their bindings and the events, are
    in order those the specification prescribes. *)
Theorem run_same_invocations cs :
  ∃ w', run call cs world_init = Some w' ∧
        shown <$> trace w' = a_shown <$> a_trace (a_run cs a_init).
Proof.
  destruct (run_refines_from cs world_init a_init world_init_wf refines_init)
    as (w' & Hrun & _ & Hr).
  exists w'. split; [done|]. apply same_delivery_shown with (a_types (a_run cs a_init)), Hr.
Qed.

(** C13: a pool exists for a type if and only if an operation has named the
    type.  After any sequence of calls from the initial state, with callables
    that do not call the bus, the bus has a pool for exactly the types named
    by a call made: those triggered, enqueued or subscribed to, and also
    those named in a selective dispatch or clear. *)
Theorem pool_iff_used cs t :
  ∃ w', run call cs world_init = Some w' ∧ (has_pool t w' ↔ t ∈ cs ≫= uses).
Proof.
  destruct (run_refines_from cs world_init a_init world_init_wf refines_init)
    as (w' & Hrun & Hwf & Hr).
  exists w'. split; [done|]. trans (t ∈ a_types (a_run cs a_init)).
  - pose proof (run_packs call cs _ _ Hrun world_init_packed) as (Hrwf & _ & Hsome). split.
    + intros (i & p & Hi & _). apply (ref_ids _ _ Hr) in Hi. by eapply list_elem_of_lookup_2.
    + intros [i Hi]%list_elem_of_lookup_1. apply (ref_ids _ _ Hr) in Hi.
      destruct (Hsome i) as [p Hp]; [by eapply Hrwf|]. by exists i, p.
  - rewrite a_run_types. simpl. rewrite elem_of_nil. tauto.
Qed.



End passive.

End refinement.

(** ** The properties at concrete inputs *)

Lemma exec_refines_witness :
  ∃ w' : World.World nat nat nat (Signal nat),
    exec call_skip (Subscribe 0 7) world_init = Some w' ∧ world_wf w' ∧
    refines w' (a_exec (Subscribe 0 7) a_init).
Proof.
  apply (exec_refines call_skip (Subscribe 0 7) world_init a_init);
    [apply world_init_wf|apply refines_init].
Defined.

(** A selective dispatch of a type never used before, then an enqueue. *)
Definition selective_main : list (cmd nat nat nat) := [DispatchOf [4]; Enqueue 2 1].

Lemma pool_iff_used_witness :
  ∃ w' : World.World nat nat nat (Signal nat),
    run call_skip selective_main world_init = Some w' ∧
    (has_pool 4 w' ↔ 4 ∈ selective_main ≫= uses).
Proof. exact (pool_iff_used call_skip selective_main 4). Defined.

Lemma run_same_invocations_witness :
  ∃ w' : World.World nat nat nat (Signal nat),
    run call_skip demo_main world_init = Some w' ∧
    shown <$> trace w' = [(0, 7, 10); (0, 7, 5); (0, 7, 7)].
Proof. exact (run_same_invocations call_skip demo_main). Defined.

