(* ===== verification/Nulls.v ===== *)
(** * Which slots of a bus are null

    [GetEventHandler<Event>] is the only function that puts a pool in a slot
    of [mEventPools], and it does so for the event type it resolves.  So a
    bus has a pool for exactly the event types that a call on it has named,
    and every other slot below the size of its vector is null: the slots of
    the types that got their identifier through another bus.  These are the
    slots that the tests [if (eventHandler)] of [DispatchQueuedEvents()] and
    [ClearEventQueues()] are for.

    [same_pools] of [World] relates two worlds with the same statics in
    which the same slots hold a pool; every step that does not resolve an
    event type respects it ([Framed]).  [adds ts f] says that [f] leaves a pool for the
    types [ts] and for those that had one.  The theorems: a call of a public
    member function adds the types it names ([exec_adds]), a sequence of
    calls those it names ([run_adds]), for callables that create no pool;
    and in a process each bus has a pool for exactly the types named by the
    calls on that bus ([bus_pool_iff_used]). *)

From stdpp Require Import gmap list.
From S2P Require Import Prelude Registry Signal World Callable EventPool EventBus Kept Exec.
From S2P Require Import Buses Abstract.

Section nulls.
Context {ty val callable sig : Type} `{Countable ty} `{!SignalOps callable sig}.
Abbreviation World := (World ty val callable sig).
Abbreviation cmd := (cmd ty val callable).
Implicit Types (w : World) (t : ty) (i this : nat) (ts : list ty) (c : cmd).

(** [f] leaves a pool for the types [ts] and for the types that had one. *)
Definition adds ts (f : World → option World) : Prop :=
  ∀ w w' t, world_wf w → f w = Some w' → has_pool t w' ↔ has_pool t w ∨ t ∈ ts.

#[export] Instance same_pools_framed :
  Framed (same_pools (ty:=ty) (val:=val) (callable:=callable) (sig:=sig)).
Proof.
  split; [apply _|apply same_pools_frame|apply same_pools_push_back|apply same_pools_clear].
Qed.

(** ** Having a pool *)

Lemma has_pool_alt t w :
  has_pool t w ↔ ∃ i, event_ids (registry w) !! t = Some i ∧ is_Some (pool_at i w).
Proof.
  split; [intros (i & p & Hi & Hp); by exists i|]. intros (i & Hi & [p Hp]). by exists i, p.
Qed.

Lemma has_pool_same_pools t w w' : same_pools w w' → has_pool t w' ↔ has_pool t w.
Proof. intros [Hr Hp]. rewrite !has_pool_alt, Hr. by setoid_rewrite Hp. Qed.

(** [GetEventHandler<Event>] leaves a pool for [Event], and for no type that
    had none. *)
Lemma has_pool_GetEventHandler t t' w :
  world_wf w → has_pool t' (EventBus.GetEventHandler t w).2 ↔ has_pool t' w ∨ t' = t.
Proof.
  intros Hwf. destruct (EventBus.GetEventHandler_spec t w) as (_ & Hr & Hp & Hne & _).
  rewrite !has_pool_alt, Hr. destruct (decide (t' = t)) as [->|Ht].
  { split; [by right|]. intros _. eexists. split; [apply GetEventId_lookup|by rewrite Hp]. }
  rewrite GetEventId_lookup_ne by done. split; [|intros [(i & Hi & Hs)|]; [|done]].
  - intros (i & Hi & Hs). left. exists i. split; [done|]. rewrite <-Hne; [done|].
    intros <-. apply Ht. eapply (proj2 (GetEventId_wf _ t (proj1 Hwf))); [|apply GetEventId_lookup].
    by rewrite GetEventId_lookup_ne.
  - exists i. split; [done|]. destruct (decide ((GetEventId t (registry w)).1 = i)) as [<-|];
      [by rewrite Hp|by rewrite Hne].
Qed.

(** The statics that another bus has let grow change nothing to the pools of
    this one. *)
Lemma has_pool_grow t w w' :
  world_wf w → registry_wf (registry w') → registry_le (registry w) (registry w') →
  mEventPools w' = mEventPools w → has_pool t w' ↔ has_pool t w.
Proof.
  intros (_ & _ & Hty & _) [_ Hinj] [_ Hsub] Hp. unfold has_pool, pool_at. rewrite Hp.
  split; intros (i & p & Hi & Hs); exists i, p; (split; [|done]).
  - pose proof (Hty i p Hs) as Hold. rewrite <-(Hinj _ t i (lookup_weaken _ _ _ _ Hold Hsub) Hi).
    done.
  - by eapply lookup_weaken.
Qed.

(** ** What a function adds *)

Lemma adds_same_pools (f : World → option World) : relates same_pools f → adds [] f.
Proof.
  intros Hf w w' t _ Hrun. rewrite (has_pool_same_pools t w w') by by apply Hf.
  rewrite elem_of_nil. tauto.
Qed.

(** A member function of the pool that [GetEventHandler<Event>] returns. *)
Lemma adds_handler t (f : nat → World → option World) :
  (∀ this, relates same_pools (f this)) →
  adds [t] (λ w, f (EventBus.GetEventHandler t w).1 (EventBus.GetEventHandler t w).2).
Proof.
  intros Hf w w' t' Hwf Hrun. rewrite (has_pool_same_pools t' _ w') by by eapply Hf.
  by rewrite has_pool_GetEventHandler, list_elem_of_singleton.
Qed.

(** A loop adds what its rounds add. *)
Lemma for_each_adds {A} (f : A → World → option World) (g : A → list ty) (l : list A) :
  (∀ a, a ∈ l → {{ world_wf }} f a {{ world_wf }}) → (∀ a, a ∈ l → adds (g a) (f a)) →
  adds (l ≫= g) (for_each f l).
Proof.
  induction l as [|a l IH]; intros Hwf Hf w w' t Hw Hrun.
  { injection Hrun as <-. simpl. rewrite elem_of_nil. tauto. }
  rewrite for_each_cons in Hrun. bind_inv Hrun.
  rewrite (IH (λ a' Ha', Hwf a' (list_elem_of_further _ _ _ Ha'))
              (λ a' Ha', Hf a' (list_elem_of_further _ _ _ Ha')) s w' t); [|by eapply Hwf; [left|..]|done].
  rewrite (Hf a ltac:(left) w s t Hw Hrun0), bind_cons, elem_of_app. tauto.
Qed.

(** ** The public member functions *)

Section invoker.
Context (call : callable → val → World → option World) `{!Callback call}.
Context (Hcall : ∀ h event, relates same_pools (call h event)).

Lemma dispatch_type_adds t : adds [t] (EventBus.dispatch_type call t).
Proof.
  intros w w' t' Hwf. rewrite EventBus.dispatch_type_unfold.
  apply (adds_handler t (EventPool.DispatchQueuedEvents call)); [|done].
  intros this. apply (pool_DispatchQueuedEvents_framed same_pools call Hcall).
Qed.

Lemma clear_type_adds t : adds [t] (λ w, Some (EventBus.clear_type w t)).
Proof.
  intros w w' t' Hwf. rewrite EventBus.clear_type_unfold.
  apply (adds_handler t (λ this w1, Some (EventPool.ClearEventQueue this w1))); [|done].
  intros this w1 w2 [= <-]. apply (framed_clear (R:=same_pools)).
Qed.

(** A call of a public member function leaves a pool for the event types it
    names, and for those that had one. *)
Lemma exec_adds c : adds (uses c) (exec call c).
Proof.
  destruct c as [t e|t e| |ts| |ts|t f|connection]; unfold exec, uses.
  - intros w w' t' Hwf. rewrite EventBus.TriggerEvent_unfold.
    apply (adds_handler t (λ this, EventPool.TriggerEvent call this e)); [|done].
    intros this. apply (emit_framed same_pools call Hcall).
  - intros w w' t' Hwf. rewrite EventBus.EnqueueEvent_unfold.
    apply (adds_handler t (λ this w1, Some (EventPool.EnqueueEvent this e w1))); [|done].
    intros this w1 w2 [= <-]. apply (framed_push_back (R:=same_pools)).
  - apply adds_same_pools, (DispatchQueuedEvents_framed same_pools call Hcall).
  - intros w w' t' Hwf Hrun. rewrite <-(bind_singletons ts). revert Hrun.
    apply (for_each_adds (EventBus.dispatch_type call) (λ t, [t]) ts); [| |done]; intros t _;
      [apply EventBus.dispatch_type_sound, _|apply dispatch_type_adds].
  - apply adds_same_pools, (ClearEventQueues_framed same_pools).
  - intros w w' t' Hwf Hrun. rewrite <-(bind_singletons ts). revert Hrun.
    unfold EventBus.ClearEventQueuesOf.
    rewrite <-(for_each_pure (λ t w1, Some (EventBus.clear_type w1 t))) by done.
    apply (for_each_adds _ (λ t, [t]) ts); [| |done]; intros t _; [|apply clear_type_adds].
    apply triple_ret, EventBus.clear_type_sound.
  - intros w w' t' Hwf. rewrite EventBus.SubscribeToEvent_unfold.
    apply (adds_handler t (λ this w1,
             Some (update_pool this (λ p, with_signal (Bind f (mSignal p)).2 p) w1))); [|done].
    intros this w1 w2 [= <-]. apply same_pools_update_pool.
  - apply adds_same_pools. intros w w' [= <-]. apply same_pools_update_pool.
Qed.

Lemma run_adds (cs : list cmd) : adds (cs ≫= uses) (run call cs).
Proof.
  apply for_each_adds; intros c _; [by apply exec_sound|apply exec_adds].
Qed.

End invoker.

(** Callables that do not call the bus create no pool. *)
Lemma passive_same_pools (call : callable → val → World → option World) `{!Passive call} h event :
  relates same_pools (call h event).
Proof. intros w w'. rewrite call_passive. by intros [= <-]. Qed.

End nulls.

(** ** The buses of a process *)

Section process.
Context {ty val callable sig : Type} `{Countable ty} `{!SignalOps callable sig}.
Abbreviation World := (World ty val callable sig).
Abbreviation Process := (Process (ty:=ty) (val:=val) (callable:=callable) (sig:=sig)).
Abbreviation pcmd := (pcmd ty val callable).
Implicit Types (s : Process) (t : ty) (b i : nat) (c : pcmd) (cs : list pcmd).

(** The bus [b] of the process has a pool for the type [t]. *)
Definition bus_has_pool b t s : Prop :=
  ∃ bus, buses s !! b = Some bus ∧ has_pool t (world_of bus s).

(** The event types that the calls on the bus [b] name. *)
Definition used_on b cs : list ty :=
  cs ≫= λ c, match c with On i c' => if decide (i = b) then uses c' else [] | NewBus => [] end.

Context (call : nat → callable → val → World → option World).
Context (Hsound : ∀ i, Callback (call i)).
Context (Hcall : ∀ i h event, relates same_pools (call i h event)).

Lemma new_bus_has_pool b t s : bus_has_pool b t (new_bus s) ↔ bus_has_pool b t s.
Proof.
  unfold bus_has_pool. simpl. split; intros (bus & Hb & Hp).
  - apply lookup_app_Some in Hb as [Hb|[_ Hb]]; [by exists bus|].
    apply list_lookup_singleton_Some in Hb as [_ <-]. by destruct Hp as (i & p & _ & [=]).
  - exists bus. split; [by apply lookup_app_l_Some|done].
Qed.

Lemma pexec_adds c s s' b t :
  process_wf s → pexec call c s = Some s' →
  bus_has_pool b t s' ↔ bus_has_pool b t s ∨ t ∈ used_on b [c].
Proof.
  intros Hs Hrun. pose proof (pexec_keeps_wf call c s s' Hs Hrun) as Hs'.
  destruct c as [|i c]; simpl in *.
  { injection Hrun as <-. rewrite new_bus_has_pool, elem_of_nil. tauto. }
  unfold on_bus in Hrun. bind_inv Hrun. bind_inv Hrun. injection Hrun as <-.
  rewrite app_nil_r. unfold bus_has_pool. destruct (decide (i = b)) as [->|Hne].
  - destruct (world_of_store b s1 s s0 Hrun0) as [Hb Hv]. rewrite Hb, Hrun0.
    pose proof (exec_adds (call b) (Hcall b) c _ _ t (proj2 Hs b s0 Hrun0) Hrun1) as Hadd.
    split.
    + intros (bus & [= <-] & Hp). rewrite Hv in Hp. apply Hadd in Hp as [?|?]; [left|by right].
      by exists s0.
    + intros Hp. exists (bus_of s1). split; [done|]. rewrite Hv. apply Hadd.
      destruct Hp as [(bus & [= <-] & ?)|?]; [by left|by right].
  - rewrite elem_of_nil, store_lookup_ne by done.
    assert (∀ bus, buses s !! b = Some bus →
              has_pool t (world_of bus (store i s1 s)) ↔ has_pool t (world_of bus s)) as Hgrow.
    { intros bus Hb. apply has_pool_grow; [by apply (proj2 Hs b)|apply Hs'| |done].
      exact (proj1 (proj1 (proj2 (exec_sound (call i) c)) _ _ Hrun1)). }
    split; [intros (bus & Hb & Hp); left|intros [(bus & Hb & Hp)|[]]];
      exists bus; (split; [done|]); by apply (Hgrow bus Hb).
Qed.

Lemma prun_adds cs s s' b t :
  process_wf s → prun call cs s = Some s' →
  bus_has_pool b t s' ↔ bus_has_pool b t s ∨ t ∈ used_on b cs.
Proof.
  revert s. induction cs as [|c cs IH]; intros s Hs Hrun.
  { injection Hrun as <-. unfold used_on. simpl. rewrite elem_of_nil. tauto. }
  unfold prun in Hrun. rewrite for_each_cons in Hrun. bind_inv Hrun.
  rewrite (IH s0 (pexec_keeps_wf call c s s0 Hs Hrun0) Hrun), (pexec_adds c s s0 b t Hs Hrun0).
  unfold used_on. simpl. rewrite app_nil_r, elem_of_app. tauto.
Qed.

(** C31: a bus of a process has a pool for exactly the event types named by the
    calls made on it, whatever was called on the other buses: the slot of a
    type that got its identifier through another bus is null. *)
Theorem bus_pool_iff_used cs s b t :
  prun call cs process_init = Some s → bus_has_pool b t s ↔ t ∈ used_on b cs.
Proof.
  intros Hrun. rewrite (prun_adds cs _ s b t process_init_wf Hrun).
  split; [intros [(bus & [=] & _)|?]; done|by right].
Qed.

End process.

(** In the process of [Buses.two_buses] the second bus has a pool for type 1
    and none for type 0. *)
Lemma bus_pool_iff_used_witness :
  bus_has_pool 1 0 process_two ↔ 0 ∈ used_on 1 two_buses.
Proof.
  exact (bus_pool_iff_used call_none _ (λ i, passive_same_pools (call_none i))
           two_buses process_two 1 0 process_two_run).
Defined.
