(* ===== verification/Reentrant.v ===== *)
(** * The bus by event type, for callables that call the bus

    [Abstract] relates the implementation to the bus of the specification for
    callables that do not call the bus.  This file describes, on the same
    abstract state, what the implementation does when callables call the bus
    again.  The operations that invoke callables get an invoker [acall] of
    their own ([ar_emit], [ar_trigger], [ar_flush], [ar_dispatch],
    [ar_dispatch_of]); the others are those of [Abstract].  [ar_exec] and
    [ar_run] interpret the commands of [Exec] on an abstract bus, and
    [a_call_fuel] runs the body of a callable on it, with the fuel of
    [Exec.call_fuel].

    By event type, without identifiers, slots and vectors: a trigger invokes
    the callables bound when it starts; a flush delivers the events buffered
    when it starts, reads the bindings anew for each event, and empties the
    buffer when it ends, whatever was enqueued meanwhile, as the code does
    and the specification does not; a dispatch flushes the types known when
    it starts.

    The result is a lock-step simulation ([Prelude.simulates]): from a world
    and an abstract bus related by [inv] (the world is well formed, its pools
    are packed, and it refines the abstract bus), a program of the
    implementation and the same program on the abstract bus either both
    return, in related states, or both run out of fuel ([run_main_inv]).
    File [Deferred] has the flush of the specification and derives from this
    simulation the refinement of the specification. *)

From stdpp Require Import gmap list.
From S2P Require Import Prelude Registry Signal World Callable EventPool EventBus Exec Abstract.

Section spec.
Context {ty val callable : Type} `{Countable ty}.
Abbreviation ABus := (ABus ty val callable).
Abbreviation cmd := (cmd ty val callable).
Implicit Types (a : ABus) (t : ty) (event : val) (c : cmd) (cs : list cmd).

Section ops.
Context (acall : callable → val → ABus → option ABus).

(** One delivery of [event] to the callables bound for [t] when it starts:
    each callable is recorded, then run. *)
Definition ar_emit t event a : option ABus :=
  for_each (λ b a', acall b.2 event (a_log [mkADelivery t b.1 b.2 event] a'))
    (a_bound a !!! t) a.

(** Trigger. *)
Definition ar_trigger t event a : option ABus := ar_emit t event (a_use t a).

(** Flush of one type: the events buffered when the flush starts are
    delivered, oldest first, each to the callables bound when its turn comes;
    then the buffer is emptied. *)
Definition ar_flush t a : option ABus :=
  a' ← for_each (ar_emit t) (a_queue a !!! t) a;
  Some (a_set_queue t [] a').

(** Dispatch: the types known when the dispatch starts are flushed, in the
    order of first use. *)
Definition ar_dispatch a : option ABus := for_each ar_flush (a_types a) a.

(** Selective dispatch. *)
Definition ar_dispatch_of (ts : list ty) a : option ABus :=
  for_each (λ t a', ar_flush t (a_use t a')) ts a.

(** One operation of the public interface. *)
Definition ar_exec c a : option ABus :=
  match c with
  | Trigger t event => ar_trigger t event a
  | Enqueue t event => Some (a_enqueue t event a)
  | Dispatch => ar_dispatch a
  | DispatchOf ts => ar_dispatch_of ts a
  | Clear => Some (a_clear a)
  | ClearOf ts => Some (a_clear_of ts a)
  | Subscribe t f => Some (a_subscribe t f a).2
  | Unsubscribe connection => Some (a_unsubscribe connection a)
  end.

Definition ar_run cs : ABus → option ABus := for_each ar_exec cs.

End ops.

(** The invoker of the callables whose bodies are given by [code], with
    nested invocations at most [n - 1] deep. *)
Fixpoint a_call_fuel (code : callable → val → list cmd) (n : nat)
    (h : callable) (event : val) (a : ABus) : option ABus :=
  match n with
  | 0 => None
  | S n' => ar_run (a_call_fuel code n') (code h event) a
  end.

Definition ar_run_main (code : callable → val → list cmd) (n : nat) cs : ABus → option ABus :=
  ar_run (a_call_fuel code n) cs.

(** The abstract bus only learns types. *)
Definition grows a a' : Prop := a_types a `prefix_of` a_types a'.

(** The type [t] is at position [i]. *)
Definition at_slot (i : nat) t a : Prop := a_types a !! i = Some t.

(** The invoker of callables that do not call the bus. *)
Definition acall_skip : callable → val → ABus → option ABus := λ _ _ a, Some a.

End spec.

(** ** Callables that do not call the bus: the operations of [Abstract] *)

Section passive_spec.
Context {ty val callable : Type} `{Countable ty}.
Abbreviation ABus := (ABus ty val callable).
Abbreviation cmd := (cmd ty val callable).
Implicit Types (a : ABus) (t : ty) (event : val) (c : cmd) (cs : list cmd).

Lemma a_log_app (ds1 ds2 : list (ADelivery ty val callable)) a :
  a_log ds2 (a_log ds1 a) = a_log (ds1 ++ ds2) a.
Proof. unfold a_log. simpl. by rewrite app_assoc. Qed.

Lemma a_log_nil a : a_log [] a = a.
Proof. destruct a. unfold a_log. simpl. by rewrite app_nil_r. Qed.

Lemma ar_emit_logged t event ds a :
  ar_emit acall_skip t event (a_log ds a) = Some (a_log (ds ++ a_deliver t event a) a).
Proof.
  unfold ar_emit, a_deliver, acall_skip. simpl. generalize (a_bound a !!! t). intros bs.
  revert ds. induction bs as [|b bs IH]; intros ds; simpl; [by rewrite app_nil_r|].
  by rewrite a_log_app, IH, <-app_assoc.
Qed.

Lemma ar_emit_passive t event a :
  ar_emit acall_skip t event a = Some (a_log (a_deliver t event a) a).
Proof. pose proof (ar_emit_logged t event [] a) as Hl. by rewrite a_log_nil in Hl. Qed.

Lemma ar_flush_passive t a : ar_flush acall_skip t a = Some (a_flush a t).
Proof.
  unfold ar_flush, a_flush. generalize (a_queue a !!! t). intros q.
  assert (∀ ds, for_each (ar_emit acall_skip t) q (a_log ds a)
    = Some (a_log (ds ++ q ≫= λ e, a_deliver t e a) a)) as Hq.
  { induction q as [|e q IH]; intros ds; [simpl; by rewrite app_nil_r|].
    by rewrite for_each_cons, ar_emit_logged, bind_Some_l, IH, bind_cons, <-app_assoc. }
  specialize (Hq []). rewrite a_log_nil in Hq. by rewrite Hq.
Qed.

(** With callables that do not call the bus, the operations of this file are
    those of [Abstract]. *)
Lemma ar_exec_passive c a : ar_exec acall_skip c a = Some (a_exec c a).
Proof.
  destruct c as [t e|t e| |ts| |ts|t f|connection]; simpl; try done.
  - apply ar_emit_passive.
  - apply for_each_pure. intros t a' _. apply ar_flush_passive.
  - apply (for_each_pure _ (λ a t, a_flush (a_use t a) t)). intros t a' _.
    apply ar_flush_passive.
Qed.

(** The two specifications agree: with callables that do not call the bus, a
    sequence of operations run on the abstract bus by the semantics of this
    file, loops and invocations included, returns the state that the
    closed-form operations of [Abstract] give. *)
Lemma ar_run_passive cs a : ar_run acall_skip cs a = Some (a_run cs a).
Proof. apply (for_each_pure _ (λ a c, a_exec c a)). intros c a' _. apply ar_exec_passive. Qed.

End passive_spec.

(** ** The relation between a world and an abstract bus *)

Section simulation.
Context {ty val callable sig : Type} `{Countable ty} `{!SignalOps callable sig}.
Abbreviation World := (World ty val callable sig).
Abbreviation ABus := (ABus ty val callable).
Abbreviation cmd := (cmd ty val callable).
Implicit Types (w : World) (a : ABus) (t : ty) (i : nat) (event : val).
Implicit Types (c : cmd) (cs : list cmd) (code : callable → val → list cmd).

(** The world is well formed, its pools are packed, and it refines the
    abstract bus. *)
Definition inv w a : Prop := world_wf w ∧ packed w ∧ refines w a.

#[export] Instance grows_preorder : PreOrder (grows (ty:=ty) (val:=val) (callable:=callable)).
Proof. split; [intros a|intros a1 a2 a3]; unfold grows; [done|apply transitivity]. Qed.

Lemma at_slot_stable i t : stable grows (at_slot (val:=val) (callable:=callable) i t).
Proof. intros a a' Hq Hi. by eapply prefix_lookup_Some. Qed.

(** The abstract bus only learns types. *)
Lemma a_use_grows t a : grows a (a_use t a).
Proof. unfold grows, a_use. case_decide; [done|by apply prefix_app_r]. Qed.

Lemma grows_foldl {A} (body : ABus → A → ABus) l a :
  (∀ a x, grows a (body a x)) → grows a (foldl body a l).
Proof.
  intros Hbody. revert a. induction l as [|x l IH]; intros a; simpl; [done|].
  etrans; [apply Hbody|apply IH].
Qed.

Lemma a_exec_grows c a : grows a (a_exec c a).
Proof.
  destruct c as [t e|t e| |ts| |ts|t f|connection]; simpl;
    try exact (a_use_grows t a); try (apply grows_foldl; intros a' x).
  - by unfold grows.
  - exact (a_use_grows x a').
  - by unfold grows.
  - exact (a_use_grows x a').
  - unfold grows, a_unsubscribe. by destruct (a_types a !! _).
Qed.

Lemma inv_init : inv world_init a_init.
Proof. split_and!; [apply world_init_wf|apply world_init_packed|apply refines_init]. Qed.

(** A step that touches the ghost state of the walks only. *)
Lemma inv_frame w w' a :
  inv w a → registry w' = registry w → mEventPools w' = mEventPools w → trace w' = trace w →
  inv w' a.
Proof.
  intros (Hwf & Hp & Hr) Hreg Hps Ht.
  assert (∀ i, pool_at i w' = pool_at i w) as Hat by (intros i; unfold pool_at; by rewrite Hps).
  split_and!; [by eapply world_wf_frame| |by eapply refines_frame].
  apply (packs_frame w); [by rewrite ?Hps..| |done]. intros i. by rewrite Hat.
Qed.

(** Under [inv] the slot of a known type holds its pool, with the bindings
    and the buffer the abstract bus has for the type. *)
Lemma inv_pool i t w a :
  inv w a → at_slot i t a →
  ∃ p, pool_at i w = Some p ∧ bound (mSignal p) = a_bound a !!! t ∧
       mEventQueue p = a_queue a !!! t.
Proof.
  intros (Hwf & (Hrwf & _ & Hsome) & Hr) Hi.
  destruct (Hsome i) as [p Hp]; [eapply (proj1 Hrwf), (ref_ids _ _ Hr), Hi|].
  exists p. pose proof (ref_view _ _ Hr i t Hi) as Hv.
  rewrite (view_Some _ _ _ Hp) in Hv. by injection Hv as -> _ ->.
Qed.

(** An invocation recorded on both sides. *)
Lemma inv_log i t (b : nat * callable) event w a :
  inv w a → at_slot i t a →
  inv (log (mkDelivery i b.1 b.2 event) w) (a_log [mkADelivery t b.1 b.2 event] a).
Proof.
  intros (Hwf & Hp & Hr) Hi. split_and!.
  - by apply (world_wf_frame w).
  - by apply (packs_frame w).
  - eapply (refines_log w); [done..|]. by repeat constructor.
Qed.

(** The first use of a type on both sides. *)
Lemma inv_use t w a :
  inv w a →
  inv (EventBus.GetEventHandler t w).2 (a_use t a) ∧
  grows a (a_use t a) ∧ at_slot (EventBus.slot_of t w) t (a_use t a).
Proof.
  intros (Hwf & Hp & Hr). destruct (refines_use t w a Hwf Hr) as [Hr1 Hs].
  pose proof (proj1 (EventBus.GetEventHandler_sound t) w Hwf) as Hwf1.
  split_and!; [split_and!; [done|by apply EventBus.GetEventHandler_packs|done]| |done].
  apply a_use_grows.
Qed.

(** The buffer of a type emptied on both sides. *)
Lemma inv_clear i t w a :
  inv w a → at_slot i t a → inv (queue_clear i w) (a_set_queue t [] a).
Proof.
  intros Hinv Hi. destruct (inv_pool i t w a Hinv Hi) as (p & Hp & _).
  destruct Hinv as (Hwf & Hpk & Hr). split_and!.
  - apply (proj1 (EventPool.pool_ClearEventQueue_sound i) w Hwf).
  - by apply packs_clear.
  - pose proof (clear_at_refines i t w a Hi Hr) as Hc.
    unfold EventBus.clear_at in Hc. by rewrite Hp in Hc.
Qed.

(** The slots of the vector against the types known, position by position. *)
Lemma inv_slots w a :
  inv w a → Forall2 (λ i t, at_slot i t a) (seq 0 (length (mEventPools w))) (a_types a).
Proof.
  intros (_ & (_ & Hlen & _) & Hr). apply Forall2_same_length_lookup_2.
  - by rewrite length_seq, Hlen, (ref_len _ _ Hr).
  - intros j i t [-> _]%lookup_seq Ht. done.
Qed.

(** ** The member functions that invoke callables *)

Section invoker.
Context (call : callable → val → World → option World).
Context (acall : callable → val → ABus → option ABus).
Context (Hcall : ∀ h event, simulates inv grows (λ _, True) (call h event) (acall h event)).

Lemma emit_simulates i t event :
  simulates inv grows (at_slot i t) (EventPool.emit call i event) (ar_emit acall t event).
Proof.
  intros w a Hinv Hi. destruct (inv_pool i t w a Hinv Hi) as (p & Hp & Hb & _).
  unfold EventPool.emit, ar_emit, Invoke. rewrite Hp, Hb.
  apply (simulates_for_each_same inv grows (at_slot i t)
    (λ b w', call b.2 event (log (mkDelivery i b.1 b.2 event) w'))
    (λ b a', acall b.2 event (a_log [mkADelivery t b.1 b.2 event] a')));
    [apply at_slot_stable| |done..].
  intros b w1 a1 Hinv1 Hi1. exact (Hcall b.2 event _ _ (inv_log i t b event w1 a1 Hinv1 Hi1) I).
Qed.

(** A member function of the pool called on what [GetEventHandler<Event>()]
    returns. *)
Lemma use_simulates t (f : nat → World → option World) (g : ABus → option ABus) :
  (∀ i, simulates inv grows (at_slot i t) (f i) g) →
  simulates inv grows (λ _, True)
    (λ w, f (EventBus.GetEventHandler t w).1 (EventBus.GetEventHandler t w).2)
    (λ a, g (a_use t a)).
Proof.
  intros Hfg w a Hinv _. destruct (inv_use t w a Hinv) as (Hinv1 & Hq & Hs).
  destruct (EventBus.GetEventHandler_spec t w) as (-> & _).
  eapply option_Forall2_impl, Hfg; [|done..]. intros w' a' [? ?]. split; [done|by etrans].
Qed.

Lemma TriggerEvent_simulates t event :
  simulates inv grows (λ _, True) (EventBus.TriggerEvent call t event) (ar_trigger acall t event).
Proof.
  intros w a. rewrite EventBus.TriggerEvent_unfold.
  apply (use_simulates t (λ i, EventPool.emit call i event)). intros i. apply emit_simulates.
Qed.

(** The flush of a pool against the flush of its type. *)
Lemma pool_DispatchQueuedEvents_simulates i t :
  simulates inv grows (at_slot i t)
    (EventPool.DispatchQueuedEvents call i) (ar_flush acall t).
Proof.
  intros w a Hinv Hi. destruct (inv_pool i t w a Hinv Hi) as (p & Hp & _ & Hq).
  assert (queue_of i w = a_queue a !!! t) as Hq' by (unfold queue_of; by rewrite Hp).
  unfold EventPool.DispatchQueuedEvents, ar_flush. rewrite Hq'.
  assert (inv (begin_queue_walk i w) a) as Hinv0 by (by apply (inv_frame w)).
  destruct (simulates_for_each_same inv grows (at_slot i t) (EventPool.emit call i)
    (ar_emit acall t) (a_queue a !!! t) (at_slot_stable i t) (λ e, emit_simulates i t e)
    _ _ Hinv0 Hi) as [w1 a1 [Hinv1 Hg]|]; constructor.
  split; [|done].
  apply (inv_clear i t (end_queue_walk w1)); [by apply (inv_frame w1)|by eapply at_slot_stable].
Qed.

Lemma dispatch_slot_simulates i t :
  simulates inv grows (at_slot i t) (EventBus.dispatch_slot call i) (ar_flush acall t).
Proof.
  intros w a Hinv Hi. destruct (inv_pool i t w a Hinv Hi) as (p & Hp & _).
  rewrite EventBus.dispatch_slot_unfold. rewrite Hp. by apply pool_DispatchQueuedEvents_simulates.
Qed.

Lemma DispatchQueuedEvents_simulates :
  simulates inv grows (λ _, True) (EventBus.DispatchQueuedEvents call) (ar_dispatch acall).
Proof.
  intros w a Hinv _. unfold EventBus.DispatchQueuedEvents, ar_dispatch.
  assert (inv (begin_pools_walk w) a) as Hinv0 by (by apply (inv_frame w)).
  destruct (simulates_for_each inv grows (λ i t, at_slot i t) (EventBus.dispatch_slot call)
    (ar_flush acall) (seq 0 (length (mEventPools w))) (a_types a) _ _ at_slot_stable
    dispatch_slot_simulates Hinv0 (inv_slots w a Hinv)) as [w1 a1 [Hinv1 Hg]|]; constructor.
  split; [by apply (inv_frame w1)|done].
Qed.

Lemma dispatch_type_simulates t :
  simulates inv grows (λ _, True)
    (EventBus.dispatch_type call t) (λ a, ar_flush acall t (a_use t a)).
Proof.
  intros w a. rewrite EventBus.dispatch_type_unfold.
  apply (use_simulates t (EventPool.DispatchQueuedEvents call)). intros i.
  apply pool_DispatchQueuedEvents_simulates.
Qed.

Lemma DispatchQueuedEventsOf_simulates ts :
  simulates inv grows (λ _, True)
    (EventBus.DispatchQueuedEventsOf call ts) (ar_dispatch_of acall ts).
Proof.
  apply (simulates_for_each_same inv grows (λ _, True) (EventBus.dispatch_type call));
    [done|]. apply dispatch_type_simulates.
Qed.

(** ** The interpreter *)

(** The operations that invoke no callable are those of [Abstract]. *)
Lemma ar_exec_flat c a : invokes_nothing c = true → ar_exec acall c a = Some (a_exec c a).
Proof. by destruct c. Qed.

Lemma exec_flat_simulates c :
  invokes_nothing c = true → simulates inv grows (λ _, True) (exec call c) (ar_exec acall c).
Proof.
  intros Hc w a (Hwf & Hp & Hr) _.
  rewrite (exec_invokes_nothing call call_skip), ar_exec_flat by done.
  destruct (exec_refines_step call_skip c w a Hwf Hr) as (w' & Hrun & Hwf' & Hr').
  rewrite Hrun. constructor. split; [|apply a_exec_grows].
  split_and!; [done| |done]. by apply (exec_packs call_skip c w w').
Qed.

Lemma exec_simulates c : simulates inv grows (λ _, True) (exec call c) (ar_exec acall c).
Proof.
  destruct (invokes_nothing c) eqn:Hc; [by apply exec_flat_simulates|].
  destruct c; try discriminate; simpl.
  - apply TriggerEvent_simulates.
  - apply DispatchQueuedEvents_simulates.
  - apply DispatchQueuedEventsOf_simulates.
Qed.

Lemma run_simulates cs : simulates inv grows (λ _, True) (run call cs) (ar_run acall cs).
Proof. apply simulates_for_each_same; [apply _|done|apply exec_simulates]. Qed.

End invoker.

(** The two invokers simulate each other at every fuel. *)
Lemma call_fuel_simulates code n h event :
  simulates inv grows (λ _, True) (call_fuel code n h event) (a_call_fuel code n h event).
Proof.
  revert h event. induction n as [|n IH]; intros h event; [intros w a _ _; constructor|].
  simpl. by apply run_simulates.
Qed.

(** A main program on both sides. *)
Lemma run_main_inv code n cs w a :
  inv w a → option_Forall2 inv (run_main code n cs w) (ar_run_main code n cs a).
Proof.
  intros Hinv. eapply option_Forall2_impl,
    (run_simulates _ _ (call_fuel_simulates code n) cs w a Hinv I).
  by intros w' a' [? _].
Qed.

End simulation.

(** ** The properties at concrete inputs *)

(** The program of [Exec.requeue_main]: the callable 1, subscribed to type 0,
    enqueues an event of type 0 when invoked; an event is enqueued and two
    dispatches follow.  The abstract bus of this file loses the event as the
    implementation does: the callable is invoked once, with the event 5; the
    event 105 it enqueues during the flush is dropped when the flush ends,
    and the second dispatch finds the buffer empty. *)
Example ar_loses_reentrant_enqueue :
  (λ a : ABus nat nat nat, (a_shown <$> a_trace a, a_queue a !!! 0))
    <$> ar_run_main demo_code 1 requeue_main a_init
  = Some ([(0, 1, 5)], []).
Proof. vm_compute. reflexivity. Qed.
