(* ===== verification/Deferred.v ===== *)
(** * The flush of the specification

    The specification says of [DispatchQueuedEvents] of a pool that events
    enqueued by a callable during the flush are not delivered by that flush
    and are delivered by the next one.  [EventPool::DispatchQueuedEvents] ends
    with [ClearEventQueue()], which empties the buffer whatever it holds, so
    the code and the specification part where a callable enqueues.

    [sp_flush] is the flush of the specification on the abstract bus of
    [Abstract]: the events buffered when the flush starts are delivered, and
    when it ends they are removed from the front of the buffer; what was
    enqueued meanwhile stays.  [sp_exec] and [sp_run] interpret the commands
    of [Exec] with that flush, and [sp_call_fuel] runs the bodies of the
    callables.  The other operations are those of [Reentrant].

    The theorem ([run_main_refines_spec]): a program whose callables call the
    bus again in any way but do not enqueue, run on the implementation and
    on the abstract bus with the flush of the specification, either both
    return, in related states, or both run out of fuel.  The main program
    may enqueue.  The hypothesis is needed: [spec_keeps_reentrant_enqueue]
    is a callable that enqueues during the flush, for which the
    specification delivers the new event at the next dispatch and the
    implementation never does.

    The proof goes through [Reentrant]: the buffers of a bus only shrink
    while callables that do not enqueue run ([shrinks]), so at the end of a
    flush the buffer holds at most the events the flush started with, and
    removing those is emptying it. *)

From stdpp Require Import gmap list.
From S2P Require Import Prelude Registry Signal World Callable EventPool EventBus Exec.
From S2P Require Import Abstract Reentrant.

Section spec.
Context {ty val callable : Type} `{Countable ty}.
Abbreviation ABus := (ABus ty val callable).
Abbreviation cmd := (cmd ty val callable).
Implicit Types (a : ABus) (t : ty) (event : val) (c : cmd) (cs : list cmd).

Section ops.
Context (acall : callable → val → ABus → option ABus).

(** Flush of one type: the events buffered when the flush starts are
    delivered, oldest first, and removed; an event enqueued during the flush
    stays in the buffer. *)
Definition sp_flush t a : option ABus :=
  a' ← for_each (ar_emit acall t) (a_queue a !!! t) a;
  Some (a_set_queue t (drop (length (a_queue a !!! t)) (a_queue a' !!! t)) a').

Definition sp_dispatch a : option ABus := for_each sp_flush (a_types a) a.

Definition sp_dispatch_of (ts : list ty) a : option ABus :=
  for_each (λ t a', sp_flush t (a_use t a')) ts a.

(** One operation of the public interface. *)
Definition sp_exec c a : option ABus :=
  match c with
  | Dispatch => sp_dispatch a
  | DispatchOf ts => sp_dispatch_of ts a
  | _ => ar_exec acall c a
  end.

Definition sp_run cs : ABus → option ABus := for_each sp_exec cs.

End ops.

(** The invoker of the callables whose bodies are given by [code], with
    nested invocations at most [n - 1] deep. *)
Fixpoint sp_call_fuel (code : callable → val → list cmd) (n : nat)
    (h : callable) (event : val) (a : ABus) : option ABus :=
  match n with
  | 0 => None
  | S n' => sp_run (sp_call_fuel code n') (code h event) a
  end.

Definition sp_run_main (code : callable → val → list cmd) (n : nat) cs : ABus → option ABus :=
  sp_run (sp_call_fuel code n) cs.

(** The command enqueues an event. *)
Definition enqueues c : bool :=
  match c with
  | Enqueue _ _ => true
  | _ => false
  end.

(** No callable enqueues. *)
Definition no_enqueue (code : callable → val → list cmd) : Prop :=
  ∀ h event, forallb (λ c, negb (enqueues c)) (code h event) = true.

(** No buffer has grown. *)
Definition shrinks a a' : Prop :=
  ∀ t, length (a_queue a' !!! t) ≤ length (a_queue a !!! t).

End spec.

Section shrinks.
Context {ty val callable : Type} `{Countable ty}.
Abbreviation ABus := (ABus ty val callable).
Abbreviation cmd := (cmd ty val callable).
Implicit Types (a : ABus) (t : ty) (event : val) (c : cmd) (cs : list cmd).
Implicit Types (code : callable → val → list cmd).

#[export] Instance shrinks_preorder :
  PreOrder (shrinks (ty:=ty) (val:=val) (callable:=callable)).
Proof.
  split; [by intros a t|]. intros a1 a2 a3 H12 H23 t. etrans; [apply H23|apply H12].
Qed.

(** A step that leaves the buffers alone. *)
Lemma shrinks_frame a a' : a_queue a' = a_queue a → shrinks a a'.
Proof. intros Hq t. by rewrite Hq. Qed.

Lemma a_use_queue t a : a_queue (a_use t a) = a_queue a.
Proof. unfold a_use. by case_decide. Qed.

(** A buffer replaced by a shorter one. *)
Lemma shrinks_set_queue t (q : list val) a :
  length q ≤ length (a_queue a !!! t) → shrinks a (a_set_queue t q a).
Proof.
  intros Hq t'. simpl. destruct (decide (t = t')) as [<-|Hne].
  - by rewrite lookup_total_insert_eq.
  - by rewrite lookup_total_insert_ne.
Qed.

Lemma a_clear_type_shrinks a t : shrinks a (a_clear_type a t).
Proof. apply shrinks_set_queue. simpl. lia. Qed.

(** The operations that invoke no callable, other than enqueueing. *)
Lemma a_exec_shrinks c a : enqueues c = false → shrinks a (a_exec c a).
Proof.
  destruct c as [t e|t e| |ts| |ts|t f|connection]; intros Hc; try discriminate; simpl.
  - apply shrinks_frame. unfold a_trigger. simpl. apply a_use_queue.
  - apply (foldl_relates shrinks). intros t a' _. unfold a_flush.
    etrans; [|apply shrinks_set_queue; simpl; lia]. by apply shrinks_frame.
  - apply (foldl_relates shrinks). intros t a' _. unfold a_flush.
    etrans; [apply shrinks_frame, (a_use_queue t)|].
    etrans; [|apply shrinks_set_queue; simpl; lia]. by apply shrinks_frame.
  - apply (foldl_relates shrinks). intros t a' _. apply a_clear_type_shrinks.
  - apply (foldl_relates shrinks). intros t a' _.
    etrans; [apply shrinks_frame, (a_use_queue t)|apply a_clear_type_shrinks].
  - apply shrinks_frame. unfold a_subscribe. simpl. apply a_use_queue.
  - apply shrinks_frame. unfold a_unsubscribe. by destruct (a_types a !! _).
Qed.

(** ** The operations that invoke callables *)

Section invoker.
Context (acall : callable → val → ABus → option ABus).
Context (Hacall : ∀ h event, relates shrinks (acall h event)).

Lemma ar_emit_shrinks t event : relates shrinks (ar_emit acall t event).
Proof.
  intros a a' Hrun. eapply (for_each_relates shrinks); [|exact Hrun].
  intros b _ a1 a2 Hcall. etrans; [|by eapply Hacall]. by apply shrinks_frame.
Qed.

(** The walk of a flush. *)
Lemma ar_walk_shrinks t (q : list val) : relates shrinks (for_each (ar_emit acall t) q).
Proof. apply for_each_relates; [apply _|]. intros e _. apply ar_emit_shrinks. Qed.

Lemma ar_flush_shrinks t : relates shrinks (ar_flush acall t).
Proof.
  intros a a' Hrun. unfold ar_flush in Hrun. bind_inv Hrun. injection Hrun as <-.
  etrans; [by eapply ar_walk_shrinks|]. apply shrinks_set_queue. simpl. lia.
Qed.

Lemma ar_exec_shrinks c : enqueues c = false → relates shrinks (ar_exec acall c).
Proof.
  intros Hc. destruct (invokes_nothing c) eqn:Hflat.
  { intros a a'. rewrite ar_exec_flat by done. intros [= <-]. by apply a_exec_shrinks. }
  destruct c; try discriminate; intros a a' Hrun;
    unfold ar_exec, ar_trigger, ar_dispatch, ar_dispatch_of in Hrun.
  - etrans; [apply shrinks_frame, (a_use_queue t)|]. by eapply ar_emit_shrinks.
  - eapply (for_each_relates shrinks); [|exact Hrun]. intros t _. apply ar_flush_shrinks.
  - eapply (for_each_relates shrinks); [|exact Hrun]. intros t _ a1 a2 Hrun1.
    etrans; [apply shrinks_frame, (a_use_queue t)|]. by eapply ar_flush_shrinks.
Qed.

Lemma ar_run_shrinks cs :
  forallb (λ c, negb (enqueues c)) cs = true → relates shrinks (ar_run acall cs).
Proof.
  intros Hcs. apply for_each_relates; [apply _|]. intros c Hc.
  apply ar_exec_shrinks, negb_true_iff, (forallb_elem_of _ cs c Hcs Hc).
Qed.

End invoker.

(** Callables that do not enqueue let no buffer grow, at every fuel. *)
Lemma a_call_fuel_shrinks code n :
  no_enqueue code → ∀ h event, relates shrinks (a_call_fuel code n h event).
Proof.
  intros Hcode. induction n as [|n IH]; intros h event; [by intros a a'|].
  simpl. by apply ar_run_shrinks.
Qed.

(** ** The two flushes agree when no buffer grows *)

Section agree.
Context (acall1 acall2 : callable → val → ABus → option ABus).
Context (Hsame : ∀ h event a, acall1 h event a = acall2 h event a).
Context (Hacall : ∀ h event, relates shrinks (acall2 h event)).

Lemma ar_emit_ext t event a : ar_emit acall1 t event a = ar_emit acall2 t event a.
Proof. apply for_each_ext. intros b a' _. apply Hsame. Qed.

Lemma sp_flush_agree t a : sp_flush acall1 t a = ar_flush acall2 t a.
Proof.
  unfold sp_flush, ar_flush.
  rewrite (for_each_ext _ (ar_emit acall2 t)) by (intros e a' _; apply ar_emit_ext).
  destruct (for_each _ _ a) as [a'|] eqn:Hrun; [|done]. simpl. do 2 f_equal.
  apply drop_ge, (ar_walk_shrinks acall2 Hacall t _ a a' Hrun).
Qed.

Lemma sp_exec_agree c a : sp_exec acall1 c a = ar_exec acall2 c a.
Proof.
  destruct c as [t e|t e| |ts| |ts|t f|connection]; simpl; try done.
  - apply ar_emit_ext.
  - apply for_each_ext. intros t a' _. apply sp_flush_agree.
  - apply for_each_ext. intros t a' _. apply sp_flush_agree.
Qed.

Lemma sp_run_agree cs a : sp_run acall1 cs a = ar_run acall2 cs a.
Proof. apply for_each_ext. intros c a' _. apply sp_exec_agree. Qed.

End agree.

(** With callables that do not enqueue, the bus with the flush of the
    specification and the bus with the flush of the code are one. *)
Lemma sp_call_fuel_agree code n h event a :
  no_enqueue code → sp_call_fuel code n h event a = a_call_fuel code n h event a.
Proof.
  intros Hcode. revert h event a. induction n as [|n IH]; intros h event a; [done|].
  simpl. apply sp_run_agree; [done|]. by apply a_call_fuel_shrinks.
Qed.

Lemma sp_run_main_agree code n cs a :
  no_enqueue code → sp_run_main code n cs a = ar_run_main code n cs a.
Proof.
  intros Hcode. apply sp_run_agree.
  - intros h event a'. by apply sp_call_fuel_agree.
  - by apply a_call_fuel_shrinks.
Qed.

End shrinks.

(** ** The refinement theorem *)

Section refinement.
Context {ty val callable sig : Type} `{Countable ty} `{!SignalOps callable sig}.
Abbreviation World := (World ty val callable sig).
Abbreviation ABus := (ABus ty val callable).
Abbreviation cmd := (cmd ty val callable).
Implicit Types (w : World) (a : ABus) (cs : list cmd) (code : callable → val → list cmd).

(** C12: the implementation refines the specification for callables that
    call the bus again in any way, to any depth, but do not enqueue.  From
    a world and an abstract bus related by [inv], a main program run on the
    implementation and on the abstract bus, whose flush keeps the events
    enqueued while it runs, with the same fuel, either both return, in
    states related by [inv] (the same bindings and buffers for every event
    type, the same invocations in the same order, the world well formed and
    its pools packed), or both run out of fuel. *)
Theorem run_main_refines_spec code n cs w a :
  no_enqueue code → inv w a →
  option_Forall2 inv (run_main code n cs w) (sp_run_main code n cs a).
Proof. intros Hcode Hinv. rewrite sp_run_main_agree by done. by apply run_main_inv. Qed.

End refinement.

(** ** The properties at concrete inputs

    Event types, events and callables are numbers; the signal is the list
    implementation.  The callable 2 triggers the event it receives for type 1
    and subscribes the callable 7 to type 1; the other callables do not call
    the bus. *)

Definition echo_code (h : nat) (event : nat) : list (cmd nat nat nat) :=
  match h with
  | 2 => [Trigger 1 event; Subscribe 1 7]
  | _ => []
  end.

Definition echo_main : list (cmd nat nat nat) :=
  [Subscribe 0 2; Subscribe 1 7; Enqueue 0 3; Enqueue 0 4; Dispatch; Dispatch].

Lemma echo_no_enqueue : no_enqueue echo_code.
Proof. intros [|[|[|h]]] event; reflexivity. Qed.

Lemma run_main_refines_spec_witness :
  option_Forall2 inv
    (run_main echo_code 2 echo_main (world_init (sig:=Signal nat)))
    (sp_run_main echo_code 2 echo_main a_init).
Proof.
  exact (run_main_refines_spec echo_code 2 echo_main world_init a_init echo_no_enqueue inv_init).
Defined.

(** The run of the witness returns: the flush delivers 3 and 4 to the
    callable 2, whose trigger reaches the callable 7 once for the first event
    and twice, through the bindings of serial 0 and 1, for the second.  An
    invocation is shown by the serial of the binding, the callable and the
    event. *)
Example echo_run :
  (λ a : ABus nat nat nat, (a_shown <$> a_trace a, a_queue a !!! 0))
    <$> sp_run_main echo_code 2 echo_main a_init
  = Some ([(0, 2, 3); (0, 7, 3); (0, 2, 4); (0, 7, 4); (1, 7, 4)], []).
Proof. vm_compute. reflexivity. Qed.

(** The hypothesis of the theorem is needed.  In [Exec.requeue_main] the
    callable 1, subscribed to type 0, enqueues the event it receives, plus
    100, and two dispatches follow the enqueueing of the event 5.  With the
    flush of the specification the callable is invoked with 5 by the first
    dispatch and with 105 by the second, and 205 is left in the buffer; the
    implementation invokes it with 5 only and leaves the buffer empty. *)
Example spec_keeps_reentrant_enqueue :
  (λ a : ABus nat nat nat, (a_shown <$> a_trace a, a_queue a !!! 0))
    <$> sp_run_main demo_code 1 requeue_main a_init
  = Some ([(0, 1, 5); (0, 1, 105)], [205]) ∧
  (λ w : World.World nat nat nat (Signal nat), (shown <$> trace w, queue_of 0 w))
    <$> run_main demo_code 1 requeue_main world_init
  = Some ([(0, 1, 5)], []).
Proof. split; vm_compute; reflexivity. Qed.
