(* ===== verification/Scenarios.v ===== *)
(** * Programs run on the model

    The scenario of the specification and the behaviours of the header that
    only show when callables call the bus again, as closed programs run by the
    interpreter of [Exec] from the initial world, or from [shared], where an
    identifier was issued before the bus saw any type.  Event types, events
    and callables are numbers; the signal is the list implementation.  Every
    statement is decided by evaluation. *)

From stdpp Require Import gmap list.
From S2P Require Import Prelude Registry Signal World Callable EventPool EventBus Exec.

Module Scenarios.

Abbreviation W := (World.World nat nat nat (Signal nat)).

(** The event type [Damage] of the scenario, and a second type. *)
Definition Damage : nat := 0.
Definition Heal : nat := 1.

(** The bodies of the callables:
    - 1 enqueues a [Damage] event (the amount it received plus 100);
    - 2 triggers a [Heal] event with the amount it received;
    - 3 enqueues an event of a type that has no pool yet;
    - 4 unsubscribes the connection of the first binding for [Damage];
    - 5 enqueues a [Heal] event, 6 a [Damage] event (the amount plus 1);
    - the others (the callable [f] of the scenario is 7) do not call the bus. *)
Definition code (h : nat) (event : nat) : list (cmd nat nat nat) :=
  match h with
  | 1 => [Enqueue Damage (event + 100)]
  | 2 => [Trigger Heal event]
  | 3 => [Enqueue 9 event]
  | 4 => [Unsubscribe (mkConnection 0 0)]
  | 5 => [Enqueue Heal (event + 1)]
  | 6 => [Enqueue Damage (event + 1)]
  | _ => []
  end.

(** What is observed of a run: the events the callables were invoked with, as
    pairs of callable and event, in order; the buffers; the hazard flag. *)
Definition invoked (w : W) : list (nat * nat) := (λ d, (d_callable d, d_event d)) <$> trace w.

Definition buffers (w : W) : list (option (list nat)) :=
  (λ p : option (EventPool nat nat (Signal nat)), mEventQueue <$> p) <$> mEventPools w.

Definition observe (o : option W) : option (list (nat * nat) * list (option (list nat)) * bool) :=
  (λ w, (invoked w, buffers w, hazard w)) <$> o.

Definition start : W := world_init.

(** The scenario of the specification.  With [f] subscribed to [Damage],
    [TriggerEvent<Damage>(10)] calls [f] once with 10; after
    [EnqueueEvent<Damage>(5)] and [EnqueueEvent<Damage>(7)],
    [DispatchQueuedEvents()] calls [f] with 5, then with 7, and the buffer is
    empty afterwards. *)
Example scenario_damage :
  observe (run_main code 1 [Subscribe Damage 7; Trigger Damage 10] start)
  = Some ([(7, 10)], [Some []], false) ∧
  observe (run_main code 1
    [Subscribe Damage 7; Trigger Damage 10; Enqueue Damage 5; Enqueue Damage 7] start)
  = Some ([(7, 10)], [Some [5; 7]], false) ∧
  observe (run_main code 1
    [Subscribe Damage 7; Trigger Damage 10; Enqueue Damage 5; Enqueue Damage 7; Dispatch] start)
  = Some ([(7, 10); (7, 5); (7, 7)], [Some []], false).
Proof. split_and!; vm_compute; reflexivity. Qed.

(** An event enqueued by a callable during the flush of its own type is
    never delivered.  Callable 1 enqueues event 105 while the flush delivers
    event 5; the flush clears the buffer when its loop ends, so the second
    flush finds nothing.  The [push_back] happens while the range-based [for]
    walks the buffer: the iterators of the walk are invalidated. *)
Example reentrant_enqueue_is_lost :
  observe (run_main code 1 [Subscribe Damage 1; Enqueue Damage 5; Dispatch] start)
  = Some ([(1, 5)], [Some []], true) ∧
  observe (run_main code 1 [Subscribe Damage 1; Enqueue Damage 5; Dispatch; Dispatch] start)
  = Some ([(1, 5)], [Some []], true).
Proof. split_and!; vm_compute; reflexivity. Qed.

(** An event enqueued by a callable during a trigger is kept: outside a flush
    the buffer is not walked, the event is delivered by the next flush and no
    iterator is invalidated. *)
Example enqueue_from_trigger_is_kept :
  observe (run_main code 1 [Subscribe Damage 1; Trigger Damage 5] start)
  = Some ([(1, 5)], [Some [105]], false) ∧
  observe (run_main code 1 [Subscribe Damage 7; Subscribe Damage 1; Trigger Damage 5;
                            Unsubscribe (mkConnection 0 1); Dispatch] start)
  = Some ([(7, 5); (1, 5); (7, 105)], [Some []], false).
Proof. split_and!; vm_compute; reflexivity. Qed.

(** Nested triggers run to completion.  Callable 2, bound for [Damage]
    before callable 7, triggers a [Heal] event: the callable bound for [Heal]
    is invoked before the remaining callable of [Damage]. *)
Example nested_trigger_order :
  observe (run_main code 2
    [Subscribe Damage 2; Subscribe Damage 7; Subscribe Heal 8; Trigger Damage 3] start)
  = Some ([(2, 3); (8, 3); (7, 3)], [Some []; Some []], false) ∧
  observe (run_main code 1
    [Subscribe Damage 2; Subscribe Damage 7; Subscribe Heal 8; Trigger Damage 3] start)
  = None.
Proof. split_and!; vm_compute; reflexivity. Qed.

(** A callable that uses a new event type during [DispatchQueuedEvents()]
    makes [GetEventHandler] resize the vector of pools while the range-based
    [for] walks it: the iterators of the walk are invalidated.  The same
    callable invoked by a trigger is harmless. *)
Example new_type_during_dispatch :
  observe (run_main code 1 [Subscribe Damage 3; Enqueue Damage 5; Dispatch] start)
  = Some ([(3, 5)], [Some []; Some [5]], true) ∧
  observe (run_main code 1 [Subscribe Damage 3; Trigger Damage 5] start)
  = Some ([(3, 5)], [Some []; Some [5]], false).
Proof. split_and!; vm_compute; reflexivity. Qed.

(** A callable that unsubscribes during an invocation.  Callable 4 revokes
    the first binding for [Damage], its own.  What the invocation in progress
    does then is decided by signal.hpp, which the model takes from the
    specification: it still reaches the callables bound when it started.
    Later invocations do not reach the revoked one. *)
Example unsubscribe_during_invocation :
  observe (run_main code 1
    [Subscribe Damage 4; Subscribe Damage 7; Trigger Damage 5; Trigger Damage 6] start)
  = Some ([(4, 5); (7, 5); (7, 6)], [Some []], false).
Proof. vm_compute; reflexivity. Qed.

(** Selective flush and selective clear.  With events buffered for two
    types, [DispatchQueuedEvents<Heal>()] delivers the [Heal] event and leaves
    the [Damage] buffer as it is; [ClearEventQueues<Damage>()] then drops the
    [Damage] event.  [DispatchQueuedEvents<T>()] for a type never used
    creates its pool. *)
Example selective_flush_and_clear :
  observe (run_main code 1 [Subscribe Damage 7; Subscribe Heal 8; Enqueue Damage 5;
                            Enqueue Heal 6; DispatchOf [Heal]] start)
  = Some ([(8, 6)], [Some [5]; Some []], false) ∧
  observe (run_main code 1 [Subscribe Damage 7; Subscribe Heal 8; Enqueue Damage 5;
                            Enqueue Heal 6; DispatchOf [Heal]; ClearOf [Damage]; Dispatch] start)
  = Some ([(8, 6)], [Some []; Some []], false) ∧
  observe (run_main code 1 [DispatchOf [Heal]] start)
  = Some ([], [Some []], false).
Proof. split_and!; vm_compute; reflexivity. Qed.

(** An event enqueued during [DispatchQueuedEvents()] for another type than
    the one being flushed is delivered in the same pass when the pool of its
    type comes later in [mEventPools], and stays buffered until the next pass
    when it comes earlier.  Callable 5, bound for [Damage] (slot 0), enqueues
    a [Heal] event (slot 1): callable 7 receives it in the same pass.
    Callable 6, bound for [Heal], enqueues a [Damage] event: it is still
    buffered when the pass is over. *)
Example enqueue_other_type_during_dispatch :
  observe (run_main code 1
    [Subscribe Damage 5; Subscribe Heal 7; Enqueue Damage 1; Dispatch] start)
  = Some ([(5, 1); (7, 2)], [Some []; Some []], false) ∧
  observe (run_main code 1
    [Subscribe Damage 7; Subscribe Heal 6; Enqueue Heal 1; Dispatch] start)
  = Some ([(6, 1)], [Some [2]; Some []], false).
Proof. split_and!; vm_compute; reflexivity. Qed.

(** The counter of [GetUniqueEventId] is shared by the whole program.  In
    [shared], an identifier was issued for [Heal] before this bus first saw a
    type, by another bus or by a direct call of [GetEventId<Heal>()]; this bus
    then uses [Damage] first, and [Heal] second. *)
Definition shared : W := set_registry (GetEventId Heal registry_init).2 world_init.

(** With identifiers issued outside the bus the slots are not packed and
    the flush follows the identifiers, not the creation of the pools.  After
    the first use of [Damage] in [shared], slot 0 is null and the pool of
    [Damage] is in slot 1: the check [if (eventHandler)] of the loop is what
    skips slot 0.  The pool of [Heal], created second, is flushed first. *)
Example flush_order_is_id_order :
  observe (run_main code 1 [Subscribe Damage 7] shared) = Some ([], [None; Some []], false) ∧
  observe (run_main code 1 [Subscribe Damage 7; Dispatch] shared)
  = Some ([], [None; Some []], false) ∧
  observe (run_main code 1
    [Subscribe Damage 7; Subscribe Heal 8; Enqueue Damage 1; Enqueue Heal 2; Dispatch] shared)
  = Some ([(8, 2); (7, 1)], [Some []; Some []], false).
Proof. split_and!; vm_compute; reflexivity. Qed.

End Scenarios.
